(** * hhoppe_tools: N-dimensional array construction and composition

    A shallow embedding of the array routines of [hhoppe_tools/__init__.py]
    ([_fit_shape], [pad_array], [bounding_slices], [bounding_crop],
    [grid_from_indices], [assemble_arrays], [shift]) together with the numpy
    primitives they call, of its number and search routines
    ([prime_factors], [discrete_binary_search], [boyer_subsequence_find])
    and of the class [UnionFind], and the properties of the design document
    that hold (or fail) on them.

    Conventions.
    - Python integers are modelled by [Z].  The entries of numpy's integer
      arrays ([int64]) are modelled by the integers of [Z] from -2^63 to
      2^63 - 1, and numpy's arithmetic on them by the exact operation
      reduced into that range ([wrap64]); the Python integers of a caller
      that become entries of such an array (coordinates, bounds, pads,
      spacings) are taken in that range, and the properties that depend on
      it say so.  Array extents and positions inside an allocated array
      are modelled by [nat].
    - A raised exception is a value [Raise e] of the [result] monad.
    - A [while] loop whose end is not plain from its shape takes a bound
      [fuel] on its rounds, and [None] is a loop that has not ended within
      the bound. *)

From Stdlib Require Import Sorted.
From stdpp Require Import base numbers list option strings gmap.

Set Default Proof Using "Type*".
Local Open Scope Z_scope.

(** ** Exceptions and the result monad *)

Inductive exn : Type :=
  | ValueError (msg : string)
  | TypeError (msg : string)
  | AssertionError
  | IndexError
  | ZeroDivisionError
  | ConversionError.

Inductive result (A : Type) : Type :=
  | Ok (a : A)
  | Raise (e : exn).
Arguments Ok {A} a.
Arguments Raise {A} e.

#[global] Instance result_ret : MRet result := λ A, Ok.
#[global] Instance result_bind : MBind result :=
  λ A B f m, match m with Ok a => f a | Raise e => Raise e end.
#[global] Instance result_fmap : FMap result :=
  λ A B f m, match m with Ok a => Ok (f a) | Raise e => Raise e end.

(** [if not b: raise e] *)
Definition require (b : bool) (e : exn) : result unit :=
  if b then Ok () else Raise e.

(** Monadic map over a list, left to right (a generator that may raise). *)
Fixpoint traverse {A B : Type} (f : A → result B) (l : list A) : result (list B) :=
  match l with
  | [] => Ok []
  | x :: l' => y ← f x; ys ← traverse f l'; Ok (y :: ys)
  end.

Definition is_ok {A : Type} (r : result A) : bool :=
  match r with Ok _ => true | Raise _ => false end.

(** ** Python arithmetic *)

(** [math.prod] *)
Definition math_prod (l : list Z) : Z := foldr Z.mul 1 l.

(** builtin [sum] *)
Definition py_sum (l : list Z) : Z := foldr Z.add 0 l.

(** [a // b] on Python integers: floor division, [ZeroDivisionError] on a
    zero divisor. *)
Definition floordiv (a b : Z) : result Z :=
  if decide (b = 0) then Raise ZeroDivisionError else Ok (a `div` b).

(** ** numpy's 64-bit integers

    The result of an operation on [int64] values is the exact result
    reduced modulo 2^64 into the range from -2^63 to 2^63 - 1. *)

Definition wrap64 (z : Z) : Z := (z + 2 ^ 63) `mod` 2 ^ 64 - 2 ^ 63.

Definition add64 (x y : Z) : Z := wrap64 (x + y).
Definition sub64 (x y : Z) : Z := wrap64 (x - y).
Definition mul64 (x y : Z) : Z := wrap64 (x * y).
Definition neg64 (x : Z) : Z := wrap64 (- x).

(** [a.sum()] of an [int64] array *)
Definition np_sum (l : list Z) : Z := foldl add64 0 l.

Example wrap64_overflow :
  add64 (2 ^ 63 - 1) 1 = - 2 ^ 63 ∧ neg64 (- 2 ^ 63) = - 2 ^ 63
  ∧ mul64 (2 ^ 63 - 1) 2 = -2.
Proof. split_and!; reflexivity. Qed.

(** ** [_fit_shape] (source lines 1797-1835) *)

Definition _fit_shape (shape : list Z) (num : Z) : result (list Z) :=
  if negb (forallb (λ dim, bool_decide (dim > 0))
             (filter (λ dim, dim ≠ -1) shape)) then
    Raise (ValueError "Shape has non-positive dimensions.")
  else if bool_decide
            (py_sum ((λ dim, Z.b2z (bool_decide (dim = -1))) <$> shape) > 1) then
    Raise (ValueError "More than one dimension in shape is -1.")
  else if bool_decide ((-1) ∈ shape) then
    let slice_size := math_prod (filter (λ dim, dim ≠ -1) shape) in
    traverse (λ dim, if bool_decide (dim = -1)
                     then floordiv (num + slice_size - 1) slice_size
                     else Ok dim) shape
  else if bool_decide (math_prod shape < num) then
    Raise (ValueError "shape is insufficiently large for num elements.")
  else Ok shape.

(** The doctests of [_fit_shape]. *)
Example _fit_shape_doctest1 : _fit_shape [3; 4] 10 = Ok [3; 4].
Proof. reflexivity. Qed.
Example _fit_shape_doctest2 :
  _fit_shape [5; 2] 11 =
  Raise (ValueError "shape is insufficiently large for num elements.").
Proof. reflexivity. Qed.
Example _fit_shape_doctest3 : _fit_shape [3; -1] 10 = Ok [3; 4].
Proof. reflexivity. Qed.
Example _fit_shape_doctest4 : _fit_shape [-1; 10] 51 = Ok [6; 10].
Proof. reflexivity. Qed.

(** ** N-dimensional arrays

    An array is its shape and its flat buffer in C (row-major) order, the
    layout every numpy call of the source produces. *)

Local Close Scope Z_scope.

Record ndarray (A : Type) : Type := NdArray { shape : list nat; data : list A }.
Arguments NdArray {A} shape data.
Arguments shape {A} _.
Arguments data {A} _.

#[global] Instance ndarray_inhabited {A : Type} : Inhabited (ndarray A) :=
  populate (NdArray [] []).

(** [a.shape] where a local variable of the source is called [shape]. *)
Notation shape_of := shape (only parsing).

Definition ndim {A : Type} (a : ndarray A) : nat := length (shape a).

(** Number of elements of an array of shape [sh]. *)
Definition size (sh : list nat) : nat := foldr Nat.mul 1 sh.

(** The buffer holds exactly the elements of the shape. *)
Definition wf {A : Type} (a : ndarray A) : Prop := length (data a) = size (shape a).

(** [np.ndindex] over the shape [sh]: every index of the shape, in C order. *)
Fixpoint ndindex (sh : list nat) : list (list nat) :=
  match sh with
  | [] => [[]]
  | n :: sh' => seq 0 n ≫= λ i, (i ::.) <$> ndindex sh'
  end.

(** [np.ravel_multi_index(idx, sh)]: flat position of an index. *)
Fixpoint ravel (sh idx : list nat) : nat :=
  match sh, idx with
  | _ :: sh', i :: idx' => i * size sh' + ravel sh' idx'
  | _, _ => 0
  end.

(** [idx] is an index of an array of shape [sh]. *)
Definition in_bounds (sh idx : list nat) : Prop := Forall2 lt idx sh.

#[global] Instance in_bounds_dec : RelDecision in_bounds.
Proof. intros sh idx. unfold in_bounds. apply _. Defined.

(** [a[idx]] for a full index: [None] outside the shape. *)
#[global] Instance ndarray_lookup {A : Type} : Lookup (list nat) A (ndarray A) :=
  λ idx a, if decide (in_bounds (shape a) idx)
           then data a !! ravel (shape a) idx else None.

(** The same read where the index is known to be inside the shape. *)
#[global] Instance ndarray_lookup_total {A : Type} `{Inhabited A} :
  LookupTotal (list nat) A (ndarray A) :=
  λ idx a, data a !!! ravel (shape a) idx.

(** The array of shape [sh] whose element at [idx] is [f idx]. *)
Definition fromfunction {A : Type} (sh : list nat) (f : list nat → A) : ndarray A :=
  NdArray sh (f <$> ndindex sh).

(** *** Broadcasting *)

(** numpy's rule: shapes are aligned at their last axis; an axis of the
    source either has the extent of the target axis or extent one. *)
Definition broadcastable (src dst : list nat) : Prop :=
  Forall2 (λ n m, n = m ∨ n = 1) src (drop (length dst - length src) dst).

#[global] Instance broadcastable_dec : RelDecision broadcastable.
Proof. intros src dst. unfold broadcastable. apply _. Defined.

(** The index of the source element that position [idx] of the broadcast
    array shows. *)
Definition broadcast_index (src idx : list nat) : list nat :=
  zip_with (λ n i, if decide (n = 1) then 0 else i)
    src (drop (length idx - length src) idx).

(** [np.broadcast_to(a, sh)] *)
Definition np_broadcast_to {A : Type} `{Inhabited A}
    (a : ndarray A) (sh : list nat) : result (ndarray A) :=
  if decide (broadcastable (shape a) sh)
  then Ok (fromfunction sh (λ idx, a !!! broadcast_index (shape a) idx))
  else Raise (ValueError "operands could not be broadcast together").

(** The common shape of two operands, on reversed shapes. *)
Fixpoint broadcast_rev (s1 s2 : list nat) : option (list nat) :=
  match s1, s2 with
  | [], s | s, [] => Some s
  | n :: s1', m :: s2' =>
      r ← broadcast_rev s1' s2';
      if decide (n = m) then Some (n :: r)
      else if decide (n = 1) then Some (m :: r)
      else if decide (m = 1) then Some (n :: r)
      else None
  end.

(** [np.broadcast_shapes(s1, s2)] *)
Definition broadcast_shapes (s1 s2 : list nat) : result (list nat) :=
  match broadcast_rev (reverse s1) (reverse s2) with
  | Some r => Ok (reverse r)
  | None => Raise (ValueError "shape mismatch: objects cannot be broadcast")
  end.

(** *** Python slices and integer indices *)

(** [slice(start, stop).indices(n)]: negative bounds count from the end, and
    both are clamped to [0, n]. *)
Definition slice_indices (sl : Z * Z) (n : nat) : nat * nat :=
  let clamp (x : Z) : Z :=
    if decide (x < 0)%Z then Z.max (x + Z.of_nat n) 0 else Z.min x (Z.of_nat n) in
  (Z.to_nat (clamp sl.1), Z.to_nat (clamp sl.2)).

(** An integer index on an axis of extent [n]: negative values count from
    the end; [IndexError] outside [-n, n). *)
Definition normalize_index (i : Z) (n : nat) : result nat :=
  if decide (0 ≤ i < Z.of_nat n)%Z then Ok (Z.to_nat i)
  else if decide (- Z.of_nat n ≤ i < 0)%Z then Ok (Z.to_nat (i + Z.of_nat n))
  else Raise IndexError.

(** First positions and extents of the region of [sh] that the basic index
    [slices] selects; axes beyond the slices are taken whole. *)
Definition region_starts (sh : list nat) (slices : list (Z * Z)) : list nat :=
  zip_with (λ sl n, (slice_indices sl n).1) slices sh
  ++ replicate (length sh - length slices) 0.

Definition region_shape (sh : list nat) (slices : list (Z * Z)) : list nat :=
  zip_with (λ sl n, (slice_indices sl n).2 - (slice_indices sl n).1) slices sh
  ++ drop (length slices) sh.

(** [idx] lies in the box with first corner [starts] and extents [ext]. *)
Definition in_box (starts ext idx : list nat) : Prop :=
  Forall2 (λ i se, se.1 ≤ i < se.1 + se.2) idx (zip starts ext).

#[global] Instance in_box_dec starts ext idx : Decision (in_box starts ext idx).
Proof. unfold in_box. apply _. Defined.

(** [a[slices]] for a tuple of unit-step slices. *)
Definition getitem_slices {A : Type} `{Inhabited A}
    (a : ndarray A) (slices : list (Z * Z)) : result (ndarray A) :=
  if decide (length slices ≤ ndim a) then
    let starts := region_starts (shape a) slices in
    Ok (fromfunction (region_shape (shape a) slices)
          (λ idx, a !!! zip_with Nat.add starts idx))
  else Raise IndexError.

(** *** Reductions *)

(** Truth value of an element ([bool(x)]), as [any] and [nonzero] test it. *)
Class Truthy (A : Type) := truthy : A → bool.
#[global] Instance bool_truthy : Truthy bool := id.
#[global] Instance Z_truthy : Truthy Z := λ x, bool_decide (x ≠ 0%Z).

(** The entries of [l] at the positions [keep]. *)
Definition select (keep : list nat) (l : list nat) : list nat :=
  (λ k, l !!! k) <$> keep.

(** [a.any(axis=axes)]: logical or over the axes [axes]; the result keeps
    the other axes in order. *)
Definition np_any {A : Type} `{Inhabited A} `{Truthy A}
    (a : ndarray A) (axes : list nat) : ndarray bool :=
  let keep := filter (λ k, k ∉ axes) (seq 0 (ndim a)) in
  fromfunction (select keep (shape a))
    (λ j, existsb (λ idx, bool_decide (select keep idx = j) && truthy (a !!! idx))
            (ndindex (shape a))).

(** [np.atleast_1d(a)] *)
Definition atleast_1d {A : Type} (a : ndarray A) : ndarray A :=
  if decide (ndim a = 0) then NdArray [1] (data a) else a.

(** [(indices,) = line.nonzero()] for a one-dimensional [line]. *)
Definition nonzero {A : Type} `{Truthy A} (line : ndarray A) : list nat :=
  (imap (λ j x, (j, x)) (data line)) ≫= λ p, if truthy p.2 then [p.1] else [].

(** [indices[i]] for an integer array [indices] and a Python integer [i]. *)
Definition take_index (indices : list nat) (i : Z) : result nat :=
  k ← normalize_index i (length indices);
  match indices !! k with Some v => Ok v | None => Raise IndexError end.

(** ** Element types

    numpy arrays carry an element type ([dtype]) and convert what is
    written into them.  The development is parametric in the dtypes, the
    element values and the conversion. *)

Class ElemDomain : Type := {
  (** element types ([np.dtype]) *)
  dtype : Type;
  dtype_eq_dec :: EqDecision dtype;
  (** element values *)
  elem : Type;
  elem_eq_dec :: EqDecision elem;
  elem_inhabited :: Inhabited elem;
  elem_truthy :: Truthy elem;
  (** [x != y] as numpy compares two elements.  It is not the inequality
      of the values for every element type: a float NaN differs from
      itself, and the floats 0.0 and -0.0 do not differ. *)
  elem_ne : elem → elem → bool;
  (** [astype d x]: the value stored when [x] is written into an array of
      element type [d]; [None] when numpy refuses the conversion. *)
  astype : dtype → elem → option elem;
  (** element type and value of a Python integer literal *)
  int_ : dtype;
  of_int : Z → elem;
}.

(** A numpy array: element type, shape and buffer. *)
Record nparray `{ElemDomain} : Type :=
  NpArray { np_dtype : dtype; np_arr :> ndarray elem }.
Arguments NpArray {_} np_dtype np_arr.

Section numpy.
Context `{ElemDomain}.

(** [np.asarray(x)] for a scalar [x] of element type [d]. *)
Definition scalar (d : dtype) (x : elem) : nparray := NpArray d (NdArray [] [x]).

Definition cast (d : dtype) (x : elem) : result elem :=
  match astype d x with Some y => Ok y | None => Raise ConversionError end.

(** The elements of [v] as an array of element type [d] stores them: copied
    when [v] has that element type, converted one by one otherwise. *)
Definition convert (d : dtype) (v : nparray) : result (ndarray elem) :=
  if decide (np_dtype v = d) then Ok (np_arr v)
  else dat ← traverse (cast d) (data v); Ok (NdArray (shape v) dat).

(** A tuple of Python integers as an array shape. *)
Definition to_shape (dims : list Z) : result (list nat) :=
  if decide (Forall (λ n, 0 ≤ n)%Z dims) then Ok (Z.to_nat <$> dims)
  else Raise (ValueError "negative dimensions are not allowed").

(** [np.full(sh, fill, d)] *)
Definition np_full (sh : list Z) (fill : nparray) (d : dtype) : result nparray :=
  sh ← to_shape sh;
  b ← np_broadcast_to fill sh;
  c ← convert d (NpArray (np_dtype fill) b);
  Ok (NpArray d c).

(** [out[slices] = arr] for a tuple of unit-step slices: [arr] is broadcast
    to the selected region and converted to the element type of [out]. *)
Definition setitem_slices (out : nparray) (slices : list (Z * Z)) (arr : nparray)
    : result nparray :=
  if decide (length slices ≤ ndim out) then
    let starts := region_starts (shape out) slices in
    let ext := region_shape (shape out) slices in
    b ← np_broadcast_to arr ext;
    c ← convert (np_dtype out) (NpArray (np_dtype arr) b);
    Ok (NpArray (np_dtype out)
          (fromfunction (shape out)
             (λ idx, if decide (in_box starts ext idx)
                     then c !!! zip_with Nat.sub idx starts
                     else np_arr out !!! idx)))
  else Raise IndexError.

(** [a != v], elementwise on the broadcast operands. *)
Definition np_not_equal (a v : nparray) : result (ndarray bool) :=
  sh ← broadcast_shapes (shape a) (shape v);
  Ok (fromfunction sh
        (λ idx, elem_ne (np_arr a !!! broadcast_index (shape a) idx)
                        (np_arr v !!! broadcast_index (shape v) idx))).

(** [numpy.core.numeric.normalize_axis_tuple]: axes may count from the end
    and may not repeat. *)
Definition normalize_axes (axes : list Z) (nd : nat) : result (list nat) :=
  l ← traverse (λ ax, normalize_index ax nd) axes;
  if decide (NoDup l) then Ok l else Raise (ValueError "repeated axis").

(** *** [np.pad(array, pad_width, constant_values=...)]

    [_as_pairs] of [numpy/lib/arraypad.py]: one pair stands for every axis;
    otherwise there is one pair per axis.  For the widths the minimum over
    all entries is taken to reject negative ones, which fails on an empty
    list of widths. *)
Definition as_pairs {X : Type} (x : list (X * X)) (nd : nat) : result (list (X * X)) :=
  match x with
  | [p] => Ok (replicate nd p)
  | _ => if decide (length x = nd) then Ok x
         else Raise (ValueError "operands could not be broadcast together")
  end.

Definition as_index_pairs (x : list (Z * Z)) (nd : nat) : result (list (nat * nat)) :=
  match x with
  | [] => Raise (ValueError "zero-size array to reduction operation minimum")
  | _ =>
      if decide (Forall (λ w, 0 ≤ w.1 ∧ 0 ≤ w.2)%Z x) then
        as_pairs x nd ≫= λ l : list (Z * Z),
          Ok ((λ w : Z * Z, (Z.to_nat w.1, Z.to_nat w.2)) <$> l)
      else Raise (ValueError "index can't contain negative values")
  end.

(** The last axis on which [idx] lies outside the original area, which
    starts at [before] and has shape [sh]. *)
Definition outside_axis (before sh idx : list nat) : option nat :=
  last (filter (λ k, ¬ (before !!! k ≤ idx !!! k < before !!! k + sh !!! k))
          (seq 0 (length sh))).

(** The pad areas are written axis by axis; the area of axis [k] covers the
    positions outside the original area on axis [k] and inside it on every
    later axis (so that an element of the border gets the value of the last
    axis on which it is outside).  [lower] tells the area before the
    original one from the area after it. *)
Definition pad_area (new_shape sh : list nat) (k width : nat) : list nat :=
  take k new_shape ++ [width] ++ drop (S k) sh.

Definition pad_area_index (before sh idx : list nat) (k : nat) : list nat :=
  imap (λ j i, if decide (j < k) then i
               else if decide (j = k) then
                 (if decide (i < before !!! k) then i else i - (before !!! k + sh !!! k))
               else i - before !!! j) idx.

Definition np_pad (array : nparray) (pad_width : list (Z * Z))
    (constant_values : list (nparray * nparray)) : result nparray :=
  widths ← as_index_pairs pad_width (ndim array);
  let before := widths.*1 in
  let new_shape :=
    zip_with (λ (w : nat * nat) n, w.1 + n + w.2) widths (shape array) in
  values ← as_pairs constant_values (ndim array);
  areas ← traverse
    (λ '(k, (w, v)),
       let fill (width : nat) (value : nparray) :=
         b ← np_broadcast_to value (pad_area new_shape (shape array) k width);
         convert (np_dtype array) (NpArray (np_dtype value) b) in
       lo ← fill (w : nat * nat).1 (v : nparray * nparray).1;
       hi ← fill w.2 v.2;
       Ok (lo, hi))
    (zip (seq 0 (ndim array)) (zip widths values));
  Ok (NpArray (np_dtype array)
        (fromfunction new_shape
           (λ idx,
              match outside_axis before (shape array) idx with
              | None => np_arr array !!! zip_with Nat.sub idx before
              | Some k =>
                  let area := areas !!! k in
                  let src := if decide (idx !!! k < before !!! k)
                             then area.1 else area.2 in
                  src !!! pad_area_index before (shape array) idx k
              end))).

End numpy.

(** ** [pad_array] (source lines 1414-1479) *)

(** The [pad] argument: a scalar, or a sequence of (before, after) pairs.

    [np.asarray(pad)] is an integer array of shape (k, 2) for a sequence of
    k >= 1 pairs, and for the scalar broadcast to [array.ndim - value.ndim]
    rows also when there is no row.  For the empty sequence it is a
    one-dimensional array of floats without elements, which passes the
    shape check with [len(pad) = 0] and then fits neither call: when the
    array has an axis, [np.concatenate] refuses to join it to the rows
    [[0, 0]] ([ValueError]); when the array has rank 0, [np.pad] refuses
    widths that are not integers ([TypeError]). *)
Inductive pad_spec : Type :=
  | PadScalar (p : Z)
  | PadPairs (l : list (Z * Z)).

Section source.
Context `{ElemDomain}.

Definition pad_array (array : nparray) (pad : pad_spec) (value : nparray)
    : result nparray :=
  rows ← match pad with
         | PadScalar p =>
             (* np.broadcast_to(pad, (array.ndim - value.ndim, 2)) *)
             if decide (ndim value ≤ ndim array)
             then Ok (replicate (ndim array - ndim value) (p, p))
             else Raise (ValueError "negative dimensions are not allowed")
         | PadPairs l => Ok l
         end;
  require (bool_decide (shape value = drop (length rows) (shape array)))
    AssertionError;;
  let zero := scalar int_ (of_int 0) in
  let cval := replicate (length rows) (value, value)
              ++ replicate (ndim array - length rows) (zero, zero) in
  match pad with
  | PadPairs [] =>
      if decide (0 < ndim array)
      then Raise (ValueError
                    "all the input arrays must have same number of dimensions")
      else Raise (TypeError "`pad_width` must be of integral type.")
  | _ =>
      let rows := if decide (length rows < ndim array)
                  then rows ++ replicate (ndim array - length rows) (0, 0)%Z
                  else rows in
      np_pad array rows cval
  end.

(** ** [bounding_slices] (source lines 1482-1521) *)

Definition bounding_slices {A : Type} `{Inhabited A} `{Truthy A}
    (a : ndarray A) : result (list (Z * Z)) :=
  let a := atleast_1d a in
  traverse
    (λ dim,
       let line := np_any a (filter (λ i, i ≠ dim) (seq 0 (ndim a))) in
       let indices := nonzero line in
       if decide (length indices ≠ 0) then
         vmin ← take_index indices 0;
         vmax ← take_index indices (-1);
         Ok (Z.of_nat vmin, Z.of_nat vmax + 1)%Z
       else Ok (0, 0)%Z)
    (seq 0 (ndim a)).

(** ** [bounding_crop] (source lines 1524-1567) *)

Definition bounding_crop (array value : nparray) (margin : pad_spec)
    : result nparray :=
  let sample_dim := (Z.of_nat (ndim array) - Z.of_nat (ndim value))%Z in
  let axis := seqZ sample_dim (Z.of_nat (ndim array) - sample_dim) in
  ne ← np_not_equal array value;
  axes ← normalize_axes axis (ndim ne);
  let mask := np_any ne axes in
  slices ← bounding_slices mask;
  cropped ← getitem_slices array slices;
  pad_array (NpArray (np_dtype array) cropped) margin value.

End source.

Local Open Scope Z_scope.

(** ** [grid_from_indices] (source lines 1661-1768) *)

(** A coordinate as the caller writes it: an integer, or a tuple of them. *)
Inductive index : Type :=
  | IScalar (z : Z)
  | ITuple (l : list Z).

(** An [int | Sequence[int]] argument, and numpy's integer arrays of rank
    zero and one that are computed from it. *)
Inductive int_or_seq : Type :=
  | IntScalar (z : Z)
  | IntSeq (l : list Z).

(** [indices = np.array(list(iterable_or_map))], made two-dimensional, as
    the list of its rows.  The assertion wants a two-dimensional integer
    array: an empty list and a list of empty tuples give float arrays.
    The coordinates are taken to be [int64] values, so that the array has
    the element type [int64]; so are the bounds and the pad below. *)
Definition indices_array (keys : list index) : result (list (list Z)) :=
  match keys with
  | [] => Raise AssertionError
  | IScalar _ :: _ =>
      traverse (λ k, match k with
                     | IScalar z => Ok [z]
                     | ITuple _ => Raise (ValueError "inhomogeneous shape")
                     end) keys
  | ITuple l0 :: _ =>
      rows ← traverse (λ k, match k with
                            | ITuple l =>
                                if decide (length l = length l0) then Ok l
                                else Raise (ValueError "inhomogeneous shape")
                            | IScalar _ => Raise (ValueError "inhomogeneous shape")
                            end) keys;
      if decide (length l0 = 0%nat) then Raise AssertionError else Ok rows
  end.

(** [np.min(_, axis=0)] and [np.max(_, axis=0)] of a column. *)
Definition np_min (l : list Z) : Z :=
  match l with [] => 0 | x :: l' => foldl Z.min x l' end.
Definition np_max (l : list Z) : Z :=
  match l with [] => 0 | x :: l' => foldl Z.max x l' end.

(** [np.full(n, v)] for an integer or a sequence [v]. *)
Definition full_ints (n : nat) (v : int_or_seq) : result (list Z) :=
  match v with
  | IntScalar z => Ok (replicate n z)
  | IntSeq l =>
      if decide (length l = n) then Ok l
      else match l with
           | [z] => Ok (replicate n z)
           | _ => Raise (ValueError "could not broadcast input array")
           end
  end.

(** An arithmetic operator on integer arrays of rank at most one, with
    numpy's broadcasting. *)
Definition vec_op (f : Z → Z → Z) (a b : int_or_seq) : result int_or_seq :=
  match a, b with
  | IntScalar x, IntScalar y => Ok (IntScalar (f x y))
  | IntScalar x, IntSeq l => Ok (IntSeq (f x <$> l))
  | IntSeq l, IntScalar y => Ok (IntSeq ((λ x, f x y) <$> l))
  | IntSeq l1, IntSeq l2 =>
      if decide (length l1 = length l2) then Ok (IntSeq (zip_with f l1 l2))
      else match l1, l2 with
           | [x], _ => Ok (IntSeq (f x <$> l2))
           | _, [y] => Ok (IntSeq ((λ x, f x y) <$> l1))
           | _, _ => Raise (ValueError "operands could not be broadcast together")
           end
  end.

(** [tuple(v)] *)
Definition vec_tuple (v : int_or_seq) : result (list Z) :=
  match v with
  | IntSeq l => Ok l
  | IntScalar _ => Raise (ValueError "iteration over a 0-d array")
  end.

(** [row += offset] on a row of the index array: the sum must have the
    shape of the row. *)
Definition add_offset (offset : int_or_seq) (row : list Z) : result (list Z) :=
  match offset with
  | IntScalar z => Ok ((λ x, add64 x z) <$> row)
  | IntSeq l =>
      if decide (length l = length row) then Ok (zip_with add64 row l)
      else match l with
           | [z] => Ok ((λ x, add64 x z) <$> row)
           | _ => Raise (ValueError "non-broadcastable output operand")
           end
  end.

Section grid.
Context `{ElemDomain}.

(** The first argument: an iterable of coordinates, or a mapping from
    coordinates to values in the order of its insertions. *)
Inductive iterable_or_map : Type :=
  | Iterable (l : list index)
  | Mapping (m : list (index * nparray)).

(** [np.asarray(values)] for a list of arrays of one shape. *)
Definition stack (vs : list (ndarray elem)) : result (ndarray elem) :=
  match vs with
  | [] => Ok (NdArray [0%nat] [])
  | v :: _ =>
      if decide (Forall (λ w, shape w = shape v) vs)
      then Ok (NdArray (length vs :: shape v) (vs ≫= data))
      else Raise (ValueError "inhomogeneous shape")
  end.

(** [grid[tuple(indices.T)] = values]: [rows] are the rows of [indices],
    of length [D]; row [k] selects the subarray at that position of the
    first [D] axes and receives part [k] of [values] broadcast to
    [(len(rows), *grid.shape[D:])].  numpy fits the values to the shape of
    the indexed positions when it sets up the assignment, and checks the
    indices against the extents after that: values that do not fit raise
    [ValueError] also where an index is out of range.  Rows are written in
    order, so the last of several equal rows stays. *)
Definition setitem_indices (grid : nparray) (rows : list (list Z)) (D : nat)
    (values : ndarray elem) : result nparray :=
  if decide (D ≤ ndim grid)%nat then
    c ← np_broadcast_to values (length rows :: drop D (shape grid));
    pos ← traverse (λ row, traverse (λ p : Z * nat, normalize_index p.1 p.2)
                              (zip row (shape grid))) rows;
    Ok (NpArray (np_dtype grid)
          (foldl (λ (g : ndarray elem) (kp : nat * list nat),
                    fromfunction (shape grid)
                      (λ idx, if decide (take D idx = kp.2)
                              then c !!! (kp.1 :: drop D idx)
                              else g !!! idx))
             (np_arr grid) (imap pair pos)))
  else Raise IndexError.

Definition grid_from_indices (iterable_or_map : iterable_or_map)
    (background foreground : nparray)
    (indices_min indices_max : option int_or_seq)
    (pad : int_or_seq) (dtype : option dtype) : result nparray :=
  let keys := match iterable_or_map with
              | Iterable l => l
              | Mapping m => m.*1
              end in
  indices ← indices_array keys;
  let D := length (default [] (head indices)) in
  let columns := (λ j, (λ row : list Z, row !!! j) <$> indices) <$> seq 0 D in
  i_min ← match indices_min with
          | None => Ok (np_min <$> columns)
          | Some v => full_ints D v
          end;
  i_max ← match indices_max with
          | None => Ok (np_max <$> columns)
          | Some v => full_ints D v
          end;
  let a_pad := pad in
  diff ← vec_op sub64 (IntSeq i_max) (IntSeq i_min);
  twice ← vec_op mul64 (IntScalar 2) a_pad;
  sum ← vec_op add64 diff twice;
  shape ← vec_op add64 sum (IntScalar 1);
  offset ← vec_op add64 (IntSeq (neg64 <$> i_min)) a_pad;
  let elems := match iterable_or_map with
               | Mapping ((_, v) :: _) => [v]
               | _ => []
               end ++ [background; foreground] in
  bshape ← foldr (λ (e : nparray) acc, s ← acc; broadcast_shapes (shape_of e) s)
             (Ok []) elems;
  shape ← vec_tuple shape;
  let shape2 := shape ++ (Z.of_nat <$> bshape) in
  let e0 := default background (head elems) in
  dtype ← match dtype with
          | Some d => convert d e0;; Ok d
          | None => Ok (np_dtype e0)
          end;
  grid ← np_full shape2 background dtype;
  indices ← traverse (add_offset offset) indices;
  values ← match iterable_or_map with
            | Iterable _ => convert dtype foreground
            | Mapping m => vs ← traverse (convert dtype) m.*2; stack vs
            end;
  setitem_indices grid indices D values.

End grid.

(** ** [assemble_arrays] (source lines 1838-1943) *)

(** [foldl] in the result monad: a loop whose body may raise. *)
Fixpoint foldlM {A B : Type} (f : B → A → result B) (b : B) (l : list A) : result B :=
  match l with
  | [] => Ok b
  | x :: l' => b' ← f b x; foldlM f b' l'
  end.

(** The nested function [offset].  It is called with [length] an entry of
    an [int64] array and [size] a Python integer, so that [remainder] is an
    [int64] value. *)
Definition offset (length size : Z) (align : string) : result Z :=
  let remainder := sub64 length size in
  if bool_decide (align ∉ ["start"; "stop"; "center"]) then
    Raise (ValueError "Alignment is not recognized.")
  else Ok (if decide (align = "start") then 0
           else if decide (align = "stop") then remainder
           else remainder `div` 2).

(** [np.cumsum] of an [int64] array *)
Fixpoint cumsum_from (acc : Z) (l : list Z) : list Z :=
  match l with
  | [] => []
  | x :: l' => add64 acc x :: cumsum_from (add64 acc x) l'
  end.
Definition np_cumsum (l : list Z) : list Z := cumsum_from 0 l.

(** [l[-1] += 1] *)
Definition incr_last (l : list Z) : list Z :=
  match reverse l with
  | [] => []
  | x :: r => reverse (add64 x 1 :: r)
  end.

(** [l[1:-1] += s] *)
Definition add_inner (s : Z) (l : list Z) : list Z :=
  imap (λ j x, if decide (1 ≤ j ∧ S j < length l)%nat then add64 x s else x) l.

(** [np.moveaxis(head_dims[..., axis], axis, 0).max(axis=tuple(range(1,
    len(shape))))]: [head_dims] holds, for each cell of the grid, the
    leading dimensions of its array; entry [k] of the result is the largest
    extent along [axis] of the arrays in the cells whose coordinate along
    [axis] is [k]. *)
Definition max_lengths (head_dims : ndarray Z) (gshape : list nat) (axis : nat)
    : list Z :=
  (λ k, np_max ((λ c, head_dims !!! (c ++ [axis]))
                  <$> filter (λ c, c !!! axis = k) (ndindex gshape)))
  <$> seq 0 (gshape !!! axis).

(** Lengths and origins of the slices of the grid along [axis], computed
    on [int64] arrays. *)
Definition axis_layout (head_dims : ndarray Z) (gshape : list nat)
    (spacing2 : ndarray Z) (round_to_even2 : ndarray bool) (axis : nat)
    : list Z * list Z :=
  let shape_axis := gshape !!! axis in
  let lengths := max_lengths head_dims gshape axis in
  let total_length :=
    add64 (np_sum lengths) (mul64 (spacing2 !!! [axis]) (Z.of_nat shape_axis - 1)) in
  let lengths :=
    if round_to_even2 !!! [axis] && bool_decide (total_length `mod` 2 = 1)
    then incr_last lengths else lengths in
  let spaced_lengths := add_inner (spacing2 !!! [axis]) (0 :: lengths) in
  (lengths, np_cumsum spaced_lengths).

Section assemble.
Context `{ElemDomain}.

Definition assemble_arrays (arrays : list nparray) (shape : list Z)
    (background : nparray) (align : ndarray string)
    (spacing : ndarray Z) (round_to_even : ndarray bool) : result nparray :=
  let num := length arrays in
  match arrays with
  | [] => Raise (ValueError "There must be at least one input array.")
  | arrays0 :: _ =>
  shape ← _fit_shape shape (Z.of_nat num);
  let D := length shape in
  require (forallb (λ array, bool_decide (np_dtype array = np_dtype arrays0)) arrays)
    (ValueError "Arrays have different types.");;
  let tail_dims := drop D (shape_of arrays0) in
  require (forallb (λ array : nparray,
             bool_decide (drop D (shape_of array) = tail_dims)) arrays)
    (ValueError "Shapes of arrays do not all end in tail_dims");;
  align2 ← np_broadcast_to align [num; D];
  spacing2 ← np_broadcast_to spacing [D];
  round_to_even2 ← np_broadcast_to round_to_even [D];
  (* head_dims *)
  let heads := ((λ array : nparray, Z.of_nat <$> take D (shape_of array)) <$> arrays)
               ++ replicate (Z.to_nat (math_prod shape - Z.of_nat num)) (replicate D 0) in
  require (forallb (λ row, bool_decide (length row = D)) heads)
    (ValueError "inhomogeneous shape");;
  let gshape := Z.to_nat <$> shape in
  let head_dims := NdArray (gshape ++ [D]) (concat heads) in
  let layout := (λ axis, axis_layout head_dims gshape spacing2 round_to_even2 axis)
                <$> seq 0 D in
  let axis_lengths := layout.*1 in
  let axis_origins := layout.*2 in
  (* origins[coords][axis] = axis_origins[axis][coords[axis]] *)
  let origins (coords : list nat) (axis : nat) : Z :=
    (axis_origins !!! axis) !!! (coords !!! axis) in
  let output_shape :=
    ((λ o : list Z, default 0 (last o)) <$> axis_origins) ++ (Z.of_nat <$> tail_dims) in
  output_array ← np_full output_shape background (np_dtype arrays0);
  foldlM
    (λ (output_array : nparray) '((i, array) : nat * nparray),
       let coords := ndindex gshape !!! i in
       slices ← traverse
         (λ axis,
            let start := origins coords axis in
            let length := (axis_lengths !!! axis) !!! (coords !!! axis) in
            let extent := Z.of_nat (shape_of array !!! axis) in
            o ← offset length extent (align2 !!! [i; axis]);
            let aligned_start := add64 start o in
            Ok (aligned_start, add64 aligned_start extent))
         (seq 0 D);
       setitem_slices output_array slices array)
    output_array (imap pair arrays)
  end.

End assemble.

Local Close Scope Z_scope.

(** ** A concrete element domain: integer arrays *)

Inductive int_dtype : Type := int64 | uint8 | bool_.

#[global] Instance int_dtype_eq_dec : EqDecision int_dtype.
Proof. solve_decision. Defined.

(** Conversion as numpy's array assignment does it: [bool_] stores the
    truth value, [uint8] the value modulo 256, and [int64] the value, which
    must fit. *)
Definition int_astype (d : int_dtype) (x : Z) : option Z :=
  match d with
  | int64 => if decide (- 2 ^ 63 ≤ x < 2 ^ 63)%Z then Some x else None
  | uint8 => Some (x `mod` 256)%Z
  | bool_ => Some (if decide (x = 0) then 0 else 1)%Z
  end.

#[global] Instance int_domain : ElemDomain := {|
  dtype := int_dtype;
  elem := Z;
  elem_ne := λ x y, bool_decide (x ≠ y);
  astype := int_astype;
  int_ := int64;
  of_int := id;
|}.

(** [np.array(l)] for a flat, and for a nested, list of Python integers. *)
Definition array1 (l : list Z) : nparray := NpArray int64 (NdArray [length l] l).
Definition array2 (rows : list (list Z)) : nparray :=
  NpArray int64 (NdArray [length rows; length (default [] (head rows))] (concat rows)).
Definition py_int (x : Z) : nparray := scalar int64 x.

Local Open Scope Z_scope.

(** ** [temporary_assignment] (source lines 712-741)

    The dictionary [variables] is shared with the caller and with the body
    of the [with] statement: [body] is what the body does to it, and the
    dictionary returned is the one the caller sees afterwards.  The
    [finally] clause runs whether the body returns or raises. *)
Inductive key_error : Type := KeyError (key : string).

Definition temporary_assignment {V : Type} (variables : gmap string V)
    (name : string) (value : V) (body : gmap string V → gmap string V)
    : gmap string V + key_error :=
  let old_value := variables !! name in
  let variables := <[name := value]> variables in
  let variables := body variables in
  match old_value with
  | None =>
      (* del variables[name] *)
      match variables !! name with
      | Some _ => inl (delete name variables)
      | None => inr (KeyError name)
      end
  | Some old_value => inl (<[name := old_value]> variables)
  end.

(** The doctests: a variable that is bound, and one that is not. *)
Example temporary_assignment_doctest :
  temporary_assignment ({["var" := 1]} : gmap string Z) "var" 2 id
  = inl {["var" := 1]}
  ∧ temporary_assignment ({["var" := 1]} : gmap string Z) "var2" 1 id
    = inl {["var" := 1]}.
Proof. split; vm_compute; reflexivity. Qed.

(** ** [prime_factors] (source lines 1108-1132)

    Python's [%] and [//] by the positive [d] are [Z.modulo] and [Z.div]. *)

(** The inner loop [while (n % d) == 0]: [fuel] bounds the number of
    rounds, and [None] is a loop that has not ended within it. *)
Fixpoint divide_out (fuel : nat) (n d : Z) (factors : list Z)
    : option (Z * list Z) :=
  if decide (n `mod` d = 0) then
    match fuel with
    | O => None
    | S fuel' => divide_out fuel' (n `div` d) d (factors ++ [d])
    end
  else Some (n, factors).

(** The outer loop [while d * d <= n]. *)
Fixpoint factor_from (fuel : nat) (n d : Z) (factors : list Z)
    : option (Z * list Z) :=
  if decide (d * d ≤ n) then
    match fuel with
    | O => None
    | S fuel' =>
        match divide_out fuel' n d factors with
        | Some (n', factors') => factor_from fuel' n' (d + 1) factors'
        | None => None
        end
    end
  else Some (n, factors).

Definition prime_factors (fuel : nat) (n : Z) : option (list Z) :=
  match factor_from fuel n 2 [] with
  | Some (n', factors) => Some (if decide (n' > 1) then factors ++ [n'] else factors)
  | None => None
  end.

(** The doctests. *)
Example prime_factors_doctest :
  prime_factors 60 1 = Some [] ∧ prime_factors 60 2 = Some [2]
  ∧ prime_factors 60 4 = Some [2; 2] ∧ prime_factors 60 60 = Some [2; 2; 3; 5].
Proof. repeat split; reflexivity. Qed.


(** ** [discrete_binary_search] (source lines 2306-2337)

    [feval] is a function of Python integers without side effects.  The
    values it returns are only compared with [y_desired], by
    [ge y_desired ym] for [y_desired >= ym].  [fuel] bounds the rounds of
    the loop, and [None] is a loop that has not ended within it. *)
Section search.
Context {V : Type} (ge : V → V → bool).

(** [while xh - xl > 1: ...] *)
Fixpoint bisect (fuel : nat) (feval : Z → V) (xl xh : Z) (y_desired : V)
    : option Z :=
  if decide (xh - xl > 1) then
    match fuel with
    | O => None
    | S fuel' =>
        let xm := (xl + xh) `div` 2 in
        let ym := feval xm in
        if ge y_desired ym then bisect fuel' feval xm xh y_desired
        else bisect fuel' feval xl xm y_desired
    end
  else Some xl.

Definition discrete_binary_search (fuel : nat) (feval : Z → V) (xl xh : Z)
    (y_desired : V) : option (result Z) :=
  if decide (xl < xh) then Ok <$> bisect fuel feval xl xh y_desired
  else Some (Raise AssertionError).

End search.

(** The doctests, on integers. *)
Example discrete_binary_search_doctest :
  (λ y, discrete_binary_search Z.geb 5 (λ x, x ^ 2) 0 20 y) <$> [15; 16; 17; 24; 25]
  = (λ x, Some (Ok x)) <$> [3; 4; 4; 4; 5].
Proof. reflexivity. Qed.

(** ** [shift] (source lines 1946-1976)

    [offset] is the one-dimensional array of [np.atleast_1d(offset)], and
    [uninit] the buffer that [np.empty_like] hands out, whose content
    numpy leaves unspecified. *)

(** [slice(start, None)] on an axis of extent [n]. *)
Definition slice_from (start : Z) (n : nat) : Z * Z := (start, Z.of_nat n).

Definition slice_axis (o : Z) (n : nat) : Z * Z :=
  if decide (0 ≤ o) then slice_from o n else (0, o).

Section shift.
Context `{ElemDomain}.

Definition shift (uninit : list elem) (array : nparray) (offset : list Z)
    (constant_values : nparray) : result nparray :=
  require (bool_decide (length offset = ndim array)) AssertionError;;
  let new_array := NpArray (np_dtype array) (NdArray (shape_of array) uninit) in
  moved ← getitem_slices array
             (zip_with (λ o n, slice_axis (- o) n) offset (shape_of array));
  new_array ← setitem_slices new_array
                 (zip_with slice_axis offset (shape_of array))
                 (NpArray (np_dtype array) moved);
  foldlM
    (λ (new_array : nparray) '((axis, o) : nat * Z),
       let slices :=
         ((λ n, slice_from 0 n) <$> take axis (shape_of array))
         ++ [if decide (0 ≤ o) then (0, o)
             else slice_from o (shape_of array !!! axis)] in
       setitem_slices new_array slices constant_values)
    new_array (imap pair offset).

End shift.

(** The doctests of [shift]; the buffer of the new array holds sevens. *)
Example shift_doctest1 :
  shift (replicate 12 7) (array2 [[1; 2; 3; 4]; [5; 6; 7; 8]; [9; 10; 11; 12]])
    [1; 1] (py_int 0)
  = Ok (array2 [[0; 0; 0; 0]; [0; 1; 2; 3]; [0; 5; 6; 7]]).
Proof. reflexivity. Qed.
Example shift_doctest2 :
  shift (replicate 12 7) (array2 [[1; 2; 3; 4]; [5; 6; 7; 8]; [9; 10; 11; 12]])
    [-1; -2] (py_int (-1))
  = Ok (array2 [[7; 8; -1; -1]; [11; 12; -1; -1]; [-1; -1; -1; -1]]).
Proof. reflexivity. Qed.

(** ** [boyer_subsequence_find] (source lines 2340-2388)

    [seq] and [subseq] are one-dimensional integer arrays.  A write into
    [skip_table] checks its index as numpy does. *)

(** [skip_table = np.full(subseq.max() + 1, m)], then
    [skip_table[value] = m - 1 - i] over [enumerate(subseq[:-1])]. *)
Definition skip_table_of (subseq : list Z) : result (list nat) :=
  let m := length subseq in
  match subseq with
  | [] => Raise (ValueError "zero-size array to reduction operation maximum")
  | _ :: _ =>
      if decide (np_max subseq + 1 < 0)
      then Raise (ValueError "negative dimensions are not allowed")
      else
        foldlM
          (λ (skip_table : list nat) '((i, value) : nat * Z),
             k ← normalize_index value (length skip_table);
             Ok (<[k := (m - 1 - i)%nat]> skip_table))
          (replicate (Z.to_nat (np_max subseq + 1)) m)
          (imap pair (take (m - 1) subseq))
  end.

(** The inner loop [while True], entered with [e = seq[i + j]]: [true]
    when it is left by [return i], [false] when it is left by [break]. *)
Fixpoint matches_back (seq subseq : list Z) (i j : nat) : bool :=
  if decide (seq !!! (i + j)%nat ≠ subseq !!! j) then false
  else match j with
       | O => true
       | S j' => matches_back seq subseq i j'
       end.

(** The outer loop [while i + m <= n]; [fuel] bounds its rounds, and [None]
    is a loop that has not ended within it. *)
Fixpoint find_from (fuel : nat) (seq subseq : list Z) (skip_table : list nat)
    (i : nat) : option Z :=
  let m := length subseq in
  let n := length seq in
  if decide (i + m ≤ n)%nat then
    match fuel with
    | O => None
    | S fuel' =>
        let j := (m - 1)%nat in
        let e_last := seq !!! (i + j)%nat in
        if matches_back seq subseq i j then Some (Z.of_nat i)
        else
          let skip :=
            if decide (0 ≤ e_last < Z.of_nat (length skip_table))
            then skip_table !!! Z.to_nat e_last else m in
          find_from fuel' seq subseq skip_table (i + skip)
    end
  else Some (-1).

Definition boyer_subsequence_find (fuel : nat) (seq subseq : list Z)
    : option (result Z) :=
  match skip_table_of subseq with
  | Ok skip_table => Ok <$> find_from fuel seq subseq skip_table 0
  | Raise e => Some (Raise e)
  end.

(** The doctests. *)
Example boyer_subsequence_find_doctest :
  boyer_subsequence_find 5 [] [1] = Some (Ok (-1))
  ∧ boyer_subsequence_find 5 [2] [1] = Some (Ok (-1))
  ∧ boyer_subsequence_find 5 [1; 2] [1] = Some (Ok 0)
  ∧ boyer_subsequence_find 5 [2; 1] [1] = Some (Ok 1)
  ∧ boyer_subsequence_find 5 [1; 1; 2; 1] [1; 2] = Some (Ok 1)
  ∧ boyer_subsequence_find 5 [1; 1; 2; 1] [2; 2] = Some (Ok (-1)).
Proof. repeat split; reflexivity. Qed.

(** ** [UnionFind] (source lines 2159-2235)

    The object is its dictionary [_rep]; a method takes the dictionary and
    returns the dictionary it leaves, with its result.  [fuel] bounds the
    rounds of the loop of [find], and [None] is a loop that has not ended
    within it. *)
Module UnionFind.
Section union_find.
Context {T : Type} `{Countable T}.

(** [self._rep.setdefault(a, a)]: the value at [a], which is set to [a]
    where there is none. *)
Definition setdefault (rep : gmap T T) (a : T) : gmap T T * T :=
  match rep !! a with
  | Some parent => (rep, parent)
  | None => (<[a := a]> rep, a)
  end.

(** The loop [while True] of [find]. *)
Fixpoint find_loop (fuel : nat) (rep : gmap T T) (a : T) (parents : list T)
    : option (gmap T T * T * list T) :=
  match fuel with
  | O => None
  | S fuel' =>
      let '(rep, parent) := setdefault rep a in
      if decide (parent = a) then Some (rep, a, parents)
      else find_loop fuel' rep parent (parents ++ [a])
  end.

Definition find (fuel : nat) (rep : gmap T T) (a : T) : option (gmap T T * T) :=
  match rep !! a with
  | None => Some (rep, a)
  | Some _ =>
      '(rep, a, parents) ← find_loop fuel rep a [];
      Some (foldl (λ rep p, <[p := a]> rep) rep parents, a)
  end.

Definition union (fuel : nat) (rep : gmap T T) (a b : T) : option (gmap T T) :=
  '(rep, rep_a) ← find fuel rep a;
  '(rep, rep_b) ← find fuel rep b;
  Some (<[rep_b := rep_a]> rep).

Definition same (fuel : nat) (rep : gmap T T) (a b : T)
    : option (gmap T T * bool) :=
  '(rep, rep_a) ← find fuel rep a;
  '(rep, rep_b) ← find fuel rep b;
  Some (rep, bool_decide (rep_a = rep_b)).

End union_find.
End UnionFind.

(** The doctest of the class. *)
Example UnionFind_doctest :
  let fuel := 5%nat in
  (rep ← Some (∅ : gmap string string);
   '(rep, r1) ← UnionFind.find fuel rep "hello";
   '(rep, r2) ← UnionFind.same fuel rep "hello" "hello";
   '(rep, r3) ← UnionFind.same fuel rep "hello" "different";
   rep ← UnionFind.union fuel rep "hello" "there";
   '(rep, r4) ← UnionFind.find fuel rep "hello";
   '(rep, r5) ← UnionFind.find fuel rep "there";
   '(rep, r6) ← UnionFind.same fuel rep "hello" "there";
   rep ← UnionFind.union fuel rep "there" "here";
   '(rep, r7) ← UnionFind.same fuel rep "hello" "here";
   Some (r1, r2, r3, r4, r5, r6, r7))
  = Some ("hello", true, false, "hello", "hello", true, true).
Proof. vm_compute. reflexivity. Qed.

(** * Properties *)

(** ** The result monad *)

Lemma traverse_ok_fmap {A B : Type} (f : A → result B) (g : A → B) (l : list A) :
  (∀ x, x ∈ l → f x = Ok (g x)) → traverse f l = Ok (g <$> l).
Proof.
  induction l as [|x l IH]; intros Hf; simpl; [done|].
  rewrite (Hf x) by left. simpl.
  rewrite IH; [done|]. intros y Hy. apply Hf. by right.
Qed.

(** ** Shape resolver *)

Section fit_shape.
Implicit Types (shape : list Z) (num d c : Z) (i j : nat).

Lemma positive_check_spec shape :
  forallb (λ dim, bool_decide (dim > 0)) (filter (λ dim, dim ≠ -1) shape) = true
  ↔ ∀ d, d ∈ shape → d ≠ -1 → 0 < d.
Proof.
  rewrite forallb_forall. split.
  - intros Hall d Hin Hd.
    assert (d > 0); [|lia].
    eapply bool_decide_eq_true_1, Hall, list_elem_of_In, list_elem_of_filter; eauto.
  - intros Hall d [Hd Hin]%list_elem_of_In%list_elem_of_filter.
    apply bool_decide_eq_true_2. specialize (Hall d Hin Hd). lia.
Qed.

Lemma wildcard_count_spec shape :
  py_sum ((λ dim, Z.b2z (bool_decide (dim = -1))) <$> shape)
  = Z.of_nat (length (filter (λ dim, dim = -1) shape)).
Proof.
  unfold py_sum. induction shape as [|d shape IH]; [done|].
  rewrite fmap_cons, filter_cons. cbn [foldr]. rewrite IH.
  case_bool_decide; case_decide; simpl; lia.
Qed.

Lemma math_prod_pos shape : (∀ d, d ∈ shape → 0 < d) → 0 < math_prod shape.
Proof.
  induction shape as [|d shape IH]; intros Hpos; simpl; [lia|].
  assert (0 < d) by (apply Hpos; left).
  assert (0 < math_prod shape) by (apply IH; intros; apply Hpos; by right).
  lia.
Qed.

Lemma filter_no_wildcard shape :
  (-1) ∉ shape → filter (λ dim, dim ≠ -1) shape = shape.
Proof.
  induction shape as [|d shape IH]; intros Hnot; [done|].
  apply not_elem_of_cons in Hnot as [? ?].
  rewrite filter_cons. case_decide; [|lia]. f_equal. by apply IH.
Qed.

(** A shape whose only wildcard sits at position [i]. *)
Definition sole_wildcard shape i : Prop :=
  shape !! i = Some (-1) ∧ ∀ j d, shape !! j = Some d → j ≠ i → 0 < d.

Lemma sole_wildcard_cons_S d shape i :
  sole_wildcard (d :: shape) (S i) → 0 < d ∧ sole_wildcard shape i.
Proof.
  intros [Hi Hrest]. split; [by apply (Hrest 0%nat)|].
  split; [done|]. intros j e Hj Hne. apply (Hrest (S j)); [done|lia].
Qed.

Lemma sole_wildcard_cons_0 d shape :
  sole_wildcard (d :: shape) 0 → d = -1 ∧ ∀ e, e ∈ shape → 0 < e.
Proof.
  intros [Hi Hrest]. split; [by injection Hi|].
  intros e [j Hj]%list_elem_of_lookup. by apply (Hrest (S j)).
Qed.

Lemma positive_no_wildcard shape : (∀ e, e ∈ shape → 0 < e) → (-1) ∉ shape.
Proof. intros Hpos Hin. apply Hpos in Hin. lia. Qed.

Lemma sole_wildcard_filter shape i :
  sole_wildcard shape i → filter (λ dim, dim ≠ -1) shape = delete i shape.
Proof.
  revert i. induction shape as [|d shape IH]; intros i Hsole.
  { by destruct Hsole as [? _]. }
  destruct i as [|i].
  - apply sole_wildcard_cons_0 in Hsole as [-> Hpos].
    rewrite filter_cons. case_decide; [lia|]. simpl.
    by apply filter_no_wildcard, positive_no_wildcard.
  - apply sole_wildcard_cons_S in Hsole as [Hd Hsole].
    rewrite filter_cons. case_decide; [|lia]. simpl. f_equal. by apply IH.
Qed.

Lemma positive_wildcards_nil shape :
  (∀ e, e ∈ shape → 0 < e) → filter (λ dim, dim = -1) shape = [].
Proof.
  induction shape as [|d shape IH]; intros Hpos; [done|].
  rewrite filter_cons. case_decide as Hd.
  - specialize (Hpos d ltac:(left)). lia.
  - apply IH. intros e He. apply Hpos. by right.
Qed.

Lemma sole_wildcard_count shape i :
  sole_wildcard shape i → length (filter (λ dim, dim = -1) shape) = 1%nat.
Proof.
  revert i. induction shape as [|d shape IH]; intros i Hsole.
  { by destruct Hsole as [? _]. }
  destruct i as [|i].
  - apply sole_wildcard_cons_0 in Hsole as [-> Hpos].
    rewrite filter_cons. case_decide; [|lia]. simpl. f_equal.
    by rewrite positive_wildcards_nil.
  - apply sole_wildcard_cons_S in Hsole as [Hd Hsole].
    rewrite filter_cons. case_decide; [lia|]. by apply (IH i).
Qed.

Lemma sole_wildcard_replace shape i c :
  sole_wildcard shape i →
  (λ dim, if bool_decide (dim = -1) then c else dim) <$> shape = <[i:=c]> shape.
Proof.
  revert i. induction shape as [|d shape IH]; intros i Hsole.
  { by destruct Hsole as [? _]. }
  destruct i as [|i]; simpl.
  - apply sole_wildcard_cons_0 in Hsole as [-> Hpos].
    rewrite bool_decide_eq_true_2 by done. f_equal.
    rewrite <-(list_fmap_id shape) at 2. apply list_fmap_ext.
    intros j e He. apply list_elem_of_lookup_2, Hpos in He.
    rewrite bool_decide_eq_false_2; [done|lia].
  - apply sole_wildcard_cons_S in Hsole as [Hd Hsole].
    rewrite bool_decide_eq_false_2 by lia. f_equal. by apply IH.
Qed.

Lemma math_prod_insert shape i c :
  (i < length shape)%nat →
  math_prod (<[i:=c]> shape) = c * math_prod (delete i shape).
Proof.
  revert i. induction shape as [|d shape IH]; intros i Hi; simpl in *; [lia|].
  destruct i as [|i]; simpl; [done|]. rewrite IH by lia. lia.
Qed.

Lemma sole_wildcard_slice_pos shape i :
  sole_wildcard shape i → 0 < math_prod (delete i shape).
Proof.
  intros [Hi Hrest]. apply math_prod_pos.
  intros d [j Hj]%list_elem_of_lookup.
  destruct (decide (j < i)%nat).
  - rewrite list_lookup_delete_lt in Hj by done. apply (Hrest j d); [done|lia].
  - rewrite list_lookup_delete_ge in Hj by lia. apply (Hrest (S j) d); [done|lia].
Qed.

(** C3: with one wildcard among positive entries and [n >= 1], the resolver
    returns the input shape with only the wildcard entry replaced, by the
    ceiling [c] of [n / product(other entries)] (the unique [c] with
    [(c-1) * s < n <= c * s]); the product of the result is at least [n],
    the replaced entry differs from the wildcard and every other entry is
    the input's. *)
Theorem fit_shape_wildcard shape num i :
  1 ≤ num →
  shape !! i = Some (-1) →
  (∀ j d, shape !! j = Some d → j ≠ i → 0 < d) →
  ∃ c, _fit_shape shape num = Ok (<[i:=c]> shape)
     ∧ (c - 1) * math_prod (delete i shape) < num ≤ c * math_prod (delete i shape)
     ∧ num ≤ math_prod (<[i:=c]> shape)
     ∧ <[i:=c]> shape !! i ≠ shape !! i
     ∧ ∀ j, j ≠ i → <[i:=c]> shape !! j = shape !! j.
Proof.
  intros Hnum Hi Hrest.
  assert (sole_wildcard shape i) as Hsole by done.
  pose proof (sole_wildcard_slice_pos _ _ Hsole) as Hpos.
  set (s := math_prod (delete i shape)) in *.
  exists ((num + s - 1) `div` s).
  assert (i < length shape)%nat as Hlen by (by eapply lookup_lt_Some).
  assert ((((num + s - 1) `div` s) - 1) * s < num ≤ ((num + s - 1) `div` s) * s)
    as Hceil.
  { pose proof (Z.div_mod (num + s - 1) s ltac:(lia)).
    pose proof (Z.mod_pos_bound (num + s - 1) s ltac:(lia)). nia. }
  split_and!.
  - unfold _fit_shape.
    rewrite (proj2 (positive_check_spec shape)); simpl.
    2:{ intros d [j Hj]%list_elem_of_lookup Hd. apply (Hrest j d Hj).
        intros ->. congruence. }
    rewrite wildcard_count_spec, (sole_wildcard_count _ _ Hsole).
    rewrite bool_decide_eq_false_2 by lia.
    rewrite bool_decide_eq_true_2 by (by eapply list_elem_of_lookup_2).
    rewrite (sole_wildcard_filter _ _ Hsole). fold s.
    rewrite <-(sole_wildcard_replace _ _ _ Hsole).
    apply traverse_ok_fmap. intros d _.
    case_bool_decide; [|done]. unfold floordiv. case_decide; [lia|done].
  - lia.
  - lia.
  - rewrite math_prod_insert by done. fold s. lia.
  - rewrite list_lookup_insert_eq by done. rewrite Hi. intros [= Hc]. lia.
  - intros j Hj. by rewrite list_lookup_insert_ne.
Qed.

(** Ten elements in rows of three: the shape (3, -1) resolves to (3, 4). *)
Lemma fit_shape_wildcard_witness :
  ∃ c, _fit_shape [3; -1] 10 = Ok (<[1%nat:=c]> [3; -1])
     ∧ (c - 1) * math_prod (delete 1%nat [3; -1]) < 10
                 ≤ c * math_prod (delete 1%nat [3; -1])
     ∧ 10 ≤ math_prod (<[1%nat:=c]> [3; -1])
     ∧ <[1%nat:=c]> [3; -1] !! 1%nat ≠ [3; -1] !! 1%nat
     ∧ ∀ j, j ≠ 1%nat → <[1%nat:=c]> [3; -1] !! j = [3; -1] !! j.
Proof.
  apply (fit_shape_wildcard [3; -1] 10 1); [lia|reflexivity|].
  intros [|[|j]] d Hd Hj; simpl in Hd; [|done|done].
  injection Hd as <-. lia.
Defined.

(** C6: the resolver raises (always a [ValueError]) exactly when the shape
    has no wildcard and too small a product, or more than one wildcard, or
    a non-wildcard entry that is zero or negative; otherwise it returns a
    shape, which is the input itself when no entry is the wildcard. *)
Theorem fit_shape_fails_exactly shape num :
  ((∃ msg, _fit_shape shape num = Raise (ValueError msg))
   ↔ (((-1) ∉ shape) ∧ math_prod shape < num)
     ∨ (1 < length (filter (λ dim, dim = (-1)%Z) shape))%nat
     ∨ (∃ d, d ∈ shape ∧ d ≠ -1 ∧ d ≤ 0))
  ∧ ((∃ r, _fit_shape shape num = Ok r)
     ∨ (∃ msg, _fit_shape shape num = Raise (ValueError msg)))
  ∧ (((-1) ∉ shape) → ∀ r, _fit_shape shape num = Ok r → r = shape).
Proof.
  unfold _fit_shape.
  destruct (forallb _ _) eqn:Hposb; simpl.
  2:{ assert (∃ d, d ∈ shape ∧ d ≠ -1 ∧ d ≤ 0) as Hbad.
      { apply not_true_iff_false in Hposb.
        rewrite positive_check_spec in Hposb.
        destruct (decide (Exists (λ d, d ≠ -1 ∧ d ≤ 0) shape)) as [Hex|Hnex].
        - apply Exists_exists in Hex. naive_solver.
        - exfalso. apply Hposb. intros d Hin Hd.
          apply (not_Exists_Forall _) in Hnex.
          rewrite Forall_forall in Hnex. specialize (Hnex d Hin). simpl in Hnex.
          apply not_and_l in Hnex as [?|?]; [done|lia]. }
      split_and!; [naive_solver|naive_solver|naive_solver]. }
  pose proof (proj1 (positive_check_spec _) Hposb) as Hposd; clear Hposb; rename Hposd into Hposb.
  rewrite wildcard_count_spec.
  case_bool_decide as Hcount.
  { split_and!; [|naive_solver|naive_solver].
    split; [intros _; right; left; lia|naive_solver]. }
  assert (¬ ∃ d, d ∈ shape ∧ d ≠ -1 ∧ d ≤ 0) as Hnobad.
  { intros (d & Hin & Hd & Hle). specialize (Hposb d Hin Hd). lia. }
  case_bool_decide as Hwild.
  - set (s := math_prod (filter (λ dim, dim ≠ -1) shape)).
    assert (0 < s) as Hs.
    { apply math_prod_pos. intros d [? ?]%list_elem_of_filter. auto. }
    erewrite (traverse_ok_fmap _
      (λ dim, if bool_decide (dim = -1) then (num + s - 1) `div` s else dim)).
    2:{ intros d _. case_bool_decide; [|done].
        unfold floordiv. case_decide; [lia|done]. }
    split_and!; [|naive_solver|naive_solver].
    split; [naive_solver|]. intros [[? _]|[?|?]]; [done|lia|done].
  - case_bool_decide as Hprod.
    + split_and!; [naive_solver|naive_solver|naive_solver].
    + split_and!; [|naive_solver|naive_solver].
      split; [naive_solver|]. intros [[_ ?]|[?|?]]; [lia|lia|done].
Qed.

End fit_shape.

(** ** Shapes, indices and the flat buffer *)

Section index_facts.
Local Close Scope Z_scope.
Implicit Types (sh idx : list nat).

Lemma length_bind_uniform {B C : Type} (f : B → list C) (l : list B) (m : nat) :
  (∀ x, x ∈ l → length (f x) = m) → length (l ≫= f) = length l * m.
Proof.
  induction l as [|x l IH]; intros Hm; [done|].
  rewrite bind_cons, length_app, Hm by left. simpl.
  rewrite IH; [done|]. intros y Hy. apply Hm. by right.
Qed.

Lemma lookup_bind_uniform {B C : Type} (f : B → list C) (l : list B) (m i r : nat) :
  (∀ x, x ∈ l → length (f x) = m) → r < m →
  (l ≫= f) !! (i * m + r) = l !! i ≫= λ x, f x !! r.
Proof.
  revert i. induction l as [|x l IH]; intros i Hm Hr; [done|].
  rewrite bind_cons. destruct i as [|i]; simpl.
  - rewrite lookup_app_l; [done|]. rewrite Hm by left. done.
  - rewrite lookup_app_r; rewrite Hm by left; [|lia].
    replace (m + i * m + r - m) with (i * m + r) by lia.
    apply IH; [|done]. intros y Hy. apply Hm. by right.
Qed.

Lemma length_ndindex sh : length (ndindex sh) = size sh.
Proof.
  induction sh as [|n sh IH]; [done|]. simpl.
  rewrite (length_bind_uniform _ _ (size sh)), length_seq; [done|].
  intros i _. by rewrite length_fmap.
Qed.

Lemma in_bounds_cons n sh i idx :
  in_bounds (n :: sh) (i :: idx) ↔ i < n ∧ in_bounds sh idx.
Proof. unfold in_bounds. apply Forall2_cons. Qed.

Lemma in_bounds_length sh idx : in_bounds sh idx → length idx = length sh.
Proof. apply Forall2_length. Qed.

Lemma in_bounds_lookup sh idx :
  in_bounds sh idx ↔
  length idx = length sh ∧ ∀ k i n, idx !! k = Some i → sh !! k = Some n → i < n.
Proof. unfold in_bounds. apply Forall2_same_length_lookup. Qed.

Lemma ravel_lt sh idx : in_bounds sh idx → ravel sh idx < size sh.
Proof.
  revert idx. induction sh as [|n sh IH]; intros idx Hin.
  { destruct idx; simpl; lia. }
  destruct idx as [|i idx]; [by apply Forall2_nil_cons_inv in Hin|].
  apply in_bounds_cons in Hin as [Hi Hin]. apply IH in Hin. simpl. nia.
Qed.

Lemma ndindex_lookup_ravel sh idx :
  in_bounds sh idx → ndindex sh !! ravel sh idx = Some idx.
Proof.
  revert idx. induction sh as [|n sh IH]; intros idx Hin.
  { apply Forall2_nil_inv_r in Hin as ->. done. }
  destruct idx as [|i idx]; [by apply Forall2_nil_cons_inv in Hin|].
  apply in_bounds_cons in Hin as [Hi Hin]. simpl.
  rewrite (lookup_bind_uniform _ _ (size sh)).
  - rewrite lookup_seq_lt by done. simpl.
    rewrite list_lookup_fmap, IH by done. done.
  - intros j _. by rewrite length_fmap, length_ndindex.
  - by apply ravel_lt.
Qed.

Lemma ndindex_lookup_inv sh k idx :
  ndindex sh !! k = Some idx → in_bounds sh idx ∧ ravel sh idx = k.
Proof.
  revert k idx. induction sh as [|n sh IH]; intros k idx Hk.
  { destruct k; [|done]. injection Hk as <-. split; [constructor|done]. }
  assert (k < n * size sh) as Hlt.
  { apply lookup_lt_Some in Hk. by rewrite length_ndindex in Hk. }
  assert (0 < size sh) as Hm by nia.
  simpl in Hk. rewrite (Nat.div_mod_eq k (size sh)) in Hk.
  rewrite (Nat.mul_comm (size sh)) in Hk.
  rewrite (lookup_bind_uniform _ _ (size sh)) in Hk.
  2:{ intros j _. by rewrite length_fmap, length_ndindex. }
  2:{ apply Nat.mod_upper_bound. lia. }
  assert (k `div` size sh < n) as Hq by (apply Nat.Div0.div_lt_upper_bound; lia).
  rewrite lookup_seq_lt in Hk by done. simpl in Hk.
  rewrite list_lookup_fmap in Hk.
  destruct (ndindex sh !! (k `mod` size sh)) as [idx'|] eqn:Hidx'; [|done].
  injection Hk as <-. apply IH in Hidx' as [Hin Hr].
  split; [by apply in_bounds_cons|].
  simpl. rewrite Hr. pose proof (Nat.div_mod_eq k (size sh)). lia.
Qed.

Lemma elem_of_ndindex sh idx : idx ∈ ndindex sh ↔ in_bounds sh idx.
Proof.
  split.
  - intros [k Hk]%list_elem_of_lookup. by apply ndindex_lookup_inv in Hk as [? _].
  - intros Hin. eapply list_elem_of_lookup_2. by apply ndindex_lookup_ravel.
Qed.

Lemma size_zero sh : 0 ∈ sh → size sh = 0.
Proof.
  induction sh as [|n sh IH]; intros Hin; [by apply elem_of_nil in Hin|].
  apply elem_of_cons in Hin as [<-|Hin]; simpl; [done|]. rewrite IH by done. lia.
Qed.

End index_facts.

Section ndarray_facts.
Local Close Scope Z_scope.
Context {A : Type}.
Implicit Types (sh idx : list nat) (a b : ndarray A).

Lemma wf_fromfunction sh (f : list nat → A) : wf (fromfunction sh f).
Proof. unfold wf. simpl. by rewrite length_fmap, length_ndindex. Qed.

Lemma lookup_fromfunction sh (f : list nat → A) idx :
  in_bounds sh idx → fromfunction sh f !! idx = Some (f idx).
Proof.
  intros Hin. unfold lookup, ndarray_lookup. simpl.
  rewrite decide_True by done.
  by rewrite list_lookup_fmap, ndindex_lookup_ravel.
Qed.

Lemma lookup_ndarray_Some a idx x :
  a !! idx = Some x → in_bounds (shape a) idx.
Proof. unfold lookup, ndarray_lookup. by case_decide. Qed.

Lemma lookup_ndarray_is_Some a idx :
  wf a → in_bounds (shape a) idx → is_Some (a !! idx).
Proof.
  intros Hwf Hin. unfold lookup, ndarray_lookup. rewrite decide_True by done.
  apply lookup_lt_is_Some. rewrite Hwf. by apply ravel_lt.
Qed.

Lemma lookup_total_ndarray `{Inhabited A} a idx x :
  a !! idx = Some x → a !!! idx = x.
Proof.
  unfold lookup, ndarray_lookup, lookup_total, ndarray_lookup_total.
  case_decide; [|done]. intros Hx. by apply list_lookup_total_correct.
Qed.

Lemma lookup_lookup_total_ndarray `{Inhabited A} a idx :
  wf a → in_bounds (shape a) idx → a !! idx = Some (a !!! idx).
Proof.
  intros Hwf Hin. destruct (lookup_ndarray_is_Some a idx Hwf Hin) as [x Hx].
  by rewrite (lookup_total_ndarray _ _ _ Hx).
Qed.

Lemma lookup_total_fromfunction `{Inhabited A} sh (f : list nat → A) idx :
  in_bounds sh idx → fromfunction sh f !!! idx = f idx.
Proof. intros Hin. by apply lookup_total_ndarray, lookup_fromfunction. Qed.

(** Two arrays of one shape that agree at every index are equal. *)
Lemma elem_of_lookup_total_ndarray `{Inhabited A} a idx :
  wf a → in_bounds (shape a) idx → a !!! idx ∈ data a.
Proof.
  intros Hwf Hidx. unfold lookup_total, ndarray_lookup_total.
  apply list_elem_of_lookup_total_2. rewrite Hwf. by apply ravel_lt.
Qed.

Lemma ndarray_eq a b :
  wf a → wf b → shape a = shape b →
  (∀ idx, in_bounds (shape a) idx → a !! idx = b !! idx) → a = b.
Proof.
  destruct a as [sh da], b as [sh' db]. unfold wf. simpl.
  intros Ha Hb <- Heq. f_equal. apply list_eq. intros k.
  destruct (decide (k < size sh)) as [Hk|Hk].
  - destruct (lookup_lt_is_Some_2 (ndindex sh) k) as [idx Hidx].
    { by rewrite length_ndindex. }
    apply ndindex_lookup_inv in Hidx as [Hin <-].
    specialize (Heq idx Hin). unfold lookup, ndarray_lookup in Heq. simpl in Heq.
    by rewrite !decide_True in Heq by done.
  - rewrite !lookup_ge_None_2; [done|lia|lia].
Qed.

Lemma fromfunction_ext sh (f g : list nat → A) :
  (∀ idx, in_bounds sh idx → f idx = g idx) → fromfunction sh f = fromfunction sh g.
Proof.
  intros Hfg. unfold fromfunction. f_equal. apply list_fmap_ext.
  intros k idx Hk. apply Hfg. by apply ndindex_lookup_inv in Hk as [? _].
Qed.

Lemma fromfunction_lookup_total `{Inhabited A} a :
  wf a → fromfunction (shape a) (λ idx, a !!! idx) = a.
Proof.
  intros Hwf. apply ndarray_eq; [apply wf_fromfunction|done|done|].
  simpl. intros idx Hin.
  by rewrite lookup_fromfunction, lookup_lookup_total_ndarray.
Qed.

Lemma fromfunction_empty sh (f : list nat → A) :
  0 ∈ sh → data (fromfunction sh f) = [].
Proof.
  intros Hz. apply nil_length_inv. simpl.
  by rewrite length_fmap, length_ndindex, size_zero.
Qed.

End ndarray_facts.

Lemma traverse_ok_Forall2 {A B : Type} (f : A → result B) (Q : A → B → Prop)
    (l : list A) :
  (∀ x, x ∈ l → ∃ y, f x = Ok y ∧ Q x y) →
  ∃ ys, traverse f l = Ok ys ∧ Forall2 Q l ys.
Proof.
  induction l as [|x l IH]; intros Hf; simpl.
  { exists []. by split. }
  destruct (Hf x) as (y & -> & Hy); [left|].
  destruct IH as (ys & -> & Hys); [intros z Hz; apply Hf; by right|].
  exists (y :: ys). split; [done|by constructor].
Qed.

Lemma traverse_ok_inv {A B : Type} (f : A → result B) (l : list A) (ys : list B) :
  traverse f l = Ok ys → Forall2 (λ x y, f x = Ok y) l ys.
Proof.
  revert ys. induction l as [|x l IH]; intros ys; simpl.
  { intros [= <-]. constructor. }
  destruct (f x) as [y|e] eqn:Hx; simpl; [|done].
  destruct (traverse f l) as [ys'|e] eqn:Hl; simpl; [|done].
  intros [= <-]. constructor; [done|]. by apply IH.
Qed.

Lemma list_filter_iff_in {A : Type} (P1 P2 : A → Prop)
    `{∀ x, Decision (P1 x)} `{∀ x, Decision (P2 x)} (l : list A) :
  (∀ x, x ∈ l → P1 x ↔ P2 x) → filter P1 l = filter P2 l.
Proof.
  induction l as [|x l IH]; intros HP; [done|].
  rewrite !filter_cons. rewrite IH by (intros y Hy; apply HP; by right).
  specialize (HP x ltac:(left)). repeat case_decide; naive_solver.
Qed.

Lemma list_filter_none {A : Type} (P : A → Prop) `{∀ x, Decision (P x)} (l : list A) :
  (∀ x, x ∈ l → ¬ P x) → filter P l = [].
Proof.
  induction l as [|x l IH]; intros HP; [done|].
  rewrite filter_cons, decide_False by (apply HP; left).
  apply IH. intros y Hy. apply HP. by right.
Qed.

(** ** Bounding-box finder *)

Section filter_seq.
Local Close Scope Z_scope.
Context (P : nat → Prop) `{∀ x, Decision (P x)}.

Lemma head_filter_seq s n lo :
  head (filter P (seq s n)) = Some lo →
  ∀ x, s ≤ x < s + n → P x → lo ≤ x.
Proof.
  revert s. induction n as [|n IH]; intros s Hhead x Hx HP; [lia|].
  simpl in Hhead. rewrite filter_cons in Hhead. case_decide as Hs.
  - injection Hhead as <-. lia.
  - destruct (decide (x = s)) as [->|Hne]; [done|].
    apply (IH (S s)); [done|lia|done].
Qed.

Lemma last_filter_seq s n hi :
  last (filter P (seq s n)) = Some hi →
  ∀ x, s ≤ x < s + n → P x → x ≤ hi.
Proof.
  induction n as [|n IH]; intros Hlast x Hx HP; [lia|].
  rewrite seq_S, filter_app, last_app in Hlast.
  rewrite filter_cons, filter_nil in Hlast. case_decide as Hs; simpl in Hlast.
  - injection Hlast as <-. lia.
  - destruct (decide (x = s + n)) as [->|Hne]; [done|].
    apply IH; [done|lia|done].
Qed.

Lemma elem_of_filter_seq s n x :
  x ∈ filter P (seq s n) ↔ P x ∧ s ≤ x < s + n.
Proof. by rewrite list_elem_of_filter, elem_of_seq. Qed.

End filter_seq.

Lemma nonzero_filter {B : Type} `{Truthy B} (line : ndarray B) :
  nonzero line
  = filter (λ j, truthy <$> data line !! j = Some true)
      (seq 0 (length (data line))).
Proof.
  destruct line as [sh l]. unfold nonzero. simpl.
  induction l as [|x l IH] using rev_ind; [done|].
  rewrite imap_app, bind_app, length_app. cbn [length].
  rewrite Nat.add_1_r, seq_S, filter_app. f_equal.
  - rewrite IH. apply list_filter_iff_in. intros j Hj%elem_of_seq.
    by rewrite lookup_app_l by lia.
  - cbn [imap mbind list_bind fst snd]. rewrite Nat.add_0_r, app_nil_r.
    rewrite filter_cons, filter_nil. cbn [Nat.add].
    rewrite lookup_app_r, Nat.sub_diag by lia. simpl.
    destruct (truthy x); case_decide; naive_solver.
Qed.

Lemma take_index_first (l : list nat) (x : nat) :
  l !! 0%nat = Some x → take_index l 0 = Ok x.
Proof.
  intros Hx. pose proof (lookup_lt_Some _ _ _ Hx) as Hlen.
  unfold take_index, normalize_index.
  destruct (decide (0 ≤ 0 < Z.of_nat (length l))) as [_|?]; [|lia].
  cbn [mbind result_bind]. change (Z.to_nat 0) with 0%nat. by rewrite Hx.
Qed.

Lemma take_index_last (l : list nat) (x : nat) :
  l !! (length l - 1)%nat = Some x → take_index l (-1) = Ok x.
Proof.
  intros Hx. pose proof (lookup_lt_Some _ _ _ Hx) as Hlen.
  unfold take_index, normalize_index.
  destruct (decide (0 ≤ -1 < Z.of_nat (length l))) as [?|_]; [lia|].
  destruct (decide (- Z.of_nat (length l) ≤ -1 < 0)) as [_|?]; [|lia].
  cbn [mbind result_bind].
  replace (Z.to_nat (-1 + Z.of_nat (length l))) with (length l - 1)%nat by lia.
  by rewrite Hx.
Qed.

Section bounding_facts.
Local Close Scope Z_scope.
Context {A : Type} `{Inhabited A} `{Truthy A}.
Implicit Types (a : ndarray A) (sh idx : list nat).

Lemma ndindex_singleton n : ndindex [n] = (λ x, [x]) <$> seq 0 n.
Proof.
  simpl. generalize 0. induction n as [|n IH]; intros s; [done|].
  simpl. by rewrite IH.
Qed.

Lemma keep_one_axis nd dim :
  dim < nd →
  filter (λ k, k ∉ filter (λ i, i ≠ dim) (seq 0 nd)) (seq 0 nd) = [dim].
Proof.
  intros Hdim.
  rewrite (list_filter_iff_in _ (λ k, k = dim)).
  2:{ intros k Hk. rewrite list_elem_of_filter. split.
      - intros Hn. destruct (decide (k = dim)); [done|]. naive_solver.
      - naive_solver. }
  replace nd with (dim + S (nd - S dim)) by lia.
  rewrite seq_app, filter_app. simpl. rewrite filter_cons, decide_True by done.
  rewrite !list_filter_none; [done| |].
  - intros k Hk%elem_of_seq. lia.
  - intros k Hk%elem_of_seq. lia.
Qed.

(** Position [x] of axis [dim] holds a nonzero element of [a]. *)
Definition occupied a (dim x : nat) : Prop :=
  ∃ idx, in_bounds (shape a) idx ∧ idx !! dim = Some x ∧ truthy (a !!! idx) = true.

#[local] Instance occupied_dec a dim x : Decision (occupied a dim x).
Proof.
  refine (cast_if (decide (Exists
    (λ idx, idx !! dim = Some x ∧ truthy (a !!! idx) = true) (ndindex (shape a)))));
    unfold occupied; rewrite Exists_exists in *;
    setoid_rewrite elem_of_ndindex in e || setoid_rewrite elem_of_ndindex in n;
    naive_solver.
Defined.

Lemma occupied_lt a dim x n :
  shape a !! dim = Some n → occupied a dim x → x < n.
Proof.
  intros Hn (idx & Hin & Hx & _).
  apply in_bounds_lookup in Hin as [_ Hin]. by eapply Hin.
Qed.

(** The projection of [a] on axis [dim], as [bounding_slices] computes it. *)
Lemma any_line_lookup a dim n x :
  shape a !! dim = Some n → x < n →
  data (np_any a (filter (λ i, i ≠ dim) (seq 0 (ndim a)))) !! x
  = Some (bool_decide (occupied a dim x)).
Proof.
  intros Hn Hx.
  assert (dim < ndim a) as Hdim by (by eapply lookup_lt_Some).
  unfold np_any. rewrite keep_one_axis by done. unfold select at 1.
  cbn [fmap list_fmap]. unfold fromfunction. cbn [data].
  rewrite (list_lookup_total_correct _ _ _ Hn).
  rewrite ndindex_singleton, <-list_fmap_compose, list_lookup_fmap.
  rewrite lookup_seq_lt by done. simpl. f_equal.
  apply eq_bool_prop_intro. rewrite bool_decide_spec.
  rewrite Is_true_true, existsb_exists. unfold occupied. split.
  - intros (idx & Hidx & [Hsel Htr]%andb_true_iff).
    exists idx. apply list_elem_of_In, elem_of_ndindex in Hidx.
    split_and!; [done| |done].
    apply bool_decide_eq_true_1 in Hsel. unfold select in Hsel.
    injection Hsel as Hsel. rewrite <-Hsel.
    apply list_lookup_lookup_total_lt.
    rewrite (in_bounds_length _ _ Hidx). done.
  - intros (idx & Hidx & Hsel & Htr). exists idx.
    split; [by apply list_elem_of_In, elem_of_ndindex|].
    apply andb_true_iff. split; [|done].
    apply bool_decide_eq_true_2. unfold select. simpl.
    by rewrite (list_lookup_total_correct _ _ _ Hsel).
Qed.

Lemma any_line_length a dim n :
  shape a !! dim = Some n →
  length (data (np_any a (filter (λ i, i ≠ dim) (seq 0 (ndim a))))) = n.
Proof.
  intros Hn.
  assert (dim < ndim a) as Hdim by (by eapply lookup_lt_Some).
  unfold np_any. rewrite keep_one_axis by done. unfold select at 1.
  cbn [fmap list_fmap]. unfold fromfunction. cbn [data].
  rewrite (list_lookup_total_correct _ _ _ Hn).
  by rewrite ndindex_singleton, !length_fmap, length_seq.
Qed.

(** [sl] spans the first to the last position of an axis of extent [n]
    that satisfies [P], and is the empty range at 0 when there is none. *)
Definition spans (P : nat → Prop) (n : nat) (sl : Z * Z) : Prop :=
  (sl = (0, 0)%Z ∧ ∀ x, x < n → ¬ P x)
  ∨ (∃ lo hi, sl = (Z.of_nat lo, Z.of_nat hi + 1)%Z
              ∧ P lo ∧ P hi ∧ hi < n ∧ ∀ x, x < n → P x → lo ≤ x ≤ hi).

Lemma bounding_slices_spans a :
  ∃ slices,
    bounding_slices a = Ok slices
    ∧ Forall2 (λ dim sl, ∃ n, shape (atleast_1d a) !! dim = Some n
                              ∧ spans (occupied (atleast_1d a) dim) n sl)
        (seq 0 (ndim (atleast_1d a))) slices.
Proof.
  unfold bounding_slices. set (a' := atleast_1d a).
  apply traverse_ok_Forall2. intros dim Hdim%elem_of_seq.
  destruct (lookup_lt_is_Some_2 (shape a') dim) as [n Hn]; [unfold ndim in Hdim; lia|].
  set (line := np_any a' _).
  assert (nonzero line
          = filter (λ x, occupied a' dim x) (seq 0 n)) as Hnz.
  { rewrite nonzero_filter. unfold line.
    rewrite (any_line_length _ _ n) by done.
    apply list_filter_iff_in. intros x Hx%elem_of_seq.
    rewrite (any_line_lookup _ _ n) by (done || lia). simpl.
    unfold truthy, bool_truthy, id.
    split; [intros [= Hb]; by apply bool_decide_eq_true_1 in Hb|].
    intros Ho. f_equal. by apply bool_decide_eq_true_2. }
  rewrite Hnz. set (l := filter _ _).
  case_decide as Hlen.
  - assert (0 < length l) as Hpos by lia.
    destruct (lookup_lt_is_Some_2 l 0 Hpos) as [lo Hlo].
    destruct (lookup_lt_is_Some_2 l (length l - 1)) as [hi Hhi]; [lia|].
    rewrite (take_index_first _ _ Hlo), (take_index_last _ _ Hhi). simpl.
    exists (Z.of_nat lo, (Z.of_nat hi + 1)%Z). split; [done|].
    exists n. split; [done|]. right. exists lo, hi. split; [done|].
    pose proof (list_elem_of_lookup_2 _ _ _ Hlo) as Hlo_in.
    pose proof (list_elem_of_lookup_2 _ _ _ Hhi) as Hhi_in.
    apply elem_of_filter_seq in Hlo_in as [? ?], Hhi_in as [? ?].
    split_and!; [done|done|lia|]. intros x Hx HP. split.
    + eapply (head_filter_seq _ 0 n); [by rewrite head_lookup|lia|done].
    + assert (last l = Some hi) as Hlast.
      { rewrite last_lookup, <-Hhi. f_equal. lia. }
      eapply (last_filter_seq _ 0 n); [exact Hlast|lia|done].
  - exists (0, 0)%Z. split; [done|]. exists n. split; [done|]. left.
    split; [done|]. intros x Hx HP.
    assert (x ∈ l) as Hin by (apply elem_of_filter_seq; split; [done|lia]).
    destruct l; [by apply elem_of_nil in Hin|]. simpl in Hlen. lia.
Qed.

End bounding_facts.

Section bounding_slices_claim.
Local Close Scope Z_scope.
Context {A : Type} `{Inhabited A} `{Truthy A}.
Implicit Types (a : ndarray A).

Lemma in_bounds_no_zero sh idx : in_bounds sh idx → 0 ∉ sh.
Proof.
  intros Hin [k Hk]%list_elem_of_lookup.
  apply in_bounds_lookup in Hin as [Hlen Hin].
  destruct (lookup_lt_is_Some_2 idx k) as [i Hi].
  { rewrite Hlen. by eapply lookup_lt_Some. }
  specialize (Hin k i 0 Hi Hk). lia.
Qed.

(** C9: [bounding_slices] never raises and returns one range per axis of
    the input (one range for a rank-0 input, which is read as one
    element), with [0 <= lo <= hi <= extent]; the range of an axis covers
    every position of the axis that holds a nonzero element and is [0, 0)
    when there is none, so every range is [0, 0) for an array without
    nonzero element and for an array with an axis of extent 0. *)
Theorem bounding_slices_ranges a :
  ∃ slices,
    bounding_slices a = Ok slices
    ∧ length slices = ndim (atleast_1d a)
    ∧ (ndim a ≠ 0 → length slices = ndim a)
    ∧ (∀ dim lo hi, slices !! dim = Some (lo, hi) →
         ∃ n, shape (atleast_1d a) !! dim = Some n
            ∧ (0 ≤ lo ≤ hi)%Z ∧ (hi ≤ Z.of_nat n)%Z
            ∧ ((∀ x, ¬ occupied (atleast_1d a) dim x) → (lo, hi) = (0, 0)%Z)
            ∧ (∀ x, occupied (atleast_1d a) dim x → (lo ≤ Z.of_nat x < hi)%Z))
    ∧ ((∀ idx, in_bounds (shape (atleast_1d a)) idx
               → truthy (atleast_1d a !!! idx) = false)
       → ∀ sl, sl ∈ slices → sl = (0, 0)%Z)
    ∧ (0 ∈ shape a → ∀ sl, sl ∈ slices → sl = (0, 0)%Z).
Proof.
  destruct (bounding_slices_spans a) as (slices & Hok & Hall).
  exists slices. set (a' := atleast_1d a) in *.
  assert (length slices = ndim a') as Hlen.
  { apply Forall2_length in Hall. by rewrite length_seq in Hall. }
  assert (∀ dim sl, slices !! dim = Some sl →
            ∃ n, shape a' !! dim = Some n ∧ spans (occupied a' dim) n sl) as Hdim.
  { intros dim sl Hsl.
    destruct (Forall2_lookup_r _ _ _ _ _ Hall Hsl) as (d & Hd & Hspan).
    apply lookup_seq in Hd as [-> _]. done. }
  assert ((∀ idx, in_bounds (shape a') idx → truthy (a' !!! idx) = false)
          → ∀ sl, sl ∈ slices → sl = (0, 0)%Z) as Hempty.
  { intros Hfalse sl [dim Hsl]%list_elem_of_lookup.
    destruct (Hdim dim sl Hsl) as (n & Hn & [[-> _]|(lo & hi & _ & Hlo & _)]); [done|].
    destruct Hlo as (idx & Hin & _ & Htrue). rewrite Hfalse in Htrue; done. }
  split_and!; [done|done| | |done|].
  - intros Hnd. rewrite Hlen. unfold a', atleast_1d. by rewrite decide_False.
  - intros dim lo hi Hsl.
    destruct (Hdim dim _ Hsl) as (n & Hn & Hspan). exists n. split; [done|].
    destruct Hspan as [[[= -> ->] Hnone]|(l & h & [= -> ->] & Hl & Hh & Hhn & Hbox)].
    + split; [lia|]. split; [lia|]. split; [done|].
      intros x Hx. exfalso. apply (Hnone x); [|done]. by eapply occupied_lt.
    + pose proof (Hbox l (occupied_lt _ _ _ _ Hn Hl) Hl).
      split; [lia|]. split; [lia|]. split.
      * intros Hnone. by destruct (Hnone l).
      * intros x Hx. pose proof (Hbox x (occupied_lt _ _ _ _ Hn Hx) Hx). lia.
  - intros Hzero. apply Hempty. intros idx Hin. exfalso.
    apply in_bounds_no_zero in Hin. apply Hin.
    unfold a', atleast_1d. case_decide as Hnd; [|done].
    apply nil_length_inv in Hnd. rewrite Hnd in Hzero. by apply elem_of_nil in Hzero.
Qed.

End bounding_slices_claim.

(** The boundary case of the design document: an array of shape (0, 10). *)
Example bounding_slices_zero_size :
  bounding_slices (NdArray [0; 10]%nat ([] : list Z)) = Ok [(0, 0); (0, 0)].
Proof. reflexivity. Qed.

(** ** Grid assembler: the worked example *)

(** C7: the doctest of [assemble_arrays], with the default background 0,
    'center' alignment, spacing 0 and no rounding. *)
Theorem assemble_arrays_doctest :
  assemble_arrays
    [array2 [[1; 2; 3]]; array2 [[5]; [6]]; array2 [[7]];
     array2 [[8; 9]]; array2 [[3; 4; 5]]]
    [2; 3] (py_int 0)
    (NdArray [] ["center"]) (NdArray [] [0]) (NdArray [] [false])
  = Ok (array2 [[1; 2; 3; 0; 5; 0; 7];
                [0; 0; 0; 0; 6; 0; 0];
                [8; 9; 0; 3; 4; 5; 0]]).
Proof. reflexivity. Qed.

(** ** Pointwise reasoning on shapes and indices *)

Ltac len :=
  repeat (progress rewrite ?length_app, ?length_zip_with, ?length_drop,
            ?length_take, ?length_replicate, ?length_imap, ?length_fmap,
            ?length_seq, ?length_cons, ?length_nil);
  try lia.

Tactic Notation "len" "in" hyp(H) :=
  repeat (progress rewrite ?length_app, ?length_zip_with, ?length_drop,
            ?length_take, ?length_replicate, ?length_imap, ?length_fmap,
            ?length_seq, ?length_cons, ?length_nil in H).

Section pointwise.
Local Close Scope Z_scope.
Implicit Types (l sh idx starts ext src dst : list nat).

Lemma Forall2_total {B C : Type} `{Inhabited B} `{Inhabited C}
    (P : B → C → Prop) (l : list B) (k : list C) :
  Forall2 P l k ↔ length l = length k ∧ ∀ i, i < length l → P (l !!! i) (k !!! i).
Proof.
  rewrite Forall2_same_length_lookup. split; intros [Hlen HP]; (split; [done|]).
  - intros i Hi. apply (HP i); apply list_lookup_lookup_total_lt; lia.
  - intros i x y Hx Hy. pose proof (lookup_lt_Some _ _ _ Hx).
    rewrite <-(list_lookup_total_correct _ _ _ Hx),
            <-(list_lookup_total_correct _ _ _ Hy). by apply HP.
Qed.

Lemma list_eq_total {B : Type} `{Inhabited B} (l1 l2 : list B) :
  length l1 = length l2 → (∀ k, k < length l1 → l1 !!! k = l2 !!! k) → l1 = l2.
Proof.
  intros Hlen Heq. apply list_eq. intros k.
  destruct (decide (k < length l1)).
  - rewrite !list_lookup_lookup_total_lt by lia. f_equal. by apply Heq.
  - rewrite !lookup_ge_None_2; [done|lia|lia].
Qed.

Lemma in_bounds_total sh idx :
  in_bounds sh idx ↔
  length idx = length sh ∧ ∀ k, k < length sh → idx !!! k < sh !!! k.
Proof.
  unfold in_bounds. rewrite Forall2_total. split; intros [Hlen HP]; (split; [done|]).
  - intros k Hk. apply HP. lia.
  - intros k Hk. apply HP. lia.
Qed.

Lemma lookup_total_zip {B C : Type} `{Inhabited B} `{Inhabited C}
    (l : list B) (k : list C) (i : nat) :
  i < length l → i < length k → zip l k !!! i = (l !!! i, k !!! i).
Proof.
  intros Hl Hk. apply list_lookup_total_correct, lookup_zip_with_Some.
  exists (l !!! i), (k !!! i).
  by rewrite !list_lookup_lookup_total_lt by done.
Qed.

Lemma lookup_total_zip_with_nat {B C : Type} `{Inhabited B} `{Inhabited C}
    (f : B → C → nat) (l : list B) (k : list C) (i : nat) :
  i < length l → i < length k → zip_with f l k !!! i = f (l !!! i) (k !!! i).
Proof. apply lookup_total_zip_with. Qed.

Lemma lookup_total_imap_nat (f : nat → nat → nat) l i :
  i < length l → imap f l !!! i = f i (l !!! i).
Proof. apply list_lookup_total_imap. Qed.

Lemma lookup_total_fst (l : list (nat * nat)) i :
  i < length l → l.*1 !!! i = (l !!! i).1.
Proof. apply (list_lookup_total_fmap fst). Qed.

Lemma in_box_total starts ext idx :
  length starts = length ext →
  in_box starts ext idx ↔
  length idx = length ext
  ∧ ∀ k, k < length ext → starts !!! k ≤ idx !!! k < starts !!! k + ext !!! k.
Proof.
  intros Hse. unfold in_box. rewrite Forall2_total.
  rewrite length_zip_with, Hse, Nat.min_id.
  split; intros [Hlen HP]; (split; [done|]).
  - intros k Hk. specialize (HP k ltac:(lia)).
    rewrite lookup_total_zip in HP by lia. done.
  - intros k Hk. rewrite lookup_total_zip by lia. apply HP. lia.
Qed.

Lemma broadcastable_suffix pre src : broadcastable src (pre ++ src).
Proof.
  unfold broadcastable. rewrite length_app.
  replace (length pre + length src - length src) with (length pre) by lia.
  rewrite drop_app_length. apply Forall2_total. split; [done|]. auto.
Qed.

Lemma broadcastable_scalar dst : broadcastable [] dst.
Proof.
  unfold broadcastable. simpl. rewrite Nat.sub_0_r, drop_all. constructor.
Qed.

Lemma broadcast_index_in_bounds src dst idx :
  broadcastable src dst → in_bounds dst idx →
  in_bounds src (broadcast_index src idx).
Proof.
  unfold broadcastable. rewrite Forall2_total, !in_bounds_total, length_drop.
  intros [Hlen Hbc] [Hlen' Hin]. unfold broadcast_index.
  split; [len|]. intros k Hk.
  rewrite lookup_total_zip_with_nat by len.
  specialize (Hbc k Hk). rewrite lookup_total_drop in *.
  case_decide; [lia|].
  specialize (Hin (length idx - length src + k) ltac:(lia)).
  rewrite Hlen' in *. lia.
Qed.

Lemma broadcast_index_suffix src idx :
  in_bounds src (drop (length idx - length src) idx) →
  broadcast_index src idx = drop (length idx - length src) idx.
Proof.
  rewrite in_bounds_total. intros [Hlen Hin]. unfold broadcast_index.
  apply list_eq_total; [len|]. intros k Hk.
  rewrite length_zip_with in Hk. rewrite lookup_total_zip_with_nat by lia.
  case_decide as Hone; [|done]. specialize (Hin k ltac:(lia)). lia.
Qed.

End pointwise.

(** ** Border padder *)

Section pad_facts.
Local Close Scope Z_scope.
Context `{ElemDomain}.
Implicit Types (array value : nparray) (widths : list (nat * nat)).

(** An array of element type [d] stores the elements of [v] as they are. *)
Definition unchanged (d : dtype) (v : nparray) : Prop :=
  np_dtype v = d ∨ ∀ x, x ∈ data v → astype d x = Some x.

(** The padded array: [widths] gives the (before, after) widths of every
    axis, and the border shows [value], which spans the axes from [p] on. *)
Definition padded array value widths (p : nat) : nparray :=
  NpArray (np_dtype array)
    (fromfunction (zip_with (λ (w : nat * nat) n, w.1 + n + w.2) widths (shape array))
       (λ idx, if decide (in_box widths.*1 (shape array) idx)
               then np_arr array !!! zip_with Nat.sub idx widths.*1
               else np_arr value !!! drop p idx)).

Lemma convert_as_is d vd (b : ndarray elem) :
  (vd = d ∨ ∀ x, x ∈ data b → astype d x = Some x) →
  convert d (NpArray vd b) = Ok b.
Proof.
  intros Hconv. unfold convert. simpl. case_decide as Hd; [done|].
  destruct Hconv as [?|Hx]; [done|].
  rewrite (traverse_ok_fmap _ id).
  - simpl. rewrite list_fmap_id. by destruct b.
  - intros x Hin. unfold cast. by rewrite Hx.
Qed.

Lemma elem_of_broadcast (v : ndarray elem) sh x :
  wf v → broadcastable (shape v) sh →
  x ∈ data (fromfunction sh (λ r, v !!! broadcast_index (shape v) r)) →
  x ∈ data v.
Proof.
  intros Hwf Hbc. simpl. intros (r & -> & Hr)%list_elem_of_fmap.
  apply elem_of_ndindex in Hr.
  pose proof (broadcast_index_in_bounds _ _ _ Hbc Hr) as Hin.
  pose proof (lookup_lookup_total_ndarray _ _ Hwf Hin) as Hlook.
  unfold lookup, ndarray_lookup in Hlook. rewrite decide_True in Hlook by done.
  by eapply list_elem_of_lookup_2.
Qed.

(** Filling a pad area with [v]: the broadcast of [v], as it is. *)
Lemma fill_area d (v : nparray) area :
  broadcastable (shape v) area → (wf v ∧ unchanged d v) ∨ 0 ∈ area →
  (np_broadcast_to (np_arr v) area ≫= λ b, convert d (NpArray (np_dtype v) b))
  = Ok (fromfunction area (λ r, np_arr v !!! broadcast_index (shape v) r)).
Proof.
  intros Hbc Hconv. unfold np_broadcast_to. rewrite decide_True by done.
  simpl. apply convert_as_is. destruct Hconv as [[Hwf [?|Hx]]|Hz]; [by left|right..].
  - intros x Hin%elem_of_broadcast; auto.
  - rewrite fromfunction_empty by done. by intros x ?%elem_of_nil.
Qed.

Lemma as_pairs_full {X : Type} (x : list (X * X)) nd :
  length x = nd → as_pairs x nd = Ok x.
Proof.
  intros Hlen. unfold as_pairs. destruct x as [|p [|q x]]; simpl in *.
  - by rewrite decide_True.
  - by subst.
  - by rewrite decide_True.
Qed.

Lemma as_index_pairs_full widths nd :
  length widths = nd → nd ≠ 0 →
  as_index_pairs ((λ w : nat * nat, (Z.of_nat w.1, Z.of_nat w.2)) <$> widths) nd
  = Ok widths.
Proof.
  intros Hlen Hnd. unfold as_index_pairs.
  assert (Forall (λ w : Z * Z, (0 ≤ w.1)%Z ∧ (0 ≤ w.2)%Z)
            ((λ w : nat * nat, (Z.of_nat w.1, Z.of_nat w.2)) <$> widths)) as Hpos.
  { apply Forall_forall. intros [a b] ([a' b'] & [= -> ->] & _)%list_elem_of_fmap.
    simpl. lia. }
  assert (((λ w : Z * Z, (Z.to_nat w.1, Z.to_nat w.2))
           <$> ((λ w : nat * nat, (Z.of_nat w.1, Z.of_nat w.2)) <$> widths))
          = widths) as Hid.
  { rewrite <-list_fmap_compose. rewrite <-(list_fmap_id widths) at 2.
    apply list_fmap_ext. intros ? [a b] _. simpl. by rewrite !Nat2Z.id. }
  destruct widths as [|w widths]; [done|]. rewrite fmap_cons in *.
  rewrite decide_True by done.
  rewrite as_pairs_full by (by rewrite length_cons, length_fmap).
  simpl. f_equal. exact Hid.
Qed.

Lemma pad_area_lookup new_shape sh k width j :
  k < length sh → length new_shape = length sh → j < length sh →
  pad_area new_shape sh k width !!! j
  = if decide (j < k) then new_shape !!! j
    else if decide (j = k) then width else sh !!! j.
Proof.
  intros Hk Hlen Hj. unfold pad_area.
  case_decide as Hjk.
  - rewrite lookup_total_app_l by len. by rewrite lookup_total_take_lt.
  - rewrite lookup_total_app_r by len. rewrite length_take.
    replace (k `min` length new_shape) with k by lia.
    case_decide as Hjk'.
    + subst. by rewrite Nat.sub_diag.
    + rewrite lookup_total_app_r by len. rewrite lookup_total_drop. simpl.
      f_equal. lia.
Qed.

Lemma length_pad_area new_shape sh k width :
  k < length sh → length new_shape = length sh →
  length (pad_area new_shape sh k width) = length sh.
Proof. intros. unfold pad_area. len. Qed.

Lemma pad_area_value new_shape sh k width p :
  k < p → p ≤ length sh → length new_shape = length sh →
  broadcastable (drop p sh) (pad_area new_shape sh k width).
Proof.
  intros Hk Hp Hlen. unfold pad_area.
  rewrite <-(take_drop (p - S k) (drop (S k) sh)), drop_drop.
  replace (S k + (p - S k)) with p by lia.
  rewrite !app_assoc. apply broadcastable_suffix.
Qed.

Lemma pad_area_zero new_shape sh k : 0 ∈ pad_area new_shape sh k 0.
Proof. unfold pad_area. rewrite elem_of_app. right. by left. Qed.

End pad_facts.

Section pad_spec.
Local Close Scope Z_scope.
Context `{ElemDomain}.
Implicit Types (array value : nparray) (widths : list (nat * nat)).
Implicit Types (before sh idx : list nat).

Lemma outside_axis_None before sh idx :
  length before = length sh → length idx = length sh →
  outside_axis before sh idx = None ↔ in_box before sh idx.
Proof.
  intros Hb Hi. unfold outside_axis. rewrite last_None, in_box_total by done.
  split.
  - intros Hnil. split; [done|]. intros k Hk.
    destruct (decide (before !!! k ≤ idx !!! k < before !!! k + sh !!! k)) as [|Hout];
      [done|].
    exfalso. eapply (filter_nil_not_elem_of _ _ k Hnil); [exact Hout|].
    apply elem_of_seq. lia.
  - intros [_ Hin]. apply list_filter_none. intros k Hk%elem_of_seq Hout.
    apply Hout, Hin. lia.
Qed.

Lemma outside_axis_Some before sh idx k :
  outside_axis before sh idx = Some k →
  k < length sh
  ∧ ¬ (before !!! k ≤ idx !!! k < before !!! k + sh !!! k)
  ∧ ∀ j, k < j < length sh → before !!! j ≤ idx !!! j < before !!! j + sh !!! j.
Proof.
  unfold outside_axis. intros Hlast.
  pose proof (last_Some_elem_of _ _ Hlast) as [Hout Hk]%elem_of_filter_seq.
  split; [lia|]. split; [done|]. intros j Hj.
  destruct (decide (before !!! j ≤ idx !!! j < before !!! j + sh !!! j)) as [|Hj'];
    [done|].
  pose proof (last_filter_seq _ 0 _ _ Hlast j ltac:(lia) Hj'). lia.
Qed.

Lemma wf_scalar d x : wf (np_arr (scalar d x)).
Proof. done. Qed.

(** [np.pad] as [pad_array] calls it. *)
Lemma np_pad_padded array value widths p :
  ndim array ≠ 0 → length widths = ndim array → p ≤ ndim array →
  (∀ k, p ≤ k < ndim array → widths !!! k = (0, 0)) →
  shape value = drop p (shape array) →
  (wf value ∧ unchanged (np_dtype array) value)
  ∨ (∀ k, k < ndim array → widths !!! k = (0, 0)) →
  np_pad array ((λ w : nat * nat, (Z.of_nat w.1, Z.of_nat w.2)) <$> widths)
    (replicate p (value, value)
     ++ replicate (ndim array - p) (scalar int_ (of_int 0), scalar int_ (of_int 0)))
  = Ok (padded array value widths p).
Proof.
  intros Hnd Hlen Hp Hzero Hshape Hconv. unfold np_pad, ndim in *.
  set (sh := shape array) in *. set (d := np_dtype array) in *.
  set (zero := scalar int_ (of_int 0)).
  set (cval := replicate p (value, value) ++ _).
  rewrite as_index_pairs_full by done. cbn [mbind result_bind].
  assert (length cval = length sh) as Hcval by (unfold cval; len).
  rewrite as_pairs_full by done. cbn [mbind result_bind].
  set (ns := zip_with (λ (w : nat * nat) n, w.1 + n + w.2) widths sh).
  assert (length ns = length sh) as Hns by (unfold ns; len).
  set (bc := λ (v : nparray) area,
         fromfunction area (λ r, np_arr v !!! broadcast_index (shape v) r)).
  set (g := λ x : nat * ((nat * nat) * (nparray * nparray)),
         (bc x.2.2.1 (pad_area ns sh x.1 x.2.1.1),
          bc x.2.2.2 (pad_area ns sh x.1 x.2.1.2))).
  assert (∀ k, k < length sh →
            zip (seq 0 (length sh)) (zip widths cval) !! k
            = Some (k, (widths !!! k,
                        if decide (k < p) then (value, value) else (zero, zero))))
    as Hzip.
  { intros k Hk. apply lookup_zip_with_Some. eexists _, _. split; [done|].
    split; [by apply lookup_seq_lt|].
    apply lookup_zip_with_Some. eexists _, _. split; [done|].
    split; [apply list_lookup_lookup_total_lt; lia|].
    unfold cval. case_decide.
    - rewrite lookup_app_l by len. by apply lookup_replicate_2.
    - rewrite lookup_app_r by len. apply lookup_replicate_2. len. }
  erewrite (traverse_ok_fmap _ g).
  2:{ intros x [k Hx]%list_elem_of_lookup.
      pose proof (lookup_lt_Some _ _ _ Hx) as Hk.
      rewrite length_zip_with, length_seq in Hk.
      rewrite Hzip in Hx by lia. injection Hx as <-. unfold g. cbn [fst snd].
      assert (k < p → ∀ width,
                width = 0 ∨ (wf value ∧ unchanged d value) →
                (np_broadcast_to (np_arr value) (pad_area ns sh k width)
                   ≫= λ b, convert d (NpArray (np_dtype value) b))
                = Ok (bc value (pad_area ns sh k width))) as Hvalue.
      { intros Hkp width Hw. apply fill_area.
        - rewrite Hshape. apply pad_area_value; [done|lia|done].
        - destruct Hw as [->|?]; [right; apply pad_area_zero|by left]. }
      assert (∀ width, width = 0 →
                (np_broadcast_to (np_arr zero) (pad_area ns sh k width)
                   ≫= λ b, convert d (NpArray (np_dtype zero) b))
                = Ok (bc zero (pad_area ns sh k width))) as Hfill0.
      { intros width ->. apply fill_area; [apply broadcastable_scalar|].
        right. apply pad_area_zero. }
      case_decide as Hkp; cbn [fst snd].
      - rewrite !Hvalue; [done|done| |done|].
        + destruct Hconv as [?|Hz]; [by right|left]. by rewrite Hz by lia.
        + destruct Hconv as [?|Hz]; [by right|left]. by rewrite Hz by lia.
      - rewrite !Hfill0; [done| |]; by rewrite Hzero by lia. }
  cbn [mbind result_bind]. unfold padded. fold sh d ns. do 2 f_equal.
  apply fromfunction_ext. intros idx Hidx.
  assert (length widths.*1 = length sh) as Hbefore by len.
  apply in_bounds_total in Hidx as [Hilen Hidx]. rewrite Hns in Hilen, Hidx.
  assert (∀ j, j < length sh → widths.*1 !!! j = (widths !!! j).1) as Hb.
  { intros j Hj. apply lookup_total_fst. lia. }
  assert (∀ j, j < length sh →
            ns !!! j = (widths !!! j).1 + sh !!! j + (widths !!! j).2) as Hnsj.
  { intros j Hj. unfold ns. by rewrite lookup_total_zip_with_nat by lia. }
  destruct (outside_axis widths.*1 sh idx) as [k|] eqn:Hout.
  - apply outside_axis_Some in Hout as (Hk & Hkout & Hlater).
    destruct (decide (in_box widths.*1 sh idx)) as [Hin|_].
    { exfalso. apply in_box_total in Hin as [_ Hin]; [|done]. apply Hkout, Hin, Hk. }
    assert (k < p) as Hkp.
    { destruct (decide (k < p)); [done|]. exfalso. apply Hkout.
      specialize (Hidx k Hk). rewrite Hnsj, Hb in * by done.
      rewrite Hzero in * by lia. simpl in *. lia. }
    erewrite (list_lookup_total_correct (g <$> _) k);
      [|by rewrite list_lookup_fmap, Hzip].
    destruct (decide (k < p)) as [_|?]; [|done]. unfold g. cbn [fst snd].
    assert (∀ width,
              in_bounds (pad_area ns sh k width) (pad_area_index widths.*1 sh idx k) →
              bc value (pad_area ns sh k width) !!! pad_area_index widths.*1 sh idx k
              = np_arr value !!! drop p idx) as Hread.
    { intros width Hin. unfold bc. rewrite lookup_total_fromfunction by done.
      f_equal. rewrite Hshape.
      assert (drop p (pad_area_index widths.*1 sh idx k) = drop p idx) as Hdrop.
      { apply list_eq_total; [unfold pad_area_index; len|].
        intros j Hj. unfold pad_area_index in *.
        rewrite length_drop, length_imap in Hj.
        rewrite !lookup_total_drop, lookup_total_imap_nat by lia.
        rewrite decide_False by lia. rewrite decide_False by lia.
        rewrite Hb, Hzero by lia. simpl. lia. }
      assert (length (pad_area_index widths.*1 sh idx k) - length (drop p sh) = p)
        as Hoff by (unfold pad_area_index; len).
      rewrite broadcast_index_suffix; rewrite Hoff, Hdrop; [done|].
      apply in_bounds_total. split; [len|].
      intros j Hj. rewrite length_drop in Hj. rewrite !lookup_total_drop.
      specialize (Hidx (p + j) ltac:(lia)).
      rewrite Hnsj, Hzero in Hidx by lia. simpl in Hidx. lia. }
    assert (∀ width,
              (if decide (idx !!! k < widths.*1 !!! k)
               then idx !!! k < width
               else idx !!! k - (widths.*1 !!! k + sh !!! k) < width) →
              in_bounds (pad_area ns sh k width) (pad_area_index widths.*1 sh idx k))
      as Hinb.
    { intros width Hw. apply in_bounds_total.
      rewrite length_pad_area by done. unfold pad_area_index.
      split; [len|]. intros j Hj.
      rewrite pad_area_lookup, lookup_total_imap_nat by lia.
      repeat case_decide; subst; try lia;
        first [by apply Hidx | specialize (Hlater j ltac:(lia)); lia]. }
    specialize (Hidx k Hk). rewrite Hnsj in Hidx by done.
    case_decide as Hlow; apply Hread, Hinb.
    + by rewrite Hb in Hlow by done.
    + rewrite Hb in * by done. lia.
  - apply outside_axis_None in Hout; [|done|done]. by rewrite decide_True.
Qed.

End pad_spec.

Section pad_array_facts.
Local Close Scope Z_scope.
Context `{ElemDomain}.
Implicit Types (array value : nparray) (pad : pad_spec).

(** The (before, after) widths that [pad] asks for, on the leading axes. *)
Definition pad_widths array value pad : list (nat * nat) :=
  match pad with
  | PadScalar m => replicate (ndim array - ndim value) (Z.to_nat m, Z.to_nat m)
  | PadPairs l => (λ w : Z * Z, (Z.to_nat w.1, Z.to_nat w.2)) <$> l
  end.

Definition nonneg_pad pad : Prop :=
  match pad with
  | PadScalar m => (0 ≤ m)%Z
  | PadPairs l => Forall (λ w : Z * Z, (0 ≤ w.1)%Z ∧ (0 ≤ w.2)%Z) l
  end.

Definition zero_pad pad : Prop :=
  match pad with
  | PadScalar m => m = 0%Z
  | PadPairs l => Forall (λ w : Z * Z, w = (0, 0)%Z) l
  end.

Lemma zero_pad_nonneg pad : zero_pad pad → nonneg_pad pad.
Proof.
  destruct pad as [m|l]; simpl; [lia|].
  intros Hz. eapply Forall_impl; [exact Hz|]. intros ? ->. simpl. lia.
Qed.

Lemma zero_pad_widths array value pad k :
  zero_pad pad → k < length (pad_widths array value pad) →
  pad_widths array value pad !!! k = (0, 0).
Proof.
  destruct pad as [m|l]; simpl; intros Hz Hk.
  - subst. rewrite length_replicate in Hk. by rewrite lookup_total_replicate_2.
  - rewrite length_fmap in Hk.
    rewrite (list_lookup_total_fmap (λ w : Z * Z, (Z.to_nat w.1, Z.to_nat w.2))) by done.
    rewrite Forall_forall in Hz. by rewrite (Hz (l !!! k)) by (by apply list_elem_of_lookup_total_2).
Qed.

(** A pad other than the empty sequence reaches [np.pad]. *)
Lemma pad_not_empty {B : Type} pad (x y : B) :
  pad ≠ PadPairs [] →
  match pad with PadPairs [] => x | _ => y end = y.
Proof. by destruct pad as [?|[|? ?]]. Qed.

Lemma pad_array_padded array value pad :
  ndim array ≠ 0 → pad ≠ PadPairs [] → nonneg_pad pad →
  length (pad_widths array value pad) ≤ ndim array →
  shape value = drop (length (pad_widths array value pad)) (shape array) →
  (wf value ∧ unchanged (np_dtype array) value) ∨ zero_pad pad →
  pad_array array pad value
  = Ok (padded array value
          (pad_widths array value pad
           ++ replicate (ndim array - length (pad_widths array value pad)) (0, 0))
          (length (pad_widths array value pad))).
Proof.
  intros Hnd Hpad Hpos Hp Hshape Hconv. unfold pad_array.
  set (ws := pad_widths array value pad) in *.
  set (zify := λ w : nat * nat, (Z.of_nat w.1, Z.of_nat w.2)).
  assert (match pad with
          | PadScalar p =>
              if decide (ndim value ≤ ndim array)
              then Ok (replicate (ndim array - ndim value) (p, p))
              else Raise (ValueError "negative dimensions are not allowed")
          | PadPairs l => Ok l
          end = Ok (zify <$> ws)) as ->.
  { unfold ws in *. clear ws. destruct pad as [m|l]; simpl in *.
    - rewrite decide_True.
      2:{ apply (f_equal length) in Hshape. unfold ndim in *.
          rewrite length_drop, length_replicate in Hshape. lia. }
      rewrite fmap_replicate. unfold zify. simpl. by rewrite Z2Nat.id by done.
    - f_equal. rewrite <-list_fmap_compose. rewrite <-(list_fmap_id l) at 1.
      apply Forall_fmap_ext_1. eapply Forall_impl; [exact Hpos|].
      intros [a b] [? ?]. unfold zify. simpl in *. by rewrite !Z2Nat.id by done. }
  cbn [mbind result_bind]. rewrite length_fmap.
  rewrite bool_decide_eq_true_2 by done. cbn [require mbind result_bind].
  rewrite pad_not_empty by done.
  assert ((if decide (length ws < ndim array)
           then (zify <$> ws) ++ replicate (ndim array - length ws) (0, 0)%Z
           else zify <$> ws)
          = zify <$> (ws ++ replicate (ndim array - length ws) (0, 0))) as ->.
  { rewrite fmap_app, fmap_replicate. case_decide; [done|].
    replace (ndim array - length ws) with 0 by lia. by rewrite app_nil_r. }
  apply np_pad_padded; [done|len|done| |done|].
  - intros k Hk. rewrite lookup_total_app_r by lia.
    apply lookup_total_replicate_2. lia.
  - destruct Hconv as [?|Hz]; [by left|right]. intros k Hk.
    destruct (decide (k < length ws)).
    + rewrite lookup_total_app_l by done. by apply zero_pad_widths.
    + rewrite lookup_total_app_r by lia. apply lookup_total_replicate_2. lia.
Qed.

Lemma padded_zero array value (widths : list (nat * nat)) p :
  wf array → length widths = ndim array →
  (∀ k, k < ndim array → widths !!! k = (0, 0)) →
  padded array value widths p = array.
Proof.
  intros Hwf Hlen Hz. unfold padded, ndim in *.
  assert (zip_with (λ (w : nat * nat) n, w.1 + n + w.2) widths (shape array)
          = shape array) as ->.
  { apply list_eq_total; [len|]. intros k Hk. rewrite length_zip_with in Hk.
    rewrite lookup_total_zip_with_nat, Hz by lia. simpl. lia. }
  destruct array as [d a]. simpl in *. f_equal.
  transitivity (fromfunction (shape a) (λ idx, a !!! idx));
    [|by apply fromfunction_lookup_total].
  apply fromfunction_ext. intros idx Hidx.
  apply in_bounds_total in Hidx as [Hilen Hidx].
  rewrite decide_True.
  2:{ apply in_box_total; [len|]. split; [done|]. intros k Hk.
      rewrite lookup_total_fst, Hz by lia. simpl. specialize (Hidx k Hk). lia. }
  f_equal. apply list_eq_total; [len|]. intros k Hk. rewrite length_zip_with in Hk.
  rewrite lookup_total_zip_with_nat by (rewrite ?length_fmap; lia).
  rewrite lookup_total_fst, Hz by lia. simpl. lia.
Qed.

End pad_array_facts.

Section pad_array_zero.
Local Close Scope Z_scope.
Context `{ElemDomain}.
Implicit Types (array value : nparray) (pad : pad_spec).



(** A zero pad, not the empty sequence, that passes the shape check of
    [pad_array] gives the array back. *)
Lemma pad_array_zero_ok array value pad :
  wf array → zero_pad pad → pad ≠ PadPairs [] → ndim array ≠ 0 →
  length (pad_widths array value pad) ≤ ndim array →
  shape value = drop (length (pad_widths array value pad)) (shape array) →
  pad_array array pad value = Ok array.
Proof.
  intros Hwf Hz Hpad Hnd Hp Hshape.
  rewrite pad_array_padded; [|done|done|by apply zero_pad_nonneg|done|done|by right].
  f_equal. apply padded_zero; [done|len|]. intros k Hk.
  destruct (decide (k < length (pad_widths array value pad))).
  - rewrite lookup_total_app_l by done. by apply zero_pad_widths.
  - rewrite lookup_total_app_r by lia. apply lookup_total_replicate_2. lia.
Qed.


End pad_array_zero.



(** ** Bounding crop *)

Section crop_lists.
Local Close Scope Z_scope.
Implicit Types (sh idx pre s : list nat).

Lemma broadcast_rev_prefix rs rp : broadcast_rev (rs ++ rp) rs = Some (rs ++ rp).
Proof.
  induction rs as [|n rs IH]; simpl; [by destruct rp|].
  rewrite IH. simpl. by rewrite decide_True.
Qed.

Lemma broadcast_shapes_suffix pre s : broadcast_shapes (pre ++ s) s = Ok (pre ++ s).
Proof.
  unfold broadcast_shapes. rewrite reverse_app, broadcast_rev_prefix.
  by rewrite <-reverse_app, reverse_involutive.
Qed.

Lemma broadcast_index_self sh idx :
  in_bounds sh idx → broadcast_index sh idx = idx.
Proof.
  intros Hin. pose proof (in_bounds_length _ _ Hin) as Hlen.
  rewrite broadcast_index_suffix; rewrite Hlen, Nat.sub_diag; done.
Qed.

Lemma normalize_axes_range p nd :
  p ≤ nd → normalize_axes (seqZ (Z.of_nat p) (Z.of_nat nd - Z.of_nat p)) nd
           = Ok (seq p (nd - p)).
Proof.
  intros Hp. unfold normalize_axes.
  rewrite (traverse_ok_fmap _ Z.to_nat).
  2:{ intros ax Hax%elem_of_seqZ. unfold normalize_index.
      by rewrite decide_True by lia. }
  cbn [mbind result_bind].
  assert (Z.to_nat <$> seqZ (Z.of_nat p) (Z.of_nat nd - Z.of_nat p)
          = seq p (nd - p)) as ->.
  { unfold seqZ. rewrite <-list_fmap_compose.
    replace (Z.to_nat (Z.of_nat nd - Z.of_nat p)) with (nd - p) by lia.
    replace (seq p (nd - p)) with (seq (p + 0) (nd - p)) by (f_equal; lia).
    rewrite <-fmap_add_seq. apply list_fmap_ext.
    intros ? i _. simpl. lia. }
  rewrite decide_True; [done|]. apply NoDup_seq.
Qed.

Lemma list_filter_all {B : Type} (P : B → Prop) `{∀ x, Decision (P x)} (l : list B) :
  (∀ x, x ∈ l → P x) → filter P l = l.
Proof.
  induction l as [|x l IH]; intros HP; [done|].
  rewrite filter_cons, decide_True by (apply HP; left).
  f_equal. apply IH. intros y Hy. apply HP. by right.
Qed.

Lemma keep_leading_axes p nd :
  p ≤ nd → filter (λ k, k ∉ seq p (nd - p)) (seq 0 nd) = seq 0 p.
Proof.
  intros Hp.
  assert (seq 0 nd = seq 0 p ++ seq p (nd - p)) as ->.
  { replace nd with (p + (nd - p)) at 1 by lia. by rewrite seq_app. }
  rewrite filter_app, list_filter_all, list_filter_none.
  - by rewrite app_nil_r.
  - intros k Hk Hn. done.
  - intros k Hk%elem_of_seq Hk'%elem_of_seq. lia.
Qed.

Lemma select_leading p l : p ≤ length l → select (seq 0 p) l = take p l.
Proof.
  intros Hp. unfold select. apply list_eq_total; [len|]. intros k Hk.
  rewrite length_fmap, length_seq in Hk.
  rewrite (list_lookup_total_fmap (λ k, l !!! k)) by len.
  rewrite lookup_total_take_lt by done. f_equal.
  apply list_lookup_total_correct, lookup_seq_lt. done.
Qed.

End crop_lists.

Section crop_facts.
Local Close Scope Z_scope.
Context `{ElemDomain}.
Implicit Types (a array value cropped : nparray) (sh idx before ext : list nat).

(** The element of [array] at [idx] differs from the reference value
    there, as numpy's [!=] compares them. *)
Definition differs array value idx : Prop :=
  elem_ne (np_arr array !!! idx)
    (np_arr value !!! drop (ndim array - ndim value) idx) = true.

#[local] Instance differs_dec array value idx : Decision (differs array value idx).
Proof. unfold differs. apply _. Defined.

Lemma shape_trailing a value :
  shape value = drop (ndim a - ndim value) (shape a) →
  ndim value ≤ ndim a
  ∧ shape a = take (ndim a - ndim value) (shape a) ++ shape value.
Proof.
  intros Hshape. split.
  - apply (f_equal length) in Hshape. unfold ndim in *.
    rewrite length_drop in Hshape. lia.
  - by rewrite Hshape, take_drop.
Qed.

Lemma np_not_equal_trailing a value :
  shape value = drop (ndim a - ndim value) (shape a) →
  ∃ ne, np_not_equal a value = Ok ne
        ∧ shape ne = shape a
        ∧ ∀ idx, in_bounds (shape a) idx →
            ne !!! idx = bool_decide (differs a value idx).
Proof.
  assert (∀ b : bool, b = bool_decide (b = true)) as Hbool by (by intros []).
  intros Hshape. destruct (shape_trailing _ _ Hshape) as [Hvd Happ].
  unfold np_not_equal. set (pre := take _ _) in Happ.
  rewrite Happ, broadcast_shapes_suffix, <-Happ.
  cbn [mbind result_bind]. eexists. split; [done|]. split; [done|].
  intros idx Hin. rewrite lookup_total_fromfunction by done.
  rewrite broadcast_index_self by done.
  pose proof (in_bounds_length _ _ Hin) as Hlen.
  assert (length idx - length (shape value) = ndim a - ndim value) as Hoff.
  { unfold ndim in *. lia. }
  rewrite broadcast_index_suffix; rewrite Hoff; [apply Hbool|].
  rewrite Hshape. apply in_bounds_total in Hin as [_ Hin].
  apply in_bounds_total. split; [len|]. intros k Hk. rewrite length_drop in Hk.
  rewrite !lookup_total_drop. apply Hin. lia.
Qed.

Lemma any_leading (ne : ndarray bool) p :
  p ≤ ndim ne →
  shape (np_any ne (seq p (ndim ne - p))) = take p (shape ne)
  ∧ ∀ j, in_bounds (take p (shape ne)) j →
      np_any ne (seq p (ndim ne - p)) !!! j = true
      ↔ ∃ idx, in_bounds (shape ne) idx ∧ take p idx = j ∧ ne !!! idx = true.
Proof.
  intros Hp. unfold np_any. rewrite keep_leading_axes by done.
  rewrite select_leading by done. split; [done|]. intros j Hj.
  rewrite lookup_total_fromfunction by done. rewrite existsb_exists.
  split.
  - intros (idx & Hidx%list_elem_of_In%elem_of_ndindex & [Hsel Htrue]%andb_true_iff).
    exists idx. split; [done|]. split; [|done].
    apply bool_decide_eq_true_1 in Hsel. rewrite <-Hsel. symmetry.
    apply select_leading. rewrite (in_bounds_length _ _ Hidx). done.
  - intros (idx & Hidx & Hsel & Htrue). exists idx.
    split; [by apply list_elem_of_In, elem_of_ndindex|].
    apply andb_true_iff. split; [|done]. apply bool_decide_eq_true_2.
    rewrite <-Hsel. apply select_leading. rewrite (in_bounds_length _ _ Hidx). done.
Qed.

End crop_facts.

Lemma slice_indices_in_range (b e n : nat) :
  (b + e ≤ n)%nat →
  slice_indices (Z.of_nat b, Z.of_nat (b + e)) n = (b, (b + e)%nat).
Proof.
  intros Hn. unfold slice_indices. simpl.
  rewrite !decide_False by lia. f_equal; lia.
Qed.

Section crop_box.
Local Close Scope Z_scope.
Context `{ElemDomain}.
Implicit Types (a array value cropped : nparray) (sh idx before ext : list nat).

(** [bounding_crop] on an array whose elements that differ from the
    reference value lie in the box [before, before + ext) of the leading
    axes and reach both faces of the box on each of these axes: the box is
    cut out and handed to [pad_array]. *)
Lemma bounding_crop_box a value margin before ext :
  1 ≤ ndim a - ndim value →
  shape value = drop (ndim a - ndim value) (shape a) →
  length before = ndim a → length ext = ndim a →
  (∀ k, k < ndim a → before !!! k + ext !!! k ≤ shape a !!! k) →
  (∀ k, ndim a - ndim value ≤ k < ndim a →
        before !!! k = 0 ∧ ext !!! k = shape a !!! k) →
  (∀ idx, in_bounds (shape a) idx → differs a value idx → in_box before ext idx) →
  (∀ k, k < ndim a - ndim value →
        ∃ lo hi, in_bounds (shape a) lo ∧ in_bounds (shape a) hi
                 ∧ lo !!! k = before !!! k
                 ∧ S (hi !!! k) = before !!! k + ext !!! k
                 ∧ differs a value lo ∧ differs a value hi) →
  bounding_crop a value margin
  = pad_array
      (NpArray (np_dtype a)
         (fromfunction ext (λ idx, np_arr a !!! zip_with Nat.add before idx)))
      margin value.
Proof.
  intros Hp Hshape Hblen Helen Hfit Htail Hbox Htight.
  destruct (shape_trailing _ _ Hshape) as [Hvd _].
  set (p := ndim a - ndim value) in *.
  unfold bounding_crop.
  destruct (np_not_equal_trailing _ _ Hshape) as (ne & -> & Hnesh & Hne).
  cbn [mbind result_bind].
  assert (ndim ne = ndim a) as Hnd by (unfold ndim; by rewrite Hnesh).
  replace (Z.of_nat (ndim a) - Z.of_nat (ndim value))%Z with (Z.of_nat p) by lia.
  rewrite <-Hnd at 1. rewrite normalize_axes_range by lia.
  cbn [mbind result_bind].
  destruct (any_leading ne p ltac:(lia)) as [Hmsh Hmask].
  set (mask := np_any ne _) in *.
  assert (ndim mask = p) as Hmnd.
  { unfold ndim. rewrite Hmsh, Hnesh. len. unfold ndim in *. lia. }
  destruct (bounding_slices_spans mask) as (slices & -> & Hspans).
  cbn [mbind result_bind].
  assert (atleast_1d mask = mask) as Hat.
  { unfold atleast_1d. rewrite decide_False; [done|lia]. }
  rewrite Hat, Hmnd in Hspans.
  (* positions of the mask that are occupied *)
  assert (∀ k x, k < p →
            occupied mask k x ↔
            ∃ idx, in_bounds (shape a) idx ∧ idx !!! k = x ∧ differs a value idx)
    as Hocc.
  { intros k x Hk. unfold occupied. split.
    - intros (j & Hj & Hjk & Htrue). rewrite Hmsh in Hj.
      apply Hmask in Htrue as (idx & Hidx & <- & Htrue); [|done].
      rewrite Hnesh in Hidx. exists idx. split; [done|].
      rewrite Hne in Htrue by done. apply bool_decide_eq_true_1 in Htrue.
      split; [|done]. rewrite lookup_take_lt in Hjk by done.
      by apply list_lookup_total_correct.
    - intros (idx & Hidx & <- & Hdiff). exists (take p idx).
      pose proof Hidx as [Hilen Hidx']%in_bounds_total.
      unfold ndim in *. split_and!.
      + rewrite Hmsh, Hnesh. apply in_bounds_total. split; [len|].
        intros j Hj. rewrite length_take in Hj.
        rewrite !lookup_total_take_lt by lia. apply Hidx'. lia.
      + rewrite lookup_take_lt by done. apply list_lookup_lookup_total_lt. lia.
      + apply Hmask.
        * rewrite Hnesh. apply in_bounds_total. split; [len|].
          intros j Hj. rewrite length_take in Hj.
          rewrite !lookup_total_take_lt by lia. apply Hidx'. lia.
        * exists idx. rewrite Hnesh, Hne by done.
          split_and!; [done|done|]. by apply bool_decide_eq_true_2. }
  assert (slices = (λ k, (Z.of_nat (before !!! k),
                          Z.of_nat (before !!! k + ext !!! k))) <$> seq 0 p)
    as ->.
  { apply list_eq_same_length with p;
      [len|by rewrite <-(Forall2_length _ _ _ Hspans), length_seq|].
    intros k sl sl' Hk Hsl Hsl'.
    rewrite list_lookup_fmap, lookup_seq_lt in Hsl' by done.
    injection Hsl' as <-.
    destruct (Forall2_lookup_r _ _ _ _ _ Hspans Hsl) as (k' & Hk' & n & Hn & Hsp).
    apply lookup_seq in Hk' as [-> _]. simpl in *.
    destruct (Htight k Hk) as (lo & hi & Hlo & Hhi & Hlok & Hhik & Hdlo & Hdhi).
    assert (occupied mask k (before !!! k)) as Hocc_lo.
    { apply Hocc; [done|]. by exists lo. }
    assert (occupied mask k (before !!! k + ext !!! k - 1)) as Hocc_hi.
    { apply Hocc; [done|]. exists hi. split_and!; [done|lia|done]. }
    assert (∀ x, occupied mask k x →
              before !!! k ≤ x < before !!! k + ext !!! k) as Hin.
    { intros x (idx & Hidx & <- & Hdiff)%Hocc; [|done].
      apply Hbox in Hdiff; [|done].
      apply in_box_total in Hdiff as [_ Hdiff]; [|lia]. apply Hdiff. lia. }
    assert (shape mask !! k = Some n) as Hn' by exact Hn.
    destruct Hsp as [[_ Hnone]|(l & h & -> & Hl & Hh & Hhn & Hall)].
    - exfalso. eapply Hnone; [|exact Hocc_lo].
      exact (occupied_lt _ _ _ _ Hn' Hocc_lo).
    - pose proof (Hin _ Hl). pose proof (Hin _ Hh).
      pose proof (Hall _ (occupied_lt _ _ _ _ Hn' Hocc_lo) Hocc_lo).
      pose proof (Hall _ (occupied_lt _ _ _ _ Hn' Hocc_hi) Hocc_hi).
      f_equal; lia. }
  unfold getitem_slices. rewrite length_fmap, length_seq.
  rewrite decide_True by lia. cbn [mbind result_bind].
  assert (region_starts (shape a)
            ((λ k, (Z.of_nat (before !!! k), Z.of_nat (before !!! k + ext !!! k)))
             <$> seq 0 p) = before) as ->.
  { unfold region_starts. apply list_eq_total; [len; unfold ndim in *; lia|].
    intros k Hk. len in Hk. unfold ndim in *.
    destruct (decide (k < p)).
    - rewrite lookup_total_app_l by len.
      rewrite lookup_total_zip_with_nat by len.
      rewrite (list_lookup_total_fmap (λ k, (Z.of_nat (before !!! k), _))) by len.
      rewrite (list_lookup_total_correct (seq 0 p) k k) by (by apply lookup_seq_lt).
      rewrite slice_indices_in_range; [done|]. apply Hfit. lia.
    - rewrite lookup_total_app_r by len.
      rewrite lookup_total_replicate_2 by len.
      symmetry. apply Htail. lia. }
  assert (region_shape (shape a)
            ((λ k, (Z.of_nat (before !!! k), Z.of_nat (before !!! k + ext !!! k)))
             <$> seq 0 p) = ext) as ->; [|done].
  unfold region_shape. apply list_eq_total; [len; unfold ndim in *; lia|].
  intros k Hk. len in Hk. unfold ndim in *.
  destruct (decide (k < p)).
  - rewrite lookup_total_app_l by len.
    rewrite lookup_total_zip_with_nat by len.
    rewrite (list_lookup_total_fmap (λ k, (Z.of_nat (before !!! k), _))) by len.
    rewrite (list_lookup_total_correct (seq 0 p) k k) by (by apply lookup_seq_lt).
    rewrite slice_indices_in_range; [simpl; lia|]. apply Hfit. lia.
  - rewrite lookup_total_app_r by len. rewrite lookup_total_drop.
    rewrite length_zip_with, !length_fmap, !length_seq.
    replace (p + (k - p `min` length (shape a))) with k by lia.
    symmetry. apply Htail. lia.
Qed.

End crop_box.

Section crop_roundtrip.
Local Close Scope Z_scope.
Context `{ElemDomain}.
Implicit Types (a array value cropped : nparray) (sh idx before ext : list nat).

(** Along each leading axis (the axes that the reference value does not
    span), the first and the last slice of [array] hold an element that
    differs from the reference value: [array] is its own bounding box. *)
Definition tight array value : Prop :=
  ∀ k, k < ndim array - ndim value →
    ∃ lo hi, in_bounds (shape array) lo ∧ in_bounds (shape array) hi
             ∧ lo !!! k = 0 ∧ S (hi !!! k) = shape array !!! k
             ∧ differs array value lo ∧ differs array value hi.

Lemma shifted_in_box before sh c :
  length before = length sh → in_bounds sh c →
  in_box before sh (zip_with Nat.add before c)
  ∧ zip_with Nat.sub (zip_with Nat.add before c) before = c.
Proof.
  intros Hlen [Hclen Hc]%in_bounds_total. split.
  - apply in_box_total; [done|]. split; [len|]. intros k Hk.
    rewrite lookup_total_zip_with_nat by lia. specialize (Hc k Hk). lia.
  - apply list_eq_total; [len|]. intros k Hk. len in Hk.
    rewrite !lookup_total_zip_with_nat by len. lia.
Qed.

(** C5 (as amended): padding a tight array by a non-negative margin with
    a reference value of its element type, whose shape is the shape of the
    array beyond at least one leading axis and none of whose elements
    differs from itself (no NaN), succeeds, and cropping the result to its
    bounding box with margin 0 gives the array back. *)
Theorem bounding_crop_pad_array cropped value margin :
  wf cropped → wf value →
  1 ≤ ndim cropped - ndim value →
  shape value = drop (ndim cropped - ndim value) (shape cropped) →
  unchanged (np_dtype cropped) value →
  (∀ x, x ∈ data value → elem_ne x x = false) →
  nonneg_pad margin →
  length (pad_widths cropped value margin) = ndim cropped - ndim value →
  tight cropped value →
  ∃ padded,
    pad_array cropped margin value = Ok padded
    ∧ bounding_crop padded value (PadScalar 0) = Ok cropped.
Proof.
  intros Hwf Hwfv Hp Hshape Hconv Hnan Hpos Hws Htight.
  assert (margin ≠ PadPairs []) as Hmargin.
  { intros ->. simpl in Hws. lia. }
  set (p := ndim cropped - ndim value) in *.
  set (sh := shape cropped) in *.
  set (W := pad_widths cropped value margin
            ++ replicate (ndim cropped - length (pad_widths cropped value margin))
                 (0, 0)).
  assert (length W = length sh) as HW by (unfold W, ndim, sh in *; len).
  assert (∀ k, p ≤ k < length sh → W !!! k = (0, 0)) as HWtail.
  { intros k Hk. unfold W. rewrite lookup_total_app_r by lia.
    apply lookup_total_replicate_2. unfold ndim, sh in *. lia. }
  exists (padded cropped value W p). split.
  { rewrite pad_array_padded;
      [unfold W; by rewrite Hws|unfold p in *; lia|done|done
      |rewrite Hws; unfold p; lia|by rewrite Hws|by left]. }
  set (ns := zip_with (λ (w : nat * nat) n, w.1 + n + w.2) W sh).
  assert (length ns = length sh) as Hns by (unfold ns; len).
  assert (∀ k, k < length sh → ns !!! k = (W !!! k).1 + sh !!! k + (W !!! k).2)
    as Hnsk.
  { intros k Hk. unfold ns. by rewrite lookup_total_zip_with_nat by lia. }
  assert (ndim (padded cropped value W p) = ndim cropped) as Hnd.
  { unfold ndim. simpl. fold sh ns. done. }
  assert (∀ k, k < length sh → W.*1 !!! k = (W !!! k).1) as Hbk.
  { intros k Hk. apply lookup_total_fst. lia. }
  assert (∀ idx, in_bounds ns idx →
            np_arr (padded cropped value W p) !!! idx
            = if decide (in_box W.*1 sh idx)
              then np_arr cropped !!! zip_with Nat.sub idx W.*1
              else np_arr value !!! drop p idx) as Hlook.
  { intros idx Hidx. unfold padded. simpl. fold sh ns.
    by rewrite lookup_total_fromfunction. }
  assert (∀ c, in_bounds sh c →
            in_bounds ns (zip_with Nat.add W.*1 c)
            ∧ drop p (zip_with Nat.add W.*1 c) = drop p c) as Hshift.
  { intros c [Hclen Hc]%in_bounds_total. split.
    - apply in_bounds_total. split; [len|]. intros k Hk. rewrite Hns in Hk.
      rewrite lookup_total_zip_with_nat by len.
      rewrite Hnsk, Hbk by done. specialize (Hc k Hk). lia.
    - apply list_eq_total; [len|]. intros k Hk. len in Hk.
      rewrite !lookup_total_drop, lookup_total_zip_with_nat by len.
      rewrite Hbk, HWtail by lia. done. }
  rewrite (bounding_crop_box _ _ _ W.*1 sh); rewrite ?Hnd; fold p.
  - (* the box that is cut out is the array *)
    assert (NpArray (np_dtype (padded cropped value W p))
              (fromfunction sh
                 (λ idx, np_arr (padded cropped value W p)
                         !!! zip_with Nat.add W.*1 idx))
            = cropped) as ->.
    { destruct cropped as [d c]. simpl in *. f_equal.
      transitivity (fromfunction (shape c) (λ idx, c !!! idx));
        [|by apply fromfunction_lookup_total].
      apply fromfunction_ext. intros idx Hidx.
      destruct (Hshift idx Hidx) as [Hin _].
      destruct (shifted_in_box W.*1 sh idx ltac:(len) Hidx) as [Hbox Hsub].
      rewrite Hlook by done. rewrite decide_True by done. by rewrite Hsub. }
    apply pad_array_zero_ok; [done|done|done|unfold ndim in *; lia| |].
    + simpl. len.
    + simpl. rewrite length_replicate. done.
  - done.
  - simpl. fold sh ns. rewrite Hshape. symmetry.
    apply list_eq_total; [len|]. intros k Hk. len in Hk.
    rewrite !lookup_total_drop. rewrite Hnsk, HWtail by (unfold p, ndim, sh in *; lia).
    simpl. lia.
  - unfold ndim, sh in *. len.
  - done.
  - intros k Hk. simpl. fold sh ns. rewrite Hnsk, Hbk by done. lia.
  - intros k Hk. simpl. fold sh ns.
    rewrite Hnsk, Hbk, HWtail by (unfold ndim, sh in *; lia). simpl. split; lia.
  - intros idx Hidx Hdiff. simpl in Hidx. fold sh ns in Hidx.
    unfold differs in Hdiff. rewrite Hnd in Hdiff. fold p in Hdiff.
    rewrite Hlook in Hdiff by done. case_decide; [done|].
    rewrite Hnan in Hdiff; [done|].
    apply elem_of_lookup_total_ndarray; [done|]. rewrite Hshape. fold p sh.
    apply in_bounds_total in Hidx as [Hilen Hidx].
    apply in_bounds_total. split; [len|]. intros k Hk. rewrite length_drop in Hk.
    rewrite !lookup_total_drop. specialize (Hidx (p + k) ltac:(lia)).
    rewrite Hnsk, HWtail in Hidx by lia. simpl in Hidx. lia.
  - intros k Hk. destruct (Htight k Hk) as (lo & hi & Hlo & Hhi & Hlok & Hhik & Hdlo & Hdhi).
    exists (zip_with Nat.add W.*1 lo), (zip_with Nat.add W.*1 hi).
    destruct (Hshift lo Hlo) as [Hlo_in Hlo_drop].
    destruct (Hshift hi Hhi) as [Hhi_in Hhi_drop].
    destruct (shifted_in_box W.*1 sh lo ltac:(len) Hlo) as [Hlo_box Hlo_sub].
    destruct (shifted_in_box W.*1 sh hi ltac:(len) Hhi) as [Hhi_box Hhi_sub].
    pose proof (in_bounds_length _ _ Hlo) as Hlolen.
    pose proof (in_bounds_length _ _ Hhi) as Hhilen. fold sh in Hlolen, Hhilen.
    assert (k < length sh) by (unfold p, ndim, sh in *; lia).
    simpl. fold sh ns. split_and!; [done|done| | | |].
    + rewrite lookup_total_zip_with_nat by len. lia.
    + rewrite lookup_total_zip_with_nat by len. fold sh in Hhik. lia.
    + unfold differs in *. rewrite Hnd. fold p.
      rewrite Hlook, decide_True, Hlo_sub, Hlo_drop by done. done.
    + unfold differs in *. rewrite Hnd. fold p.
      rewrite Hlook, decide_True, Hhi_sub, Hhi_drop by done. done.
Qed.

End crop_roundtrip.

(** The input on which C5 fails as stated: [0, 1] is not entirely equal to
    the reference value 0, yet its first element is lost. *)
Lemma bounding_crop_pad_array_not_tight :
  pad_array (array1 [0; 1]) (PadScalar 1) (py_int 0) = Ok (array1 [0; 0; 1; 0])
  ∧ bounding_crop (array1 [0; 0; 1; 0]) (py_int 0) (PadScalar 0) = Ok (array1 [1])
  ∧ array1 [1] ≠ array1 [0; 1].
Proof. split_and!; [reflexivity|reflexivity|discriminate]. Qed.

(** The array [1, 0, 2] padded by 2 with the reference value 0 and cropped
    again. *)
Lemma bounding_crop_pad_array_witness :
  ∃ padded,
    pad_array (array1 [1; 0; 2]) (PadScalar 2) (py_int 0) = Ok padded
    ∧ bounding_crop padded (py_int 0) (PadScalar 0) = Ok (array1 [1; 0; 2]).
Proof.
  apply (bounding_crop_pad_array (array1 [1; 0; 2]) (py_int 0) (PadScalar 2));
    [reflexivity|reflexivity|unfold ndim; cbn; lia|reflexivity|by left
    |intros x Hx; cbn; by rewrite bool_decide_eq_false_2 by (by intros [])
    |cbn; lia|reflexivity|].
  intros k Hk. exists [0%nat], [2%nat].
  assert (k = 0%nat) as -> by (unfold ndim in Hk; cbn in Hk; lia).
  split_and!; try reflexivity; try (by compute); repeat constructor.
Defined.

(** ** Grid assembler *)

(** *** The loop *)

Lemma foldlM_app {A B : Type} (f : B → A → result B) (b : B) (l1 l2 : list A) :
  foldlM f b (l1 ++ l2) = foldlM f b l1 ≫= λ b', foldlM f b' l2.
Proof.
  revert b. induction l1 as [|x l1 IH]; intros b; simpl; [done|].
  destruct (f b x) as [b'|e]; simpl; [apply IH|done].
Qed.

(** A property of the loop variable that the body maintains, stated for
    the number of iterations done. *)
Lemma foldlM_invariant {A B : Type} (P : nat → B → Prop)
    (f : B → A → result B) (b : B) (l : list A) (r : B) :
  P 0%nat b →
  (∀ k x b1 b2, l !! k = Some x → P k b1 → f b1 x = Ok b2 → P (S k) b2) →
  foldlM f b l = Ok r → P (length l) r.
Proof.
  intros Hb Hstep. revert b r Hb.
  induction l as [|x l IH] using rev_ind; intros b r Hb Hr.
  - simpl in Hr. by injection Hr as <-.
  - rewrite foldlM_app in Hr.
    destruct (foldlM f b l) as [b1|e] eqn:Hl; [|done].
    cbn [mbind result_bind foldlM] in Hr.
    destruct (f b1 x) as [b2|e] eqn:Hx; [|done].
    cbn [mbind result_bind] in Hr. injection Hr as <-.
    rewrite length_app, Nat.add_1_r. apply (Hstep (length l) x b1).
    + by rewrite lookup_app_r, Nat.sub_diag by lia.
    + apply (IH (λ k y c1 c2 Hk, Hstep k y c1 c2 (lookup_app_l_Some _ _ _ _ Hk)) b);
        done.
    + done.
Qed.

(** *** Arithmetic on [int64]

    [wrap64] is the identity on the range of [int64] and commutes with the
    operations of the ring, so that a wrapped computation is the exact one
    reduced at the end. *)

Section wrap64_facts.
Implicit Types (a b z k : Z).

Lemma wrap64_eq z : wrap64 z = z - 2 ^ 64 * ((z + 2 ^ 63) `div` 2 ^ 64).
Proof. unfold wrap64. rewrite Z.mod_eq by lia. lia. Qed.

Lemma wrap64_range z : - 2 ^ 63 ≤ wrap64 z < 2 ^ 63.
Proof. unfold wrap64. pose proof (Z.mod_pos_bound (z + 2 ^ 63) (2 ^ 64)). lia. Qed.

Lemma wrap64_id z : - 2 ^ 63 ≤ z < 2 ^ 63 → wrap64 z = z.
Proof. intros. unfold wrap64. rewrite Z.mod_small by lia. lia. Qed.

Lemma wrap64_shift z k : wrap64 (z + k * 2 ^ 64) = wrap64 z.
Proof.
  unfold wrap64.
  replace (z + k * 2 ^ 64 + 2 ^ 63) with (z + 2 ^ 63 + k * 2 ^ 64) by lia.
  by rewrite Z_mod_plus_full.
Qed.

Lemma wrap64_idemp a : wrap64 (wrap64 a) = wrap64 a.
Proof. apply wrap64_id, wrap64_range. Qed.

Lemma wrap64_add_l a b : wrap64 (wrap64 a + b) = wrap64 (a + b).
Proof.
  rewrite (wrap64_eq a).
  replace (a - 2 ^ 64 * ((a + 2 ^ 63) `div` 2 ^ 64) + b)
    with (a + b + (- ((a + 2 ^ 63) `div` 2 ^ 64)) * 2 ^ 64) by lia.
  apply wrap64_shift.
Qed.

Lemma wrap64_add_r a b : wrap64 (a + wrap64 b) = wrap64 (a + b).
Proof. rewrite (Z.add_comm a), wrap64_add_l. f_equal. lia. Qed.

Lemma wrap64_opp a : wrap64 (- wrap64 a) = wrap64 (- a).
Proof.
  rewrite (wrap64_eq a).
  replace (- (a - 2 ^ 64 * ((a + 2 ^ 63) `div` 2 ^ 64)))
    with (- a + ((a + 2 ^ 63) `div` 2 ^ 64) * 2 ^ 64) by lia.
  apply wrap64_shift.
Qed.

Lemma wrap64_sub_l a b : wrap64 (wrap64 a - b) = wrap64 (a - b).
Proof. by rewrite <-!Z.add_opp_r, wrap64_add_l. Qed.

Lemma wrap64_sub_r a b : wrap64 (a - wrap64 b) = wrap64 (a - b).
Proof. by rewrite <-!Z.add_opp_r, <-wrap64_add_r, wrap64_opp, wrap64_add_r. Qed.

Lemma wrap64_mul_r a b : wrap64 (a * wrap64 b) = wrap64 (a * b).
Proof.
  rewrite (wrap64_eq b).
  replace (a * (b - 2 ^ 64 * ((b + 2 ^ 63) `div` 2 ^ 64)))
    with (a * b + (- a * ((b + 2 ^ 63) `div` 2 ^ 64)) * 2 ^ 64) by lia.
  apply wrap64_shift.
Qed.

Lemma wrap64_mul_l a b : wrap64 (wrap64 a * b) = wrap64 (a * b).
Proof. by rewrite (Z.mul_comm (wrap64 a)), wrap64_mul_r, Z.mul_comm. Qed.

(** Reduction modulo 2^64 keeps the parity. *)
Lemma wrap64_mod2 a : wrap64 a `mod` 2 = a `mod` 2.
Proof.
  rewrite (wrap64_eq a).
  replace (a - 2 ^ 64 * ((a + 2 ^ 63) `div` 2 ^ 64))
    with (a + (- 2 ^ 63 * ((a + 2 ^ 63) `div` 2 ^ 64)) * 2) by lia.
  by rewrite Z_mod_plus_full.
Qed.

(** Sums of values that agree modulo 2^64 agree modulo 2^64. *)
Lemma wrap64_add_congr a a' b b' :
  wrap64 a = wrap64 a' → wrap64 b = wrap64 b' → wrap64 (a + b) = wrap64 (a' + b').
Proof.
  intros Ha Hb.
  by rewrite <-wrap64_add_l, <-wrap64_add_r, Ha, Hb, wrap64_add_l, wrap64_add_r.
Qed.

Lemma fmap_wrap64_id (l : list Z) :
  Forall (λ x, - 2 ^ 63 ≤ x < 2 ^ 63) l → wrap64 <$> l = l.
Proof.
  intros Hl. rewrite <-(list_fmap_id l) at 2. apply Forall_fmap_ext_1.
  eapply Forall_impl; [exact Hl|]. intros x Hx. by apply wrap64_id.
Qed.

End wrap64_facts.

(** *** The layout in exact integers

    The computation of [axis_layout] on unbounded integers.  The [int64]
    computation agrees with it modulo 2^64, and is equal to it where the
    exact extent of the output fits in 64 bits. *)

Fixpoint exact_cumsum_from (acc : Z) (l : list Z) : list Z :=
  match l with
  | [] => []
  | x :: l' => (acc + x) :: exact_cumsum_from (acc + x) l'
  end.

Definition exact_incr_last (l : list Z) : list Z :=
  match reverse l with
  | [] => []
  | x :: r => reverse ((x + 1) :: r)
  end.

Definition exact_add_inner (s : Z) (l : list Z) : list Z :=
  imap (λ j x, if decide (1 ≤ j ∧ S j < length l)%nat then x + s else x) l.

(** The sum of the slice lengths and of the spacings between them. *)
Definition exact_total (head_dims : ndarray Z) (gshape : list nat)
    (s : Z) (axis : nat) : Z :=
  py_sum (max_lengths head_dims gshape axis)
  + s * (Z.of_nat (gshape !!! axis) - 1).

Definition exact_layout (head_dims : ndarray Z) (gshape : list nat)
    (spacing2 : ndarray Z) (round_to_even2 : ndarray bool) (axis : nat)
    : list Z * list Z :=
  let lengths := max_lengths head_dims gshape axis in
  let total_length := exact_total head_dims gshape (spacing2 !!! [axis]) axis in
  let lengths :=
    if round_to_even2 !!! [axis] && bool_decide (total_length `mod` 2 = 1)
    then exact_incr_last lengths else lengths in
  let spaced_lengths := exact_add_inner (spacing2 !!! [axis]) (0 :: lengths) in
  (lengths, exact_cumsum_from 0 spaced_lengths).

Section layout_lists.
Implicit Types (l : list Z).

Lemma foldl_max_ge l x :
  x ≤ foldl Z.max x l ∧ ∀ y, y ∈ l → y ≤ foldl Z.max x l.
Proof.
  revert x. induction l as [|z l IH]; intros x; simpl.
  - split; [lia|]. by intros y ?%elem_of_nil.
  - destruct (IH (Z.max x z)) as [Hx Hl]. split; [lia|].
    intros y [->|Hy]%elem_of_cons; [lia|by apply Hl].
Qed.

Lemma np_max_ge l y : y ∈ l → y ≤ np_max l.
Proof.
  destruct l as [|x l]; [by intros ?%elem_of_nil|]. simpl.
  destruct (foldl_max_ge l x) as [Hx Hl].
  intros [->|Hy]%elem_of_cons; [done|by apply Hl].
Qed.

Lemma np_max_nonneg l : Forall (λ x, 0 ≤ x) l → 0 ≤ np_max l.
Proof.
  destruct l as [|x l]; simpl; [done|]. intros Hx%Forall_inv.
  destruct (foldl_max_ge l x). lia.
Qed.

Lemma exact_incr_last_snoc l x : exact_incr_last (l ++ [x]) = l ++ [x + 1].
Proof.
  unfold exact_incr_last. rewrite reverse_snoc.
  by rewrite reverse_cons, reverse_involutive.
Qed.

Lemma length_exact_incr_last l : length (exact_incr_last l) = length l.
Proof.
  destruct l as [|x l _] using rev_ind; [done|].
  by rewrite exact_incr_last_snoc, !length_app.
Qed.

Lemma exact_incr_last_ge l k : l !!! k ≤ exact_incr_last l !!! k.
Proof.
  destruct l as [|x l _] using rev_ind; [done|]. rewrite exact_incr_last_snoc.
  destruct (decide (k < length l)%nat).
  - by rewrite !lookup_total_app_l by done.
  - rewrite !lookup_total_app_r by lia.
    destruct (k - length l)%nat; simpl; lia.
Qed.

Lemma length_exact_cumsum_from acc l : length (exact_cumsum_from acc l) = length l.
Proof. revert acc. induction l; intros acc; simpl; [done|]. by rewrite IHl. Qed.

Lemma exact_cumsum_from_0 acc l :
  (0 < length l)%nat → exact_cumsum_from acc l !!! 0%nat = acc + l !!! 0%nat.
Proof. destruct l; simpl; [lia|done]. Qed.

Lemma exact_cumsum_from_S acc l k :
  (S k < length l)%nat →
  exact_cumsum_from acc l !!! S k = exact_cumsum_from acc l !!! k + l !!! S k.
Proof.
  revert acc k. induction l as [|x l IH]; intros acc k Hk; simpl in *; [lia|].
  destruct l as [|y l]; simpl in *; [lia|].
  destruct k as [|k]; [done|]. apply (IH (acc + x) k). simpl. lia.
Qed.

Lemma exact_add_inner_lookup s l j :
  (j < length l)%nat →
  exact_add_inner s l !!! j
  = if decide (1 ≤ j ∧ S j < length l)%nat then l !!! j + s else l !!! j.
Proof.
  intros Hj. unfold exact_add_inner.
  by rewrite (list_lookup_total_imap
                (λ j x, if decide (1 ≤ j ∧ S j < length l)%nat then x + s else x)).
Qed.

End layout_lists.

Section sums.
Implicit Types (l : list Z).

Lemma py_sum_app l1 l2 : py_sum (l1 ++ l2) = py_sum l1 + py_sum l2.
Proof. unfold py_sum. induction l1 as [|x l1 IH]; simpl; lia. Qed.

Lemma py_sum_exact_incr_last l : l ≠ [] → py_sum (exact_incr_last l) = py_sum l + 1.
Proof.
  destruct l as [|x l _] using rev_ind; [done|]. intros _.
  rewrite exact_incr_last_snoc, !py_sum_app. unfold py_sum. simpl. lia.
Qed.

Lemma py_sum_add s l : py_sum ((λ x, x + s) <$> l) = py_sum l + s * Z.of_nat (length l).
Proof.
  unfold py_sum. induction l as [|x l IH]; [simpl; lia|].
  rewrite fmap_cons. cbn [foldr length]. rewrite IH. lia.
Qed.

Lemma last_exact_cumsum_from acc l :
  l ≠ [] → default 0 (last (exact_cumsum_from acc l)) = acc + py_sum l.
Proof.
  revert acc. induction l as [|x l IH]; intros acc Hl; [done|].
  destruct l as [|y l]; [unfold py_sum; simpl; lia|].
  change (exact_cumsum_from acc (x :: y :: l))
    with ((acc + x) :: exact_cumsum_from (acc + x) (y :: l)).
  change (last ((acc + x) :: exact_cumsum_from (acc + x) (y :: l)))
    with (last (exact_cumsum_from (acc + x) (y :: l))).
  rewrite IH by done. unfold py_sum. simpl. lia.
Qed.

(** The slice lengths with the spacing before all but the first. *)
Lemma exact_add_inner_snoc s l x :
  exact_add_inner s (0 :: l ++ [x]) = 0 :: ((λ y, y + s) <$> l) ++ [x].
Proof.
  unfold exact_add_inner.
  apply list_eq_total; [rewrite length_imap; simpl; len|].
  intros j Hj. rewrite length_imap in Hj. simpl in Hj. rewrite length_app in Hj.
  simpl in Hj.
  rewrite (list_lookup_total_imap
             (λ j (y : Z), if decide (1 ≤ j ∧ S j < length (0%Z :: l ++ [x]))%nat
                     then y + s else y)) by (simpl; len).
  simpl length. rewrite length_app. simpl length.
  destruct j as [|j]; [by rewrite decide_False by lia|]. simpl.
  destruct (decide (j < length l)%nat).
  - rewrite decide_True by lia. rewrite !lookup_total_app_l by len.
    by rewrite (list_lookup_total_fmap (λ y, y + s)) by done.
  - rewrite decide_False by lia. rewrite !lookup_total_app_r by len.
    rewrite length_fmap. done.
Qed.

Lemma py_sum_exact_add_inner s l :
  l ≠ [] →
  py_sum (exact_add_inner s (0 :: l)) = py_sum l + s * (Z.of_nat (length l) - 1).
Proof.
  destruct l as [|x l _] using rev_ind; [done|]. intros _.
  rewrite exact_add_inner_snoc. change (0 :: ?k) with ([0] ++ k).
  rewrite !py_sum_app, py_sum_add, length_app. unfold py_sum. simpl. lia.
Qed.

End sums.

(** The extent of the output along an axis, in exact integers: the exact
    total, and one more where the last slice is made longer. *)
Lemma exact_extent (head_dims : ndarray Z) (gshape : list nat)
    (spacing2 : ndarray Z) (round_to_even2 : ndarray bool) (axis : nat) :
  (0 < gshape !!! axis)%nat →
  default 0 (last (exact_layout head_dims gshape spacing2 round_to_even2 axis).2)
  = exact_total head_dims gshape (spacing2 !!! [axis]) axis
    + (if round_to_even2 !!! [axis]
          && bool_decide (exact_total head_dims gshape (spacing2 !!! [axis]) axis
                          `mod` 2 = 1)
       then 1 else 0).
Proof.
  intros Hn. unfold exact_layout. cbn [snd].
  set (raw := max_lengths head_dims gshape axis).
  assert (length raw = gshape !!! axis) as Hlen by (unfold raw, max_lengths; len).
  assert (raw ≠ []) as Hraw by (intros Hnil; rewrite Hnil in Hlen; simpl in Hlen; lia).
  unfold exact_total. fold raw.
  assert (∀ l, l ≠ [] → length l = gshape !!! axis →
            default 0 (last (exact_cumsum_from 0
                               (exact_add_inner (spacing2 !!! [axis]) (0 :: l))))
            = py_sum l + spacing2 !!! [axis] * (Z.of_nat (gshape !!! axis) - 1))
    as Hlast.
  { intros l Hl Hll. rewrite last_exact_cumsum_from.
    - rewrite py_sum_exact_add_inner, Hll by done. lia.
    - unfold exact_add_inner. intros Hnil%(f_equal length).
      rewrite length_imap in Hnil. done. }
  destruct (_ && _).
  - rewrite Hlast.
    + rewrite py_sum_exact_incr_last by done. lia.
    + intros Hnil%(f_equal length). rewrite length_exact_incr_last in Hnil.
      rewrite Hlen in Hnil. simpl in Hnil. lia.
    + by rewrite length_exact_incr_last.
  - rewrite Hlast by done. lia.
Qed.

(** The exact extent is even where [round_to_even] is set. *)
Lemma exact_extent_even (head_dims : ndarray Z) (gshape : list nat)
    (spacing2 : ndarray Z) (round_to_even2 : ndarray bool) (axis : nat) :
  (0 < gshape !!! axis)%nat → round_to_even2 !!! [axis] = true →
  default 0 (last (exact_layout head_dims gshape spacing2 round_to_even2 axis).2)
  `mod` 2 = 0.
Proof.
  intros Hn Hround. rewrite exact_extent by done. rewrite Hround. cbn [andb].
  set (total := exact_total _ _ _ _).
  case_bool_decide as Hodd.
  - rewrite <-Z.add_mod_idemp_l, Hodd by lia. done.
  - pose proof (Z.mod_pos_bound total 2 ltac:(lia)). rewrite Z.add_0_r. lia.
Qed.

Section exact_layout_facts.
#[local] Set Default Proof Using "All".
Context (head_dims : ndarray Z) (gshape : list nat).
Context (spacing2 : ndarray Z) (round_to_even2 : ndarray bool) (axis : nat).

Let n : nat := gshape !!! axis.
Let lengths : list Z := (exact_layout head_dims gshape spacing2 round_to_even2 axis).1.
Let origins : list Z := (exact_layout head_dims gshape spacing2 round_to_even2 axis).2.

Hypothesis Haxis : (axis < length gshape)%nat.
Hypothesis Hspacing : 0 ≤ spacing2 !!! [axis].
Hypothesis Hdims : ∀ c, in_bounds gshape c → 0 ≤ head_dims !!! (c ++ [axis]).

(** The slice lengths before the last one is made even. *)
Let raw : list Z := max_lengths head_dims gshape axis.

Lemma length_raw : length raw = n.
Proof. unfold raw, max_lengths. len. Qed.

Lemma raw_lookup k :
  (k < n)%nat →
  raw !!! k = np_max ((λ c, head_dims !!! (c ++ [axis]))
                        <$> filter (λ c, c !!! axis = k) (ndindex gshape)).
Proof.
  intros Hk. unfold raw, max_lengths.
  rewrite (list_lookup_total_fmap
             (λ k, np_max ((λ c, head_dims !!! (c ++ [axis]))
                             <$> filter (λ c, c !!! axis = k) (ndindex gshape))))
    by len.
  by rewrite lookup_total_seq_lt.
Qed.

Lemma lengths_raw : lengths = raw ∨ lengths = exact_incr_last raw.
Proof.
  unfold lengths, exact_layout. fold raw. simpl.
  destruct (_ && _); auto.
Qed.

Lemma length_lengths : length lengths = n.
Proof.
  destruct lengths_raw as [->| ->]; rewrite ?length_exact_incr_last;
    unfold raw, max_lengths; len.
Qed.

Lemma lengths_ge_raw k : raw !!! k ≤ lengths !!! k.
Proof. destruct lengths_raw as [->| ->]; [done|apply exact_incr_last_ge]. Qed.

Lemma raw_nonneg k : (k < n)%nat → 0 ≤ raw !!! k.
Proof.
  intros Hk. rewrite raw_lookup by done. apply np_max_nonneg.
  apply Forall_fmap, Forall_forall. intros c [_ Hc%elem_of_ndindex]%list_elem_of_filter.
  by apply Hdims.
Qed.

Lemma lengths_nonneg k : (k < n)%nat → 0 ≤ lengths !!! k.
Proof. intros Hk. pose proof (raw_nonneg k Hk). pose proof (lengths_ge_raw k). lia. Qed.

(** The slice of a cell is as long as the array of the cell. *)
Lemma lengths_fit c :
  in_bounds gshape c → head_dims !!! (c ++ [axis]) ≤ lengths !!! (c !!! axis).
Proof.
  intros Hc. etrans; [|apply lengths_ge_raw].
  assert (c !!! axis < n)%nat as Hk.
  { apply in_bounds_total in Hc as [_ Hc]. by apply Hc. }
  rewrite raw_lookup by done. apply np_max_ge.
  apply list_elem_of_fmap. exists c. split; [done|].
  apply list_elem_of_filter. split; [done|]. by apply elem_of_ndindex.
Qed.

Lemma origins_eq :
  origins = exact_cumsum_from 0 (exact_add_inner (spacing2 !!! [axis]) (0 :: lengths)).
Proof. done. Qed.

Lemma length_origins : length origins = S n.
Proof.
  rewrite origins_eq. unfold exact_add_inner.
  rewrite length_exact_cumsum_from, length_imap. simpl. by rewrite length_lengths.
Qed.

Lemma origins_0 : origins !!! 0%nat = 0.
Proof.
  rewrite origins_eq.
  rewrite exact_cumsum_from_0 by (unfold exact_add_inner; rewrite length_imap; simpl; lia).
  rewrite exact_add_inner_lookup by (simpl; lia).
  rewrite decide_False by lia. done.
Qed.

(** Slice [k] ends where slice [k + 1] starts, or the spacing before it. *)
Lemma origins_S k :
  (k < n)%nat →
  origins !!! S k
  = origins !!! k + lengths !!! k
    + if decide (S k < n)%nat then spacing2 !!! [axis] else 0.
Proof.
  intros Hk. pose proof length_lengths as Hlen. rewrite origins_eq.
  rewrite exact_cumsum_from_S
    by (unfold exact_add_inner; rewrite length_imap; simpl; lia).
  rewrite (exact_add_inner_lookup _ _ (S k)) by (simpl; lia).
  simpl length. rewrite Hlen. simpl.
  destruct (decide (1 ≤ S k ∧ S (S k) < S n)%nat), (decide (S k < n)%nat); lia.
Qed.

Lemma origins_step k : (k < n)%nat → origins !!! k + lengths !!! k ≤ origins !!! S k.
Proof. intros Hk. rewrite origins_S by done. case_decide; lia. Qed.

Lemma origins_mono k1 k2 :
  (k1 ≤ k2)%nat → (k2 ≤ n)%nat → origins !!! k1 ≤ origins !!! k2.
Proof.
  induction 1 as [|k2 Hle IH]; intros Hn; [done|].
  pose proof (origins_step k2 ltac:(lia)). pose proof (lengths_nonneg k2 ltac:(lia)).
  specialize (IH ltac:(lia)). lia.
Qed.

Lemma origins_nonneg k : (k ≤ n)%nat → 0 ≤ origins !!! k.
Proof. intros Hk. rewrite <-origins_0. apply origins_mono; lia. Qed.

Lemma origins_last : default 0 (last origins) = origins !!! n.
Proof.
  pose proof length_origins as Hlen. rewrite last_lookup, Hlen. simpl.
  by rewrite list_lookup_lookup_total_lt by lia.
Qed.

Lemma origins_extent :
  (0 < n)%nat →
  origins !!! n
  = exact_total head_dims gshape (spacing2 !!! [axis]) axis
    + (if round_to_even2 !!! [axis]
          && bool_decide (exact_total head_dims gshape (spacing2 !!! [axis]) axis
                          `mod` 2 = 1)
       then 1 else 0).
Proof. intros Hn. rewrite <-origins_last. by apply exact_extent. Qed.

(** Every slice length and every origin lies between 0 and the exact
    total plus one. *)
Lemma origins_bound k :
  (0 < n)%nat → (k ≤ n)%nat →
  0 ≤ origins !!! k ≤ exact_total head_dims gshape (spacing2 !!! [axis]) axis + 1.
Proof.
  intros Hn Hk. split; [by apply origins_nonneg|].
  etrans; [apply (origins_mono k n); lia|].
  rewrite origins_extent by done. destruct (_ && _); lia.
Qed.

Lemma lengths_bound k :
  (0 < n)%nat → (k < n)%nat →
  0 ≤ lengths !!! k ≤ exact_total head_dims gshape (spacing2 !!! [axis]) axis + 1.
Proof.
  intros Hn Hk. split; [by apply lengths_nonneg|].
  pose proof (origins_step k Hk). pose proof (origins_nonneg k ltac:(lia)).
  pose proof (origins_bound (S k) Hn ltac:(lia)). lia.
Qed.

End exact_layout_facts.

(** *** The layout on [int64] *)

Section layout_wrap.
Implicit Types (l : list Z).

(** Two integers that [int64] does not tell apart. *)
Definition eq64 (x y : Z) : Prop := wrap64 x = wrap64 y.

Lemma np_sum_wrap l : np_sum l = wrap64 (py_sum l).
Proof.
  unfold np_sum.
  assert (∀ acc, foldl add64 (wrap64 acc) l = wrap64 (acc + py_sum l)) as Hacc.
  { induction l as [|x l IH]; intros acc.
    - simpl. by rewrite Z.add_0_r.
    - cbn [foldl]. unfold add64 at 2. rewrite wrap64_add_l, IH.
      f_equal. unfold py_sum. simpl. lia. }
  specialize (Hacc 0). rewrite Z.add_0_l in Hacc. by rewrite <-Hacc.
Qed.

Lemma cumsum_from_wrap acc acc' l l' :
  eq64 acc acc' → Forall2 eq64 l l' →
  cumsum_from acc l = wrap64 <$> exact_cumsum_from acc' l'.
Proof.
  intros Hacc Hl. revert acc acc' Hacc.
  induction Hl as [|x y l l' Hxy _ IH]; intros acc acc' Hacc; [done|].
  cbn [cumsum_from exact_cumsum_from]. rewrite fmap_cons. unfold add64.
  f_equal; [by apply wrap64_add_congr|].
  apply IH. unfold eq64. rewrite wrap64_idemp. by apply wrap64_add_congr.
Qed.

Lemma Forall2_eq64_refl l : Forall2 eq64 l l.
Proof. by apply Forall_Forall2_diag, Forall_true. Qed.

Lemma incr_last_wrap l l' :
  Forall2 eq64 l l' → Forall2 eq64 (incr_last l) (exact_incr_last l').
Proof.
  intros Hl. unfold incr_last, exact_incr_last.
  apply Forall2_reverse in Hl.
  destruct Hl as [|x y r r' Hxy Hr]; [constructor|].
  rewrite !reverse_cons. apply Forall2_app; [by apply Forall2_reverse|].
  constructor; [|constructor]. unfold eq64, add64. rewrite wrap64_idemp.
  by apply wrap64_add_congr.
Qed.

Lemma add_inner_wrap s l l' :
  Forall2 eq64 l l' → Forall2 eq64 (add_inner s l) (exact_add_inner s l').
Proof.
  intros Hl. unfold add_inner, exact_add_inner.
  rewrite (Forall2_length _ _ _ Hl).
  apply Forall2_lookup. intros j. rewrite !list_lookup_imap.
  pose proof (proj1 (Forall2_lookup _ _ _) Hl j) as Hj.
  destruct Hj as [x y Hxy|]; simpl; constructor.
  case_decide; [|done]. unfold eq64, add64. rewrite wrap64_idemp.
  by apply wrap64_add_congr.
Qed.

Lemma Forall2_eq64_in_range l l' :
  Forall2 eq64 l l' →
  Forall (λ x, - 2 ^ 63 ≤ x < 2 ^ 63) l → Forall (λ x, - 2 ^ 63 ≤ x < 2 ^ 63) l' →
  l = l'.
Proof.
  induction 1 as [|x y l l' Hxy _ IH]; [done|].
  intros [Hx Hl]%Forall_cons [Hy Hl']%Forall_cons. f_equal; [|by apply IH].
  unfold eq64 in Hxy. by rewrite !wrap64_id in Hxy.
Qed.

Context (head_dims : ndarray Z) (gshape : list nat).
Context (spacing2 : ndarray Z) (round_to_even2 : ndarray bool) (axis : nat).

(** The total length on [int64] is the exact one reduced. *)
Lemma total_length_wrap :
  add64 (np_sum (max_lengths head_dims gshape axis))
    (mul64 (spacing2 !!! [axis]) (Z.of_nat (gshape !!! axis) - 1))
  = wrap64 (exact_total head_dims gshape (spacing2 !!! [axis]) axis).
Proof.
  unfold add64, mul64, exact_total.
  by rewrite np_sum_wrap, wrap64_add_l, wrap64_add_r.
Qed.

(** The layout on [int64] is the exact layout reduced modulo 2^64. *)
Lemma axis_layout_wrap :
  Forall2 eq64 (axis_layout head_dims gshape spacing2 round_to_even2 axis).1
    (exact_layout head_dims gshape spacing2 round_to_even2 axis).1
  ∧ (axis_layout head_dims gshape spacing2 round_to_even2 axis).2
    = wrap64 <$> (exact_layout head_dims gshape spacing2 round_to_even2 axis).2.
Proof.
  unfold axis_layout, exact_layout. rewrite total_length_wrap, wrap64_mod2.
  cbn [fst snd].
  set (raw := max_lengths head_dims gshape axis).
  set (round := _ && _).
  assert (Forall2 eq64 (if round then incr_last raw else raw)
            (if round then exact_incr_last raw else raw)) as Hlen.
  { destruct round; [apply incr_last_wrap|]; apply Forall2_eq64_refl. }
  split; [done|]. unfold np_cumsum. apply cumsum_from_wrap; [done|].
  apply add_inner_wrap. by constructor.
Qed.

Hypothesis Haxis : (axis < length gshape)%nat.
Hypothesis Hn : (0 < gshape !!! axis)%nat.
Hypothesis Hspacing : 0 ≤ spacing2 !!! [axis].
Hypothesis Hdims : ∀ c, in_bounds gshape c → 0 ≤ head_dims !!! (c ++ [axis]).
Hypothesis Hfits :
  exact_total head_dims gshape (spacing2 !!! [axis]) axis + 1 < 2 ^ 63.

(** Where the exact total, and one more for the rounding, fits in 64 bits,
    nothing wraps around. *)
Lemma axis_layout_exact :
  axis_layout head_dims gshape spacing2 round_to_even2 axis
  = exact_layout head_dims gshape spacing2 round_to_even2 axis.
Proof using All.
  destruct axis_layout_wrap as [Hlen Hor].
  pose proof (length_lengths head_dims gshape spacing2 round_to_even2 axis
                Haxis Hspacing Hdims) as Hll.
  pose proof (length_origins head_dims gshape spacing2 round_to_even2 axis
                Haxis Hspacing Hdims) as Hlo.
  pose proof (length_raw head_dims gshape spacing2 round_to_even2 axis
                Haxis Hspacing Hdims) as Hlr.
  apply injective_projections.
  - apply Forall2_eq64_in_range; [done| |].
    + unfold axis_layout. cbn [fst].
      set (raw := max_lengths head_dims gshape axis) in *.
      assert (Forall (λ x, - 2 ^ 63 ≤ x < 2 ^ 63) raw) as Hraw.
      { apply (proj2 (Forall_lookup_total (A:=Z) _ _)). intros k Hk.
        rewrite Hlr in Hk.
        pose proof (raw_nonneg head_dims gshape spacing2 round_to_even2 axis
                      Haxis Hspacing Hdims k Hk) as H0.
        pose proof (lengths_ge_raw head_dims gshape spacing2 round_to_even2 axis
                      Haxis Hspacing Hdims k) as H.
        pose proof (lengths_bound head_dims gshape spacing2 round_to_even2 axis
                      Haxis Hspacing Hdims k Hn Hk). unfold raw. lia. }
      destruct (_ && _); [|done]. unfold incr_last.
      destruct (reverse raw) as [|x r] eqn:Hrev; [constructor|].
      apply (f_equal reverse) in Hrev. rewrite reverse_involutive in Hrev.
      rewrite Hrev, reverse_cons in Hraw. apply Forall_app in Hraw as [Hr _].
      rewrite reverse_cons. apply Forall_app. split; [done|].
      constructor; [apply wrap64_range|constructor].
    + apply (proj2 (Forall_lookup_total (A:=Z) _ _)). intros k Hk.
      rewrite Hll in Hk.
      pose proof (lengths_bound head_dims gshape spacing2 round_to_even2 axis
                    Haxis Hspacing Hdims k Hn Hk). lia.
  - rewrite Hor.
    apply fmap_wrap64_id, (proj2 (Forall_lookup_total (A:=Z) _ _)). intros k Hk.
    rewrite Hlo in Hk.
    pose proof (origins_bound head_dims gshape spacing2 round_to_even2 axis
                  Haxis Hspacing Hdims k Hn ltac:(lia)). lia.
Qed.

End layout_wrap.

(** *** The resolved grid shape *)

Lemma math_prod_resolved (shape : list Z) (c : Z) :
  length (filter (λ dim, dim = -1) shape) = 1%nat →
  math_prod ((λ dim, if bool_decide (dim = -1) then c else dim) <$> shape)
  = c * math_prod (filter (λ dim, dim ≠ -1) shape).
Proof.
  induction shape as [|d shape IH]; [done|].
  rewrite fmap_cons, !filter_cons. case_bool_decide as Hd.
  - subst d. rewrite decide_True, decide_False by lia. simpl. intros [= Hnil].
    apply nil_length_inv in Hnil.
    assert ((-1) ∉ shape) as Hno.
    { intros Hin. assert ((-1) ∈ filter (λ dim, dim = -1) shape) as Hf
        by (by apply list_elem_of_filter).
      rewrite Hnil in Hf. by apply elem_of_nil in Hf. }
    rewrite filter_no_wildcard by done. do 2 f_equal.
    rewrite <-(list_fmap_id shape) at 2. apply list_fmap_ext.
    intros j e He. rewrite bool_decide_eq_false_2; [done|].
    intros ->. by apply list_elem_of_lookup_2 in He.
  - rewrite decide_False, decide_True by done. simpl. intros Hcount.
    rewrite IH by done. lia.
Qed.

(** What [_fit_shape] returns is a shape of positive extents with room for
    [num] elements. *)
Lemma fit_shape_ok (shape : list Z) (num : Z) (r : list Z) :
  1 ≤ num → _fit_shape shape num = Ok r →
  length r = length shape ∧ (∀ d, d ∈ r → 0 < d) ∧ num ≤ math_prod r.
Proof.
  intros Hnum. unfold _fit_shape.
  destruct (forallb _ _) eqn:Hposb; simpl; [|done].
  pose proof (proj1 (positive_check_spec _) Hposb) as Hpos.
  rewrite wildcard_count_spec. case_bool_decide as Hcount; [done|].
  case_bool_decide as Hwild.
  - set (s := math_prod (filter (λ dim, dim ≠ -1) shape)).
    assert (0 < s) as Hs.
    { apply math_prod_pos. intros d [? ?]%list_elem_of_filter. auto. }
    erewrite (traverse_ok_fmap _
      (λ dim, if bool_decide (dim = -1) then (num + s - 1) `div` s else dim)).
    2:{ intros d _. case_bool_decide; [|done].
        unfold floordiv. case_decide; [lia|done]. }
    intros [= <-].
    assert (1 ≤ (num + s - 1) `div` s) as Hc
      by (apply Z.div_le_lower_bound; lia).
    split_and!.
    + by rewrite length_fmap.
    + intros d (x & -> & Hx)%list_elem_of_fmap.
      case_bool_decide; [lia|by apply Hpos].
    + rewrite math_prod_resolved; fold s.
      * pose proof (Z.div_mod (num + s - 1) s ltac:(lia)).
        pose proof (Z.mod_pos_bound (num + s - 1) s ltac:(lia)). nia.
      * assert ((-1) ∈ filter (λ dim, dim = -1) shape) as Hf
          by (by apply list_elem_of_filter).
        destruct (filter (λ dim, dim = -1) shape); [by apply elem_of_nil in Hf|].
        simpl in *. lia.
  - case_bool_decide as Hprod; [done|]. intros [= <-].
    split_and!; [done| |lia].
    intros d Hd. apply Hpos; [done|]. by intros ->.
Qed.

Section grid_cells.
Local Close Scope Z_scope.
Implicit Types (sh idx c : list nat).

Lemma size_to_nat (shape : list Z) :
  (∀ d, d ∈ shape → 0 < d)%Z →
  size (Z.to_nat <$> shape) = Z.to_nat (math_prod shape).
Proof.
  induction shape as [|d shape IH]; intros Hpos; [done|].
  change (size (Z.to_nat <$> d :: shape))
    with (Z.to_nat d * size (Z.to_nat <$> shape)).
  change (math_prod (d :: shape)) with (d * math_prod shape)%Z.
  rewrite IH by (intros; apply Hpos; by right).
  assert (0 < d)%Z by (apply Hpos; left).
  assert (0 < math_prod shape)%Z by (apply math_prod_pos; intros; apply Hpos; by right).
  lia.
Qed.

Lemma size_app sh1 sh2 : size (sh1 ++ sh2) = size sh1 * size sh2.
Proof. induction sh1 as [|n sh1 IH]; simpl; [lia|]. rewrite IH. lia. Qed.

Lemma ravel_app sh idx n k :
  length idx = length sh → ravel (sh ++ [n]) (idx ++ [k]) = ravel sh idx * n + k.
Proof.
  revert idx. induction sh as [|m sh IH]; intros [|i idx] Hlen; simpl in *;
    try lia.
  rewrite IH by lia. rewrite size_app. simpl. lia.
Qed.

(** The cell of the grid that holds array [i], and the cells are distinct. *)
Lemma ndindex_lookup_total sh i :
  i < size sh →
  in_bounds sh (ndindex sh !!! i) ∧ ravel sh (ndindex sh !!! i) = i.
Proof.
  intros Hi. apply ndindex_lookup_inv.
  apply list_lookup_lookup_total_lt. by rewrite length_ndindex.
Qed.

(** Row [i] of a table of rows of length [D], flattened. *)
Lemma concat_lookup_total {B : Type} `{Inhabited B} (rows : list (list B)) D i j :
  Forall (λ row, length row = D) rows → i < length rows → j < D →
  concat rows !!! (i * D + j) = (rows !!! i) !!! j.
Proof.
  revert i. induction rows as [|row rows IH]; intros i Hrows Hi Hj; simpl in *; [lia|].
  apply Forall_cons in Hrows as [Hrow Hrows].
  destruct i as [|i]; simpl.
  - by rewrite lookup_total_app_l by lia.
  - rewrite lookup_total_app_r by lia.
    replace (D + i * D + j - length row) with (i * D + j) by lia.
    apply IH; [done|lia|done].
Qed.

End grid_cells.

(** *** Writing a box of the output *)

Lemma slice_indices_nonneg (b e : Z) (n : nat) :
  0 ≤ b → b ≤ e → e ≤ Z.of_nat n →
  slice_indices (b, e) n = (Z.to_nat b, Z.to_nat e).
Proof.
  intros Hb He Hn. unfold slice_indices. simpl.
  rewrite !decide_False by lia. f_equal; lia.
Qed.

Lemma offset_ok (length size : Z) (align : string) (o : Z) :
  offset length size align = Ok o → 0 ≤ size ≤ length → length < 2 ^ 63 →
  0 ≤ o ≤ length - size.
Proof.
  unfold offset, sub64. case_bool_decide; [done|]. intros [= <-] Hle Hlt.
  rewrite wrap64_id by lia.
  repeat case_decide; [lia|lia|].
  split; [apply Z.div_pos; lia|]. apply Z.div_le_upper_bound; lia.
Qed.

Section setitem_box.
Local Close Scope Z_scope.
Context `{ElemDomain}.
Implicit Types (out arr : nparray) (slices : list (Z * Z)) (idx : list nat).

(** The box of the output that holds [arr] when its first corner on the
    leading axes is [start]. *)
Definition region (start : list nat) (arr : nparray) (idx : list nat) : Prop :=
  in_box (start ++ replicate (ndim arr - length start) 0) (shape arr) idx.

#[global] Instance region_dec start arr idx : Decision (region start arr idx).
Proof. unfold region. apply _. Defined.

(** An assignment to slices that lie inside the output and have the
    extents of [arr], which has the element type of the output: the box is
    overwritten with [arr] and the rest of the output stays. *)
Lemma setitem_slices_box out slices arr :
  np_dtype arr = np_dtype out →
  length slices ≤ ndim arr →
  ndim arr = ndim out →
  drop (length slices) (shape arr) = drop (length slices) (shape out) →
  (∀ a, a < length slices →
     (0 ≤ (slices !!! a).1)%Z
     ∧ (slices !!! a).2 = ((slices !!! a).1 + Z.of_nat (shape arr !!! a))%Z
     ∧ ((slices !!! a).2 ≤ Z.of_nat (shape out !!! a))%Z) →
  setitem_slices out slices arr
  = Ok (NpArray (np_dtype out)
          (fromfunction (shape out)
             (λ idx, if decide (region (Z.to_nat <$> slices.*1) arr idx)
                     then np_arr arr
                          !!! zip_with Nat.sub idx
                                ((Z.to_nat <$> slices.*1)
                                 ++ replicate (ndim arr - length slices) 0)
                     else np_arr out !!! idx))).
Proof.
  intros Hdt Hlen Hnd Htail Hsl. unfold setitem_slices, ndim in *.
  rewrite decide_True by lia.
  assert (region_starts (shape out) slices
          = (Z.to_nat <$> slices.*1) ++ replicate (length (shape arr) - length slices) 0)
    as ->.
  { unfold region_starts. rewrite Hnd. f_equal.
    apply list_eq_total; [len|]. intros k Hk. len in Hk.
    rewrite lookup_total_zip_with_nat by lia.
    rewrite (list_lookup_total_fmap Z.to_nat), (list_lookup_total_fmap fst) by len.
    destruct (Hsl k ltac:(lia)) as (H0 & H1 & H2). cbv beta.
    destruct (slices !!! k) as [b e] eqn:Hk'. cbn [fst snd] in *.
    by rewrite slice_indices_nonneg by lia. }
  assert (region_shape (shape out) slices = shape arr) as ->.
  { unfold region_shape. rewrite <-Htail.
    transitivity (take (length slices) (shape arr) ++ drop (length slices) (shape arr));
      [|apply take_drop].
    f_equal.
    apply list_eq_total; [len|]. intros k Hk. len in Hk.
    rewrite lookup_total_zip_with_nat by lia.
    rewrite lookup_total_take, decide_True by lia.
    destruct (Hsl k ltac:(lia)) as (H0 & H1 & H2). cbv beta.
    destruct (slices !!! k) as [b e] eqn:Hk'. cbn [fst snd] in *.
    rewrite slice_indices_nonneg by lia. cbn [fst snd]. lia. }
  unfold np_broadcast_to.
  rewrite decide_True by apply (broadcastable_suffix []).
  cbn [mbind result_bind]. rewrite convert_as_is by (by left).
  cbn [mbind result_bind]. do 2 f_equal.
  apply fromfunction_ext. intros idx Hidx.
  set (starts := (Z.to_nat <$> slices.*1)
                 ++ replicate (length (shape arr) - length slices) 0).
  assert (region (Z.to_nat <$> slices.*1) arr idx ↔ in_box starts (shape arr) idx)
    as Hiff.
  { unfold region, ndim, starts. by rewrite !length_fmap. }
  destruct (decide (region _ arr idx)) as [Hr|Hr],
           (decide (in_box starts (shape arr) idx)) as [Hbox|Hbox];
    [|tauto|tauto|done].
  assert (in_bounds (shape arr) (zip_with Nat.sub idx starts)) as Hin.
  { apply in_box_total in Hbox as [Hilen Hbox]; [|unfold starts; len].
    apply in_bounds_total. split; [unfold starts; len|]. intros k Hk.
    rewrite lookup_total_zip_with_nat by (unfold starts; len).
    specialize (Hbox k Hk). lia. }
  rewrite lookup_total_fromfunction by done.
  by rewrite broadcast_index_self.
Qed.

(** How a value [x] of the array [v] is stored in an array of element
    type [d]. *)
Definition converted (d : dtype) (v : nparray) (x y : elem) : Prop :=
  if decide (np_dtype v = d) then y = x else astype d x = Some y.

Lemma np_full_inv (sh : list Z) (fill : nparray) (d : dtype) (r : nparray) :
  np_full sh fill d = Ok r →
  np_dtype r = d ∧ shape r = Z.to_nat <$> sh ∧ wf r
  ∧ ∀ idx, in_bounds (shape r) idx →
      converted d fill
        (np_arr fill !!! broadcast_index (shape fill) idx) (np_arr r !!! idx).
Proof.
  unfold np_full, to_shape. case_decide as Hsh; [|done]. cbn [mbind result_bind].
  unfold np_broadcast_to. case_decide as Hbc; [|done]. cbn [mbind result_bind].
  set (b := fromfunction _ _). unfold convert. cbn [np_dtype np_arr].
  unfold converted. case_decide as Hd.
  - intros [= <-]. simpl. split_and!; [done|done|apply wf_fromfunction|].
    intros idx Hidx. unfold b. by rewrite lookup_total_fromfunction.
  - destruct (traverse (cast d) (data b)) as [dat|e] eqn:Hdat; [|done].
    cbn [mbind result_bind]. intros [= <-]. simpl.
    apply traverse_ok_inv in Hdat.
    apply Forall2_total in Hdat as [Hlen Hdat].
    pose proof (wf_fromfunction (Z.to_nat <$> sh)
                  (λ idx, np_arr fill !!! broadcast_index (shape fill) idx)) as Hwf.
    fold b in Hwf. unfold wf in Hwf.
    split_and!; [done|done|unfold wf; cbn [data shape np_arr]; rewrite <-Hlen; exact Hwf|].
    intros idx Hidx. pose proof (ravel_lt _ _ Hidx) as Hlt.
    specialize (Hdat (ravel (Z.to_nat <$> sh) idx) ltac:(rewrite Hwf; exact Hlt)).
    unfold cast in Hdat.
    destruct (astype d _) as [y|] eqn:Hy; [|done]. injection Hdat as Hdat.
    unfold lookup_total at 2, ndarray_lookup_total. simpl. rewrite <-Hdat, <-Hy.
    f_equal. symmetry.
    exact (lookup_total_fromfunction (Z.to_nat <$> sh)
             (λ idx, np_arr fill !!! broadcast_index (shape fill) idx) idx Hidx).
Qed.

Lemma np_full_nonneg (sh : list Z) (fill : nparray) (d : dtype) (r : nparray) :
  np_full sh fill d = Ok r → Forall (λ n, 0 ≤ n)%Z sh.
Proof. unfold np_full, to_shape. by case_decide. Qed.

End setitem_box.

(** *** The placement that [assemble_arrays] computes

    The names follow the local variables of the source: [shape] is the
    resolved grid shape. *)

Section placement.
Context `{ElemDomain}.
Context (arrays : list nparray) (shape : list Z).
Context (align2 : ndarray string) (spacing2 : ndarray Z) (round_to_even2 : ndarray bool).

Definition grid_shape : list nat := Z.to_nat <$> shape.

Definition head_rows : list (list Z) :=
  ((λ array : nparray, Z.of_nat <$> take (length shape) (shape_of array)) <$> arrays)
  ++ replicate (Z.to_nat (math_prod shape - Z.of_nat (length arrays)))
       (replicate (length shape) 0).

Definition head_dims : ndarray Z :=
  NdArray (grid_shape ++ [length shape]) (concat head_rows).

Definition layout : list (list Z * list Z) :=
  (λ axis, axis_layout head_dims grid_shape spacing2 round_to_even2 axis)
  <$> seq 0 (length shape).

(** Grid coordinates of array [i], and its cell along [axis]. *)
Definition cell (i : nat) : list nat := ndindex grid_shape !!! i.

Definition cell_origin (i axis : nat) : Z :=
  (layout.*2 !!! axis) !!! (cell i !!! axis).

Definition cell_length (i axis : nat) : Z :=
  (layout.*1 !!! axis) !!! (cell i !!! axis).

Definition output_shape (tail_dims : list nat) : list Z :=
  ((λ o : list Z, default 0 (last o)) <$> layout.*2) ++ (Z.of_nat <$> tail_dims).

(** The slices that array [i] is assigned to. *)
Definition slices_of (i : nat) (array : nparray) : result (list (Z * Z)) :=
  traverse
    (λ axis,
       let start := cell_origin i axis in
       let length := cell_length i axis in
       let extent := Z.of_nat (shape_of array !!! axis) in
       o ← offset length extent (align2 !!! [i; axis]);
       let aligned_start := add64 start o in
       Ok (aligned_start, add64 aligned_start extent))
    (seq 0 (length shape)).

(** The body of the copy loop. *)
Definition copy_array (output_array : nparray) (ia : nat * nparray) : result nparray :=
  let '(i, array) := ia in
  slices ← slices_of i array;
  setitem_slices output_array slices array.

End placement.

Section assemble_inv.
Context `{ElemDomain}.

(** What a successful call went through. *)
Lemma assemble_arrays_inv arrays shape0 background align spacing round_to_even out :
  assemble_arrays arrays shape0 background align spacing round_to_even = Ok out →
  ∃ arrays0 shape align2 spacing2 round_to_even2 out0,
    head arrays = Some arrays0
    ∧ _fit_shape shape0 (Z.of_nat (length arrays)) = Ok shape
    ∧ (∀ array, array ∈ arrays → np_dtype array = np_dtype arrays0)
    ∧ (∀ array : nparray, array ∈ arrays →
         drop (length shape) (shape_of array)
         = drop (length shape) (shape_of arrays0))
    ∧ np_broadcast_to align [length arrays; length shape] = Ok align2
    ∧ np_broadcast_to spacing [length shape] = Ok spacing2
    ∧ np_broadcast_to round_to_even [length shape] = Ok round_to_even2
    ∧ Forall (λ row, length row = length shape) (head_rows arrays shape)
    ∧ np_full (output_shape arrays shape spacing2 round_to_even2
                 (drop (length shape) (shape_of arrays0)))
        background (np_dtype arrays0) = Ok out0
    ∧ foldlM (copy_array arrays shape align2 spacing2 round_to_even2)
        out0 (imap pair arrays) = Ok out.
Proof.
  unfold assemble_arrays. destruct arrays as [|arrays0 arrays']; [done|].
  set (arrays := arrays0 :: arrays').
  destruct (_fit_shape shape0 _) as [shape|e] eqn:Hfit; [|done].
  cbn [mbind result_bind]. unfold require.
  destruct (forallb (λ array : nparray, bool_decide (np_dtype array = _)) arrays)
    eqn:Hdt; cbn [mbind result_bind]; [|done].
  destruct (forallb (λ array : nparray, bool_decide (drop _ _ = _)) arrays)
    eqn:Htail; cbn [mbind result_bind]; [|done].
  destruct (np_broadcast_to align _) as [align2|e] eqn:Halign;
    cbn [mbind result_bind]; [|done].
  destruct (np_broadcast_to spacing _) as [spacing2|e] eqn:Hspacing;
    cbn [mbind result_bind]; [|done].
  destruct (np_broadcast_to round_to_even _) as [round_to_even2|e] eqn:Hround;
    cbn [mbind result_bind]; [|done].
  destruct (forallb (λ row : list Z, bool_decide (length row = _)) _) eqn:Hrows; cbn [mbind result_bind]; [|done].
  destruct (np_full _ background _) as [out0|e] eqn:Hfull;
    cbn [mbind result_bind]; [|done].
  intros Hloop.
  exists arrays0, shape, align2, spacing2, round_to_even2, out0.
  split_and!; try done.
  - intros array Harray. rewrite forallb_forall in Hdt.
    apply list_elem_of_In, Hdt in Harray. by apply bool_decide_eq_true_1 in Harray.
  - intros array Harray. rewrite forallb_forall in Htail.
    apply list_elem_of_In, Htail in Harray. by apply bool_decide_eq_true_1 in Harray.
  - apply Forall_forall. intros row Hrow. rewrite forallb_forall in Hrows.
    apply list_elem_of_In, Hrows in Hrow. by apply bool_decide_eq_true_1 in Hrow.
Qed.

End assemble_inv.

(** *** Element type of the output *)

Section assemble_dtype.
Local Close Scope Z_scope.
Context `{ElemDomain}.
Implicit Types (out arr array background : nparray) (idx : list nat).

Lemma length_region sh (slices : list (Z * Z)) :
  length (region_starts sh slices) = length (region_shape sh slices).
Proof. unfold region_starts, region_shape. len. Qed.

(** An assignment of an array of the element type of the output keeps
    the element type and the shape, stores elements of the array, and
    leaves what lies outside the box of the slices. *)
Lemma setitem_slices_inv out slices arr r :
  setitem_slices out slices arr = Ok r → np_dtype arr = np_dtype out →
  np_dtype r = np_dtype out ∧ shape r = shape out
  ∧ ∀ idx, in_bounds (shape out) idx →
      (np_arr r !!! idx = np_arr out !!! idx
       ∨ ∃ j, np_arr r !!! idx = np_arr arr !!! j)
      ∧ (¬ in_box (region_starts (shape out) slices)
             (region_shape (shape out) slices) idx →
         np_arr r !!! idx = np_arr out !!! idx).
Proof.
  unfold setitem_slices. case_decide as Hlen; [|done].
  unfold np_broadcast_to. case_decide as Hbc; [|done]. cbn [mbind result_bind].
  intros Hr Hdt. rewrite convert_as_is in Hr by (by left).
  cbn [mbind result_bind] in Hr. injection Hr as <-.
  split_and!; [done|done|]. intros idx Hidx. cbn [np_arr].
  rewrite lookup_total_fromfunction by done.
  case_decide as Hbox; [|by split; [left|]]. split; [right|done]. eexists.
  rewrite lookup_total_fromfunction; [done|].
  pose proof (length_region (shape out) slices) as Hreg.
  apply in_box_total in Hbox as [Hilen Hbox]; [|done].
  apply in_bounds_total. split; [len|]. intros k Hk.
  rewrite lookup_total_zip_with_nat by lia. specialize (Hbox k Hk). lia.
Qed.

(** [idx] lies in a box of an output of shape [sh] that the copy loop
    assigns to: the box of the slices that the loop computes for some
    input array, from the resolved grid shape and the broadcast
    arguments. *)
Definition written arrays (shape0 : list Z) (align : ndarray string)
    (spacing : ndarray Z) (round_to_even : ndarray bool)
    (sh : list nat) idx : Prop :=
  ∃ shape align2 spacing2 round_to_even2 i array slices,
    _fit_shape shape0 (Z.of_nat (length arrays)) = Ok shape
    ∧ np_broadcast_to align [length arrays; length shape] = Ok align2
    ∧ np_broadcast_to spacing [length shape] = Ok spacing2
    ∧ np_broadcast_to round_to_even [length shape] = Ok round_to_even2
    ∧ arrays !! i = Some array
    ∧ slices_of arrays shape align2 spacing2 round_to_even2 i array = Ok slices
    ∧ in_box (region_starts sh slices) (region_shape sh slices) idx.

(** C10: the output of a successful call has the element type of every
    input array.  The background is converted to that element type:
    [np.full] of the background, for the shape and the element type of the
    output, succeeds and holds at every position the background value,
    broadcast and converted; the output shows this converted background
    wherever the copy loop has not assigned, and each of its elements is
    the converted background or an element of an input array.  A call with
    another background, of whatever element type, gives the same element
    type. *)
Theorem assemble_arrays_dtype arrays shape background align spacing round_to_even out :
  assemble_arrays arrays shape background align spacing round_to_even = Ok out →
  (∀ array, array ∈ arrays → np_dtype array = np_dtype out)
  ∧ (∃ filled,
       np_full (Z.of_nat <$> shape_of out) background (np_dtype out) = Ok filled
       ∧ ∀ idx, in_bounds (shape_of out) idx →
           converted (np_dtype out) background
             (np_arr background !!! broadcast_index (shape_of background) idx)
             (np_arr filled !!! idx)
           ∧ (¬ written arrays shape align spacing round_to_even (shape_of out) idx →
              np_arr out !!! idx = np_arr filled !!! idx)
           ∧ (np_arr out !!! idx = np_arr filled !!! idx
              ∨ ∃ array j, array ∈ arrays ∧ np_arr out !!! idx = np_arr array !!! j))
  ∧ (∀ background' out',
       assemble_arrays arrays shape background' align spacing round_to_even = Ok out' →
       np_dtype out' = np_dtype out).
Proof.
  assert (∀ bg o,
            assemble_arrays arrays shape bg align spacing round_to_even = Ok o →
            ∃ arrays0 out0,
              head arrays = Some arrays0
              ∧ (∀ array, array ∈ arrays → np_dtype array = np_dtype arrays0)
              ∧ np_full (Z.of_nat <$> shape_of o) bg (np_dtype arrays0) = Ok out0
              ∧ np_dtype o = np_dtype arrays0 ∧ shape_of o = shape_of out0
              ∧ ∀ idx, in_bounds (shape_of o) idx →
                  (¬ written arrays shape align spacing round_to_even (shape_of o) idx →
                   np_arr o !!! idx = np_arr out0 !!! idx)
                  ∧ (np_arr o !!! idx = np_arr out0 !!! idx
                     ∨ ∃ array j, array ∈ arrays ∧ np_arr o !!! idx = np_arr array !!! j))
    as Hrun.
  { intros bg o Ho.
    destruct (assemble_arrays_inv _ _ _ _ _ _ _ Ho)
      as (arrays0 & shape' & align2 & spacing2 & round_to_even2 & out0
          & Hhead & Hfit & Hdt & _ & Halign & Hspacing & Hround & _ & Hfull & Hloop).
    destruct (np_full_inv _ _ _ _ Hfull) as (Hd0 & Hsh0 & _ & _).
    pose proof (np_full_nonneg _ _ _ _ Hfull) as Hnn.
    assert (np_dtype o = np_dtype arrays0 ∧ shape_of o = shape_of out0
            ∧ ∀ idx, in_bounds (shape_of o) idx →
                ((∀ i array slices,
                    i < length (imap pair arrays) → arrays !! i = Some array →
                    slices_of arrays shape' align2 spacing2 round_to_even2 i array
                    = Ok slices →
                    ¬ in_box (region_starts (shape_of out0) slices)
                        (region_shape (shape_of out0) slices) idx) →
                 np_arr o !!! idx = np_arr out0 !!! idx)
                ∧ (np_arr o !!! idx = np_arr out0 !!! idx
                   ∨ ∃ array j, array ∈ arrays
                                ∧ np_arr o !!! idx = np_arr array !!! j))
      as (Hd & Hs & Hel).
    { eapply (foldlM_invariant
               (λ k o, np_dtype o = np_dtype arrays0 ∧ shape_of o = shape_of out0
                       ∧ ∀ idx, in_bounds (shape_of o) idx →
                           ((∀ i array slices,
                               i < k → arrays !! i = Some array →
                               slices_of arrays shape' align2 spacing2
                                 round_to_even2 i array = Ok slices →
                               ¬ in_box (region_starts (shape_of out0) slices)
                                   (region_shape (shape_of out0) slices) idx) →
                            np_arr o !!! idx = np_arr out0 !!! idx)
                           ∧ (np_arr o !!! idx = np_arr out0 !!! idx
                              ∨ ∃ array j, array ∈ arrays
                                           ∧ np_arr o !!! idx = np_arr array !!! j)));
        [| |exact Hloop]; [by auto|].
      intros k [i array] b1 b2 Hk (Hd1 & Hs1 & Hel) Hstep.
      apply list_lookup_imap_Some in Hk as (array' & Harray & [= <- <-]).
      pose proof (list_elem_of_lookup_2 _ _ _ Harray) as Hin.
      unfold copy_array in Hstep.
      destruct (slices_of _ _ _ _ _ _ _) as [slices|e] eqn:Hsl; [|done].
      cbn [mbind result_bind] in Hstep.
      apply setitem_slices_inv in Hstep as (Hd2 & Hs2 & Hel2);
        [|by rewrite Hd1; apply Hdt].
      split_and!; [congruence|congruence|]. intros idx Hidx.
      rewrite Hs2 in Hidx. destruct (Hel2 idx Hidx) as [Hor Hout].
      destruct (Hel idx Hidx) as [Hout1 Hor1]. split.
      - intros Hnone. rewrite Hout.
        + apply Hout1. intros i0 array0 slices0 Hi. apply Hnone. lia.
        + rewrite Hs1. apply (Hnone i array slices); [lia|done|done].
      - destruct Hor as [->|[j ->]]; [done|]. right. by exists array, j. }
    exists arrays0, out0. split_and!; [done|done| |done|done|].
    - rewrite Hs, Hsh0, <-list_fmap_compose.
      set (os := output_shape _ _ _ _ _) in *.
      assert (Z.of_nat ∘ Z.to_nat <$> os = os) as ->; [|done].
      rewrite <-(list_fmap_id os) at 2. apply list_fmap_ext.
      rewrite Forall_forall in Hnn.
      intros ? n Hn%list_elem_of_lookup_2. simpl. apply Z2Nat.id. by apply Hnn.
    - intros idx Hidx. destruct (Hel idx Hidx) as [Hout1 Hor]. split; [|done].
      intros Hnw. apply Hout1. intros i array slices _ Harray Hsl Hbox.
      apply Hnw. exists shape', align2, spacing2, round_to_even2, i, array, slices.
      rewrite Hs. done. }
  intros Hout.
  destruct (Hrun _ _ Hout) as (arrays0 & out0 & Hhead & Hdt & Hfull & Hd & Hs & Hel).
  split_and!.
  - intros array Harray. rewrite Hd. by apply Hdt.
  - exists out0. rewrite Hd. split; [done|]. intros idx Hidx.
    destruct (np_full_inv _ _ _ _ Hfull) as (_ & _ & _ & Hconv).
    split; [apply Hconv; by rewrite <-Hs|]. by apply Hel.
  - intros background' out' Hout'.
    destruct (Hrun _ _ Hout') as (arrays0' & _ & Hhead' & _ & _ & Hd' & _).
    rewrite Hd, Hd'. congruence.
Qed.

End assemble_dtype.

(** The doctest call, where the background is the Python integer 0. *)
Lemma assemble_arrays_dtype_witness :
  np_dtype (array2 [[5]; [6]])
  = np_dtype (array2 [[1; 2; 3; 0; 5; 0; 7];
                      [0; 0; 0; 0; 6; 0; 0];
                      [8; 9; 0; 3; 4; 5; 0]]).
Proof.
  destruct (assemble_arrays_dtype
              [array2 [[1; 2; 3]]; array2 [[5]; [6]]; array2 [[7]];
               array2 [[8; 9]]; array2 [[3; 4; 5]]]
              [2; 3] (py_int 0)
              (NdArray [] ["center"]) (NdArray [] [0]) (NdArray [] [false])
              (array2 [[1; 2; 3; 0; 5; 0; 7];
                       [0; 0; 0; 0; 6; 0; 0];
                       [8; 9; 0; 3; 4; 5; 0]]))
    as [Hdtype _]; [reflexivity|].
  apply Hdtype. right. left.
Defined.

(** *** Cells of the grid *)

Section cells.
#[local] Set Default Proof Using "All".
Local Close Scope Z_scope.
Context `{ElemDomain}.
Context (arrays : list nparray) (shape : list Z).
Context (spacing2 : ndarray Z) (round_to_even2 : ndarray bool).
Implicit Types (array : nparray) (c idx : list nat) (i axis k : nat).

Hypothesis Hpos : ∀ d, d ∈ shape → (0 < d)%Z.
Hypothesis Hroom : (Z.of_nat (length arrays) ≤ math_prod shape)%Z.
Hypothesis Hrows : Forall (λ row, length row = length shape) (head_rows arrays shape).
Hypothesis Hspacing : ∀ axis, axis < length shape → (0 ≤ spacing2 !!! [axis])%Z.
Hypothesis Hfits :
  ∀ axis, axis < length shape →
    (exact_total (head_dims arrays shape) (grid_shape shape)
       (spacing2 !!! [axis]) axis + 1 < 2 ^ 63)%Z.

Notation D := (length shape).
Notation gshape := (grid_shape shape).
Notation lengths axis :=
  (exact_layout (head_dims arrays shape) gshape spacing2 round_to_even2 axis).1.
Notation origins axis :=
  (exact_layout (head_dims arrays shape) gshape spacing2 round_to_even2 axis).2.

Lemma length_grid_shape : length gshape = D.
Proof. unfold grid_shape. len. Qed.

Lemma grid_shape_pos axis : axis < D → 0 < gshape !!! axis.
Proof.
  intros Haxis. unfold grid_shape.
  rewrite (list_lookup_total_fmap Z.to_nat) by done.
  assert (0 < shape !!! axis)%Z; [|lia].
  apply Hpos, list_elem_of_lookup_total_2. lia.
Qed.

Lemma size_grid_shape : size gshape = Z.to_nat (math_prod shape).
Proof. by apply size_to_nat. Qed.

Lemma length_head_rows : length (head_rows arrays shape) = size gshape.
Proof. rewrite size_grid_shape. unfold head_rows. len. Qed.

Lemma array_in_grid i array : arrays !! i = Some array → i < size gshape.
Proof. intros Hi%lookup_lt_Some. rewrite size_grid_shape. lia. Qed.

Lemma head_rows_array i array :
  arrays !! i = Some array →
  head_rows arrays shape !!! i = Z.of_nat <$> take D (shape_of array).
Proof.
  intros Hi. unfold head_rows.
  rewrite lookup_total_app_l by (rewrite length_fmap; by eapply lookup_lt_Some).
  apply list_lookup_total_correct. by rewrite list_lookup_fmap, Hi.
Qed.

Lemma ndim_ge i array : arrays !! i = Some array → D ≤ ndim array.
Proof.
  intros Hi. pose proof (head_rows_array i array Hi) as Hrow.
  pose proof (proj1 (Forall_lookup _ _) Hrows) as Hall.
  pose proof (array_in_grid _ _ Hi) as Hlt. rewrite <-length_head_rows in Hlt.
  specialize (Hall i _ (list_lookup_lookup_total_lt _ _ Hlt)).
  rewrite Hrow in Hall. len in Hall. unfold ndim. lia.
Qed.

Lemma head_rows_extent i array axis :
  arrays !! i = Some array → axis < D →
  (head_rows arrays shape !!! i) !!! axis = Z.of_nat (shape_of array !!! axis).
Proof.
  intros Hi Haxis. pose proof (ndim_ge _ _ Hi). unfold ndim in *.
  rewrite (head_rows_array _ _ Hi).
  rewrite (list_lookup_total_fmap Z.of_nat) by len.
  by rewrite lookup_total_take, decide_True by lia.
Qed.

Lemma head_rows_nonneg i axis :
  i < size gshape → axis < D → (0 ≤ (head_rows arrays shape !!! i) !!! axis)%Z.
Proof.
  intros Hi Haxis. destruct (arrays !! i) as [array|] eqn:Harray.
  - rewrite (head_rows_extent _ _ _ Harray) by done. lia.
  - apply lookup_ge_None in Harray. unfold head_rows.
    rewrite lookup_total_app_r by len. rewrite length_fmap.
    rewrite lookup_total_replicate_2.
    + by rewrite lookup_total_replicate_2.
    + rewrite size_grid_shape in Hi. lia.
Qed.

Lemma head_dims_lookup c axis :
  in_bounds gshape c → axis < D →
  head_dims arrays shape !!! (c ++ [axis])
  = (head_rows arrays shape !!! ravel gshape c) !!! axis.
Proof.
  intros Hc Haxis. unfold lookup_total at 1, ndarray_lookup_total. simpl.
  rewrite ravel_app by (by apply in_bounds_length).
  apply concat_lookup_total; [done| |done].
  rewrite length_head_rows. by apply ravel_lt.
Qed.

Lemma head_dims_nonneg axis c :
  axis < D → in_bounds gshape c → (0 ≤ head_dims arrays shape !!! (c ++ [axis]))%Z.
Proof.
  intros Haxis Hc. rewrite head_dims_lookup by done.
  apply head_rows_nonneg; [by apply ravel_lt|done].
Qed.

(** Nothing wraps around in the layout of an axis of the grid. *)
Lemma layout_exact axis :
  axis < D →
  axis_layout (head_dims arrays shape) gshape spacing2 round_to_even2 axis
  = exact_layout (head_dims arrays shape) gshape spacing2 round_to_even2 axis.
Proof.
  intros Haxis. apply axis_layout_exact.
  - by rewrite length_grid_shape.
  - by apply grid_shape_pos.
  - by apply Hspacing.
  - intros c Hc. by apply head_dims_nonneg.
  - by apply Hfits.
Qed.

Lemma layout_lengths axis :
  axis < D → (layout arrays shape spacing2 round_to_even2).*1 !!! axis = lengths axis.
Proof.
  intros Haxis. unfold layout. rewrite <-list_fmap_compose.
  rewrite (list_lookup_total_fmap
             (fst ∘ (λ axis, axis_layout (head_dims arrays shape) gshape
                               spacing2 round_to_even2 axis))) by len.
  unfold compose. rewrite lookup_total_seq_lt by done. cbn [Nat.add].
  by rewrite layout_exact.
Qed.

Lemma layout_origins axis :
  axis < D → (layout arrays shape spacing2 round_to_even2).*2 !!! axis = origins axis.
Proof.
  intros Haxis. unfold layout. rewrite <-list_fmap_compose.
  rewrite (list_lookup_total_fmap
             (snd ∘ (λ axis, axis_layout (head_dims arrays shape) gshape
                               spacing2 round_to_even2 axis))) by len.
  unfold compose. rewrite lookup_total_seq_lt by done. cbn [Nat.add].
  by rewrite layout_exact.
Qed.

(** The grid coordinates of array [i]. *)
Lemma cell_spec i :
  i < size gshape → in_bounds gshape (cell shape i) ∧ ravel gshape (cell shape i) = i.
Proof. apply ndindex_lookup_total. Qed.

Lemma cell_lt i axis : i < size gshape → axis < D → cell shape i !!! axis < gshape !!! axis.
Proof.
  intros Hi Haxis. destruct (cell_spec i Hi) as [[_ Hc]%in_bounds_total _].
  apply Hc. by rewrite length_grid_shape.
Qed.

(** Two arrays lie in cells that differ along some axis. *)
Lemma cell_differ i j :
  i < size gshape → j < size gshape → i ≠ j →
  ∃ axis, axis < D ∧ cell shape i !!! axis ≠ cell shape j !!! axis.
Proof.
  intros Hi Hj Hij.
  destruct (cell_spec i Hi) as [Hci Hri], (cell_spec j Hj) as [Hcj Hrj].
  pose proof (in_bounds_length _ _ Hci) as Hli.
  pose proof (in_bounds_length _ _ Hcj) as Hlj.
  rewrite length_grid_shape in Hli, Hlj.
  destruct (decide (Exists (λ axis, cell shape i !!! axis ≠ cell shape j !!! axis)
                      (seq 0 D))) as [Hex|Hno].
  - apply Exists_exists in Hex as (axis & Hin%elem_of_seq & Hne).
    exists axis. split; [lia|done].
  - exfalso. apply Hij. rewrite <-Hri, <-Hrj. f_equal.
    apply list_eq_total; [lia|]. intros k Hk.
    apply (not_Exists_Forall _) in Hno. rewrite Forall_forall in Hno.
    specialize (Hno k ltac:(apply elem_of_seq; lia)). simpl in Hno.
    by apply dec_stable in Hno.
Qed.

(** The hypotheses of the facts on [axis_layout], for an axis of the grid. *)
Lemma layout_axis axis :
  axis < D →
  axis < length gshape ∧ (0 ≤ spacing2 !!! [axis])%Z
  ∧ ∀ c, in_bounds gshape c → (0 ≤ head_dims arrays shape !!! (c ++ [axis]))%Z.
Proof.
  intros Haxis. split_and!; [by rewrite length_grid_shape|by apply Hspacing|].
  intros c Hc. by apply head_dims_nonneg.
Qed.

Lemma cell_origin_eq i axis :
  axis < D →
  cell_origin arrays shape spacing2 round_to_even2 i axis
  = origins axis !!! (cell shape i !!! axis).
Proof. intros Haxis. unfold cell_origin. by rewrite layout_origins. Qed.

Lemma cell_length_eq i axis :
  axis < D →
  cell_length arrays shape spacing2 round_to_even2 i axis
  = lengths axis !!! (cell shape i !!! axis).
Proof. intros Haxis. unfold cell_length. by rewrite layout_lengths. Qed.

(** An array is no longer than its cell. *)
Lemma array_fits i array axis :
  arrays !! i = Some array → axis < D →
  (Z.of_nat (shape_of array !!! axis)
   ≤ cell_length arrays shape spacing2 round_to_even2 i axis)%Z.
Proof.
  intros Hi Haxis. rewrite cell_length_eq by done.
  pose proof (array_in_grid _ _ Hi) as Hlt.
  destruct (cell_spec i Hlt) as [Hc Hr].
  destruct (layout_axis axis Haxis) as (Ha & Hs & Hd).
  pose proof (lengths_fit _ _ _ round_to_even2 _ Ha Hs Hd _ Hc) as Hfit.
  rewrite head_dims_lookup, Hr in Hfit by done.
  by rewrite (head_rows_extent _ _ _ Hi) in Hfit.
Qed.

(** A cell lies inside the output, after the cells before it. *)
Lemma cell_inside i axis :
  i < size gshape → axis < D →
  (0 ≤ cell_origin arrays shape spacing2 round_to_even2 i axis
   ∧ 0 ≤ cell_length arrays shape spacing2 round_to_even2 i axis
   ∧ cell_origin arrays shape spacing2 round_to_even2 i axis
     + cell_length arrays shape spacing2 round_to_even2 i axis
     ≤ origins axis !!! (gshape !!! axis))%Z.
Proof.
  intros Hi Haxis. rewrite cell_origin_eq, cell_length_eq by done.
  pose proof (cell_lt i axis Hi Haxis) as Hk.
  destruct (layout_axis axis Haxis) as (Ha & Hs & Hd).
  pose proof (origins_nonneg _ _ _ round_to_even2 _ Ha Hs Hd
                (cell shape i !!! axis) ltac:(lia)).
  pose proof (lengths_nonneg _ _ _ round_to_even2 _ Ha Hs Hd _ Hk).
  pose proof (origins_step _ _ _ round_to_even2 _ Ha Hs Hd _ Hk).
  pose proof (origins_mono _ _ _ round_to_even2 _ Ha Hs Hd
                (S (cell shape i !!! axis)) (gshape !!! axis) ltac:(lia) ltac:(lia)).
  lia.
Qed.

(** The extent of the output along an axis of the grid fits in 64 bits. *)
Lemma extent_fits axis :
  axis < D → (origins axis !!! (gshape !!! axis) < 2 ^ 63)%Z.
Proof.
  intros Haxis. destruct (layout_axis axis Haxis) as (Ha & Hs & Hd).
  pose proof (origins_bound _ _ _ round_to_even2 _ Ha Hs Hd (gshape !!! axis)
                (grid_shape_pos axis Haxis) ltac:(lia)).
  pose proof (Hfits axis Haxis). lia.
Qed.

Lemma cell_length_fits i axis :
  i < size gshape → axis < D →
  (cell_length arrays shape spacing2 round_to_even2 i axis < 2 ^ 63)%Z.
Proof.
  intros Hi Haxis. pose proof (cell_inside i axis Hi Haxis).
  pose proof (extent_fits axis Haxis). lia.
Qed.

Lemma cells_apart i j axis :
  i < size gshape → j < size gshape → axis < D →
  cell shape i !!! axis < cell shape j !!! axis →
  (cell_origin arrays shape spacing2 round_to_even2 i axis
   + cell_length arrays shape spacing2 round_to_even2 i axis
   ≤ cell_origin arrays shape spacing2 round_to_even2 j axis)%Z.
Proof.
  intros Hi Hj Haxis Hlt. rewrite !cell_origin_eq, cell_length_eq by done.
  pose proof (cell_lt i axis Hi Haxis) as Hki.
  pose proof (cell_lt j axis Hj Haxis) as Hkj.
  destruct (layout_axis axis Haxis) as (Ha & Hs & Hd).
  pose proof (origins_step _ _ _ round_to_even2 _ Ha Hs Hd _ Hki).
  pose proof (origins_mono _ _ _ round_to_even2 _ Ha Hs Hd
                (S (cell shape i !!! axis)) (cell shape j !!! axis)
                ltac:(lia) ltac:(lia)).
  lia.
Qed.

(** The extents of the output along the axes of the grid. *)
Lemma output_shape_lookup tail_dims axis :
  axis < D →
  output_shape arrays shape spacing2 round_to_even2 tail_dims !!! axis
  = origins axis !!! (gshape !!! axis).
Proof.
  intros Haxis. unfold output_shape.
  rewrite lookup_total_app_l by (unfold layout; len).
  rewrite (list_lookup_total_fmap (λ o : list Z, default 0%Z (last o)))
    by (unfold layout; len).
  rewrite layout_origins by done.
  destruct (layout_axis axis Haxis) as (Ha & Hs & Hd).
  by apply origins_last.
Qed.

Lemma length_output_shape tail_dims :
  length (output_shape arrays shape spacing2 round_to_even2 tail_dims)
  = D + length tail_dims.
Proof. unfold output_shape, layout. len. Qed.

Lemma output_shape_tail tail_dims :
  drop D (Z.to_nat <$> output_shape arrays shape spacing2 round_to_even2 tail_dims)
  = tail_dims.
Proof.
  unfold output_shape. rewrite fmap_app, drop_app_length'.
  - rewrite <-list_fmap_compose. rewrite <-(list_fmap_id tail_dims) at 2.
    apply list_fmap_ext. intros ? n _. simpl. lia.
  - unfold layout. len.
Qed.

(** *** Where the arrays are written *)

Context (align2 : ndarray string).

Notation cell_origin' := (cell_origin arrays shape spacing2 round_to_even2).
Notation cell_length' := (cell_length arrays shape spacing2 round_to_even2).

(** What [offset] returns for array [i] along [axis]. *)
Definition offset_of i array axis : Z :=
  match offset (cell_length' i axis) (Z.of_nat (shape_of array !!! axis))
          (align2 !!! [i; axis]) with
  | Ok o => o
  | Raise _ => 0%Z
  end.

(** The first corner of array [i] in the output, on the axes of the grid. *)
Definition start_of i array : list nat :=
  (λ axis, Z.to_nat (cell_origin' i axis + offset_of i array axis)) <$> seq 0 D.

Lemma offset_of_bounds i array axis :
  arrays !! i = Some array → axis < D →
  (0 ≤ offset_of i array axis
   ≤ cell_length' i axis - Z.of_nat (shape_of array !!! axis))%Z.
Proof.
  intros Hi Haxis. pose proof (array_fits i array axis Hi Haxis) as Hfit.
  pose proof (cell_length_fits i axis (array_in_grid _ _ Hi) Haxis).
  unfold offset_of. destruct (offset _ _ _) as [o|e] eqn:Ho; [|lia].
  apply (offset_ok _ _ _ _ Ho); lia.
Qed.

Lemma length_start_of i array : length (start_of i array) = D.
Proof. unfold start_of. len. Qed.

Lemma start_of_lookup i array axis :
  arrays !! i = Some array → axis < D →
  Z.of_nat (start_of i array !!! axis)
  = (cell_origin' i axis + offset_of i array axis)%Z.
Proof.
  intros Hi Haxis. unfold start_of.
  rewrite (list_lookup_total_fmap
             (λ axis, Z.to_nat (cell_origin' i axis + offset_of i array axis)))
    by len.
  rewrite lookup_total_seq_lt by done. simpl.
  pose proof (offset_of_bounds i array axis Hi Haxis).
  pose proof (cell_inside i axis (array_in_grid _ _ Hi) Haxis). lia.
Qed.

(** The array lies in its cell, and so inside the output. *)
Lemma start_of_inside i array axis :
  arrays !! i = Some array → axis < D →
  (cell_origin' i axis ≤ Z.of_nat (start_of i array !!! axis)
   ∧ Z.of_nat (start_of i array !!! axis) + Z.of_nat (shape_of array !!! axis)
     ≤ cell_origin' i axis + cell_length' i axis
   ∧ cell_origin' i axis + cell_length' i axis ≤ origins axis !!! (gshape !!! axis))%Z.
Proof.
  intros Hi Haxis. rewrite start_of_lookup by done.
  pose proof (offset_of_bounds i array axis Hi Haxis).
  pose proof (cell_inside i axis (array_in_grid _ _ Hi) Haxis). lia.
Qed.

Lemma slices_of_ok i array slices :
  arrays !! i = Some array →
  slices_of arrays shape align2 spacing2 round_to_even2 i array = Ok slices →
  length slices = D
  ∧ ∀ axis, axis < D →
      offset (cell_length' i axis) (Z.of_nat (shape_of array !!! axis))
        (align2 !!! [i; axis]) = Ok (offset_of i array axis)
      ∧ slices !!! axis
        = ((cell_origin' i axis + offset_of i array axis)%Z,
           (cell_origin' i axis + offset_of i array axis
            + Z.of_nat (shape_of array !!! axis))%Z).
Proof.
  intros Hi Hsl. unfold slices_of in Hsl.
  apply traverse_ok_inv, Forall2_total in Hsl as [Hlen Hsl]. len in Hlen.
  split; [done|]. intros axis Haxis.
  specialize (Hsl axis ltac:(len)). rewrite lookup_total_seq_lt in Hsl by done.
  simpl in Hsl.
  pose proof (offset_of_bounds i array axis Hi Haxis) as Hob.
  pose proof (cell_inside i axis (array_in_grid _ _ Hi) Haxis) as Hci.
  pose proof (extent_fits axis Haxis) as Hef.
  unfold offset_of in *.
  destruct (offset _ _ _) as [o|e] eqn:Ho; [|done].
  cbn [mbind result_bind] in Hsl. injection Hsl as Hsl.
  split; [done|]. etrans; [symmetry; exact Hsl|]. unfold add64.
  rewrite (wrap64_id (_ + o)) by lia. by rewrite wrap64_id by lia.
Qed.

Lemma slices_of_start i array slices :
  arrays !! i = Some array →
  slices_of arrays shape align2 spacing2 round_to_even2 i array = Ok slices →
  Z.to_nat <$> slices.*1 = start_of i array.
Proof.
  intros Hi Hsl. destruct (slices_of_ok _ _ _ Hi Hsl) as [Hlen Hax].
  apply list_eq_total; [rewrite length_start_of; len|]. intros axis Haxis.
  len in Haxis. rewrite Hlen in Haxis.
  rewrite (list_lookup_total_fmap Z.to_nat), (list_lookup_total_fmap fst) by len.
  destruct (Hax axis Haxis) as [_ ->]. simpl.
  rewrite <-(start_of_lookup i array axis Hi Haxis). lia.
Qed.

(** The regions of two arrays do not meet. *)
Lemma regions_disjoint i j ai aj idx :
  i ≠ j → arrays !! i = Some ai → arrays !! j = Some aj →
  region (start_of i ai) ai idx → region (start_of j aj) aj idx → False.
Proof.
  intros Hij Hi Hj Hri Hrj.
  pose proof (array_in_grid _ _ Hi) as Hgi.
  pose proof (array_in_grid _ _ Hj) as Hgj.
  pose proof (ndim_ge _ _ Hi) as Hdi. pose proof (ndim_ge _ _ Hj) as Hdj.
  destruct (cell_differ i j Hgi Hgj Hij) as (axis & Haxis & Hne).
  unfold region, ndim in *.
  apply in_box_total in Hri as [_ Hri]; [|rewrite length_app, length_start_of; len].
  apply in_box_total in Hrj as [_ Hrj]; [|rewrite length_app, length_start_of; len].
  specialize (Hri axis ltac:(lia)). specialize (Hrj axis ltac:(lia)).
  rewrite lookup_total_app_l in Hri, Hrj by (rewrite length_start_of; lia).
  pose proof (start_of_inside i ai axis Hi Haxis).
  pose proof (start_of_inside j aj axis Hj Haxis).
  destruct (decide (cell shape i !!! axis < cell shape j !!! axis)).
  - pose proof (cells_apart i j axis Hgi Hgj Haxis ltac:(lia)). lia.
  - pose proof (cells_apart j i axis Hgj Hgi Haxis ltac:(lia)). lia.
Qed.

(** One round of the copy loop, on an output of the computed shape. *)
Lemma copy_array_spec out i array r :
  arrays !! i = Some array →
  np_dtype array = np_dtype out →
  shape_of out
  = Z.to_nat <$> output_shape arrays shape spacing2 round_to_even2
                   (drop D (shape_of array)) →
  copy_array arrays shape align2 spacing2 round_to_even2 out (i, array) = Ok r →
  r = NpArray (np_dtype out)
        (fromfunction (shape_of out)
           (λ idx, if decide (region (start_of i array) array idx)
                   then np_arr array
                        !!! zip_with Nat.sub idx
                              (start_of i array ++ replicate (ndim array - D) 0)
                   else np_arr out !!! idx)).
Proof.
  intros Hi Hdt Hshape Hr. unfold copy_array in Hr.
  destruct (slices_of _ _ _ _ _ _ _) as [slices|e] eqn:Hsl; [|done].
  cbn [mbind result_bind] in Hr.
  destruct (slices_of_ok _ _ _ Hi Hsl) as [Hlen Hax].
  pose proof (slices_of_start _ _ _ Hi Hsl) as Hstart.
  pose proof (ndim_ge _ _ Hi) as Hnd.
  rewrite setitem_slices_box in Hr.
  - injection Hr as <-. by rewrite Hstart, Hlen.
  - done.
  - lia.
  - unfold ndim in *. rewrite Hshape, length_fmap, length_output_shape. len.
  - by rewrite Hlen, Hshape, output_shape_tail.
  - intros axis Haxis. rewrite Hlen in Haxis. destruct (Hax axis Haxis) as [_ ->].
    cbn [fst snd]. rewrite <-(start_of_lookup i array axis Hi Haxis).
    pose proof (start_of_inside i array axis Hi Haxis) as (? & ? & Hout).
    rewrite Hshape. unfold ndim in *.
    rewrite (list_lookup_total_fmap Z.to_nat)
      by (rewrite length_output_shape; lia).
    rewrite output_shape_lookup by done. lia.
Qed.

Lemma region_in_output i array idx :
  arrays !! i = Some array → region (start_of i array) array idx →
  in_bounds (Z.to_nat <$> output_shape arrays shape spacing2 round_to_even2
                            (drop D (shape_of array))) idx.
Proof.
  intros Hi Hr. pose proof (ndim_ge _ _ Hi) as Hnd. unfold region, ndim in *.
  apply in_box_total in Hr as [Hlen Hr]; [|rewrite length_app, length_start_of; len].
  set (osh := Z.to_nat <$> output_shape arrays shape spacing2 round_to_even2
                             (drop D (shape_of array))).
  assert (length osh = length (shape_of array)) as Hosh
    by (unfold osh; rewrite length_fmap, length_output_shape; len).
  apply in_bounds_total. split; [lia|]. intros k Hk. specialize (Hr k ltac:(lia)).
  destruct (decide (k < D)) as [Hlt|Hge].
  - rewrite lookup_total_app_l in Hr by (rewrite length_start_of; lia).
    pose proof (start_of_inside i array k Hi Hlt).
    unfold osh. rewrite (list_lookup_total_fmap Z.to_nat)
      by (rewrite length_output_shape; lia).
    rewrite output_shape_lookup by done. lia.
  - replace k with (D + (k - D)) at 2 by lia.
    rewrite <-lookup_total_drop. unfold osh. rewrite output_shape_tail.
    rewrite lookup_total_drop. replace (D + (k - D)) with k by lia.
    rewrite lookup_total_app_r in Hr by (rewrite length_start_of; lia).
    rewrite lookup_total_replicate_2 in Hr by (rewrite length_start_of; lia).
    lia.
Qed.

(** *** The copy loop *)

Context (d : dtype) (tail_dims : list nat) (out0 out : nparray).

Hypothesis Hdtype : ∀ array, array ∈ arrays → np_dtype array = d.
Hypothesis Htail : ∀ array : nparray, array ∈ arrays → drop D (shape_of array) = tail_dims.
Hypothesis Hd0 : np_dtype out0 = d.
Hypothesis Hshape0 :
  shape_of out0 = Z.to_nat <$> output_shape arrays shape spacing2 round_to_even2 tail_dims.
Hypothesis Hloop :
  foldlM (copy_array arrays shape align2 spacing2 round_to_even2) out0
    (imap pair arrays) = Ok out.

(** The output after the first [k] arrays are copied. *)
Definition copied (k : nat) (o : nparray) : Prop :=
  np_dtype o = d ∧ shape_of o = shape_of out0
  ∧ (∀ i array axis, i < k → arrays !! i = Some array → axis < D →
       offset (cell_length' i axis) (Z.of_nat (shape_of array !!! axis))
         (align2 !!! [i; axis]) = Ok (offset_of i array axis))
  ∧ ∀ idx, in_bounds (shape_of out0) idx →
      (∀ i array, i < k → arrays !! i = Some array →
         region (start_of i array) array idx →
         np_arr o !!! idx
         = np_arr array !!! zip_with Nat.sub idx
                              (start_of i array ++ replicate (ndim array - D) 0))
      ∧ ((∀ i array, i < k → arrays !! i = Some array →
            ¬ region (start_of i array) array idx) →
         np_arr o !!! idx = np_arr out0 !!! idx).

Lemma copy_loop : copied (length arrays) out.
Proof.
  rewrite <-(length_imap pair arrays).
  eapply (foldlM_invariant copied); [| |exact Hloop].
  - split_and!; [done|done|intros; lia|]. intros idx Hidx. split; [intros; lia|done].
  - intros k [k' array'] b1 b2 Hk (Hd1 & Hs1 & Hoff & Hel) Hstep.
    apply list_lookup_imap_Some in Hk as (array & Harray & [= -> ->]).
    pose proof (list_elem_of_lookup_2 _ _ _ Harray) as Hin.
    pose proof Hstep as Hslices. unfold copy_array in Hslices.
    destruct (slices_of _ _ _ _ _ _ _) as [slices|e] eqn:Hsl; [|done].
    destruct (slices_of_ok _ _ _ Harray Hsl) as [_ Hax]. clear Hslices.
    apply copy_array_spec in Hstep;
      [|done|by rewrite Hd1; apply Hdtype|by rewrite Hs1, Hshape0, (Htail _ Hin)].
    subst b2. split_and!; [done|done| |].
    + intros i array0 axis Hi Harray0 Haxis.
      destruct (decide (i = k)) as [->|Hne].
      * rewrite Harray in Harray0. injection Harray0 as <-. by apply Hax.
      * apply Hoff; [lia|done|done].
    + intros idx Hidx. cbn [np_arr]. rewrite Hs1.
      rewrite lookup_total_fromfunction by done.
      destruct (Hel idx Hidx) as [Hin1 Hout1].
      case_decide as Hreg; split.
      * intros i array0 Hi Harray0 Hreg0.
        destruct (decide (i = k)) as [->|Hne].
        -- rewrite Harray in Harray0. by injection Harray0 as <-.
        -- destruct (regions_disjoint i k array0 array idx); done.
      * intros Hnone. destruct (Hnone k array); [lia|done|done].
      * intros i array0 Hi Harray0 Hreg0.
        destruct (decide (i = k)) as [->|Hne].
        -- rewrite Harray in Harray0. injection Harray0 as <-. done.
        -- apply Hin1; [lia|done|done].
      * intros Hnone. apply Hout1. intros i array0 Hi. apply Hnone. lia.
Qed.

End cells.

(** *** The layout of the output *)

Lemma np_broadcast_to_lookup {A : Type} `{Inhabited A} (a b : ndarray A)
    (sh idx : list nat) :
  np_broadcast_to a sh = Ok b → in_bounds sh idx →
  b !!! idx = a !!! broadcast_index (shape a) idx.
Proof.
  unfold np_broadcast_to. case_decide; [|done]. intros [= <-] Hidx.
  by rewrite lookup_total_fromfunction.
Qed.

Lemma ndarray_lookup_nonneg (a : ndarray Z) (idx : list nat) :
  (∀ s, s ∈ data a → 0 ≤ s) → 0 ≤ a !!! idx.
Proof.
  intros Hall. unfold lookup_total, ndarray_lookup_total.
  rewrite list_lookup_total_alt.
  destruct (data a !! ravel (shape a) idx) as [s|] eqn:Hs; simpl; [|done].
  by eapply Hall, list_elem_of_lookup_2.
Qed.

Section assemble_layout.
Local Close Scope Z_scope.
Context `{ElemDomain}.

(** Along every axis of the resolved grid, the slice lengths (the largest
    extent of the arrays of each slice) and the spacings between the
    slices add up to less than 2^63 - 1: with the one element that
    [round_to_even] may add, the extent of the output fits in [int64]. *)
Definition fits_int64 (arrays : list nparray) (shape0 : list Z)
    (spacing : ndarray Z) : Prop :=
  ∀ shape axis,
    _fit_shape shape0 (Z.of_nat (length arrays)) = Ok shape →
    axis < length shape →
    (exact_total (head_dims arrays shape) (grid_shape shape)
       (spacing !!! broadcast_index (shape_of spacing) [axis]) axis + 1
     < 2 ^ 63)%Z.

(** C1 (as amended): after a successful call with a spacing of
    non-negative [int64] values, where the extents of the output fit in
    [int64] ([fits_int64]), the grid has along each axis consecutive slices
    inside the output ([origins], [lengths]); array [i] lies in the cell
    with the grid coordinates [ndindex gshape !!! i], is no longer than the
    cell, starts where [offset] puts it for its alignment, and shows all
    its elements there; the regions of two arrays do not meet; and every
    other element of the output is the background, broadcast and converted
    to the element type of the arrays. *)
Theorem assemble_arrays_layout arrays shape background align spacing round_to_even out :
  assemble_arrays arrays shape background align spacing round_to_even = Ok out →
  (∀ s, s ∈ data spacing → (0 ≤ s < 2 ^ 63)%Z) →
  fits_int64 arrays shape spacing →
  ∃ (gshape : list nat) (origins lengths : nat → nat → Z) (start : nat → list nat),
    _fit_shape shape (Z.of_nat (length arrays)) = Ok (Z.of_nat <$> gshape)
    ∧ (∀ axis k, axis < length gshape → k < gshape !!! axis →
         (0 ≤ origins axis k ∧ 0 ≤ lengths axis k
          ∧ origins axis k + lengths axis k ≤ origins axis (S k)
          ∧ origins axis (S k) ≤ Z.of_nat (shape_of out !!! axis))%Z)
    ∧ (∀ i (array : nparray), arrays !! i = Some array →
         in_bounds gshape (ndindex gshape !!! i)
         ∧ length (start i) = length gshape
         ∧ length gshape ≤ ndim array
         ∧ (∀ axis, axis < length gshape →
              ∃ off,
                offset (lengths axis ((ndindex gshape !!! i) !!! axis))
                  (Z.of_nat (shape_of array !!! axis))
                  (align !!! broadcast_index (shape_of align) [i; axis]) = Ok off
                ∧ (Z.of_nat (shape_of array !!! axis)
                   ≤ lengths axis ((ndindex gshape !!! i) !!! axis))%Z
                ∧ Z.of_nat (start i !!! axis)
                  = (origins axis ((ndindex gshape !!! i) !!! axis) + off)%Z)
         ∧ (∀ idx, in_bounds (shape_of array) idx →
              np_arr out
              !!! zip_with Nat.add
                    (start i ++ replicate (ndim array - length (start i)) 0) idx
              = np_arr array !!! idx))
    ∧ (∀ i j (ai aj : nparray) idx, i ≠ j → arrays !! i = Some ai → arrays !! j = Some aj →
         ¬ (region (start i) ai idx ∧ region (start j) aj idx))
    ∧ (∀ idx, in_bounds (shape_of out) idx →
         (∀ i (array : nparray), arrays !! i = Some array →
            ¬ region (start i) array idx) →
         converted (np_dtype out) background
           (np_arr background !!! broadcast_index (shape_of background) idx)
           (np_arr out !!! idx)).
Proof.
  intros Hout Hsp Hfits64.
  destruct (assemble_arrays_inv _ _ _ _ _ _ _ Hout)
    as (arrays0 & shape' & align2 & spacing2 & round_to_even2 & out0
        & Hhead & Hfit & Hdt & Htail & Halign & Hspacing2 & Hround & Hrows
        & Hfull & Hloop).
  assert (1 ≤ Z.of_nat (length arrays))%Z as Hnum
    by (destruct arrays; [done|simpl; lia]).
  destruct (fit_shape_ok _ _ _ Hnum Hfit) as (Hlen & Hpos & Hroom).
  assert (∀ axis, axis < length shape' → (0 ≤ spacing2 !!! [axis])%Z) as Hspacing.
  { intros axis Haxis.
    rewrite (np_broadcast_to_lookup _ _ _ _ Hspacing2)
      by (repeat constructor; lia).
    apply ndarray_lookup_nonneg. intros s Hs. by apply Hsp. }
  assert (∀ axis, axis < length shape' →
            (exact_total (head_dims arrays shape') (grid_shape shape')
               (spacing2 !!! [axis]) axis + 1 < 2 ^ 63)%Z) as Hfits.
  { intros axis Haxis.
    rewrite (np_broadcast_to_lookup _ _ _ _ Hspacing2)
      by (repeat constructor; lia).
    by apply Hfits64. }
  destruct (np_full_inv _ _ _ _ Hfull) as (Hd0 & Hsh0 & _ & Hconv).
  destruct (copy_loop arrays shape' spacing2 round_to_even2 Hpos Hroom Hrows
              Hspacing Hfits align2 _ _ out0 out Hdt Htail Hd0 Hsh0 Hloop)
    as (Hd & Hs & Hoff & Hel).
  pose proof (length_grid_shape arrays shape' spacing2 round_to_even2
                Hpos Hroom Hrows Hspacing Hfits) as Hgrid.
  exists (grid_shape shape'),
         (λ axis k, (exact_layout (head_dims arrays shape') (grid_shape shape')
                       spacing2 round_to_even2 axis).2 !!! k),
         (λ axis k, (exact_layout (head_dims arrays shape') (grid_shape shape')
                       spacing2 round_to_even2 axis).1 !!! k),
         (λ i, match arrays !! i with
               | Some a => start_of arrays shape' spacing2 round_to_even2 align2 i a
               | None => []
               end).
  cbn beta. split_and!.
  - rewrite Hfit. f_equal. unfold grid_shape.
    rewrite <-list_fmap_compose. rewrite <-(list_fmap_id shape') at 1.
    apply list_fmap_ext. intros ? d' Hd'%list_elem_of_lookup_2. simpl.
    apply Hpos in Hd'. lia.
  - intros axis k Haxis Hk. rewrite Hgrid in Haxis.
    destruct (layout_axis arrays shape' spacing2 round_to_even2
                Hpos Hroom Hrows Hspacing Hfits axis Haxis) as (Ha & Hsa & Hda).
    pose proof (origins_nonneg _ _ _ round_to_even2 _ Ha Hsa Hda k ltac:(lia)).
    pose proof (lengths_nonneg _ _ _ round_to_even2 _ Ha Hsa Hda k Hk).
    pose proof (origins_step _ _ _ round_to_even2 _ Ha Hsa Hda k Hk).
    pose proof (origins_mono _ _ _ round_to_even2 _ Ha Hsa Hda
                  (S k) (grid_shape shape' !!! axis) ltac:(lia) ltac:(lia)).
    pose proof (origins_nonneg _ _ _ round_to_even2 _ Ha Hsa Hda
                  (grid_shape shape' !!! axis) ltac:(lia)).
    rewrite Hs, Hsh0.
    rewrite (list_lookup_total_fmap Z.to_nat)
      by (rewrite (length_output_shape arrays shape' spacing2 round_to_even2
                     Hpos Hroom Hrows Hspacing Hfits); lia).
    rewrite (output_shape_lookup arrays shape' spacing2 round_to_even2
               Hpos Hroom Hrows Hspacing Hfits) by done.
    lia.
  - intros i array Hi. rewrite Hi.
    pose proof (array_in_grid arrays shape' spacing2 round_to_even2
                  Hpos Hroom Hrows Hspacing Hfits i array Hi) as Hgi.
    pose proof (ndim_ge arrays shape' spacing2 round_to_even2
                  Hpos Hroom Hrows Hspacing Hfits i array Hi) as Hnd.
    pose proof (length_start_of arrays shape' spacing2 round_to_even2
                  Hpos Hroom Hrows Hspacing Hfits align2 i array) as Hst.
    split_and!.
    + apply (cell_spec arrays shape' spacing2 round_to_even2
               Hpos Hroom Hrows Hspacing Hfits i Hgi).
    + lia.
    + lia.
    + intros axis Haxis. rewrite Hgrid in Haxis.
      exists (offset_of arrays shape' spacing2 round_to_even2 align2 i array axis).
      pose proof (cell_length_eq arrays shape' spacing2 round_to_even2
                    Hpos Hroom Hrows Hspacing Hfits i axis Haxis) as Hcl.
      pose proof (cell_origin_eq arrays shape' spacing2 round_to_even2
                    Hpos Hroom Hrows Hspacing Hfits i axis Haxis) as Hco.
      unfold cell in Hcl, Hco. rewrite <-Hcl, <-Hco. split_and!.
      * rewrite <-(np_broadcast_to_lookup _ _ _ _ Halign)
          by (apply lookup_lt_Some in Hi; repeat constructor; lia).
        apply Hoff; [by eapply lookup_lt_Some|done|done].
      * by apply (array_fits arrays shape' spacing2 round_to_even2
                    Hpos Hroom Hrows Hspacing Hfits).
      * by apply (start_of_lookup arrays shape' spacing2 round_to_even2
                    Hpos Hroom Hrows Hspacing Hfits).
    + intros idx Hidx.
      set (starts :=
             start_of arrays shape' spacing2 round_to_even2 align2 i array
             ++ replicate
                  (ndim array
                   - length (start_of arrays shape' spacing2 round_to_even2
                               align2 i array)) 0).
      destruct (shifted_in_box starts (shape_of array) idx) as [Hbox Hsub];
        [unfold starts, ndim in *; len|done|].
      assert (region (start_of arrays shape' spacing2 round_to_even2 align2 i array)
                array (zip_with Nat.add starts idx)) as Hreg by exact Hbox.
      pose proof (region_in_output arrays shape' spacing2 round_to_even2
                    Hpos Hroom Hrows Hspacing Hfits align2 i array _ Hi Hreg) as Hin.
      rewrite (Htail array), <-Hsh0 in Hin by (by eapply list_elem_of_lookup_2).
      destruct (Hel _ Hin) as [Hin1 _].
      rewrite (Hin1 i array) by (try done; by eapply lookup_lt_Some).
      rewrite <-Hst. fold starts. by rewrite Hsub.
  - intros i j ai aj idx Hij Hi Hj. rewrite Hi, Hj. intros [Hri Hrj].
    exact (regions_disjoint arrays shape' spacing2 round_to_even2
             Hpos Hroom Hrows Hspacing Hfits align2 i j ai aj idx Hij Hi Hj Hri Hrj).
  - intros idx Hidx Hnone. rewrite Hs in Hidx.
    destruct (Hel idx Hidx) as [_ Hout1]. rewrite Hout1.
    + rewrite Hd. by apply Hconv.
    + intros i array _ Hi Hreg. apply (Hnone i array Hi). by rewrite Hi.
Qed.

End assemble_layout.

(** The input on which C1 fails as stated: with a spacing of -1 the two
    cells of the grid share a column, and the call returns [[1, 3, 4]],
    where the array [[1, 2]] no longer appears. *)
Lemma assemble_arrays_negative_spacing :
  assemble_arrays [array2 [[1; 2]]; array2 [[3; 4]]] [1; 2] (py_int 0)
    (NdArray [] ["center"]) (NdArray [] [-1]) (NdArray [] [false])
  = Ok (array2 [[1; 3; 4]]).
Proof. reflexivity. Qed.

(** The doctest call has spacing 0: its five arrays lie in a grid. *)
Lemma assemble_arrays_layout_witness :
  ∃ gshape : list nat, _fit_shape [2; 3] 5 = Ok (Z.of_nat <$> gshape).
Proof.
  destruct (assemble_arrays_layout
              [array2 [[1; 2; 3]]; array2 [[5]; [6]]; array2 [[7]];
               array2 [[8; 9]]; array2 [[3; 4; 5]]]
              [2; 3] (py_int 0)
              (NdArray [] ["center"]) (NdArray [] [0]) (NdArray [] [false])
              (array2 [[1; 2; 3; 0; 5; 0; 7];
                       [0; 0; 0; 0; 6; 0; 0];
                       [8; 9; 0; 3; 4; 5; 0]]))
    as (gshape & _ & _ & _ & Hfit & _).
  - reflexivity.
  - intros s Hs. apply list_elem_of_singleton in Hs. subst s. lia.
  - intros shape' axis Hfit Haxis. vm_compute in Hfit. injection Hfit as <-.
    destruct axis as [|[|axis]]; [reflexivity|reflexivity|simpl in Haxis; lia].
  - by exists gshape.
Defined.

(** A spacing that makes the layout leave the range of [int64]: with the
    spacing 2^63 - 1 in a grid of three cells, the origins of the cells are
    0, -2^63 + 1, 0 and 2, and the third array is written where the first
    was. *)
Example assemble_arrays_overflow :
  assemble_arrays [array2 [[1; 2]]; array2 [[]]; array2 [[3; 4]]] [1; 3]
    (py_int 0) (NdArray [] ["center"]) (NdArray [] [2 ^ 63 - 1])
    (NdArray [] [false])
  = Ok (array2 [[3; 4]]).
Proof. reflexivity. Qed.

(** ** Sparse grid *)

(** Entry [j] of an integer or a sequence of integers. *)
Definition int_at (v : int_or_seq) (j : nat) : Z :=
  match v with
  | IntScalar z => z
  | IntSeq l => l !!! j
  end.

(** [v] is an integer, or has one entry for each of [D] axes. *)
Definition per_axis (D : nat) (v : int_or_seq) : Prop :=
  match v with
  | IntScalar _ => True
  | IntSeq l => length l = D
  end.

Section grid_setup.
Context `{ElemDomain}.

(** The body of [grid_from_indices] up to its last statement, the
    assignment [grid[tuple(indices.T)] = values]: the rows of the index
    array, the bounds, the grid filled with the background, the translated
    rows and the values to assign. *)
Definition grid_setup (iterable_or_map : iterable_or_map)
    (background foreground : nparray)
    (indices_min indices_max : option int_or_seq)
    (pad : int_or_seq) (dtype : option dtype)
    : result (list (list Z) * list Z * list Z * nparray
              * list (list Z) * ndarray elem) :=
  let keys := match iterable_or_map with
              | Iterable l => l
              | Mapping m => m.*1
              end in
  indices ← indices_array keys;
  let rows := indices in
  let D := length (default [] (head indices)) in
  let columns := (λ j, (λ row : list Z, row !!! j) <$> indices) <$> seq 0 D in
  i_min ← match indices_min with
          | None => Ok (np_min <$> columns)
          | Some v => full_ints D v
          end;
  i_max ← match indices_max with
          | None => Ok (np_max <$> columns)
          | Some v => full_ints D v
          end;
  let a_pad := pad in
  diff ← vec_op sub64 (IntSeq i_max) (IntSeq i_min);
  twice ← vec_op mul64 (IntScalar 2) a_pad;
  sum ← vec_op add64 diff twice;
  shape ← vec_op add64 sum (IntScalar 1);
  offset ← vec_op add64 (IntSeq (neg64 <$> i_min)) a_pad;
  let elems := match iterable_or_map with
               | Mapping ((_, v) :: _) => [v]
               | _ => []
               end ++ [background; foreground] in
  bshape ← foldr (λ (e : nparray) acc, s ← acc; broadcast_shapes (shape_of e) s)
             (Ok []) elems;
  shape ← vec_tuple shape;
  let shape2 := shape ++ (Z.of_nat <$> bshape) in
  let e0 := default background (head elems) in
  dtype ← match dtype with
          | Some d => convert d e0;; Ok d
          | None => Ok (np_dtype e0)
          end;
  grid ← np_full shape2 background dtype;
  indices ← traverse (add_offset offset) indices;
  values ← match iterable_or_map with
            | Iterable _ => convert dtype foreground
            | Mapping m => vs ← traverse (convert dtype) m.*2; stack vs
            end;
  Ok (rows, i_min, i_max, grid, indices, values).

Lemma grid_from_indices_setup iom background foreground indices_min indices_max
    pad dtype :
  grid_from_indices iom background foreground indices_min indices_max pad dtype
  = grid_setup iom background foreground indices_min indices_max pad dtype
    ≫= λ '(rows, _, _, grid, indices, values),
         setitem_indices grid indices (length (default [] (head rows))) values.
Proof.
  unfold grid_from_indices, grid_setup.
  repeat (match goal with
          | |- (?x ≫= _) = ((?x ≫= _) ≫= _) =>
              destruct x; cbn [mbind result_bind]; [|done]
          end).
  done.
Qed.

End grid_setup.

(** *** The index array and the bounds *)

(** A coordinate as a row of the index array. *)
Definition row_of (k : index) : list Z :=
  match k with
  | IScalar z => [z]
  | ITuple l => l
  end.

(** Column [j] of the index array. *)
Definition column (rows : list (list Z)) (j : nat) : list Z :=
  (λ row : list Z, row !!! j) <$> rows.

Lemma Forall2_fmap_eq {A B : Type} (f : A → B) (Q : B → Prop)
    (l : list A) (k : list B) :
  Forall2 (λ x y, y = f x ∧ Q y) l k → k = f <$> l ∧ Forall Q k.
Proof.
  induction 1 as [|x y l k [-> Hy] _ [-> IH]]; [done|].
  split; [done|by constructor].
Qed.

Lemma indices_array_ok (keys : list index) (rows : list (list Z)) :
  indices_array keys = Ok rows →
  rows = row_of <$> keys ∧ keys ≠ []
  ∧ (1 ≤ length (default [] (head rows)))%nat
  ∧ Forall (λ row, length row = length (default [] (head rows))) rows.
Proof.
  destruct keys as [|[z|l0] keys]; [done|..]; unfold indices_array.
  - intros Hrows%traverse_ok_inv.
    assert (Forall2 (λ k row, row = row_of k ∧ length row = 1%nat)
              (IScalar z :: keys) rows) as Hall.
    { eapply Forall2_impl; [exact Hrows|]. intros [?|?] row; [|done].
      by intros [= <-]. }
    apply Forall2_fmap_eq in Hall as [-> Hall]. simpl in *.
    split_and!; [done|done|lia|done].
  - destruct (traverse _ _) as [rows'|e] eqn:Hrows; cbn [mbind result_bind]; [|done].
    case_decide as Hl0; [done|]. intros [= <-].
    apply traverse_ok_inv in Hrows.
    assert (Forall2 (λ k row, row = row_of k ∧ length row = length l0)
              (ITuple l0 :: keys) rows') as Hall.
    { eapply Forall2_impl; [exact Hrows|]. intros [?|l] row; [done|].
      case_decide; [|done]. by intros [= <-]. }
    apply Forall2_fmap_eq in Hall as [-> Hall]. simpl in *.
    split_and!; [done|done|lia|done].
Qed.

Lemma foldl_min_le (l : list Z) (x : Z) :
  foldl Z.min x l ≤ x ∧ ∀ y, y ∈ l → foldl Z.min x l ≤ y.
Proof.
  revert x. induction l as [|z l IH]; intros x; simpl.
  - split; [lia|]. by intros y ?%elem_of_nil.
  - destruct (IH (Z.min x z)) as [Hx Hl]. split; [lia|].
    intros y [->|Hy]%elem_of_cons; [lia|by apply Hl].
Qed.

Lemma np_min_le (l : list Z) (y : Z) : y ∈ l → np_min l ≤ y.
Proof.
  destruct l as [|x l]; [by intros ?%elem_of_nil|]. simpl.
  destruct (foldl_min_le l x) as [Hx Hl].
  intros [->|Hy]%elem_of_cons; [done|by apply Hl].
Qed.

Lemma full_ints_per_axis (D : nat) (v : int_or_seq) :
  per_axis D v →
  ∃ l, full_ints D v = Ok l ∧ length l = D ∧ ∀ j, (j < D)%nat → l !!! j = int_at v j.
Proof.
  destruct v as [z|l]; simpl; intros Hv.
  - exists (replicate D z). split_and!; [done|len|].
    intros j Hj. by apply lookup_total_replicate_2.
  - exists l. by rewrite decide_True.
Qed.

Lemma lookup_total_zip_with_Z (f : Z → Z → Z) (l k : list Z) (i : nat) :
  (i < length l)%nat → (i < length k)%nat →
  zip_with f l k !!! i = f (l !!! i) (k !!! i).
Proof. apply lookup_total_zip_with. Qed.

(** The arithmetic on the bounds, on [int64]: the extents and the
    translation are the exact ones reduced modulo 2^64. *)
Lemma extent64 (a b p : Z) :
  add64 (add64 (sub64 a b) (mul64 2 p)) 1 = wrap64 (a - b + 2 * p + 1).
Proof.
  unfold add64, sub64, mul64. rewrite wrap64_add_l.
  apply wrap64_add_congr; [|done]. apply wrap64_add_congr; apply wrap64_idemp.
Qed.

Lemma offset64 (m p : Z) : add64 (neg64 m) p = wrap64 (p - m).
Proof. unfold add64, neg64. rewrite wrap64_add_l. f_equal. lia. Qed.

Lemma bounds_arithmetic (D : nat) (i_min i_max : list Z) (pad : int_or_seq)
    (diff twice sum shape offset : int_or_seq) (shape' : list Z) :
  length i_min = D → length i_max = D → per_axis D pad →
  vec_op sub64 (IntSeq i_max) (IntSeq i_min) = Ok diff →
  vec_op mul64 (IntScalar 2) pad = Ok twice →
  vec_op add64 diff twice = Ok sum →
  vec_op add64 sum (IntScalar 1) = Ok shape →
  vec_op add64 (IntSeq (neg64 <$> i_min)) pad = Ok offset →
  vec_tuple shape = Ok shape' →
  shape' = (λ j, wrap64 (i_max !!! j - i_min !!! j + 2 * int_at pad j + 1))
           <$> seq 0 D
  ∧ offset = IntSeq ((λ j, wrap64 (int_at pad j - i_min !!! j)) <$> seq 0 D).
Proof.
  intros Hmin Hmax Hpad. unfold vec_op at 1. rewrite decide_True by lia.
  intros [= <-]. destruct pad as [p|l]; simpl in Hpad |- *.
  - intros [= <-] [= <-] [= <-] [= <-] [= <-]. split; [|f_equal].
    + apply list_eq_total; [len|]. intros j Hj. len in Hj.
      rewrite (list_lookup_total_fmap (λ x, add64 x 1)) by len.
      rewrite (list_lookup_total_fmap (λ x, add64 x (mul64 2 p))) by len.
      rewrite lookup_total_zip_with_Z by lia.
      rewrite (list_lookup_total_fmap
                 (λ j, wrap64 (i_max !!! j - i_min !!! j + 2 * p + 1))) by len.
      rewrite lookup_total_seq_lt by lia. apply extent64.
    + apply list_eq_total; [len|]. intros j Hj. len in Hj.
      rewrite (list_lookup_total_fmap (λ x, add64 x p)) by len.
      rewrite (list_lookup_total_fmap neg64) by lia.
      rewrite (list_lookup_total_fmap (λ j, wrap64 (p - i_min !!! j))) by len.
      rewrite lookup_total_seq_lt by lia. cbn [Nat.add]. apply offset64.
  - intros [= <-]. rewrite decide_True by len. intros [= <-] [= <-].
    rewrite decide_True by len. intros [= <-] [= <-]. split; [|f_equal].
    + apply list_eq_total; [len|]. intros j Hj. len in Hj.
      rewrite (list_lookup_total_fmap (λ x, add64 x 1)) by len.
      rewrite !lookup_total_zip_with_Z by len.
      rewrite (list_lookup_total_fmap (mul64 2)) by lia.
      rewrite (list_lookup_total_fmap
                 (λ j, wrap64 (i_max !!! j - i_min !!! j + 2 * l !!! j + 1)))
        by len.
      rewrite lookup_total_seq_lt by lia. apply extent64.
    + apply list_eq_total; [len|]. intros j Hj. len in Hj.
      rewrite lookup_total_zip_with_Z by len.
      rewrite (list_lookup_total_fmap neg64) by lia.
      rewrite (list_lookup_total_fmap (λ j, wrap64 (l !!! j - i_min !!! j)))
        by len.
      rewrite lookup_total_seq_lt by lia. cbn [Nat.add]. apply offset64.
Qed.

(** Inversion of a bind that returned. *)
Tactic Notation "bind_inv" hyp(H) "as" ident(x) ident(E) :=
  match type of H with
  | (?m ≫= _) = Ok _ =>
      destruct m as [x|?] eqn:E; cbn [mbind result_bind] in H; [|done]
  end.

Section grid_facts.
Context `{ElemDomain}.

Definition keys_of (iom : iterable_or_map) : list index :=
  match iom with
  | Iterable l => l
  | Mapping m => m.*1
  end.

(** The values whose broadcast shape extends the grid, and whose first
    entry gives the default element type. *)
Definition elems_of (iom : iterable_or_map) (background foreground : nparray)
    : list nparray :=
  match iom with
  | Mapping ((_, v) :: _) => [v]
  | _ => []
  end ++ [background; foreground].

(** The bound on axis [j]: the given one, or the one of the coordinates. *)
Definition bound_at (f : list Z → Z) (v : option int_or_seq)
    (rows : list (list Z)) (j : nat) : Z :=
  match v with
  | None => f (column rows j)
  | Some v => int_at v j
  end.

(** A row of the index array after [indices += offset]. *)
Definition translate (i_min : list Z) (pad : int_or_seq) (row : list Z) : list Z :=
  zip_with add64 row
    ((λ j, wrap64 (int_at pad j - i_min !!! j)) <$> seq 0 (length row)).

Lemma resolve_bound (f : list Z → Z) (v : option int_or_seq) (rows : list (list Z))
    (D : nat) (l : list Z) :
  (∀ w, v = Some w → per_axis D w) →
  match v with
  | None => Ok (f <$> ((λ j, (λ row : list Z, row !!! j) <$> rows) <$> seq 0 D))
  | Some w => full_ints D w
  end = Ok l →
  length l = D ∧ ∀ j, (j < D)%nat → l !!! j = bound_at f v rows j.
Proof.
  intros Hv. destruct v as [w|]; simpl.
  - destruct (full_ints_per_axis D w (Hv w eq_refl)) as (l' & -> & Hlen & Hl).
    by intros [= <-].
  - intros [= <-]. split; [len|]. intros j Hj.
    rewrite <-list_fmap_compose.
    rewrite (list_lookup_total_fmap
               (f ∘ (λ j, (λ row : list Z, row !!! j) <$> rows))) by len.
    by rewrite lookup_total_seq_lt by lia.
Qed.

Lemma grid_setup_inv iom background foreground indices_min indices_max pad dtype
    rows i_min i_max grid indices values :
  grid_setup iom background foreground indices_min indices_max pad dtype
  = Ok (rows, i_min, i_max, grid, indices, values) →
  per_axis (length (default [] (head rows))) pad →
  (∀ v, indices_min = Some v → per_axis (length (default [] (head rows))) v) →
  (∀ v, indices_max = Some v → per_axis (length (default [] (head rows))) v) →
  indices_array (keys_of iom) = Ok rows
  ∧ length i_min = length (default [] (head rows))
  ∧ length i_max = length (default [] (head rows))
  ∧ (∀ j, (j < length (default [] (head rows)))%nat →
       i_min !!! j = bound_at np_min indices_min rows j
       ∧ i_max !!! j = bound_at np_max indices_max rows j)
  ∧ indices = translate i_min pad <$> rows
  ∧ ∃ bshape d,
      foldr (λ (e : nparray) acc, s ← acc; broadcast_shapes (shape_of e) s)
        (Ok []) (elems_of iom background foreground) = Ok bshape
      ∧ d = default (np_dtype (default background
                                 (head (elems_of iom background foreground)))) dtype
      ∧ np_full (((λ j, wrap64 (i_max !!! j - i_min !!! j
                                + 2 * int_at pad j + 1))
                  <$> seq 0 (length (default [] (head rows))))
                 ++ (Z.of_nat <$> bshape)) background d = Ok grid
      ∧ match iom with
        | Iterable _ => convert d foreground = Ok values
        | Mapping m => ∃ vs, traverse (convert d) m.*2 = Ok vs ∧ stack vs = Ok values
        end.
Proof.
  unfold grid_setup. fold (keys_of iom) (elems_of iom background foreground).
  intros Hs. bind_inv Hs as rows' Hrows.
  bind_inv Hs as i_min' Hmin. bind_inv Hs as i_max' Hmax.
  bind_inv Hs as diff Hdiff. bind_inv Hs as twice Htwice. bind_inv Hs as sum Hsum.
  bind_inv Hs as shape Hshape. bind_inv Hs as offset Hoffset.
  bind_inv Hs as bshape Hbshape. bind_inv Hs as shape' Hshape'.
  bind_inv Hs as d Hd. bind_inv Hs as grid' Hgrid. bind_inv Hs as indices' Hindices.
  bind_inv Hs as values' Hvalues. injection Hs as <- <- <- <- <- <-.
  intros Hpad Hvmin Hvmax.
  destruct (indices_array_ok _ _ Hrows) as (_ & _ & HD & Hlen).
  set (D := length (default [] (head rows'))) in *.
  destruct (resolve_bound _ _ _ _ _ Hvmin Hmin) as [Hlmin Hbmin].
  destruct (resolve_bound _ _ _ _ _ Hvmax Hmax) as [Hlmax Hbmax].
  destruct (bounds_arithmetic D _ _ _ _ _ _ _ _ _ Hlmin Hlmax Hpad
              Hdiff Htwice Hsum Hshape Hoffset Hshape') as [-> ->].
  split_and!; [done|done|done|by auto| |].
  - erewrite traverse_ok_fmap in Hindices; [by injection Hindices as <-|].
    intros row Hrow. rewrite Forall_forall in Hlen. specialize (Hlen row Hrow).
    unfold add_offset, translate. rewrite decide_True by len. by rewrite Hlen.
  - exists bshape, d. split_and!; [done| |done|].
    + destruct dtype as [d'|]; simpl in *; [|by injection Hd].
      destruct (convert d' _); simpl in Hd; [by injection Hd|done].
    + destruct iom as [l|m]; [done|].
      destruct (traverse (convert d) m.*2) as [vs|] eqn:Hvs;
        cbn [mbind result_bind] in Hvalues; [|done].
      by exists vs.
Qed.

End grid_facts.

(** *** Coordinates outside the grid *)



Lemma normalize_index_ok (i : Z) (n k : nat) :
  normalize_index i n = Ok k ↔
  - Z.of_nat n ≤ i < Z.of_nat n
  ∧ k = Z.to_nat (if decide (0 ≤ i) then i else i + Z.of_nat n).
Proof.
  unfold normalize_index. repeat case_decide; split;
    try (intros [= <-]); try (intros [? ->]); try done; try lia;
    try (split; [lia|done]); try (f_equal; lia).
Qed.


Section setitem_indices_facts.
Context `{ElemDomain}.
Implicit Types (grid : nparray) (rows : list (list Z)) (values : ndarray elem).

(** The positions of the rows, when every coordinate is an index of its
    axis. *)
Definition positions (grid : nparray) (rows : list (list Z))
    : result (list (list nat)) :=
  traverse (λ row, traverse (λ p : Z * nat, normalize_index p.1 p.2)
                     (zip row (shape_of grid))) rows.



End setitem_indices_facts.

(** The number of axes that the coordinates address. *)
Definition index_dim (rows : list (list Z)) : nat := length (default [] (head rows)).

(** A value of [int64]. *)
Definition int64_range (x : Z) : Prop := - 2 ^ 63 ≤ x < 2 ^ 63.


Section grid_index_error.
Context `{ElemDomain}.

Lemma translate_lookup (i_min : list Z) (pad : int_or_seq) (row : list Z) (j : nat) :
  (j < length row)%nat →
  translate i_min pad row !!! j
  = wrap64 (row !!! j - i_min !!! j + int_at pad j).
Proof.
  intros Hj. unfold translate. rewrite lookup_total_zip_with_Z by len.
  rewrite (list_lookup_total_fmap (λ j, wrap64 (int_at pad j - i_min !!! j)))
    by len.
  rewrite lookup_total_seq_lt by done. unfold add64. rewrite wrap64_add_r.
  f_equal. cbn [Nat.add]. lia.
Qed.

Lemma length_translate (i_min : list Z) (pad : int_or_seq) (row : list Z) :
  length (translate i_min pad row) = length row.
Proof. unfold translate. len. Qed.



End grid_index_error.


(** Coordinates at the two ends of [int64]: the extent 2^64 of the axis
    wraps around to 0, the grid is empty, and the call raises although
    both coordinates lie inside the bounds; with a pad of 1 the extent
    wraps around to 2, and both coordinates are written. *)
Example grid_from_indices_overflow :
  grid_from_indices (Iterable [IScalar (- 2 ^ 63); IScalar (2 ^ 63 - 1)])
    (py_int 0) (py_int 1) None None (IntScalar 0) None
  = Raise IndexError
  ∧ grid_from_indices (Iterable [IScalar (- 2 ^ 63); IScalar (2 ^ 63 - 1)])
      (py_int 0) (py_int 1) None None (IntScalar 1) None
    = Ok (array1 [1; 1]).
Proof. split; reflexivity. Qed.


(** *** The assignment to the grid *)

Lemma last_occurrence {A : Type} `{EqDecision A} (l : list A) (n : nat) (x : A) :
  l !! n = Some x →
  ∃ m, (n ≤ m)%nat ∧ l !! m = Some x ∧ ∀ m', (m < m')%nat → l !! m' ≠ Some x.
Proof.
  revert n. induction l as [|y l IH] using rev_ind; intros n Hn; [done|].
  destruct (decide (y = x)) as [->|Hne].
  - exists (length l). pose proof (lookup_lt_Some _ _ _ Hn) as Hlt.
    rewrite length_app in Hlt. simpl in Hlt. split_and!; [lia| |].
    + by rewrite lookup_app_r, Nat.sub_diag by lia.
    + intros m' Hm'. rewrite lookup_ge_None_2; [done|]. rewrite length_app. simpl. lia.
  - assert (l !! n = Some x) as Hl.
    { apply lookup_app_Some in Hn as [?|[_ Hn]]; [done|].
      apply list_lookup_singleton_Some in Hn as [_ ?]. done. }
    destruct (IH n Hl) as (m & Hnm & Hm & Hlast). exists m.
    split_and!; [done|by apply lookup_app_l_Some|].
    intros m' Hm' Hx. apply lookup_app_Some in Hx as [Hx|[_ Hx]].
    + by apply (Hlast m').
    + apply list_lookup_singleton_Some in Hx as [_ ?]. done.
Qed.

Lemma broadcast_rev_length (s1 s2 r : list nat) :
  broadcast_rev s1 s2 = Some r → length r = (length s1 `max` length s2)%nat.
Proof.
  revert s2 r. induction s1 as [|n s1 IH]; intros [|m s2] r; simpl;
    try (intros [= <-]; simpl; lia).
  destruct (broadcast_rev s1 s2) as [r'|] eqn:Hr; simpl; [|done].
  apply IH in Hr. repeat case_decide; try done; intros [= <-]; simpl; lia.
Qed.

Lemma broadcast_shapes_length (s1 s2 r : list nat) :
  broadcast_shapes s1 s2 = Ok r → length r = (length s1 `max` length s2)%nat.
Proof.
  unfold broadcast_shapes.
  destruct (broadcast_rev _ _) as [r'|] eqn:Hr; [|done]. intros [= <-].
  apply broadcast_rev_length in Hr. rewrite !length_reverse in *. done.
Qed.

Section assign_rows.
Local Close Scope Z_scope.
Context `{ElemDomain}.
Implicit Types (g c : ndarray elem) (pos : list (list nat)) (idx : list nat).

(** The rank of the common shape of a list of values. *)
Lemma common_shape_length (elems : list nparray) (bshape : list nat) :
  foldr (λ (e : nparray) acc, s ← acc; broadcast_shapes (shape_of e) s)
    (Ok []) elems = Ok bshape →
  length bshape = foldr Nat.max 0 ((λ e : nparray, ndim e) <$> elems).
Proof.
  revert bshape. induction elems as [|e elems IH]; intros bshape; simpl.
  { by intros [= <-]. }
  destruct (foldr _ _ elems) as [s|] eqn:Hs; cbn [mbind result_bind]; [|done].
  intros Hb%broadcast_shapes_length. rewrite Hb, (IH s) by done. done.
Qed.

(** The rows are written in order: a position shows the value of the
    last row that addresses it, and the others keep what they held. *)
Lemma assign_rows (sh : list nat) (D : nat) c g0 pos :
  let g := foldl (λ (g : ndarray elem) (kp : nat * list nat),
                    fromfunction sh
                      (λ idx, if decide (take D idx = kp.2)
                              then c !!! (kp.1 :: drop D idx)
                              else g !!! idx))
             g0 (imap pair pos) in
  ∀ idx, in_bounds sh idx →
    (∀ n, pos !! n = Some (take D idx) →
          (∀ n', n < n' → pos !! n' ≠ Some (take D idx)) →
          g !!! idx = c !!! (n :: drop D idx))
    ∧ ((∀ n, pos !! n ≠ Some (take D idx)) → g !!! idx = g0 !!! idx).
Proof.
  induction pos as [|p pos IH] using rev_ind; intros g idx Hidx.
  { split; [by intros n ?|done]. }
  unfold g. rewrite imap_app, foldl_app. simpl. rewrite Nat.add_0_r.
  rewrite lookup_total_fromfunction by done.
  destruct (IH idx Hidx) as [IHin IHout]. case_decide as Hp; split.
  - intros n Hn Hlast. destruct (decide (n = length pos)) as [->|Hne]; [done|].
    exfalso. apply (Hlast (length pos)).
    + apply lookup_lt_Some in Hn. rewrite length_app in Hn. simpl in Hn. lia.
    + by rewrite lookup_app_r, Nat.sub_diag, Hp by lia.
  - intros Hnone. exfalso. apply (Hnone (length pos)).
    by rewrite lookup_app_r, Nat.sub_diag, Hp by lia.
  - intros n Hn Hlast. apply lookup_app_Some in Hn as [Hn|[_ Hn]].
    + apply IHin; [done|]. intros n' Hn' Hx. apply (Hlast n' Hn').
      by apply lookup_app_l_Some.
    + apply list_lookup_singleton_Some in Hn as [_ ?]. done.
  - intros Hnone. apply IHout. intros n Hx. apply (Hnone n).
    by apply lookup_app_l_Some.
Qed.

(** What [convert] stores. *)
Lemma convert_lookup (d : dtype) (v : nparray) (c : ndarray elem) idx :
  convert d v = Ok c → wf v → in_bounds (shape_of v) idx →
  converted d v (np_arr v !!! idx) (c !!! idx).
Proof.
  unfold convert, converted. case_decide as Hd; [by intros [= <-]|].
  destruct (traverse (cast d) (data v)) as [dat|] eqn:Hdat;
    cbn [mbind result_bind]; [|done].
  intros [= <-] Hwf Hidx. apply traverse_ok_inv, Forall2_total in Hdat as [Hlen Hdat].
  pose proof (ravel_lt _ _ Hidx) as Hlt. unfold wf in Hwf.
  specialize (Hdat (ravel (shape_of v) idx) ltac:(lia)). unfold cast in Hdat.
  unfold lookup_total, ndarray_lookup_total. simpl.
  destruct (astype d _) as [y|]; [|done]. by injection Hdat as ->.
Qed.

Lemma convert_shape (d : dtype) (v : nparray) (c : ndarray elem) :
  convert d v = Ok c → shape c = shape_of v ∧ (wf v → wf c).
Proof.
  unfold convert. case_decide as Hd; [by intros [= <-]|].
  destruct (traverse (cast d) (data v)) as [dat|] eqn:Hdat;
    cbn [mbind result_bind]; [|done].
  intros [= <-]. split; [done|]. unfold wf. simpl.
  apply traverse_ok_inv, Forall2_length in Hdat. lia.
Qed.

End assign_rows.

(** *** Default bounds *)

(** The coordinates with the values assigned to them. *)
Definition assigned `{ElemDomain} (iom : iterable_or_map) (foreground : nparray)
    : list (index * nparray) :=
  match iom with
  | Iterable l => (λ k, (k, foreground)) <$> l
  | Mapping m => m
  end.

(** The position of a row in a grid with the default bounds. *)
Definition position (rows : list (list Z)) (pad : int_or_seq) (row : list Z)
    : list nat :=
  (λ j, Z.to_nat (row !!! j - np_min (column rows j) + int_at pad j))
  <$> seq 0 (index_dim rows).

Lemma traverse_fmap_ok {A B C : Type} (f : B → result C) (h : A → B) (g : A → C)
    (l : list A) :
  (∀ x, x ∈ l → f (h x) = Ok (g x)) → traverse f (h <$> l) = Ok (g <$> l).
Proof.
  induction l as [|x l IH]; intros Hf; [done|].
  rewrite !fmap_cons. cbn [traverse]. rewrite (Hf x) by left.
  cbn [mbind result_bind].
  rewrite IH; [done|]. intros y Hy. apply Hf. by right.
Qed.

(** The coordinates of an index array are all integers or all tuples, so
    that a row stands for one coordinate. *)
Lemma indices_array_inj (keys : list index) (rows : list (list Z)) (k k' : index) :
  indices_array keys = Ok rows → k ∈ keys → k' ∈ keys →
  row_of k = row_of k' → k = k'.
Proof.
  destruct keys as [|[z|l0] keys]; [done|..]; unfold indices_array.
  - intros Hrows%traverse_ok_inv Hk Hk'.
    assert (Forall (λ k, ∃ z, k = IScalar z) (IScalar z :: keys)) as Hall.
    { eapply Forall2_Forall_l; [exact Hrows|].
      apply Forall_true. intros row [?|?] ?; [eauto|done]. }
    rewrite Forall_forall in Hall.
    destruct (Hall k Hk) as [? ->], (Hall k' Hk') as [? ->]. simpl. congruence.
  - destruct (traverse _ _) as [rows'|e] eqn:Hrows; cbn [mbind result_bind]; [|done].
    intros _ Hk Hk'. apply traverse_ok_inv in Hrows.
    assert (Forall (λ k, ∃ l, k = ITuple l) (ITuple l0 :: keys)) as Hall.
    { eapply Forall2_Forall_l; [exact Hrows|].
      apply Forall_true. intros row [?|?] ?; [done|eauto]. }
    rewrite Forall_forall in Hall.
    destruct (Hall k Hk) as [? ->], (Hall k' Hk') as [? ->]. simpl. congruence.
Qed.

Lemma broadcast_index_cons (src idx : list nat) (n : nat) :
  (length src ≤ length idx)%nat →
  broadcast_index src (n :: idx) = broadcast_index src idx.
Proof.
  intros Hlen. unfold broadcast_index. simpl length.
  replace (S (length idx) - length src)%nat with (S (length idx - length src)) by lia.
  done.
Qed.

Lemma broadcast_index_same_rank (n : nat) (src idx : list nat) (i : nat) :
  length src = length idx → (i < n)%nat →
  broadcast_index (n :: src) (i :: idx) = i :: broadcast_index src idx.
Proof.
  intros Hlen Hi. unfold broadcast_index. simpl length.
  rewrite Hlen, !Nat.sub_diag. simpl. f_equal. case_decide; lia.
Qed.

Section stack_facts.
Local Close Scope Z_scope.
Context `{ElemDomain}.

(** Part [m] of a stack of arrays is array [m]. *)
Lemma stack_lookup (vs : list (ndarray elem)) (values cv : ndarray elem)
    (m : nat) (j : list nat) :
  stack vs = Ok values → Forall wf vs → vs !! m = Some cv →
  in_bounds (shape cv) j →
  shape values = length vs :: shape cv ∧ values !!! (m :: j) = cv !!! j.
Proof.
  unfold stack. destruct vs as [|v0 vs']; [done|].
  set (vs := v0 :: vs'). case_decide as Hsame; [|done]. intros [= <-] Hwf Hm Hj.
  rewrite Forall_forall in Hsame, Hwf.
  pose proof (list_elem_of_lookup_2 _ _ _ Hm) as Hin.
  pose proof (Hsame cv Hin) as Hcv. simpl. rewrite Hcv. split; [done|].
  unfold lookup_total, ndarray_lookup_total. simpl. rewrite Hcv.
  pose proof (ravel_lt _ _ Hj) as Hlt. rewrite Hcv in Hlt.
  apply list_lookup_total_correct.
  rewrite (lookup_bind_uniform data vs (size (shape v0))); [|intros w Hw|done].
  - rewrite Hm. simpl. apply list_lookup_lookup_total_lt.
    rewrite (Hwf cv Hin), Hcv. done.
  - rewrite (Hwf w Hw), (Hsame w Hw). done.
Qed.

End stack_facts.

Section grid_default.
#[local] Set Default Proof Using "All".
Context `{ElemDomain}.
Context (iom : iterable_or_map) (background foreground : nparray).
Context (pad : int_or_seq) (dtype : option dtype).
Context (rows : list (list Z)) (i_min i_max : list Z) (grid0 : nparray).
Context (indices : list (list Z)) (values : ndarray elem).

Hypothesis Hsetup :
  grid_setup iom background foreground None None pad dtype
  = Ok (rows, i_min, i_max, grid0, indices, values).
Hypothesis Hpad : per_axis (index_dim rows) pad.
Hypothesis Hnonneg : ∀ j, (j < index_dim rows)%nat → 0 ≤ int_at pad j.
Hypothesis Hrange :
  ∀ row j, row ∈ rows → (j < index_dim rows)%nat → int64_range (row !!! j).
Hypothesis Hfits :
  ∀ j, (j < index_dim rows)%nat →
    np_max (column rows j) - np_min (column rows j) + 2 * int_at pad j + 1 < 2 ^ 63.

Notation D := (index_dim rows).
Notation extent j :=
  (np_max (column rows j) - np_min (column rows j) + 2 * int_at pad j + 1).

Lemma default_setup :
  indices_array (keys_of iom) = Ok rows
  ∧ (∀ j, (j < D)%nat →
       i_min !!! j = np_min (column rows j) ∧ i_max !!! j = np_max (column rows j))
  ∧ indices = translate i_min pad <$> rows
  ∧ ∃ bshape,
      foldr (λ (e : nparray) acc, s ← acc; broadcast_shapes (shape_of e) s)
        (Ok []) (elems_of iom background foreground) = Ok bshape
      ∧ np_full (((λ j, wrap64 (i_max !!! j - i_min !!! j
                                + 2 * int_at pad j + 1))
                  <$> seq 0 D) ++ (Z.of_nat <$> bshape)) background
          (default (np_dtype (default background
                                (head (elems_of iom background foreground))))
             dtype) = Ok grid0
      ∧ match iom with
        | Iterable _ =>
            convert (default (np_dtype (default background
                                          (head (elems_of iom background foreground))))
                       dtype) foreground = Ok values
        | Mapping m =>
            ∃ vs, traverse
                    (convert (default (np_dtype (default background
                                (head (elems_of iom background foreground))))
                                dtype)) m.*2 = Ok vs
                  ∧ stack vs = Ok values
        end.
Proof.
  destruct (grid_setup_inv _ _ _ _ _ _ _ _ _ _ _ _ _ Hsetup Hpad)
    as (Hrows & _ & _ & Hbounds & Hind & bshape & d & Hb & -> & Hfull & Hvalues);
    [done|done|].
  split_and!; [done|exact Hbounds|done|]. by exists bshape.
Qed.

Lemma rows_length row : row ∈ rows → length row = D.
Proof.
  destruct default_setup as (Hrows & _).
  destruct (indices_array_ok _ _ Hrows) as (_ & _ & _ & Hlen).
  rewrite Forall_forall in Hlen. apply Hlen.
Qed.

Lemma rows_within row j :
  row ∈ rows → (j < D)%nat →
  np_min (column rows j) ≤ row !!! j ≤ np_max (column rows j).
Proof.
  intros Hrow Hj.
  assert (row !!! j ∈ column rows j) as Hin
    by (unfold column; by apply list_elem_of_fmap_2).
  split; [by apply np_min_le|by apply np_max_ge].
Qed.

(** The index array has a row, so that the extents are positive; they
    are [int64] values. *)
Lemma extent_range j : (j < D)%nat → 1 ≤ extent j < 2 ^ 63.
Proof.
  intros Hj. split; [|by apply Hfits].
  destruct default_setup as (Hrows & _).
  destruct (indices_array_ok _ _ Hrows) as (Hrk & Hne & _).
  assert (∃ row, row ∈ rows) as [row Hrow].
  { rewrite Hrk. destruct (keys_of iom) as [|k keys]; [done|].
    exists (row_of k). rewrite fmap_cons. left. }
  pose proof (rows_within row j Hrow Hj). pose proof (Hnonneg j Hj). lia.
Qed.

Lemma grid0_shape :
  ∃ bshape,
    shape_of grid0 = ((λ j, Z.to_nat (extent j)) <$> seq 0 D) ++ bshape
    ∧ foldr (λ (e : nparray) acc, s ← acc; broadcast_shapes (shape_of e) s)
        (Ok []) (elems_of iom background foreground) = Ok bshape.
Proof.
  destruct default_setup as (_ & Hbounds & _ & bshape & Hb & Hfull & _).
  exists bshape. split; [|done].
  destruct (np_full_inv _ _ _ _ Hfull) as (_ & -> & _).
  rewrite fmap_app. f_equal.
  - rewrite <-list_fmap_compose. apply list_fmap_ext.
    intros j ? [-> Hj]%lookup_seq. simpl.
    destruct (Hbounds j) as [-> ->]; [lia|].
    pose proof (extent_range j ltac:(lia)). by rewrite wrap64_id by lia.
  - rewrite <-list_fmap_compose. rewrite <-(list_fmap_id bshape) at 2.
    apply list_fmap_ext. intros ? n _. simpl. lia.
Qed.

Lemma grid0_extent j :
  (j < D)%nat → shape_of grid0 !!! j = Z.to_nat (extent j).
Proof.
  intros Hj. destruct grid0_shape as (bshape & -> & _).
  rewrite lookup_total_app_l by len.
  rewrite (list_lookup_total_fmap (λ j, Z.to_nat (extent j))) by len.
  by rewrite lookup_total_seq_lt by done.
Qed.

Lemma length_position row : length (position rows pad row) = D.
Proof. unfold position. len. Qed.

Lemma position_lookup row j :
  (j < D)%nat →
  position rows pad row !!! j
  = Z.to_nat (row !!! j - np_min (column rows j) + int_at pad j).
Proof.
  intros Hj. unfold position.
  rewrite (list_lookup_total_fmap
             (λ j, Z.to_nat (row !!! j - np_min (column rows j) + int_at pad j)))
    by len.
  by rewrite lookup_total_seq_lt by done.
Qed.

Lemma position_lt row j :
  row ∈ rows → (j < D)%nat →
  (position rows pad row !!! j < shape_of grid0 !!! j)%nat.
Proof.
  intros Hrow Hj. rewrite position_lookup, grid0_extent by done.
  pose proof (rows_within row j Hrow Hj). pose proof (Hnonneg j Hj). lia.
Qed.

Lemma position_inj row row' :
  row ∈ rows → row' ∈ rows →
  position rows pad row = position rows pad row' → row = row'.
Proof.
  intros Hrow Hrow' Heq.
  apply list_eq_total; [by rewrite !rows_length|]. intros j Hj.
  rewrite rows_length in Hj by done.
  assert (position rows pad row !!! j = position rows pad row' !!! j) as Hj'
    by (by rewrite Heq).
  rewrite !position_lookup in Hj' by done.
  pose proof (rows_within row j Hrow Hj). pose proof (rows_within row' j Hrow' Hj).
  pose proof (Hnonneg j Hj). lia.
Qed.

(** Every translated coordinate is an index of its axis. *)
Lemma positions_default : positions grid0 indices = Ok (position rows pad <$> rows).
Proof.
  destruct default_setup as (_ & Hbounds & Hind & _).
  destruct grid0_shape as (bshape & Hshape & _).
  rewrite Hind. unfold positions. apply traverse_fmap_ok. intros row Hrow.
  pose proof (rows_length row Hrow) as Hlen.
  erewrite (traverse_ok_fmap _ (λ p : Z * nat, Z.to_nat p.1)).
  - f_equal. apply list_eq_total.
    { rewrite length_position, Hshape. rewrite length_fmap, length_zip_with.
      rewrite length_translate. len. }
    intros j Hj. rewrite length_fmap, length_zip_with, length_translate in Hj.
    assert (j < D)%nat as HjD by lia.
    rewrite (list_lookup_total_fmap (λ p : Z * nat, Z.to_nat p.1))
      by (rewrite length_zip_with, length_translate; lia).
    rewrite lookup_total_zip by (rewrite ?length_translate; lia). simpl.
    rewrite translate_lookup, position_lookup by lia.
    destruct (Hbounds j HjD) as [-> _].
    pose proof (rows_within row j Hrow HjD). pose proof (Hnonneg j HjD).
    pose proof (extent_range j HjD). by rewrite wrap64_id by lia.
  - intros [z n] Hp. apply list_elem_of_lookup in Hp as [j Hj].
    apply lookup_zip_with_Some in Hj as (z' & n' & [= <- <-] & Hz & Hn).
    pose proof (lookup_lt_Some _ _ _ Hz) as HjD.
    rewrite length_translate, Hlen in HjD.
    apply list_lookup_total_correct in Hz, Hn.
    rewrite translate_lookup in Hz by lia. rewrite grid0_extent in Hn by done.
    destruct (Hbounds j HjD) as [Hmin _]. rewrite Hmin in Hz.
    pose proof (rows_within row j Hrow HjD). pose proof (Hnonneg j HjD).
    pose proof (extent_range j HjD). rewrite wrap64_id in Hz by lia.
    simpl. apply normalize_index_ok. split; [lia|].
    rewrite decide_True by lia. done.
Qed.

End grid_default.

Section grid_default_claim.
Context `{ElemDomain}.

Lemma grid_setup_rows iom background foreground indices_min indices_max pad dtype
    rows i_min i_max grid indices values :
  grid_setup iom background foreground indices_min indices_max pad dtype
  = Ok (rows, i_min, i_max, grid, indices, values) →
  indices_array (keys_of iom) = Ok rows.
Proof.
  unfold grid_setup. fold (keys_of iom). intros Hs.
  bind_inv Hs as rows' Hrows. bind_inv Hs as i_min' Hmin. bind_inv Hs as i_max' Hmax.
  bind_inv Hs as diff Hdiff. bind_inv Hs as twice Htwice. bind_inv Hs as sum Hsum.
  bind_inv Hs as shape Hshape. bind_inv Hs as offset Hoffset.
  bind_inv Hs as bshape Hbshape. bind_inv Hs as shape' Hshape'.
  bind_inv Hs as d Hd. bind_inv Hs as grid' Hgrid. bind_inv Hs as indices' Hindices.
  bind_inv Hs as values' Hvalues. by injection Hs as <- <- <- <- <- <-.
Qed.

Lemma assigned_keys iom (foreground : nparray) :
  (assigned iom foreground).*1 = keys_of iom.
Proof.
  destruct iom as [l|m]; simpl; [|done].
  rewrite <-list_fmap_compose. apply list_fmap_id.
Qed.

(** The assignment of a successful call with the default bounds. *)
Lemma setitem_default (grid0 grid : nparray) (indices : list (list Z)) (D : nat)
    (values : ndarray elem) (pos : list (list nat)) :
  setitem_indices grid0 indices D values = Ok grid →
  positions grid0 indices = Ok pos →
  ∃ c, np_broadcast_to values (length indices :: drop D (shape_of grid0)) = Ok c
       ∧ np_dtype grid = np_dtype grid0
       ∧ (pos = [] ∨ shape_of grid = shape_of grid0)
       ∧ ∀ idx, in_bounds (shape_of grid0) idx →
           (∀ n, pos !! n = Some (take D idx) →
                 (∀ n', (n < n')%nat → pos !! n' ≠ Some (take D idx)) →
                 np_arr grid !!! idx = c !!! (n :: drop D idx))
           ∧ ((∀ n, pos !! n ≠ Some (take D idx)) →
              np_arr grid !!! idx = np_arr grid0 !!! idx).
Proof.
  unfold setitem_indices, positions. case_decide; [|done]. intros Hok Hpos.
  bind_inv Hok as c Hc. rewrite Hpos in Hok. cbn [mbind result_bind] in Hok.
  injection Hok as <-. exists c.
  split_and!; [done|done| |].
  - destruct pos as [|p pos _] using rev_ind; [by left|right].
    rewrite imap_app, foldl_app. done.
  - intros idx Hidx. apply (assign_rows (shape_of grid0) D c grid0 pos idx Hidx).
Qed.

End grid_default_claim.

Section grid_default_theorem.
Context `{ElemDomain}.

Lemma stack_shape (vs : list (ndarray elem)) (values cv : ndarray elem) (m : nat) :
  stack vs = Ok values → vs !! m = Some cv →
  shape values = length vs :: shape cv.
Proof.
  unfold stack. destruct vs as [|v0 vs']; [done|].
  case_decide as Hsame; [|done]. intros [= <-] Hm.
  rewrite Forall_forall in Hsame. simpl.
  by rewrite (Hsame cv) by (by eapply list_elem_of_lookup_2).
Qed.

(** C2 (as amended): a successful call with the default bounds, on
    coordinates that are [int64] values, with a non-negative pad (an
    integer, or one entry per axis) that leaves the extents below 2^63,
    returns a grid
    whose extent along axis [j] is [max - min + 2 * pad + 1]; the position
    of every coordinate, translated by [pad - min], holds the value
    assigned to it, broadcast and converted to the element type of the
    grid (the [dtype] argument, or the element type of the first mapped
    value, or of the background); every other position holds the
    background, broadcast and converted.  For a mapping the keys are
    distinct and the values have at least the rank of the background and
    the foreground. *)
Theorem grid_from_indices_default iom background foreground pad dtype grid :
  grid_from_indices iom background foreground None None pad dtype = Ok grid →
  per_axis (index_dim (row_of <$> keys_of iom)) pad →
  (∀ j, (j < index_dim (row_of <$> keys_of iom))%nat → 0 ≤ int_at pad j) →
  (∀ row j, row ∈ row_of <$> keys_of iom →
            (j < index_dim (row_of <$> keys_of iom))%nat →
            int64_range (row !!! j)) →
  (∀ j, (j < index_dim (row_of <$> keys_of iom))%nat →
        np_max (column (row_of <$> keys_of iom) j)
        - np_min (column (row_of <$> keys_of iom) j)
        + 2 * int_at pad j + 1 < 2 ^ 63) →
  (∀ (k : index) (v : nparray), (k, v) ∈ assigned iom foreground → wf v) →
  match iom with
  | Iterable _ => True
  | Mapping m =>
      NoDup m.*1
      ∧ ∀ v : nparray, v ∈ m.*2 →
          (ndim background ≤ ndim v ∧ ndim foreground ≤ ndim v)%nat
  end →
  np_dtype grid
  = default (np_dtype (default background
                         (head (elems_of iom background foreground)))) dtype
  ∧ take (index_dim (row_of <$> keys_of iom)) (shape_of grid)
    = (λ j, Z.to_nat (np_max (column (row_of <$> keys_of iom) j)
                      - np_min (column (row_of <$> keys_of iom) j)
                      + 2 * int_at pad j + 1))
      <$> seq 0 (index_dim (row_of <$> keys_of iom))
  ∧ (∀ (k : index) (v : nparray) t,
       (k, v) ∈ assigned iom foreground →
       in_bounds (drop (index_dim (row_of <$> keys_of iom)) (shape_of grid)) t →
       converted (np_dtype grid) v
         (np_arr v !!! broadcast_index (shape_of v) t)
         (np_arr grid
          !!! (position (row_of <$> keys_of iom) pad (row_of k) ++ t)))
  ∧ (∀ idx,
       in_bounds (shape_of grid) idx →
       (∀ (k : index) (v : nparray), (k, v) ∈ assigned iom foreground →
               take (index_dim (row_of <$> keys_of iom)) idx
               ≠ position (row_of <$> keys_of iom) pad (row_of k)) →
       converted (np_dtype grid) background
         (np_arr background !!! broadcast_index (shape_of background) idx)
         (np_arr grid !!! idx)).
Proof.
  intros Hok. rewrite grid_from_indices_setup in Hok.
  destruct (grid_setup _ _ _ _ _ _ _)
    as [[[[[[rows i_min] i_max] grid0] indices] values]|] eqn:Hsetup;
    cbn [mbind result_bind] in Hok; [|done].
  pose proof (grid_setup_rows _ _ _ _ _ _ _ _ _ _ _ _ _ Hsetup) as Hrows.
  destruct (indices_array_ok _ _ Hrows) as (Hrk & Hne & HD & _).
  rewrite <-Hrk. intros Hpad Hnn Hrg Hft Hwf Hmap.
  fold (index_dim rows) in Hok, HD.
  destruct (default_setup _ _ _ _ _ _ _ _ _ _ _ Hsetup Hpad Hnn Hrg Hft)
    as (_ & _ & Hind & bshape' & _ & Hfull & Hvalues).
  destruct (grid0_shape _ _ _ _ _ _ _ _ _ _ _ Hsetup Hpad Hnn Hrg Hft)
    as (bshape & Hshape0 & Hb).
  pose proof (positions_default _ _ _ _ _ _ _ _ _ _ _ Hsetup Hpad Hnn Hrg Hft) as Hpos.
  destruct (np_full_inv _ _ _ _ Hfull) as (Hd0 & _ & _ & Hbg).
  destruct (setitem_default _ _ _ _ _ _ Hok Hpos)
    as (c & Hc & Hd & Hsh & Hel).
  set (D := index_dim rows) in *.
  set (d := default (np_dtype (default background
                                 (head (elems_of iom background foreground))))
              dtype) in *.
  assert (rows ≠ []) as Hrne by (rewrite Hrk; by destruct (keys_of iom)).
  destruct Hsh as [Hnil|Hsh]; [by apply fmap_nil_inv in Hnil|].
  assert (length ((λ j, Z.to_nat (np_max (column rows j) - np_min (column rows j)
                                   + 2 * int_at pad j + 1)) <$> seq 0 D) = D)
    as Hdims by len.
  assert (drop D (shape_of grid0) = bshape) as Hdrop
    by (rewrite Hshape0; by rewrite drop_app_length').
  assert (length indices = length rows) as Hnum by (rewrite Hind; len).
  (* a coordinate shows the value of the last row that addresses it, which
     is a row of the same coordinate *)
  assert (∀ (k : index) (v : nparray) t,
            (k, v) ∈ assigned iom foreground → in_bounds bshape t →
            ∃ m, assigned iom foreground !! m = Some (k, v)
                 ∧ (m < length rows)%nat
                 ∧ in_bounds (shape_of grid0) (position rows pad (row_of k) ++ t)
                 ∧ np_arr grid !!! (position rows pad (row_of k) ++ t)
                   = c !!! (m :: t)) as Hlast.
  { intros k v t [n Hn]%list_elem_of_lookup Ht.
    assert (keys_of iom !! n = Some k) as Hkn
      by (by rewrite <-(assigned_keys iom foreground), list_lookup_fmap, Hn).
    assert (rows !! n = Some (row_of k)) as Hrn
      by (by rewrite Hrk, list_lookup_fmap, Hkn).
    pose proof (list_elem_of_lookup_2 _ _ _ Hrn) as Hrow.
    assert ((position rows pad <$> rows) !! n = Some (position rows pad (row_of k)))
      as Hpn by (by rewrite list_lookup_fmap, Hrn).
    destruct (last_occurrence _ _ _ Hpn) as (m & Hnm & Hpm & Hlast).
    rewrite list_lookup_fmap in Hpm.
    destruct (rows !! m) as [row'|] eqn:Hrm; [|done]. injection Hpm as Hpm.
    pose proof (list_elem_of_lookup_2 _ _ _ Hrm) as Hrow'.
    apply (position_inj _ _ _ _ _ _ _ _ _ _ _ Hsetup Hpad Hnn Hrg Hft) in Hpm; [|done..].
    subst row'.
    assert (∃ k', keys_of iom !! m = Some k' ∧ row_of k' = row_of k) as (k' & Hkm & Hkk).
    { rewrite Hrk, list_lookup_fmap in Hrm.
      destruct (keys_of iom !! m) as [k'|]; [|done]. injection Hrm as ?. eauto. }
    apply (indices_array_inj _ _ _ _ Hrows) in Hkk;
      [|by eapply list_elem_of_lookup_2..]. subst k'.
    assert (assigned iom foreground !! m = Some (k, v)) as Hm.
    { destruct iom as [l|m0]; simpl in *.
      - rewrite list_lookup_fmap, Hkm. simpl.
        rewrite list_lookup_fmap in Hn. destruct (l !! n); [|done].
        by injection Hn as _ <-.
      - destruct Hmap as [Hnodup _].
        rewrite list_lookup_fmap in Hkm, Hkn.
        destruct (m0 !! m) as [[k1 v1]|] eqn:Hm1; [|done].
        injection Hkm as ->.
        assert (n = m) as ->; [|congruence].
        apply (NoDup_lookup _ _ _ k Hnodup); by rewrite list_lookup_fmap, ?Hn, ?Hm1. }
    pose proof (length_position _ _ _ _ _ _ _ _ _ _ _ Hsetup Hpad Hnn Hrg Hft (row_of k))
      as Hlp. fold D in Hlp.
    assert (in_bounds (shape_of grid0) (position rows pad (row_of k) ++ t)) as Hin.
    { rewrite Hshape0. apply Forall2_app; [|done].
      apply Forall2_total. split; [lia|]. intros j Hj.
      rewrite (list_lookup_total_fmap
                 (λ j, Z.to_nat (np_max (column rows j) - np_min (column rows j)
                                 + 2 * int_at pad j + 1))) by len.
      rewrite lookup_total_seq_lt by lia. cbn [Nat.add].
      rewrite <-(grid0_extent _ _ _ _ _ _ _ _ _ _ _ Hsetup Hpad Hnn Hrg Hft j) by lia.
      apply (position_lt _ _ _ _ _ _ _ _ _ _ _ Hsetup Hpad Hnn Hrg Hft); [done|lia]. }
    exists m. split_and!; [done|by eapply lookup_lt_Some|done|].
    destruct (Hel _ Hin) as [Hin1 _].
    rewrite take_app_length', drop_app_length' in Hin1 by done.
    apply Hin1; [by rewrite list_lookup_fmap, Hrm|].
    intros m' Hm'. apply Hlast. done. }
  split_and!.
  - by rewrite Hd.
  - rewrite Hsh, Hshape0. by rewrite take_app_length'.
  - intros k v t Hkv Ht. rewrite Hsh, Hdrop in Ht. rewrite Hd, Hd0.
    destruct (Hlast k v t Hkv Ht) as (m & Hm & Hlt & Hin & ->).
    pose proof (in_bounds_length _ _ Ht) as Htlen.
    pose proof (common_shape_length _ _ Hb) as Hrank.
    assert (in_bounds (length indices :: drop D (shape_of grid0)) (m :: t)) as Hmt.
    { rewrite Hdrop. apply in_bounds_cons. split; [lia|done]. }
    rewrite (np_broadcast_to_lookup _ _ _ _ Hc Hmt).
    assert (broadcastable (shape values) (length indices :: bshape)) as Hbc.
    { unfold np_broadcast_to in Hc. rewrite Hdrop in Hc. by case_decide. }
    destruct iom as [l|m0]; simpl in Hm, Hvalues, Hrank.
    + rewrite list_lookup_fmap in Hm. destruct (l !! m); [|done].
      injection Hm as _ <-.
      destruct (convert_shape _ _ _ Hvalues) as [Hvs _]. rewrite Hvs in *.
      assert (ndim foreground ≤ length t)%nat as Hfg by (unfold ndim in *; lia).
      rewrite broadcast_index_cons by done.
      apply convert_lookup; [exact Hvalues|exact (Hwf _ _ Hkv)|].
      rewrite <-(broadcast_index_cons _ _ m) by done.
      apply (broadcast_index_in_bounds _ _ _ Hbc). rewrite <-Hdrop. done.
    + destruct Hvalues as (vs & Hvs & Hstack). destruct Hmap as [_ Hranks].
      apply traverse_ok_inv in Hvs.
      assert (m0.*2 !! m = Some v) as Hv by (by rewrite list_lookup_fmap, Hm).
      pose proof (list_elem_of_lookup_2 _ _ _ Hv) as Hvin.
      destruct (Forall2_lookup_l _ _ _ _ _ Hvs Hv) as (cv & Hcv & Hconv).
      destruct (convert_shape _ _ _ Hconv) as [Hcvs _].
      assert (Forall wf vs) as Hwfs.
      { apply Forall_forall. intros w [i Hi]%list_elem_of_lookup.
        destruct (Forall2_lookup_r _ _ _ _ _ Hvs Hi) as (w0 & Hw0 & Hcw).
        apply (convert_shape _ _ _ Hcw).
        rewrite list_lookup_fmap in Hw0.
        destruct (m0 !! i) as [[k0 v0]|] eqn:Hi0; [|done]. injection Hw0 as <-.
        apply (Hwf k0). by eapply list_elem_of_lookup_2. }
      assert (length (shape_of v) = length t) as Hvt.
      { destruct m0 as [|[k0 v0] m0]; [done|]. simpl in Hrank.
        pose proof (Hranks v0 ltac:(left)) as [? ?].
        assert (shape cv = shape_of v0) as Hcv0.
        { unfold stack in Hstack. destruct vs as [|c0 vs']; [done|].
          case_decide as Hsame; [|done]. rewrite Forall_forall in Hsame.
          rewrite (Hsame cv) by (by eapply list_elem_of_lookup_2).
          apply Forall2_cons_1 in Hvs as [Hc0 _].
          by apply convert_shape in Hc0 as [? _]. }
        rewrite <-Hcvs, Hcv0. unfold ndim in *. lia. }
      pose proof (stack_shape _ _ _ _ Hstack Hcv) as Hsv.
      assert (length vs = length indices) as Hnvs.
      { pose proof (Forall2_length _ _ _ Hvs) as Hl. rewrite length_fmap in Hl.
        rewrite Hnum, Hrk. simpl. rewrite !length_fmap. lia. }
      rewrite Hsv, Hcvs, Hnvs in *.
      assert (broadcastable (shape_of v) bshape) as Hbv.
      { unfold broadcastable in *. simpl in Hbc.
        rewrite <-Htlen, Hvt, Nat.sub_diag in Hbc. simpl in Hbc.
        apply Forall2_cons_1 in Hbc as [_ Hbc].
        by rewrite <-Htlen, Hvt, Nat.sub_diag. }
      pose proof (broadcast_index_in_bounds _ _ _ Hbv Ht) as Hj.
      rewrite broadcast_index_same_rank by (try done; lia).
      rewrite (proj2 (stack_lookup vs values cv m _ Hstack Hwfs Hcv
                        ltac:(by rewrite Hcvs))).
      apply convert_lookup; [exact Hconv|exact (Hwf _ _ Hkv)|exact Hj].
  - intros idx Hidx Hnone. rewrite Hsh in Hidx.
    destruct (Hel idx Hidx) as [_ Hout]. rewrite Hout, Hd, Hd0; [by apply Hbg|].
    intros n Hn. rewrite list_lookup_fmap in Hn.
    destruct (rows !! n) as [row|] eqn:Hrn; [|done]. injection Hn as Hn.
    rewrite Hrk, list_lookup_fmap in Hrn.
    destruct (keys_of iom !! n) as [k|] eqn:Hkn; [|done]. injection Hrn as <-.
    rewrite <-(assigned_keys iom foreground), list_lookup_fmap in Hkn.
    destruct (assigned iom foreground !! n) as [[k' v]|] eqn:Han; [|done].
    injection Hkn as ->.
    apply (Hnone k v); [by eapply list_elem_of_lookup_2|done].
Qed.

End grid_default_theorem.

(** The inputs on which C2 fails as stated.  The mapping {0: 1, 1: 2,
    2: 3} with the background (0, 0, 0): the three mapped values are spread
    along the last axis, and position 0 holds (1, 2, 3), not its value 1.
    And a boolean background with the foreground 5: the grid is boolean
    and its position holds True. *)
Lemma grid_from_indices_not_assigned :
  grid_from_indices
    (Mapping [(IScalar 0, py_int 1); (IScalar 1, py_int 2); (IScalar 2, py_int 3)])
    (array1 [0; 0; 0]) (py_int 1) None None (IntScalar 0) None
  = Ok (array2 [[1; 2; 3]; [1; 2; 3]; [1; 2; 3]])
  ∧ grid_from_indices (Iterable [IScalar 0])
      (NpArray bool_ (NdArray [] [0])) (py_int 5) None None (IntScalar 0) None
    = Ok (NpArray bool_ (NdArray [1%nat] [1])).
Proof. split; reflexivity. Qed.

(** The doctest with the coordinates 5, -2, 1 and a pad of 1. *)
Lemma grid_from_indices_default_witness :
  take (index_dim (row_of <$> keys_of (Iterable [IScalar 5; IScalar (-2); IScalar 1])))
    (shape_of (array1 [0; 1; 0; 0; 1; 0; 0; 0; 1; 0]))
  = [10%nat].
Proof.
  destruct (grid_from_indices_default
              (Iterable [IScalar 5; IScalar (-2); IScalar 1])
              (py_int 0) (py_int 1) (IntScalar 1) None
              (array1 [0; 1; 0; 0; 1; 0; 0; 0; 1; 0]))
    as (_ & Hshape & _).
  - reflexivity.
  - exact I.
  - intros j _. simpl. lia.
  - intros row j Hrow Hj. unfold index_dim in Hj. simpl in Hj.
    assert (j = 0%nat) as -> by lia. unfold int64_range.
    simpl in Hrow. revert Hrow.
    intros [->|[->|[->|[]%elem_of_nil]%elem_of_cons]%elem_of_cons]%elem_of_cons;
      simpl; lia.
  - intros j Hj. unfold index_dim in Hj. simpl in Hj.
    assert (j = 0%nat) as -> by lia. reflexivity.
  - intros k v (? & [= _ ->] & _)%list_elem_of_fmap. reflexivity.
  - exact I.
  - exact Hshape.
Defined.

(** * Further properties of the array functions *)

(** ** [pad_array] *)

Section pad_array_more.
Local Close Scope Z_scope.
Context `{ElemDomain}.
Implicit Types (array value : nparray) (pad : pad_spec).

(** The pad argument as the list of (before, after) pairs that
    [pad_array] hands to [np.pad]. *)
Definition pad_pairs array value pad : list (Z * Z) :=
  match pad with
  | PadScalar p => replicate (ndim array - ndim value) (p, p)
  | PadPairs l => l
  end.

(** X1: with a pad that is a scalar or a sequence of at least one pair,
    non-negative widths that cover no more axes than the array has, and a
    value of the trailing shape that the element type of the array stores
    as it is, [pad_array] returns an array of the element type of the
    input whose extents are [before + n + after]; inside the box at
    [before] it shows the input, and elsewhere the value. *)
Theorem pad_array_contents array value pad :
  ndim array ≠ 0 → pad ≠ PadPairs [] → nonneg_pad pad →
  length (pad_widths array value pad) ≤ ndim array →
  shape value = drop (length (pad_widths array value pad)) (shape array) →
  wf value → unchanged (np_dtype array) value →
  ∃ r,
    pad_array array pad value = Ok r
    ∧ np_dtype r = np_dtype array
    ∧ shape r
      = zip_with (λ (w : nat * nat) n, w.1 + n + w.2)
          (pad_widths array value pad
           ++ replicate (ndim array - length (pad_widths array value pad)) (0, 0))
          (shape array)
    ∧ ∀ idx, in_bounds (shape r) idx →
        np_arr r !!! idx
        = if decide (in_box
                       (pad_widths array value pad
                        ++ replicate
                             (ndim array - length (pad_widths array value pad))
                             (0, 0)).*1
                       (shape array) idx)
          then np_arr array
               !!! zip_with Nat.sub idx
                     (pad_widths array value pad
                      ++ replicate
                           (ndim array - length (pad_widths array value pad))
                           (0, 0)).*1
          else np_arr value !!! drop (length (pad_widths array value pad)) idx.
Proof.
  intros Hnd Hpad Hpos Hlen Hshape Hwf Hconv.
  rewrite pad_array_padded by (try done; by left).
  eexists. split; [done|]. split_and!; [done|done|].
  intros idx Hidx. unfold padded in *. simpl in *.
  by rewrite lookup_total_fromfunction.
Qed.

(** X2: when the shape of the value is not the shape of the array beyond
    the padded axes, [pad_array] raises the [AssertionError] of
    [check_eq], whatever the widths. *)
Theorem pad_array_shape_mismatch array value pad :
  match pad with PadScalar _ => ndim value ≤ ndim array | PadPairs _ => True end →
  shape value ≠ drop (length (pad_pairs array value pad)) (shape array) →
  pad_array array pad value = Raise AssertionError.
Proof.
  intros Hrank Hshape. unfold pad_array. destruct pad as [p|l]; simpl in *.
  - rewrite decide_True by done. cbn [mbind result_bind].
    by rewrite bool_decide_eq_false_2.
  - cbn [mbind result_bind]. by rewrite bool_decide_eq_false_2.
Qed.

(** X3: a negative width raises a [ValueError] when the shape check
    passes: no element is cut off. *)
Theorem pad_array_negative_width array value pad :
  match pad with PadScalar _ => ndim value ≤ ndim array | PadPairs _ => True end →
  shape value = drop (length (pad_pairs array value pad)) (shape array) →
  Exists (λ w : Z * Z, (w.1 < 0 ∨ w.2 < 0)%Z) (pad_pairs array value pad) →
  ∃ msg, pad_array array pad value = Raise (ValueError msg).
Proof.
  intros Hrank Hshape Hneg. unfold pad_array.
  assert (∀ l : list (Z * Z),
            Exists (λ w : Z * Z, (w.1 < 0 ∨ w.2 < 0)%Z) l →
            ∀ cv, ∃ msg, np_pad array
                           (if decide (length l < ndim array)
                            then l ++ replicate (ndim array - length l) (0, 0)%Z
                            else l) cv = Raise (ValueError msg)) as Hpad.
  { intros l Hl cv. unfold np_pad, as_index_pairs.
    set (l' := if decide (length l < ndim array)
               then l ++ replicate (ndim array - length l) (0, 0)%Z else l).
    assert (Exists (λ w : Z * Z, (w.1 < 0 ∨ w.2 < 0)%Z) l') as Hl'.
    { unfold l'. case_decide; [|done]. apply Exists_app. by left. }
    destruct l' as [|w l'']; [by apply Exists_nil in Hl'|].
    rewrite decide_False; [by eexists|].
    intros Hall. apply Exists_exists in Hl' as (x & Hx & Hxneg).
    rewrite Forall_forall in Hall. specialize (Hall x Hx). simpl in *. lia. }
  destruct pad as [p|l]; simpl in *.
  - rewrite decide_True by done. cbn [mbind result_bind].
    rewrite bool_decide_eq_true_2 by done. cbn [require mbind result_bind].
    apply Hpad. done.
  - cbn [mbind result_bind].
    rewrite bool_decide_eq_true_2 by done. cbn [require mbind result_bind].
    destruct l as [|w l]; [by apply Exists_nil in Hneg|].
    apply Hpad. done.
Qed.

End pad_array_more.

Lemma pad_array_contents_witness :
  ∃ r, pad_array (array1 [1; 2; 3]) (PadScalar 1) (py_int 0) = Ok r
       ∧ np_dtype r = np_dtype (array1 [1; 2; 3]).
Proof.
  destruct (pad_array_contents (array1 [1; 2; 3]) (py_int 0) (PadScalar 1))
    as (r & Hr & Hd & _);
    [discriminate|discriminate|simpl; lia|unfold ndim; simpl; lia|reflexivity
    |reflexivity|by left|].
  by exists r.
Defined.

Lemma pad_array_shape_mismatch_witness :
  pad_array (array1 [1; 2; 3]) (PadScalar 1) (array1 [0; 0]) = Raise AssertionError.
Proof.
  apply (pad_array_shape_mismatch (array1 [1; 2; 3]) (array1 [0; 0]) (PadScalar 1));
    [unfold ndim; simpl; lia|discriminate].
Defined.

Lemma pad_array_negative_width_witness :
  ∃ msg, pad_array (array1 [1; 2; 3]) (PadPairs [(1, -1)]) (py_int 0)
         = Raise (ValueError msg).
Proof.
  apply (pad_array_negative_width (array1 [1; 2; 3]) (py_int 0) (PadPairs [(1, -1)]));
    [exact I|reflexivity|].
  apply Exists_cons_hd. simpl. lia.
Defined.

(** ** [bounding_slices] *)

Section bounding_slices_more.
Local Close Scope Z_scope.
Context {A : Type} `{Inhabited A} `{Truthy A}.
Implicit Types (a : ndarray A).

(** X4: the range of an axis that holds a nonzero element is tight: it
    is not empty, and its first and its last position each hold a nonzero
    element. *)
Theorem bounding_slices_tight a :
  ∃ slices,
    bounding_slices a = Ok slices
    ∧ ∀ dim lo hi x,
        slices !! dim = Some (lo, hi) → occupied (atleast_1d a) dim x →
        (0 ≤ lo < hi)%Z
        ∧ occupied (atleast_1d a) dim (Z.to_nat lo)
        ∧ occupied (atleast_1d a) dim (Z.to_nat (hi - 1)).
Proof.
  destruct (bounding_slices_spans a) as (slices & Hok & Hall).
  exists slices. split; [done|]. intros dim lo hi x Hsl Hx.
  destruct (Forall2_lookup_r _ _ _ _ _ Hall Hsl) as (d & Hd & n & Hn & Hspan).
  apply lookup_seq in Hd as [-> _]. simpl in *.
  destruct Hspan as [[_ Hnone]|(l & h & [= -> ->] & Hl & Hh & Hhn & Hbox)].
  - exfalso. apply (Hnone x); [|done]. by eapply occupied_lt.
  - pose proof (Hbox l (occupied_lt _ _ _ _ Hn Hl) Hl).
    split; [lia|]. rewrite Nat2Z.id.
    replace (Z.to_nat (Z.of_nat h + 1 - 1)) with h by lia. done.
Qed.

End bounding_slices_more.

(** ** [_fit_shape] *)

(** X5: a shape that [_fit_shape] returns for [num >= 1] elements is a
    fixed point: it has no wildcard, and resolving it again for [num]
    returns it. *)
Theorem fit_shape_idempotent (shape r : list Z) (num : Z) :
  1 ≤ num → _fit_shape shape num = Ok r →
  (-1) ∉ r ∧ _fit_shape r num = Ok r.
Proof.
  intros Hnum Hfit.
  destruct (fit_shape_ok _ _ _ Hnum Hfit) as (_ & Hpos & Hroom).
  assert ((-1) ∉ r) as Hno by (by apply positive_no_wildcard).
  split; [done|]. unfold _fit_shape.
  rewrite (proj2 (positive_check_spec r)) by (intros d Hd _; by apply Hpos).
  cbn [negb]. rewrite wildcard_count_spec, positive_wildcards_nil by done.
  case_bool_decide as Hcount; [simpl in Hcount; lia|].
  rewrite bool_decide_eq_false_2 by done.
  by rewrite bool_decide_eq_false_2 by lia.
Qed.

Lemma fit_shape_idempotent_witness :
  (-1) ∉ [3; 4] ∧ _fit_shape [3; 4] 10 = Ok [3; 4].
Proof. apply (fit_shape_idempotent [3; -1] [3; 4] 10); [lia|reflexivity]. Defined.

(** ** [grid_from_indices] *)

(** Without coordinates there is no grid: an empty iterable and an empty
    mapping fail the assertion on the index array. *)
Lemma grid_from_indices_empty `{ElemDomain} (background foreground : nparray)
    (indices_min indices_max : option int_or_seq) (pad : int_or_seq)
    (dtype : option dtype) :
  grid_from_indices (Iterable []) background foreground indices_min indices_max
    pad dtype = Raise AssertionError
  ∧ grid_from_indices (Mapping []) background foreground indices_min indices_max
      pad dtype = Raise AssertionError.
Proof. done. Qed.

(** ** [assemble_arrays]: even extents *)

(** The last origin of an axis, which is the extent of the output, is
    even when [round_to_even] is set for the axis: it is the exact extent
    reduced modulo 2^64, which keeps the parity. *)
Lemma axis_extent_even (head_dims : ndarray Z) (gshape : list nat)
    (spacing2 : ndarray Z) (round_to_even2 : ndarray bool) (axis : nat) :
  (1 ≤ gshape !!! axis)%nat → round_to_even2 !!! [axis] = true →
  default 0 (last (axis_layout head_dims gshape spacing2 round_to_even2 axis).2)
  `mod` 2 = 0.
Proof.
  intros Hn Hround.
  destruct (axis_layout_wrap head_dims gshape spacing2 round_to_even2 axis)
    as [_ ->].
  rewrite fmap_last.
  pose proof (exact_extent_even head_dims gshape spacing2 round_to_even2 axis
                ltac:(lia) Hround) as Heven.
  destruct (last _) as [e|]; simpl in *; [|done].
  by rewrite wrap64_mod2.
Qed.

Section assemble_even.
Local Close Scope Z_scope.
Context `{ElemDomain}.

Lemma output_shape_axis (arrays : list nparray) (shape : list Z)
    (spacing2 : ndarray Z) (round_to_even2 : ndarray bool) (tail_dims : list nat)
    (axis : nat) :
  axis < length shape →
  output_shape arrays shape spacing2 round_to_even2 tail_dims !!! axis
  = default 0%Z
      (last (axis_layout (head_dims arrays shape) (grid_shape shape)
               spacing2 round_to_even2 axis).2).
Proof.
  intros Haxis. unfold output_shape, layout.
  rewrite lookup_total_app_l by len.
  rewrite <-!list_fmap_compose.
  rewrite (list_lookup_total_fmap
             ((λ o : list Z, default 0%Z (last o)) ∘ snd
              ∘ (λ axis, axis_layout (head_dims arrays shape) (grid_shape shape)
                           spacing2 round_to_even2 axis))) by len.
  by rewrite lookup_total_seq_lt.
Qed.

(** The copy loop keeps the shape of the output. *)
Lemma copy_loop_shape (arrays : list nparray) (shape : list Z)
    (align2 : ndarray string) (spacing2 : ndarray Z) (round_to_even2 : ndarray bool)
    (out0 out : nparray) :
  (∀ array, array ∈ arrays → np_dtype array = np_dtype out0) →
  foldlM (copy_array arrays shape align2 spacing2 round_to_even2) out0
    (imap pair arrays) = Ok out →
  shape_of out = shape_of out0.
Proof.
  intros Hdt Hloop.
  assert (np_dtype out = np_dtype out0 ∧ shape_of out = shape_of out0) as [_ ?];
    [|done].
  eapply (foldlM_invariant
            (λ _ o, np_dtype o = np_dtype out0 ∧ shape_of o = shape_of out0));
    [| |exact Hloop]; [done|].
  intros k [k' array'] b1 b2 Hk [Hd1 Hs1] Hstep.
  apply list_lookup_imap_Some in Hk as (array & Harray & [= -> ->]).
  apply list_elem_of_lookup_2 in Harray. unfold copy_array in Hstep.
  destruct (slices_of _ _ _ _ _ _ _) as [slices|e]; [|done].
  cbn [mbind result_bind] in Hstep.
  apply setitem_slices_inv in Hstep as (Hd2 & Hs2 & _);
    [|by rewrite Hd1; apply Hdt].
  split; congruence.
Qed.

(** X6: where [round_to_even] is set for an axis of the grid, the extent
    of the output of a successful call along that axis is even. *)
Theorem assemble_arrays_even arrays shape background align spacing round_to_even
    out axis :
  assemble_arrays arrays shape background align spacing round_to_even = Ok out →
  axis < length shape →
  round_to_even !!! broadcast_index (shape_of round_to_even) [axis] = true →
  Nat.even (shape_of out !!! axis) = true.
Proof.
  intros Hout Haxis Hround.
  destruct (assemble_arrays_inv _ _ _ _ _ _ _ Hout)
    as (arrays0 & shape' & align2 & spacing2 & round_to_even2 & out0
        & Hhead & Hfit & Hdt & _ & _ & _ & Hr2 & _ & Hfull & Hloop).
  assert (1 ≤ Z.of_nat (length arrays))%Z as Hnum
    by (destruct arrays; [done|simpl; lia]).
  destruct (fit_shape_ok _ _ _ Hnum Hfit) as (Hlen & Hpos & _).
  rewrite <-Hlen in Haxis.
  destruct (np_full_inv _ _ _ _ Hfull) as (Hd0 & Hsh0 & _).
  rewrite (copy_loop_shape _ _ _ _ _ _ _ ltac:(by rewrite Hd0) Hloop), Hsh0.
  pose proof (np_full_nonneg _ _ _ _ Hfull) as Hnn.
  assert (axis < length (output_shape arrays shape' spacing2 round_to_even2
                           (drop (length shape') (shape_of arrays0)))) as Hlt
    by (unfold output_shape, layout; len).
  rewrite (list_lookup_total_fmap Z.to_nat) by done.
  rewrite Forall_forall in Hnn.
  pose proof (Hnn _ (list_elem_of_lookup_total_2 _ _ Hlt)) as H0.
  rewrite output_shape_axis in H0 |- * by done.
  pose proof (axis_extent_even (head_dims arrays shape') (grid_shape shape')
                spacing2 round_to_even2 axis) as Heven.
  apply Nat.even_spec.
  set (E := default 0%Z (last _)) in *.
  assert (E `mod` 2 = 0)%Z as Hmod.
  { apply Heven.
    - unfold grid_shape. rewrite (list_lookup_total_fmap Z.to_nat) by done.
      assert (0 < shape' !!! axis)%Z; [|lia].
      apply Hpos, list_elem_of_lookup_total_2. lia.
    - rewrite (np_broadcast_to_lookup _ _ _ _ Hr2); [done|].
      repeat constructor. lia. }
  exists (Z.to_nat (E `div` 2)).
  pose proof (Z.div_mod E 2 ltac:(lia)). lia.
Qed.

End assemble_even.

(** The doctest arrays with [round_to_even] set: the three rows of the
    output become four. *)
Lemma assemble_arrays_even_witness :
  Nat.even (shape_of (array2 [[1; 2; 3; 5; 0; 0; 7; 0];
                              [0; 0; 0; 6; 0; 0; 0; 0];
                              [8; 9; 0; 3; 4; 5; 0; 0];
                              [0; 0; 0; 0; 0; 0; 0; 0]]) !!! 0%nat) = true.
Proof.
  apply (assemble_arrays_even
           [array2 [[1; 2; 3]]; array2 [[5]; [6]]; array2 [[7]];
            array2 [[8; 9]]; array2 [[3; 4; 5]]]
           [2; 3] (py_int 0)
           (NdArray [] ["start"]) (NdArray [] [0]) (NdArray [] [true]));
    [reflexivity|simpl; lia|reflexivity].
Defined.

(** ** Temporary assignment *)

(** X7: when the body leaves the name bound where it was not bound before,
    the dictionary after the [with] statement gives the name what it had
    before (its value, or none) and gives every other name what the body
    left; after a body that leaves the dictionary alone it is the dictionary
    from before. *)
Theorem temporary_assignment_restores {V : Type} (variables : gmap string V)
    (name : string) (value : V) (body : gmap string V → gmap string V) :
  (variables !! name = None →
   is_Some (body (<[name := value]> variables) !! name)) →
  ∃ after,
    temporary_assignment variables name value body = inl after
    ∧ after !! name = variables !! name
    ∧ (∀ other, other ≠ name →
         after !! other = body (<[name := value]> variables) !! other)
    ∧ (body (<[name := value]> variables) = <[name := value]> variables →
       after = variables).
Proof.
  intros Hbound. unfold temporary_assignment.
  destruct (variables !! name) as [old|] eqn:Hold.
  - eexists. split; [done|]. split_and!.
    + by rewrite lookup_insert_eq.
    + intros other Hne. by rewrite lookup_insert_ne.
    + intros ->. rewrite insert_insert_eq. by apply insert_id.
  - destruct (Hbound eq_refl) as [v ->]. eexists. split; [done|]. split_and!.
    + by rewrite lookup_delete_eq.
    + intros other Hne. by rewrite lookup_delete_ne.
    + intros ->. rewrite delete_insert_eq. by apply delete_id.
Qed.

Lemma temporary_assignment_restores_witness :
  ∃ after,
    temporary_assignment ({["var" := 1]} : gmap string Z) "var2" 5
      (λ m, <["var" := 3]> m) = inl after
    ∧ after !! "var2" = ({["var" := 1]} : gmap string Z) !! "var2"
    ∧ (∀ other, other ≠ "var2" →
         after !! other
         = (<["var" := 3]> (<["var2" := 5]> {["var" := 1]}) : gmap string Z) !! other)
    ∧ ((<["var" := 3]> (<["var2" := 5]> {["var" := 1]}) : gmap string Z)
       = <["var2" := 5]> {["var" := 1]} →
       after = {["var" := 1]}).
Proof.
  apply (temporary_assignment_restores ({["var" := 1]} : gmap string Z) "var2" 5
           (λ m, <["var" := 3]> m)).
  intros _. exists 5. vm_compute. reflexivity.
Defined.

(** ** Prime factors *)

Section prime_factors_facts.
Import Znumtheory.

(** [n] has no divisor from 2 up to, and without, [d]. *)
Definition no_divisor_below (d n : Z) : Prop :=
  ∀ a, 2 ≤ a < d → ¬ (a | n).

Lemma StronglySorted_snoc (l : list Z) (x : Z) :
  StronglySorted Z.le l → Forall (λ y, y ≤ x) l → StronglySorted Z.le (l ++ [x]).
Proof.
  induction 1 as [|y l Hl IH Hy]; intros Hx; simpl.
  - repeat constructor.
  - apply Forall_cons in Hx as [Hyx Hx]. constructor; [by apply IH|].
    apply Forall_app. split; [done|]. by constructor.
Qed.

Lemma math_prod_app (l1 l2 : list Z) :
  math_prod (l1 ++ l2) = math_prod l1 * math_prod l2.
Proof. unfold math_prod. induction l1 as [|x l1 IH]; simpl; lia. Qed.

(** A number above 1 without divisor below [d], where [d] is a divisor or
    [d * d] exceeds the number, is prime. *)
Lemma least_divisor_prime (d : Z) (n : Z) :
  2 ≤ d → (d | n) → no_divisor_below d n → prime d.
Proof.
  intros Hd Hdn Hno. apply prime_alt. split; [lia|].
  intros a Ha Had. apply (Hno a); [lia|]. by eapply Z.divide_trans.
Qed.

Lemma no_small_divisor_prime (d n : Z) :
  2 ≤ d → 1 < n → n < d * d → no_divisor_below d n → prime n.
Proof.
  intros Hd Hn Hdd Hno. apply prime_alt. split; [done|].
  intros a Ha [b Hb].
  assert (0 < b) by nia.
  destruct (decide (a < d)) as [Hlt|Hge].
  - apply (Hno a); [lia|]. by exists b.
  - assert (2 ≤ b) by nia.
    assert (b < d).
    { destruct (decide (b < d)); [done|].
      assert (d * d ≤ b * a) by (apply Z.mul_le_mono_nonneg; lia). lia. }
    apply (Hno b); [lia|]. exists a. lia.
Qed.

Lemma divide_out_spec (fuel : nat) (n d : Z) (factors : list Z) :
  2 ≤ d → 1 ≤ n → n - d + 1 ≤ Z.of_nat fuel →
  ∃ n' k, divide_out fuel n d factors = Some (n', factors ++ replicate k d)
          ∧ n = n' * d ^ Z.of_nat k ∧ 1 ≤ n' ≤ n ∧ ¬ (d | n')
          ∧ (k ≠ 0%nat → (d | n)).
Proof.
  intros Hd. revert n factors.
  induction fuel as [|fuel IH]; intros n factors Hn Hfuel; simpl.
  - case_decide as Hmod.
    + apply Z.mod_divide in Hmod; [|lia]. apply Z.divide_pos_le in Hmod; lia.
    + exists n, 0%nat. rewrite app_nil_r.
      split_and!; [done|simpl; lia|lia|lia| |done].
      intros Hdiv. apply Hmod, Z.mod_divide; [lia|done].
  - case_decide as Hmod.
    + pose proof Hmod as Hdiv. apply Z.mod_divide in Hdiv; [|lia].
      destruct Hdiv as [q Hq]. assert (n `div` d = q) as Hquot
        by (subst n; apply Z.div_mul; lia).
      assert (1 ≤ q) by nia.
      destruct (IH q (factors ++ [d])) as (n' & k & Hres & Hnk & Hn' & Hnd & _);
        [lia|nia|].
      exists n', (S k). rewrite Hquot, Hres.
      split_and!.
      * by rewrite <-app_assoc.
      * rewrite Nat2Z.inj_succ, Z.pow_succ_r by lia. subst n q. lia.
      * lia.
      * subst n. nia.
      * done.
      * intros _. by exists q.
    + exists n, 0%nat. rewrite app_nil_r.
      split_and!; [done|simpl; lia|lia|lia| |done].
      intros Hdiv. apply Hmod, Z.mod_divide; [lia|done].
Qed.

Lemma no_divisor_quotient (d n n' : Z) (k : nat) :
  n = n' * d ^ Z.of_nat k → no_divisor_below d n → no_divisor_below d n'.
Proof.
  intros -> Hno a Ha Hdiv. apply (Hno a Ha). by apply Z.divide_mul_l.
Qed.

Lemma factor_from_spec (fuel : nat) (n d : Z) (factors : list Z) :
  2 ≤ d → 1 ≤ n → n - d + 2 ≤ Z.of_nat fuel → no_divisor_below d n →
  ∃ n' d' found,
    factor_from fuel n d factors = Some (n', factors ++ found)
    ∧ n = n' * math_prod found ∧ 1 ≤ n'
    ∧ d ≤ d' ∧ n' < d' * d' ∧ no_divisor_below d' n'
    ∧ Forall prime found ∧ Forall (λ f, d ≤ f < d') found
    ∧ StronglySorted Z.le found.
Proof.
  revert n d factors.
  induction fuel as [|fuel IH]; intros n d factors Hd Hn Hfuel Hno; simpl.
  - case_decide as Hdd; [nia|]. exists n, d, []. rewrite app_nil_r.
    split_and!; try done; try (unfold math_prod; simpl; lia); constructor.
  - case_decide as Hdd.
    + destruct (divide_out_spec fuel n d factors)
        as (n1 & k & -> & Hnk & Hn1 & Hnd & Hk); [lia|lia|lia|].
      destruct (IH n1 (d + 1) (factors ++ replicate k d))
        as (n' & d' & found & Hres & Hprod & Hn' & Hd' & Hdd' & Hno' & Hpr & Hrng & Hs);
        [lia|lia|lia| |].
      { intros a Ha Hdiv. destruct (decide (a = d)) as [->|Hne]; [done|].
        apply (no_divisor_quotient d n n1 k Hnk Hno a); [lia|done]. }
      exists n', d', (replicate k d ++ found). rewrite Hres.
      split_and!.
      * by rewrite <-app_assoc.
      * rewrite math_prod_app. rewrite Hnk, Hprod.
        assert (math_prod (replicate k d) = d ^ Z.of_nat k) as ->; [|lia].
        clear. induction k as [|k IHk]; [done|].
        rewrite Nat2Z.inj_succ, Z.pow_succ_r by lia.
        change (math_prod (replicate (S k) d)) with (d * math_prod (replicate k d)).
        by rewrite IHk.
      * done.
      * lia.
      * done.
      * done.
      * apply Forall_app. split; [|done].
        destruct k as [|k]; [by constructor|]. apply Forall_replicate.
        apply (least_divisor_prime d n); [done|by apply Hk|done].
      * apply Forall_app. split.
        -- apply Forall_forall. intros f [-> _]%elem_of_replicate. lia.
        -- eapply Forall_impl; [exact Hrng|]. simpl. intros; lia.
      * clear -Hs Hrng. induction k as [|k IHk]; [done|]. simpl.
        constructor; [done|]. apply Forall_app. split.
        -- apply Forall_forall. intros f [-> _]%elem_of_replicate. lia.
        -- eapply Forall_impl; [exact Hrng|]. simpl. intros; lia.
    + exists n, d, []. rewrite app_nil_r.
      split_and!; try done; try (unfold math_prod; simpl; lia); constructor.
Qed.

(** For [n <= 1], zero and the negative numbers among them, neither loop
    runs and the list returned is empty, whatever the fuel. *)
Lemma prime_factors_below_two (fuel : nat) (n : Z) :
  n ≤ 1 → prime_factors fuel n = Some [].
Proof.
  intros Hn. unfold prime_factors.
  assert (factor_from fuel n 2 [] = Some (n, [])) as ->.
  { destruct fuel; simpl; case_decide; first [lia|done]. }
  by rewrite decide_False by lia.
Qed.

Lemma prime_factors_spec (fuel : nat) (n : Z) :
  1 ≤ n → n ≤ Z.of_nat fuel →
  ∃ factors, prime_factors fuel n = Some factors
             ∧ math_prod factors = n
             ∧ Forall prime factors
             ∧ StronglySorted Z.le factors.
Proof.
  intros Hn Hfuel. unfold prime_factors.
  destruct (factor_from_spec fuel n 2 [])
    as (n' & d' & found & -> & Hprod & Hn' & Hd' & Hdd' & Hno & Hpr & Hrng & Hs);
    [lia|lia|lia|by intros a ?; lia|].
  simpl. case_decide as Hgt.
  - exists (found ++ [n']). split_and!.
    + done.
    + rewrite math_prod_app. unfold math_prod at 2. simpl. lia.
    + apply Forall_app. split; [done|]. constructor; [|done].
      apply (no_small_divisor_prime d'); [lia|lia|done|done].
    + apply StronglySorted_snoc; [done|].
      eapply Forall_impl; [exact Hrng|]. simpl. intros f Hf.
      destruct (decide (f ≤ n')); [done|]. exfalso.
      apply (Hno n'); [lia|apply Z.divide_refl].
  - assert (n' = 1) as -> by lia. exists found. split_and!; [done|lia|done|done].
Qed.

(** X8: with fuel for [n] rounds, [prime_factors] returns a list of primes
    in ascending order; its product is [n] for [n >= 1], and it is empty
    for [n <= 1], zero and the negative numbers among them. *)
Theorem prime_factors_factorisation (fuel : nat) (n : Z) :
  n ≤ Z.of_nat fuel →
  ∃ factors, prime_factors fuel n = Some factors
             ∧ Forall prime factors
             ∧ StronglySorted Z.le factors
             ∧ (1 ≤ n → math_prod factors = n)
             ∧ (n ≤ 1 → factors = []).
Proof.
  intros Hfuel. destruct (decide (n ≤ 1)) as [Hn|Hn].
  - exists []. rewrite prime_factors_below_two by done.
    split_and!; [done|constructor|constructor| |done].
    intros ?. assert (n = 1) as -> by lia. done.
  - destruct (prime_factors_spec fuel n) as (factors & -> & Hprod & Hpr & Hs);
      [lia|lia|].
    exists factors. split_and!; [done|done|done|done|lia].
Qed.

End prime_factors_facts.

Lemma prime_factors_factorisation_witness :
  ∃ factors, prime_factors 60 60 = Some factors
             ∧ Forall Znumtheory.prime factors
             ∧ StronglySorted Z.le factors
             ∧ (1 ≤ 60 → math_prod factors = 60)
             ∧ (60 ≤ 1 → factors = []).
Proof. apply prime_factors_factorisation. lia. Defined.

(** ** Binary search *)

Section search_facts.
Context {V : Type} (ge : V → V → bool).
Implicit Types (feval : Z → V) (y : V).

(** The loop keeps the bracket: [ge y (feval xl)] holds at the lower end
    when it has moved, and fails at the upper end when that has moved. *)
Lemma bisect_spec fuel feval xl xh y :
  xl < xh → xh - xl ≤ 2 ^ Z.of_nat fuel →
  ∃ x, bisect ge fuel feval xl xh y = Some x
       ∧ xl ≤ x < xh
       ∧ (x ≠ xl → ge y (feval x) = true)
       ∧ (x + 1 ≠ xh → ge y (feval (x + 1)) = false).
Proof.
  revert xl xh. induction fuel as [|fuel IH]; intros xl xh Hlt Hfuel; simpl.
  - rewrite decide_False by (simpl in Hfuel; lia).
    exists xl. split_and!; [done|lia|lia|done|]. simpl in Hfuel. lia.
  - case_decide as Hgap; [|exists xl; split_and!; [done|lia|lia|done|lia]].
    rewrite Nat2Z.inj_succ, Z.pow_succ_r in Hfuel by lia.
    set (xm := (xl + xh) `div` 2).
    assert (xl < xm < xh ∧ xh - xm ≤ 2 ^ Z.of_nat fuel
            ∧ xm - xl ≤ 2 ^ Z.of_nat fuel) as (Hxm & Hhi & Hlo).
    { unfold xm. pose proof (Z.div_mod (xl + xh) 2).
      pose proof (Z.mod_pos_bound (xl + xh) 2). lia. }
    destruct (ge y (feval xm)) eqn:Hge.
    + destruct (IH xm xh) as (x & -> & Hx & Hl & Hh); [lia|lia|].
      exists x. split_and!; [done|lia|lia| |done].
      intros _. destruct (decide (x = xm)) as [->|Hne]; [done|by apply Hl].
    + destruct (IH xl xm) as (x & -> & Hx & Hl & Hh); [lia|lia|].
      exists x. split_and!; [done|lia|lia|done|].
      intros _. destruct (decide (x + 1 = xm)) as [->|Hne]; [done|by apply Hh].
Qed.

Lemma bisect_ext fuel feval1 feval2 xl xh y :
  (∀ x, xl < x < xh → feval1 x = feval2 x) →
  bisect ge fuel feval1 xl xh y = bisect ge fuel feval2 xl xh y.
Proof.
  revert xl xh. induction fuel as [|fuel IH]; intros xl xh Heq; simpl; [done|].
  case_decide as Hgap; [|done].
  set (xm := (xl + xh) `div` 2).
  assert (xl < xm < xh) as Hxm.
  { unfold xm. pose proof (Z.div_mod (xl + xh) 2).
    pose proof (Z.mod_pos_bound (xl + xh) 2). lia. }
  rewrite <-(Heq xm Hxm). destruct (ge y (feval1 xm)).
  - apply IH. intros x ?. apply Heq. lia.
  - apply IH. intros x ?. apply Heq. lia.
Qed.

(** X9: under the documented precondition ([xl < xh] and
    [feval(xl) <= y_desired < feval(xh)]), and with fuel for the logarithm of
    [xh - xl] rounds, [discrete_binary_search] returns an [x] in [xl, xh)
    with [feval(x) <= y_desired < feval(x + 1)]; [feval] need not be
    monotone. *)
Theorem discrete_binary_search_bracket fuel feval xl xh y :
  xl < xh → xh - xl ≤ 2 ^ Z.of_nat fuel →
  ge y (feval xl) = true → ge y (feval xh) = false →
  ∃ x, discrete_binary_search ge fuel feval xl xh y = Some (Ok x)
       ∧ xl ≤ x < xh
       ∧ ge y (feval x) = true ∧ ge y (feval (x + 1)) = false.
Proof.
  intros Hlt Hfuel Hl Hh. unfold discrete_binary_search.
  rewrite decide_True by done.
  destruct (bisect_spec fuel feval xl xh y Hlt Hfuel) as (x & -> & Hx & Hlo & Hhi).
  exists x. split_and!; [done|lia|lia| |].
  - destruct (decide (x = xl)) as [->|Hne]; [done|by apply Hlo].
  - destruct (decide (x + 1 = xh)) as [->|Hne]; [done|by apply Hhi].
Qed.

(** X10: [discrete_binary_search] calls [feval] strictly between [xl] and
    [xh] only: two functions that agree there give the same outcome, whatever
    they do at [xl], at [xh] and outside. *)
Theorem discrete_binary_search_interior fuel feval1 feval2 xl xh y :
  (∀ x, xl < x < xh → feval1 x = feval2 x) →
  discrete_binary_search ge fuel feval1 xl xh y
  = discrete_binary_search ge fuel feval2 xl xh y.
Proof.
  intros Heq. unfold discrete_binary_search.
  case_decide; [|done]. by rewrite (bisect_ext fuel feval1 feval2).
Qed.

End search_facts.

Lemma discrete_binary_search_bracket_witness :
  ∃ x, discrete_binary_search Z.geb 5 (λ x, x ^ 2) 0 20 17 = Some (Ok x)
       ∧ 0 ≤ x < 20
       ∧ (17 >=? x ^ 2) = true ∧ (17 >=? (x + 1) ^ 2) = false.
Proof.
  apply (discrete_binary_search_bracket Z.geb 5 (λ x, x ^ 2) 0 20 17);
    [lia|simpl; lia|reflexivity|reflexivity].
Defined.

Lemma discrete_binary_search_interior_witness :
  discrete_binary_search Z.geb 5 (λ x, x ^ 2) 0 20 17
  = discrete_binary_search Z.geb 5 (λ x, if decide (0 < x < 20) then x ^ 2 else 0)
      0 20 17.
Proof.
  apply (discrete_binary_search_interior Z.geb 5 (λ x, x ^ 2)
           (λ x, if decide (0 < x < 20) then x ^ 2 else 0) 0 20 17).
  intros x Hx. by rewrite decide_True.
Defined.

(** ** Shifting an array *)

Lemma foldlM_ok_invariant {A B : Type} (P : nat → B → Prop)
    (f : B → A → result B) (b : B) (l : list A) :
  P 0%nat b →
  (∀ k x b1, l !! k = Some x → P k b1 → ∃ b2, f b1 x = Ok b2 ∧ P (S k) b2) →
  ∃ r, foldlM f b l = Ok r ∧ P (length l) r.
Proof.
  intros Hb Hstep. induction l as [|x l IH] using rev_ind.
  - by exists b.
  - destruct IH as (b1 & Hl & Hb1).
    { intros k y c Hk. apply Hstep. by apply lookup_app_l_Some. }
    destruct (Hstep (length l) x b1) as (b2 & Hx & Hb2); [|done|].
    { by rewrite lookup_app_r, Nat.sub_diag by lia. }
    exists b2. rewrite foldlM_app, Hl. cbn [mbind result_bind foldlM].
    rewrite Hx. cbn [mbind result_bind]. split; [done|].
    by rewrite length_app, Nat.add_1_r.
Qed.

(** One axis of extent [n] shifted by [o]: the slice written, the slice
    read and the slice filled. *)
Lemma shift_axis (o : Z) (n : nat) :
  let d := slice_indices (slice_axis o n) n in
  let s := slice_indices (slice_axis (- o) n) n in
  let f := slice_indices (if decide (0 ≤ o) then (0, o) else slice_from o n) n in
  (d.2 - d.1 = s.2 - s.1)%nat
  ∧ ∀ i : nat, (i < n)%nat →
      ((d.1 ≤ i < d.2)%nat ↔ o ≤ Z.of_nat i < Z.of_nat n + o)
      ∧ ((f.1 ≤ i < f.1 + (f.2 - f.1))%nat ↔ ¬ (o ≤ Z.of_nat i < Z.of_nat n + o))
      ∧ ((d.1 ≤ i < d.2)%nat → (s.1 + (i - d.1))%nat = Z.to_nat (Z.of_nat i - o)).
Proof.
  unfold slice_indices, slice_axis, slice_from.
  destruct (decide (0 ≤ o)), (decide (0 ≤ - o)); cbn [fst snd];
    repeat case_decide; try lia;
    (split; [lia|]); intros i Hi; split_and!; lia.
Qed.

Section shift_facts.
Local Close Scope Z_scope.
Context `{ElemDomain}.
Implicit Types (array out : nparray) (offset : list Z) (idx sh : list nat).

Lemma region_lookup sh (slices : list (Z * Z)) k :
  length slices ≤ length sh → k < length sh →
  region_starts sh slices !!! k
  = (if decide (k < length slices)
     then (slice_indices (slices !!! k) (sh !!! k)).1 else 0)
  ∧ region_shape sh slices !!! k
    = (if decide (k < length slices)
       then (slice_indices (slices !!! k) (sh !!! k)).2
            - (slice_indices (slices !!! k) (sh !!! k)).1
       else sh !!! k).
Proof.
  intros Hlen Hk. unfold region_starts, region_shape. case_decide as Hks.
  - rewrite !lookup_total_app_l by len.
    by rewrite !lookup_total_zip_with_nat by lia.
  - rewrite !lookup_total_app_r by len.
    rewrite !length_zip_with.
    rewrite lookup_total_replicate_2 by lia.
    rewrite lookup_total_drop. split; [done|]. f_equal. lia.
Qed.

Lemma in_box_sub_in_bounds starts ext idx :
  length starts = length ext → in_box starts ext idx →
  in_bounds ext (zip_with Nat.sub idx starts).
Proof.
  intros Hlen [Hilen Hbox]%in_box_total; [|done].
  apply in_bounds_total. split; [len|]. intros k Hk.
  rewrite lookup_total_zip_with_nat by lia. specialize (Hbox k Hk). lia.
Qed.

(** An assignment of a scalar to slices of the output. *)
Lemma setitem_slices_scalar out (slices : list (Z * Z)) dv x y :
  length slices ≤ ndim out →
  converted (np_dtype out) (scalar dv x) x y →
  setitem_slices out slices (scalar dv x)
  = Ok (NpArray (np_dtype out)
          (fromfunction (shape out)
             (λ idx, if decide (in_box (region_starts (shape out) slices)
                                  (region_shape (shape out) slices) idx)
                     then y else np_arr out !!! idx))).
Proof.
  intros Hlen Hconv. unfold setitem_slices. rewrite decide_True by done.
  unfold np_broadcast_to. rewrite decide_True by apply broadcastable_scalar.
  cbn [mbind result_bind].
  set (ext := region_shape _ _). set (starts := region_starts _ _).
  set (b := fromfunction ext _).
  assert (convert (np_dtype out) (NpArray (np_dtype (scalar dv x)) b)
          = Ok (fromfunction ext (λ _, y))) as ->.
  { unfold convert, converted in *. cbn [np_dtype np_arr scalar] in *.
    case_decide.
    - by subst y.
    - rewrite (traverse_ok_fmap _ (λ _, y)).
      + cbn [mbind result_bind]. unfold b, fromfunction. cbn [shape data].
        by rewrite <-list_fmap_compose.
      + intros z (idx & -> & _)%list_elem_of_fmap. unfold cast.
        change (NdArray [] [x] !!! _) with x. by rewrite Hconv. }
  cbn [mbind result_bind]. do 2 f_equal. apply fromfunction_ext.
  intros idx Hidx. case_decide as Hbox; [|done].
  rewrite lookup_total_fromfunction; [done|].
  apply in_box_sub_in_bounds; [apply length_region|done].
Qed.

(** The element of the input that index [idx] of the shifted array
    shows. *)
Definition shift_source offset idx : list nat :=
  zip_with (λ (i : nat) (o : Z), Z.to_nat (Z.of_nat i - o)) idx offset.

(** [idx - offset] is an index of an array of shape [sh]. *)
Definition shift_inside offset sh idx : Prop :=
  Forall2 (λ (i : nat) (o : Z), (o ≤ Z.of_nat i)%Z) idx offset
  ∧ in_bounds sh (shift_source offset idx).

#[global] Instance shift_inside_dec offset sh idx :
  Decision (shift_inside offset sh idx).
Proof. unfold shift_inside. apply _. Defined.

Lemma shift_inside_total offset sh idx :
  length offset = length sh → in_bounds sh idx →
  shift_inside offset sh idx ↔
  ∀ k, k < length sh →
    (offset !!! k ≤ Z.of_nat (idx !!! k) < Z.of_nat (sh !!! k) + offset !!! k)%Z.
Proof.
  intros Hlen [Hilen Hin]%in_bounds_total. unfold shift_inside, shift_source.
  rewrite Forall2_total, in_bounds_total, length_zip_with. split.
  - intros [[_ Hlo] [_ Hhi]] k Hk.
    specialize (Hlo k ltac:(lia)). specialize (Hhi k Hk).
    rewrite lookup_total_zip_with_nat in Hhi by lia. lia.
  - intros Hall. split; (split; [lia|]); intros k Hk;
      specialize (Hall k ltac:(lia)); [lia|].
    rewrite lookup_total_zip_with_nat by lia. lia.
Qed.

(** X11: [shift] with one offset per axis and a scalar fill value that the
    element type of the array stores as [y]: the result has the element type
    and the shape of the array; its element at [idx] is the element of the
    array at [idx - offset] where that is an index of the array, and [y]
    elsewhere.  Nothing of the uninitialised buffer is left in it. *)
Theorem shift_contents (uninit : list elem) array offset dv x y :
  length offset = ndim array →
  converted (np_dtype array) (scalar dv x) x y →
  shift uninit array offset (scalar dv x)
  = Ok (NpArray (np_dtype array)
          (fromfunction (shape_of array)
             (λ idx, if decide (shift_inside offset (shape_of array) idx)
                     then np_arr array !!! shift_source offset idx else y))).
Proof.
  intros Hlen Hconv. unfold shift, ndim in *.
  rewrite bool_decide_true by done. cbn [require mbind result_bind].
  set (sh := shape_of array) in *.
  set (src := zip_with (λ o n, slice_axis (- o) n) offset sh).
  set (dst := zip_with slice_axis offset sh).
  assert (length src = length sh) as Hsrc by (unfold src; len).
  assert (length dst = length sh) as Hdst by (unfold dst; len).
  assert (∀ k, k < length sh →
            src !!! k = slice_axis (- offset !!! k) (sh !!! k)
            ∧ dst !!! k = slice_axis (offset !!! k) (sh !!! k)) as Hk.
  { intros k Hk. unfold src, dst.
    rewrite (lookup_total_zip_with slice_axis) by lia.
    by rewrite (lookup_total_zip_with (λ o n, slice_axis (- o) n)) by lia. }
  assert (region_shape sh src = region_shape sh dst) as Hext.
  { apply list_eq_total; [unfold region_shape; len|]. intros k Hlt.
    assert (k < length sh) as Hksh by (revert Hlt; unfold region_shape; len).
    destruct (region_lookup sh src k) as [_ ->]; [lia|done|].
    destruct (region_lookup sh dst k) as [_ ->]; [lia|done|].
    rewrite !decide_True by lia. destruct (Hk k Hksh) as [-> ->].
    destruct (shift_axis (offset !!! k) (sh !!! k)) as [Heq _]. by rewrite Heq. }
  set (moved := fromfunction (region_shape sh src)
                  (λ idx, np_arr array !!! zip_with Nat.add (region_starts sh src) idx)).
  assert (getitem_slices array src = Ok moved) as ->.
  { unfold getitem_slices, ndim. fold sh. by rewrite decide_True by lia. }
  cbn [mbind result_bind].
  set (new0 := NpArray (np_dtype array) (NdArray sh uninit)).
  set (new1 := NpArray (np_dtype array)
                 (fromfunction sh
                    (λ idx, if decide (in_box (region_starts sh dst)
                                         (region_shape sh dst) idx)
                            then moved !!! zip_with Nat.sub idx (region_starts sh dst)
                            else np_arr new0 !!! idx))).
  assert (setitem_slices new0 dst (NpArray (np_dtype array) moved) = Ok new1) as ->.
  { unfold setitem_slices, ndim. cbn [np_dtype np_arr shape new0].
    rewrite decide_True by lia.
    unfold np_broadcast_to. cbn [np_dtype np_arr shape moved fromfunction].
    rewrite decide_True by (rewrite Hext; apply (broadcastable_suffix [])).
    cbn [mbind result_bind]. rewrite convert_as_is by (by left).
    cbn [mbind result_bind]. unfold new1. do 2 f_equal.
    apply fromfunction_ext. intros idx Hidx. case_decide as Hbox; [|done].
    pose proof (in_box_sub_in_bounds _ _ _ (length_region sh dst) Hbox) as Hin.
    rewrite lookup_total_fromfunction by done.
    rewrite <-Hext in Hin. by rewrite broadcast_index_self. }
  cbn [mbind result_bind].
  set (inside (a : nat) (idx : list nat) :=
         (offset !!! a ≤ Z.of_nat (idx !!! a)
          < Z.of_nat (sh !!! a) + offset !!! a)%Z).
  set (P (k : nat) (b : nparray) :=
         ∃ h, b = NpArray (np_dtype array) (fromfunction sh h)
              ∧ ∀ idx, in_bounds sh idx →
                  ((∀ a, a < k → inside a idx) → h idx = np_arr new1 !!! idx)
                  ∧ (¬ (∀ a, a < k → inside a idx) → h idx = y)).
  match goal with
  | |- foldlM ?f _ _ = _ =>
      pose proof (foldlM_ok_invariant P f new1 (imap pair offset)) as Hloop
  end.
  destruct Hloop as (r & Hr & HP); [| |rewrite Hr; clear Hr].
  - eexists. split; [done|]. intros idx Hidx. split.
    + intros _. cbn [new1 np_arr]. by rewrite lookup_total_fromfunction.
    + intros Hno. destruct Hno. intros a Ha. lia.
  - intros k [k' o'] b1 (o & Ho & [= -> ->])%list_lookup_imap_Some HP.
    destruct HP as (h & -> & Hh).
    pose proof (lookup_lt_Some _ _ _ Ho) as Hklt.
    apply list_lookup_total_correct in Ho.
    set (slices := ((λ n, slice_from 0 n) <$> take k sh) ++ _).
    assert (length slices = S k) as Hslen by (unfold slices; len).
    rewrite (setitem_slices_scalar _ slices dv x y);
      [|unfold ndim; cbn [np_arr shape fromfunction]; lia|done].
    eexists. split; [done|]. cbn [np_dtype np_arr shape fromfunction].
    eexists. split; [done|]. cbv beta. intros idx Hidx.
    pose proof (proj1 (in_bounds_total _ _) Hidx) as [Hilen Hi].
    rewrite lookup_total_fromfunction by done.
    assert (in_box (region_starts sh slices) (region_shape sh slices) idx
            ↔ ¬ inside k idx) as Hbox.
    { rewrite in_box_total by apply length_region.
      assert (length (region_shape sh slices) = length sh) as ->
        by (unfold region_shape; len).
      destruct (shift_axis o (sh !!! k)) as [_ Hax].
      destruct (Hax (idx !!! k) ltac:(apply Hi; lia)) as (_ & Hfill & _).
      assert (slices !!! k = (if decide (0 ≤ o)%Z then (0%Z, o)
                              else slice_from o (sh !!! k))) as Hsk.
      { unfold slices. rewrite lookup_total_app_r by len.
        replace (k - length ((λ n, slice_from 0 n) <$> take k sh)) with 0 by len.
        done. }
      unfold inside. rewrite Ho. rewrite <-Hfill, <-Hsk. split.
      - intros [_ Hall]. specialize (Hall k ltac:(lia)).
        destruct (region_lookup sh slices k) as [Hst Hex]; [lia|lia|].
        rewrite Hst, Hex, !decide_True in Hall by lia. done.
      - intros Hk'. split; [done|]. intros j Hj.
        destruct (region_lookup sh slices j) as [-> ->]; [lia|lia|].
        specialize (Hi j Hj).
        destruct (decide (j < length slices)) as [Hjs|Hjs]; [|lia].
        destruct (decide (j = k)) as [->|Hne]; [done|].
        assert (slices !!! j = slice_from 0 (sh !!! j)) as ->.
        { unfold slices. rewrite lookup_total_app_l by len.
          rewrite (list_lookup_total_fmap (λ n, slice_from 0 n)) by len.
          by rewrite lookup_total_take, decide_True by lia. }
        unfold slice_indices, slice_from. cbn [fst snd].
        repeat case_decide; lia. }
    destruct (Hh idx Hidx) as [Hin Hout]. split.
    + intros Hall. rewrite decide_False by (rewrite Hbox; intros Hk'; apply Hk', Hall; lia).
      apply Hin. intros a Ha. apply Hall. lia.
    + intros Hno. case_decide as Hk'; [done|]. apply Hout. intros Hall. apply Hno.
      intros a Ha. destruct (decide (a = k)) as [->|Hne]; [|apply Hall; lia].
      destruct (decide (inside k idx)) as [|Hnk]; [done|].
      by apply Hbox in Hnk.
  - destruct HP as (h & -> & Hh).
    do 2 f_equal. apply fromfunction_ext. intros idx Hidx.
    destruct (Hh idx Hidx) as [Hin Hout]. rewrite length_imap in Hin, Hout.
    pose proof (shift_inside_total offset sh idx Hlen Hidx) as Htot.
    pose proof (proj1 (in_bounds_total _ _) Hidx) as [Hilen Hi].
    case_decide as Hins.
    + assert (∀ a, a < length offset → inside a idx) as Hall.
      { intros a Ha. apply Htot; [done|lia]. }
      rewrite (Hin Hall). cbn [new1 np_arr].
      rewrite lookup_total_fromfunction by done.
      assert (in_box (region_starts sh dst) (region_shape sh dst) idx) as Hbox.
      { apply in_box_total; [apply length_region|].
        assert (length (region_shape sh dst) = length sh) as ->
          by (unfold region_shape; len).
        split; [done|]. intros j Hj.
        destruct (region_lookup sh dst j) as [-> ->]; [lia|lia|].
        rewrite !decide_True by lia. destruct (Hk j Hj) as [_ ->].
        destruct (shift_axis (offset !!! j) (sh !!! j)) as [_ Hax].
        destruct (Hax (idx !!! j) (Hi j Hj)) as (Hd & _ & _).
        specialize (Hall j ltac:(lia)). apply Hd in Hall. lia. }
      rewrite decide_True by done.
      pose proof (in_box_sub_in_bounds _ _ _ (length_region sh dst) Hbox) as Hsub.
      rewrite <-Hext in Hsub. unfold moved.
      rewrite lookup_total_fromfunction by done. f_equal.
      unfold shift_source. apply list_eq_total.
      { rewrite !length_zip_with. unfold region_starts. len. }
      intros j Hj. rewrite !length_zip_with in Hj.
      assert (j < length sh) as Hjs by lia.
      rewrite !lookup_total_zip_with_nat
        by (rewrite ?length_zip_with; unfold region_starts; len).
      destruct (region_lookup sh dst j) as [-> _]; [lia|lia|].
      destruct (region_lookup sh src j) as [-> _]; [lia|lia|].
      rewrite !decide_True by lia. destruct (Hk j Hjs) as [-> ->].
      destruct (shift_axis (offset !!! j) (sh !!! j)) as [_ Hax].
      destruct (Hax (idx !!! j) (Hi j Hjs)) as (Hd & _ & Hs).
      apply Hs, Hd, Hall. lia.
    + apply Hout. intros Hall. apply Hins, Htot. intros a Ha. apply Hall. lia.
Qed.

End shift_facts.

Lemma shift_contents_witness :
  shift (replicate 12 7) (array2 [[1; 2; 3; 4]; [5; 6; 7; 8]; [9; 10; 11; 12]])
    [-1; -2] (py_int (-1))
  = Ok (NpArray int64
          (fromfunction [3; 4]%nat
             (λ idx, if decide (shift_inside [-1; -2] [3; 4]%nat idx)
                     then [1; 2; 3; 4; 5; 6; 7; 8; 9; 10; 11; 12]
                          !!! ravel [3; 4]%nat (shift_source [-1; -2] idx)
                     else -1))).
Proof.
  apply (@shift_contents int_domain (replicate 12 7)
           (array2 [[1; 2; 3; 4]; [5; 6; 7; 8]; [9; 10; 11; 12]])
           [-1; -2] int64 (-1) (-1)); reflexivity.
Defined.

(** ** [bounding_crop]: what is cut out *)

Section crop_contents.
Local Close Scope Z_scope.
Context `{ElemDomain}.
Implicit Types (a value cropped : nparray) (idx before ext : list nat).

(** X12: [bounding_crop] with margin 0 of an array in which an element
    differs from the reference value as numpy's [!=] compares them, whose
    shape is the shape of the array beyond at least one leading axis: the
    result is a box of the array (the elements of the array from the
    corner [before] on) which holds every element that differs from the
    reference value, and which is its own bounding box. *)
Theorem bounding_crop_contents a value :
  1 ≤ ndim a - ndim value →
  shape value = drop (ndim a - ndim value) (shape a) →
  (∃ idx, in_bounds (shape a) idx ∧ differs a value idx) →
  ∃ before cropped,
    bounding_crop a value (PadScalar 0) = Ok cropped
    ∧ np_dtype cropped = np_dtype a
    ∧ length before = ndim a ∧ ndim cropped = ndim a
    ∧ (∀ k, k < ndim a → before !!! k + shape cropped !!! k ≤ shape a !!! k)
    ∧ (∀ j, in_bounds (shape cropped) j →
         np_arr cropped !!! j = np_arr a !!! zip_with Nat.add before j)
    ∧ (∀ idx, in_bounds (shape a) idx → differs a value idx →
         in_box before (shape cropped) idx)
    ∧ tight cropped value.
Proof.
  intros Hp Hshape (idx0 & Hidx0 & Hdiff0).
  destruct (shape_trailing _ _ Hshape) as [Hvd Happ].
  set (p := ndim a - ndim value) in *.
  destruct (np_not_equal_trailing _ _ Hshape) as (ne & Hne_ok & Hnesh & Hne).
  assert (ndim ne = ndim a) as Hnd by (unfold ndim; by rewrite Hnesh).
  destruct (any_leading ne p ltac:(lia)) as [Hmsh Hmask].
  set (mask := np_any ne _) in *.
  assert (ndim mask = p) as Hmnd.
  { unfold ndim. rewrite Hmsh, Hnesh. len. unfold ndim in *. lia. }
  destruct (bounding_slices_spans mask) as (slices & Hslices & Hspans).
  assert (atleast_1d mask = mask) as Hat.
  { unfold atleast_1d. rewrite decide_False; [done|lia]. }
  rewrite Hat, Hmnd in Hspans.
  assert (∀ k x, k < p →
            occupied mask k x ↔
            ∃ idx, in_bounds (shape a) idx ∧ idx !!! k = x ∧ differs a value idx)
    as Hocc.
  { intros k x Hk. unfold occupied. split.
    - intros (j & Hj & Hjk & Htrue). rewrite Hmsh in Hj.
      apply Hmask in Htrue as (idx & Hidx & <- & Htrue); [|done].
      rewrite Hnesh in Hidx. exists idx. split; [done|].
      rewrite Hne in Htrue by done. apply bool_decide_eq_true_1 in Htrue.
      split; [|done]. rewrite lookup_take_lt in Hjk by done.
      by apply list_lookup_total_correct.
    - intros (idx & Hidx & <- & Hdiff). exists (take p idx).
      pose proof Hidx as [Hilen Hidx']%in_bounds_total.
      unfold ndim in *. split_and!.
      + rewrite Hmsh, Hnesh. apply in_bounds_total. split; [len|].
        intros j Hj. rewrite length_take in Hj.
        rewrite !lookup_total_take_lt by lia. apply Hidx'. lia.
      + rewrite lookup_take_lt by done. apply list_lookup_lookup_total_lt. lia.
      + apply Hmask.
        * rewrite Hnesh. apply in_bounds_total. split; [len|].
          intros j Hj. rewrite length_take in Hj.
          rewrite !lookup_total_take_lt by lia. apply Hidx'. lia.
        * exists idx. rewrite Hnesh, Hne by done.
          split_and!; [done|done|]. by apply bool_decide_eq_true_2. }
  apply Forall2_total in Hspans as [Hsllen Hspans]. rewrite length_seq in *.
  set (before := ((λ k, Z.to_nat (slices !!! k).1) <$> seq 0 p)
                 ++ replicate (ndim value) 0).
  set (ext := ((λ k, Z.to_nat (slices !!! k).2 - Z.to_nat (slices !!! k).1)
               <$> seq 0 p) ++ shape value).
  assert (length before = ndim a) as Hblen by (unfold before; len).
  assert (length ext = ndim a) as Helen by (unfold ext, ndim in *; len).
  assert (∀ k, k < p →
            ∃ lo hi, before !!! k = lo ∧ ext !!! k = hi + 1 - lo
                     ∧ lo ≤ hi < shape a !!! k
                     ∧ occupied mask k lo ∧ occupied mask k hi
                     ∧ ∀ x, occupied mask k x → lo ≤ x ≤ hi) as Hax.
  { intros k Hk. specialize (Hspans k Hk).
    rewrite lookup_total_seq_lt in Hspans by done. cbn [Nat.add] in Hspans.
    destruct Hspans as (n & Hn & Hsp).
    assert (occupied mask k (idx0 !!! k)) as Hocc0.
    { apply Hocc; [done|]. by exists idx0. }
    destruct Hsp as [[_ Hnone]|(lo & hi & Hsl & Hlo & Hhi & Hhn & Hall)].
    { exfalso. eapply Hnone; [|exact Hocc0]. exact (occupied_lt _ _ _ _ Hn Hocc0). }
    exists lo, hi.
    assert (n = shape a !!! k) as ->.
    { rewrite Hmsh, Hnesh, lookup_take_lt in Hn by done.
      symmetry. by apply list_lookup_total_correct. }
    pose proof (Hall _ (occupied_lt _ _ _ _ Hn Hlo) Hlo).
    unfold before, ext. rewrite !lookup_total_app_l by len.
    rewrite (list_lookup_total_fmap (λ k, Z.to_nat (slices !!! k).1)) by len.
    rewrite (list_lookup_total_fmap
               (λ k, Z.to_nat (slices !!! k).2 - Z.to_nat (slices !!! k).1)) by len.
    rewrite lookup_total_seq_lt by done. cbn [Nat.add]. rewrite Hsl. cbn [fst snd].
    split_and!; [lia|lia|lia|done|done|done|].
    intros x Hx. apply Hall; [|done]. exact (occupied_lt _ _ _ _ Hn Hx). }
  assert (∀ k, p ≤ k < ndim a →
            before !!! k = 0 ∧ ext !!! k = shape a !!! k) as Htail.
  { intros k Hk. unfold before, ext. rewrite !lookup_total_app_r by len.
    rewrite !length_fmap, !length_seq.
    rewrite lookup_total_replicate_2 by (unfold p in *; lia).
    split; [done|]. rewrite Hshape, lookup_total_drop. f_equal. lia. }
  assert (∀ k, k < ndim a → before !!! k + ext !!! k ≤ shape a !!! k) as Hfit.
  { intros k Hk. destruct (decide (k < p)) as [Hkp|Hkp].
    - destruct (Hax k Hkp) as (lo & hi & -> & -> & ? & _). lia.
    - destruct (Htail k ltac:(lia)) as [-> ->]. lia. }
  assert (∀ idx, in_bounds (shape a) idx → differs a value idx →
            in_box before ext idx) as Hbox.
  { intros idx Hidx Hdiff. apply in_box_total; [lia|].
    pose proof Hidx as [Hilen Hidx']%in_bounds_total.
    split; [unfold ndim in *; lia|]. intros k Hk. rewrite Helen in Hk.
    destruct (decide (k < p)) as [Hkp|Hkp].
    - destruct (Hax k Hkp) as (lo & hi & -> & -> & ? & _ & _ & Hall).
      assert (lo ≤ idx !!! k ≤ hi); [|lia].
      apply Hall, Hocc; [done|]. by exists idx.
    - destruct (Htail k ltac:(lia)) as [-> ->].
      specialize (Hidx' k ltac:(unfold ndim in *; lia)). lia. }
  set (cropped := NpArray (np_dtype a)
                    (fromfunction ext (λ idx, np_arr a !!! zip_with Nat.add before idx))).
  assert (∀ k, k < p →
            ∃ lo hi, in_bounds (shape a) lo ∧ in_bounds (shape a) hi
                     ∧ lo !!! k = before !!! k
                     ∧ S (hi !!! k) = before !!! k + ext !!! k
                     ∧ differs a value lo ∧ differs a value hi) as Hfaces.
  { intros k Hk.
    destruct (Hax k Hk) as (lo & hi & -> & -> & ? & Hlo & Hhi & _).
    apply Hocc in Hlo as (ilo & ? & ? & ?); [|done].
    apply Hocc in Hhi as (ihi & ? & ? & ?); [|done].
    exists ilo, ihi. split_and!; [done|done|done|lia|done|done]. }
  exists before, cropped.
  assert (bounding_crop a value (PadScalar 0) = Ok cropped) as Hcrop.
  { rewrite (bounding_crop_box a value (PadScalar 0) before ext);
      [|done|done|done|done|done|done|done|done].
    fold cropped. apply pad_array_zero_ok.
    - apply wf_fromfunction.
    - done.
    - done.
    - unfold ndim in *. simpl. lia.
    - simpl. rewrite length_replicate. unfold ndim. simpl. lia.
    - simpl. rewrite length_replicate. unfold ndim at 1. simpl.
      rewrite Helen. fold p. unfold ext.
      rewrite drop_app_length'; [done|len]. }
  split_and!; [done|done|done|by unfold ndim in *| | | |].
  - intros k Hk. simpl. by apply Hfit.
  - intros j Hj. simpl in *. by rewrite lookup_total_fromfunction.
  - intros idx Hidx Hdiff. simpl. by apply Hbox.
  - intros k Hk.
    assert (ndim cropped = ndim a) as Hcnd by (unfold ndim in *; simpl; lia).
    rewrite Hcnd in Hk. fold p in Hk.
    destruct (Hfaces k Hk) as (lo & hi & Hlo & Hhi & Hlok & Hhik & Hdlo & Hdhi).
    assert (∀ idx, in_bounds (shape a) idx → differs a value idx →
              in_bounds ext (zip_with Nat.sub idx before)
              ∧ differs cropped value (zip_with Nat.sub idx before)) as Hmove.
    { intros idx Hidx Hdiff. pose proof (Hbox idx Hidx Hdiff) as Hib.
      pose proof (in_box_sub_in_bounds before ext idx ltac:(lia) Hib) as Hsub.
      split; [done|]. unfold differs in *. rewrite Hcnd. fold p.
      simpl. rewrite lookup_total_fromfunction by done.
      pose proof Hidx as [Hilen Hidx']%in_bounds_total.
      apply in_box_total in Hib as [_ Hib]; [|lia].
      assert (zip_with Nat.add before (zip_with Nat.sub idx before) = idx) as ->.
      { apply list_eq_total; [len; unfold ndim in *; lia|]. intros i Hi.
        len in Hi. rewrite !lookup_total_zip_with_nat by len.
        specialize (Hib i ltac:(unfold ndim in *; lia)). lia. }
      assert (drop p (zip_with Nat.sub idx before) = drop p idx) as ->; [|done].
      apply list_eq_total; [len; unfold ndim in *; lia|]. intros i Hi. len in Hi.
      rewrite !lookup_total_drop, lookup_total_zip_with_nat
        by (unfold ndim in *; lia).
      destruct (Htail (p + i)) as [-> _]; [unfold ndim in *; lia|lia]. }
    destruct (Hmove lo Hlo Hdlo) as [Hlo_in Hlo_d].
    destruct (Hmove hi Hhi Hdhi) as [Hhi_in Hhi_d].
    pose proof Hlo as [Hlolen _]%in_bounds_total.
    pose proof Hhi as [Hhilen _]%in_bounds_total.
    assert (k < ndim a) by (unfold p in *; lia).
    exists (zip_with Nat.sub lo before), (zip_with Nat.sub hi before).
    simpl. split_and!; [done|done| | |done|done].
    + rewrite lookup_total_zip_with_nat by (unfold ndim in *; lia). lia.
    + rewrite lookup_total_zip_with_nat by (unfold ndim in *; lia).
      pose proof (Hbox hi Hhi Hdhi) as [_ Hb]%in_box_total; [|lia].
      specialize (Hb k ltac:(lia)). lia.
Qed.

End crop_contents.

Lemma bounding_crop_contents_witness :
  ∃ before cropped,
    bounding_crop (array1 [0; 0; 1; 0]) (py_int 0) (PadScalar 0) = Ok cropped
    ∧ np_dtype cropped = int64
    ∧ length before = 1%nat ∧ ndim cropped = 1%nat
    ∧ (∀ k, (k < 1)%nat →
         (before !!! k + shape_of cropped !!! k ≤ [4%nat] !!! k)%nat)
    ∧ (∀ j, in_bounds (shape_of cropped) j →
         np_arr cropped !!! j
         = np_arr (array1 [0; 0; 1; 0]) !!! zip_with Nat.add before j)
    ∧ (∀ idx, in_bounds [4%nat] idx →
         differs (array1 [0; 0; 1; 0]) (py_int 0) idx →
         in_box before (shape_of cropped) idx)
    ∧ tight cropped (py_int 0).
Proof.
  apply (@bounding_crop_contents int_domain (array1 [0; 0; 1; 0]) (py_int 0)).
  - unfold ndim. cbn. lia.
  - reflexivity.
  - exists [2%nat]. split; [repeat constructor|by compute].
Defined.

(** ** Subsequence search *)

Section boyer_facts.
Local Close Scope Z_scope.
Implicit Types (seq subseq : list Z) (tbl : list nat).

(** [subseq] lies in [seq] from position [i] on. *)
Definition occurs_at seq subseq (i : nat) : Prop :=
  take (length subseq) (drop i seq) = subseq.

(** What the search returns: [-1] when [subseq] lies nowhere in [seq], and
    the first position where it lies otherwise. *)
Definition first_occurrence seq subseq (r : Z) : Prop :=
  (r = (-1)%Z ∧ ∀ i, ¬ occurs_at seq subseq i)
  ∨ ((0 ≤ r)%Z ∧ occurs_at seq subseq (Z.to_nat r)
     ∧ ∀ i, i < Z.to_nat r → ¬ occurs_at seq subseq i).

Lemma occurs_at_total seq subseq i :
  subseq ≠ [] →
  occurs_at seq subseq i ↔
  i + length subseq ≤ length seq
  ∧ ∀ j, j < length subseq → seq !!! (i + j) = subseq !!! j.
Proof.
  intros Hne. assert (0 < length subseq) by (destruct subseq; [done|simpl; lia]).
  unfold occurs_at. split.
  - intros Hocc. pose proof (f_equal length Hocc) as Hlen.
    rewrite length_take, length_drop in Hlen. split; [lia|]. intros j Hj.
    transitivity (take (length subseq) (drop i seq) !!! j); [|by rewrite Hocc].
    by rewrite lookup_total_take, decide_True, lookup_total_drop by done.
  - intros [Hlen Hall]. apply list_eq_total; [len|]. intros j Hj.
    rewrite length_take, length_drop in Hj.
    rewrite lookup_total_take, decide_True, lookup_total_drop by lia.
    apply Hall. lia.
Qed.

Lemma matches_back_spec seq subseq i j :
  matches_back seq subseq i j = true
  ↔ ∀ j', j' ≤ j → seq !!! (i + j') = subseq !!! j'.
Proof.
  induction j as [|j IH]; simpl; case_decide as Hj.
  - split; [done|]. intros Hall. destruct Hj. by apply Hall.
  - split; [|done]. intros _ j' Hj'. replace j' with 0 by lia.
    by destruct (decide (seq !!! (i + 0) = subseq !!! 0)).
  - split; [done|]. intros Hall. destruct Hj. by apply Hall.
  - rewrite IH. split.
    + intros Hall j' Hj'. destruct (decide (j' = S j)) as [->|Hne].
      * by destruct (decide (seq !!! (i + S j) = subseq !!! S j)).
      * apply Hall. lia.
    + intros Hall j' Hj'. apply Hall. lia.
Qed.

(** The skip table: every entry is a skip between one and [m], and smaller
    skips would align a different element of [subseq] with the element
    that was compared first. *)
Definition skip_table_ok subseq tbl : Prop :=
  length tbl = Z.to_nat (np_max subseq + 1)
  ∧ ∀ v, v < length tbl →
      1 ≤ tbl !!! v ≤ length subseq
      ∧ ∀ i, i < length subseq - 1 → length subseq - 1 - i < tbl !!! v →
          subseq !!! i ≠ Z.of_nat v.

Lemma skip_table_of_spec subseq :
  subseq ≠ [] → Forall (λ v, 0 ≤ v)%Z subseq →
  ∃ tbl, skip_table_of subseq = Ok tbl ∧ skip_table_ok subseq tbl.
Proof.
  intros Hne Hpos. unfold skip_table_of.
  assert (∀ v, v ∈ subseq → (0 ≤ v ≤ np_max subseq)%Z) as Hrange.
  { intros v Hv. split; [|by apply np_max_ge].
    by apply (proj1 (Forall_forall _ _) Hpos). }
  destruct subseq as [|x0 l0] eqn:Hs; [done|]. rewrite <-Hs in *.
  assert (0 ≤ np_max subseq)%Z.
  { pose proof (Hrange x0 ltac:(rewrite Hs; left)). lia. }
  rewrite decide_False by lia.
  set (m := length subseq). set (L := Z.to_nat (np_max subseq + 1)).
  set (P (k : nat) (tbl : list nat) :=
         length tbl = L
         ∧ ∀ v, v < L →
             1 ≤ tbl !!! v ≤ m
             ∧ ∀ i, i < k → m - 1 - i < tbl !!! v → subseq !!! i ≠ Z.of_nat v).
  assert (0 < m) as Hm by (unfold m; rewrite Hs; simpl; lia).
  match goal with
  | |- ∃ _, foldlM ?f ?b ?l = _ ∧ _ =>
      pose proof (foldlM_ok_invariant P f b l) as Hloop
  end.
  destruct Hloop as (tbl & Htbl & HP).
  - split; [by rewrite length_replicate|]. intros v Hv.
    rewrite lookup_total_replicate_2 by done. split; [lia|]. intros i Hi. lia.
  - intros k [k' value'] tbl (value & Hk & [= -> ->])%list_lookup_imap_Some HP.
    destruct HP as [Hlen Htbl].
    apply lookup_take_Some in Hk as [Hk Hkm].
    pose proof (Hrange value ltac:(by eapply list_elem_of_lookup_2)) as Hv.
    unfold normalize_index. rewrite decide_True by lia.
    cbn [mbind result_bind]. eexists. split; [done|]. split.
    + by rewrite length_insert.
    + intros v Hv'. destruct (decide (v = Z.to_nat value)) as [->|Hvne].
      * rewrite list_lookup_total_insert_eq by lia. split; [lia|].
        intros i Hi Hlt. lia.
      * rewrite list_lookup_total_insert_ne by done.
        destruct (Htbl v Hv') as [Hbound Hskip]. split; [done|].
        intros i Hi Hlt. destruct (decide (i = k)) as [->|Hik].
        -- apply list_lookup_total_correct in Hk. rewrite Hk. lia.
        -- apply Hskip; [lia|done].
  - exists tbl. split; [done|]. destruct HP as [Hlen HP].
    split; [done|]. intros v Hv. rewrite Hlen in Hv.
    destruct (HP v Hv) as [Hbound Hskip]. split; [done|].
    intros i Hi. apply Hskip. rewrite length_imap, length_take. lia.
Qed.

(** The skip after a mismatch at position [i], where [e_last] was the
    element of [seq] under the last element of [subseq]. *)
Definition skip_of subseq tbl (e_last : Z) : nat :=
  if decide (0 ≤ e_last < Z.of_nat (length tbl))%Z
  then tbl !!! Z.to_nat e_last else length subseq.

Lemma skip_of_safe subseq tbl e_last :
  subseq ≠ [] → Forall (λ v, 0 ≤ v)%Z subseq → skip_table_ok subseq tbl →
  1 ≤ skip_of subseq tbl e_last ≤ length subseq
  ∧ ∀ t, 0 < t < skip_of subseq tbl e_last →
      subseq !!! (length subseq - 1 - t) ≠ e_last.
Proof.
  intros Hne Hpos [Hlen Htbl]. unfold skip_of. case_decide as He.
  - destruct (Htbl (Z.to_nat e_last) ltac:(lia)) as [Hbound Hskip].
    split; [done|]. intros t Ht Heq.
    apply (Hskip (length subseq - 1 - t)); [lia|lia|]. rewrite Heq. lia.
  - split.
    { destruct subseq; [done|simpl; lia]. }
    intros t Ht Heq.
    assert (e_last ∈ subseq) as Hin.
    { rewrite <-Heq. apply list_elem_of_lookup_total_2. lia. }
    pose proof (np_max_ge _ _ Hin).
    pose proof (proj1 (Forall_forall _ _) Hpos _ Hin). simpl in *. lia.
Qed.

Lemma find_from_spec fuel seq subseq tbl i :
  subseq ≠ [] → Forall (λ v, 0 ≤ v)%Z subseq → skip_table_ok subseq tbl →
  length seq < fuel + i →
  (∀ i', i' < i → ¬ occurs_at seq subseq i') →
  ∃ r, find_from fuel seq subseq tbl i = Some r ∧ first_occurrence seq subseq r.
Proof.
  intros Hne Hpos Htbl.
  assert (0 < length subseq) as Hm by (destruct subseq; [done|simpl; lia]).
  revert i. induction fuel as [|fuel IH]; intros i Hfuel Hbefore; simpl.
  - rewrite decide_False by lia. exists (-1)%Z. split; [done|]. left.
    split; [done|]. intros i' Hocc.
    pose proof (proj1 (occurs_at_total _ _ _ Hne) Hocc) as [Hi' _].
    apply (Hbefore i'); [lia|done].
  - case_decide as Hfit.
    + destruct (matches_back seq subseq i (length subseq - 1)) eqn:Hmatch.
      * exists (Z.of_nat i). split; [done|]. right. rewrite Nat2Z.id.
        split; [lia|]. split; [|done]. apply occurs_at_total; [done|].
        split; [done|]. intros j Hj.
        apply (proj1 (matches_back_spec _ _ _ _) Hmatch). lia.
      * fold (skip_of subseq tbl (seq !!! (i + (length subseq - 1)))).
        destruct (skip_of_safe subseq tbl (seq !!! (i + (length subseq - 1)))
                    Hne Hpos Htbl) as [Hskip Hsafe].
        apply IH; [lia|]. intros i' Hi' Hocc.
        destruct (decide (i' < i)) as [Hlt|Hge]; [by apply (Hbefore i')|].
        apply occurs_at_total in Hocc as [Hlen Hocc]; [|done].
        destruct (decide (i' = i)) as [->|Hne'].
        -- assert (matches_back seq subseq i (length subseq - 1) = true)
             as Htrue; [|congruence].
           apply matches_back_spec. intros j Hj. apply Hocc. lia.
        -- apply (Hsafe (i' - i)); [lia|].
           rewrite <-Hocc by lia. f_equal. lia.
    + exists (-1)%Z. split; [done|]. left. split; [done|].
      intros i' Hocc. destruct (decide (i' < i)) as [Hlt|Hge].
      * by apply (Hbefore i').
      * apply occurs_at_total in Hocc as [Hlen _]; [|done]. lia.
Qed.

(** X13: for a pattern that is not empty and holds no negative number, and
    with fuel for more rounds than [seq] has elements,
    [boyer_subsequence_find] returns the first position at which [subseq]
    lies in [seq], and [-1] when it lies nowhere; [seq] may hold any
    integers. *)
Theorem boyer_subsequence_find_first fuel seq subseq :
  subseq ≠ [] → Forall (λ v, 0 ≤ v)%Z subseq → length seq < fuel →
  ∃ r, boyer_subsequence_find fuel seq subseq = Some (Ok r)
       ∧ first_occurrence seq subseq r.
Proof.
  intros Hne Hpos Hfuel. unfold boyer_subsequence_find.
  destruct (skip_table_of_spec subseq Hne Hpos) as (tbl & -> & Htbl).
  destruct (find_from_spec fuel seq subseq tbl 0 Hne Hpos Htbl) as (r & -> & Hr);
    [lia|intros i' Hi'; lia|].
  by exists r.
Qed.

(** An empty pattern is refused with the [ValueError] of the maximum of an
    empty array, whatever the sequence. *)
Lemma boyer_subsequence_find_empty_pattern fuel seq :
  ∃ msg, boyer_subsequence_find fuel seq [] = Some (Raise (ValueError msg)).
Proof. by eexists. Qed.

End boyer_facts.

Lemma boyer_subsequence_find_first_witness :
  ∃ r, boyer_subsequence_find 5 [1; 1; 2; 1] [1; 2] = Some (Ok r)
       ∧ first_occurrence [1; 1; 2; 1] [1; 2] r.
Proof.
  apply (boyer_subsequence_find_first 5 [1; 1; 2; 1] [1; 2]);
    [done|repeat constructor; lia|simpl; lia].
Defined.

(** ** Union-find *)

Section union_find_facts.
Local Close Scope Z_scope.
Context {T : Type} `{Countable T}.
Implicit Types (rep : gmap T T) (a b c p r s : T).

(** [r] ends the chain of parents that starts at [a]: it has no entry, or
    is its own parent. *)
Inductive root rep : T → T → Prop :=
  | root_self a : rep !! a = None ∨ rep !! a = Some a → root rep a a
  | root_step a p r : rep !! a = Some p → p ≠ a → root rep p r → root rep a r.

Lemma root_end rep a r : root rep a r → rep !! r = None ∨ rep !! r = Some r.
Proof. induction 1; done. Qed.

Lemma root_root rep a r : root rep a r → root rep r r.
Proof. intros Hr. apply root_self. by eapply root_end. Qed.

Lemma root_unique rep a r s : root rep a r → root rep a s → r = s.
Proof.
  intros Hr. revert s. induction Hr as [a Ha|a p r Ha Hp Hr IH]; intros s Hs.
  - destruct Hs as [|a q s Hq Hne Hs]; [done|]. destruct Ha; congruence.
  - destruct Hs as [a Hs|a q s Hq Hne Hs].
    + destruct Hs; congruence.
    + apply IH. congruence.
Qed.

(** Making an element point at its root changes the root of no element:
    path compression, and the entry that [setdefault] adds. *)
Lemma root_redirect rep p r b s :
  root rep p r → root (<[p := r]> rep) b s ↔ root rep b s.
Proof.
  intros Hp. pose proof (root_end _ _ _ Hp) as Hr. split.
  - induction 1 as [b Hb|b q s Hb Hq Hs IH].
    + destruct (decide (b = p)) as [->|Hne].
      * rewrite lookup_insert_eq in Hb. destruct Hb as [|[= ->]]; done.
      * rewrite lookup_insert_ne in Hb by done. by apply root_self.
    + destruct (decide (b = p)) as [->|Hne].
      * rewrite lookup_insert_eq in Hb. injection Hb as ->.
        by rewrite <-(root_unique _ _ _ _ (root_root _ _ _ Hp) IH).
      * rewrite lookup_insert_ne in Hb by done. by eapply root_step.
  - induction 1 as [b Hb|b q s Hb Hq Hs IH].
    + destruct (decide (b = p)) as [->|Hne].
      * rewrite <-(root_unique _ _ _ _ (root_self _ _ Hb) Hp).
        apply root_self. rewrite lookup_insert_eq. by right.
      * apply root_self. by rewrite lookup_insert_ne.
    + destruct (decide (b = p)) as [->|Hne].
      * assert (s = r) as -> by (eapply root_unique; [by eapply root_step|done]).
        assert (r ≠ p) as Hrp by (intros ->; destruct Hr; congruence).
        apply (root_step _ _ r); [by rewrite lookup_insert_eq|done|].
        apply root_self. by rewrite lookup_insert_ne.
      * apply (root_step _ _ q); [by rewrite lookup_insert_ne|done|done].
Qed.

(** Linking the root [rb] to the root [ra] moves the elements of the class
    of [rb] into the class of [ra], and leaves the other classes. *)
Lemma root_link rep ra rb c s :
  root rep ra ra → root rep rb rb →
  root (<[rb := ra]> rep) c s
  ↔ ∃ s0, root rep c s0 ∧ s = (if decide (s0 = rb) then ra else s0).
Proof.
  intros Hra Hrb.
  pose proof (root_end _ _ _ Hra) as Hra'. pose proof (root_end _ _ _ Hrb) as Hrb'.
  split.
  - induction 1 as [c Hc|c q s Hc Hq Hs IH].
    + destruct (decide (c = rb)) as [->|Hne].
      * rewrite lookup_insert_eq in Hc. destruct Hc as [|[= ->]]; [done|].
        exists rb. split; [done|]. by rewrite decide_True.
      * rewrite lookup_insert_ne in Hc by done. exists c.
        split; [by apply root_self|]. by rewrite decide_False.
    + destruct IH as (s0 & Hs0 & ->). destruct (decide (c = rb)) as [->|Hne].
      * rewrite lookup_insert_eq in Hc. injection Hc as ->.
        rewrite <-(root_unique _ _ _ _ Hra Hs0). exists rb.
        split; [done|]. by repeat case_decide.
      * rewrite lookup_insert_ne in Hc by done. exists s0.
        split; [by eapply root_step|done].
  - intros (s0 & Hs0 & ->).
    induction Hs0 as [c Hc|c q s0 Hc Hq Hs0 IH].
    + destruct (decide (c = rb)) as [->|Hne].
      * destruct (decide (ra = rb)) as [->|Hab].
        -- apply root_self. rewrite lookup_insert_eq. by right.
        -- apply (root_step _ _ ra); [by rewrite lookup_insert_eq|done|].
           apply root_self. by rewrite lookup_insert_ne.
      * apply root_self. by rewrite lookup_insert_ne.
    + assert (c ≠ rb) as Hne by (intros ->; destruct Hrb'; congruence).
      apply (root_step _ _ q); [by rewrite lookup_insert_ne|done|done].
Qed.

(** The loop of [find] walks to the root, and notes the elements it
    passes. *)
Lemma find_loop_spec rep a r :
  root rep a r →
  ∃ n rep1 passed,
    (∀ fuel parents, n ≤ fuel →
       UnionFind.find_loop fuel rep a parents = Some (rep1, r, parents ++ passed))
    ∧ (∀ b s, root rep1 b s ↔ root rep b s)
    ∧ Forall (λ p, root rep p r) passed.
Proof.
  induction 1 as [a Ha|a p r Ha Hp Hr (n & rep1 & passed & IH & Hrep1 & Hpassed)].
  - destruct Ha as [Ha|Ha].
    + exists 1, (<[a := a]> rep), []. split_and!; [| |done].
      * intros [|fuel] parents Hfuel; [lia|]. simpl.
        unfold UnionFind.setdefault. rewrite Ha, decide_True by done.
        by rewrite app_nil_r.
      * intros b s. apply root_redirect. apply root_self. by left.
    + exists 1, rep, []. split_and!; [|done|done].
      intros [|fuel] parents Hfuel; [lia|]. simpl.
      unfold UnionFind.setdefault. rewrite Ha, decide_True by done.
      by rewrite app_nil_r.
  - exists (S n), rep1, (a :: passed). split_and!; [|done|].
    + intros [|fuel] parents Hfuel; [lia|]. simpl.
      unfold UnionFind.setdefault. rewrite Ha, decide_False by done.
      rewrite IH by lia. by rewrite <-app_assoc.
    + constructor; [by eapply root_step|done].
Qed.

Lemma compress_spec rep r passed :
  Forall (λ p, root rep p r) passed →
  ∀ b s, root (foldl (λ rep p, <[p := r]> rep) rep passed) b s ↔ root rep b s.
Proof.
  revert rep. induction passed as [|p passed IH]; intros rep Hall b s; [done|].
  apply Forall_cons in Hall as [Hp Hall]. simpl. rewrite IH.
  - by apply root_redirect.
  - eapply Forall_impl; [exact Hall|]. intros q Hq. by apply root_redirect.
Qed.

Lemma find_spec rep a r :
  root rep a r →
  ∃ n rep',
    (∀ fuel, n ≤ fuel → UnionFind.find fuel rep a = Some (rep', r))
    ∧ ∀ b s, root rep' b s ↔ root rep b s.
Proof.
  intros Hr.
  destruct (find_loop_spec rep a r Hr) as (n & rep1 & passed & Hloop & Hrep1 & Hpassed).
  destruct (rep !! a) as [p|] eqn:Ha.
  - exists n, (foldl (λ rep p, <[p := r]> rep) rep1 passed). split.
    + intros fuel Hfuel. unfold UnionFind.find. rewrite Ha.
      by rewrite (Hloop fuel [] Hfuel).
    + intros b s. rewrite compress_spec; [done|].
      eapply Forall_impl; [exact Hpassed|]. intros q Hq. by apply Hrep1.
  - exists 0, rep. split; [|done]. intros fuel _. unfold UnionFind.find.
    rewrite Ha. do 2 f_equal.
    eapply root_unique; [|done]. apply root_self. by left.
Qed.

Lemma union_spec rep a b ra rb :
  root rep a ra → root rep b rb →
  ∃ n rep',
    (∀ fuel, n ≤ fuel → UnionFind.union fuel rep a b = Some rep')
    ∧ ∀ c s, root rep' c s
             ↔ ∃ s0, root rep c s0 ∧ s = (if decide (s0 = rb) then ra else s0).
Proof.
  intros Ha Hb.
  destruct (find_spec rep a ra Ha) as (n1 & rep1 & Hfind1 & Hrep1).
  destruct (find_spec rep1 b rb) as (n2 & rep2 & Hfind2 & Hrep2);
    [by apply Hrep1|].
  exists (n1 `max` n2), (<[rb := ra]> rep2). split.
  - intros fuel Hfuel. unfold UnionFind.union.
    rewrite Hfind1 by lia. simpl. by rewrite Hfind2 by lia.
  - intros c s. rewrite root_link.
    + split; intros (s0 & Hs0 & ->); exists s0; (split; [|done]).
      * by apply Hrep1, Hrep2.
      * by apply Hrep2, Hrep1.
    + apply Hrep2, Hrep1. by eapply root_root.
    + apply Hrep2, Hrep1. by eapply root_root.
Qed.

Lemma same_spec rep a b ra rb :
  root rep a ra → root rep b rb →
  ∃ n rep',
    (∀ fuel, n ≤ fuel →
       UnionFind.same fuel rep a b = Some (rep', bool_decide (ra = rb)))
    ∧ ∀ c s, root rep' c s ↔ root rep c s.
Proof.
  intros Ha Hb.
  destruct (find_spec rep a ra Ha) as (n1 & rep1 & Hfind1 & Hrep1).
  destruct (find_spec rep1 b rb) as (n2 & rep2 & Hfind2 & Hrep2);
    [by apply Hrep1|].
  exists (n1 `max` n2), rep2. split.
  - intros fuel Hfuel. unfold UnionFind.same.
    rewrite Hfind1 by lia. simpl. by rewrite Hfind2 by lia.
  - intros c s. by rewrite Hrep2, Hrep1.
Qed.

(** More fuel does not change what a call returns. *)
Lemma find_loop_mono fuel fuel' rep a parents x :
  UnionFind.find_loop fuel rep a parents = Some x → fuel ≤ fuel' →
  UnionFind.find_loop fuel' rep a parents = Some x.
Proof.
  revert fuel' rep a parents.
  induction fuel as [|fuel IH]; intros fuel' rep a parents Hx Hle; [done|].
  destruct fuel' as [|fuel']; [lia|]. simpl in *.
  destruct (UnionFind.setdefault rep a) as [rep1 parent].
  case_decide; [done|]. apply IH; [done|lia].
Qed.

Lemma find_mono fuel fuel' rep a x :
  UnionFind.find fuel rep a = Some x → fuel ≤ fuel' →
  UnionFind.find fuel' rep a = Some x.
Proof.
  unfold UnionFind.find. destruct (rep !! a); [|done].
  destruct (UnionFind.find_loop fuel rep a []) as [y|] eqn:Hy; [|done].
  intros Hx Hle. by rewrite (find_loop_mono _ _ _ _ _ _ Hy Hle).
Qed.

(** Every chain of parents ends. *)
Definition acyclic rep : Prop := ∀ a, ∃ r, root rep a r.

Lemma find_inv fuel rep a rep' r :
  acyclic rep → UnionFind.find fuel rep a = Some (rep', r) →
  root rep a r ∧ ∀ b s, root rep' b s ↔ root rep b s.
Proof.
  intros Hrep Hfind. destruct (Hrep a) as [r0 Hr0].
  destruct (find_spec rep a r0 Hr0) as (n & rep0 & Hfind0 & Hrep0).
  pose proof (find_mono _ (fuel `max` n) _ _ _ Hfind ltac:(lia)) as Hmax.
  rewrite Hfind0 in Hmax by lia. by injection Hmax as <- <-.
Qed.

Lemma acyclic_roots rep rep' :
  (∀ b s, root rep' b s ↔ root rep b s) → acyclic rep → acyclic rep'.
Proof. intros Hiff Hrep a. destruct (Hrep a) as [r Hr]. exists r. by apply Hiff. Qed.

(** X14: where the chain of parents of [a] ends at [r], [find] returns [r],
    given fuel for the length of the chain; the dictionary it leaves gives
    every element the representative it had. *)
Theorem union_find_find_root rep a r :
  root rep a r →
  ∃ n rep',
    (∀ fuel, n ≤ fuel → UnionFind.find fuel rep a = Some (rep', r))
    ∧ ∀ b s, root rep' b s ↔ root rep b s.
Proof. apply find_spec. Qed.

(** X15: [union(a, b)] gives the elements of the class of [b] the
    representative of [a], and leaves every other element its
    representative. *)
Theorem union_find_union_merges rep a b ra rb :
  root rep a ra → root rep b rb →
  ∃ n rep',
    (∀ fuel, n ≤ fuel → UnionFind.union fuel rep a b = Some rep')
    ∧ ∀ c s, root rep' c s
             ↔ ∃ s0, root rep c s0 ∧ s = (if decide (s0 = rb) then ra else s0).
Proof. apply union_spec. Qed.

(** X16: [same(a, b)] tells whether [a] and [b] have one representative,
    and leaves every element its representative. *)
Theorem union_find_same_decides rep a b ra rb :
  root rep a ra → root rep b rb →
  ∃ n rep',
    (∀ fuel, n ≤ fuel →
       UnionFind.same fuel rep a b = Some (rep', bool_decide (ra = rb)))
    ∧ ∀ c s, root rep' c s ↔ root rep c s.
Proof. apply same_spec. Qed.

(** X17: after [union(a, b)], [same(a, b)] holds. *)
Theorem union_find_union_then_same rep a b ra rb :
  root rep a ra → root rep b rb →
  ∃ n rep1 rep2,
    ∀ fuel, n ≤ fuel →
      UnionFind.union fuel rep a b = Some rep1
      ∧ UnionFind.same fuel rep1 a b = Some (rep2, true).
Proof.
  intros Ha Hb.
  destruct (union_spec rep a b ra rb Ha Hb) as (n1 & rep1 & Hunion & Hrep1).
  assert (root rep1 a ra) as Ha1.
  { apply Hrep1. exists ra. split; [done|]. by case_decide. }
  assert (root rep1 b ra) as Hb1.
  { apply Hrep1. exists rb. split; [done|]. by rewrite decide_True. }
  destruct (same_spec rep1 a b ra ra Ha1 Hb1) as (n2 & rep2 & Hsame & _).
  exists (n1 `max` n2), rep1, rep2. intros fuel Hfuel.
  rewrite Hunion, Hsame by lia. by rewrite bool_decide_true.
Qed.

(** A call that returns keeps the chains finite, whatever its fuel. *)
Lemma find_keeps fuel rep a rep' r :
  acyclic rep → UnionFind.find fuel rep a = Some (rep', r) → acyclic rep'.
Proof.
  intros Hrep Hfind. destruct (find_inv _ _ _ _ _ Hrep Hfind) as [_ Hiff].
  by eapply acyclic_roots.
Qed.

Lemma union_keeps fuel rep a b rep' :
  acyclic rep → UnionFind.union fuel rep a b = Some rep' → acyclic rep'.
Proof.
  intros Hrep. unfold UnionFind.union.
  destruct (UnionFind.find fuel rep a) as [[rep1 ra]|] eqn:Hfind1; [|done].
  simpl.
  destruct (UnionFind.find fuel rep1 b) as [[rep2 rb]|] eqn:Hfind2; [|done].
  simpl. intros [= <-].
  destruct (find_inv _ _ _ _ _ Hrep Hfind1) as [Ha Hrep1].
  pose proof (acyclic_roots _ _ Hrep1 Hrep) as Hacyc1.
  destruct (find_inv _ _ _ _ _ Hacyc1 Hfind2) as [Hb Hrep2].
  pose proof (acyclic_roots _ _ Hrep2 Hacyc1) as Hacyc2.
  intros c. destruct (Hacyc2 c) as [s0 Hs0]. eexists.
  apply root_link; [| |by exists s0].
  - apply Hrep2, Hrep1. by eapply root_root.
  - apply Hrep2. by eapply root_root.
Qed.

Lemma same_keeps fuel rep a b rep' t :
  acyclic rep → UnionFind.same fuel rep a b = Some (rep', t) → acyclic rep'.
Proof.
  intros Hrep. unfold UnionFind.same.
  destruct (UnionFind.find fuel rep a) as [[rep1 ra]|] eqn:Hfind1; [|done].
  simpl.
  destruct (UnionFind.find fuel rep1 b) as [[rep2 rb]|] eqn:Hfind2; [|done].
  simpl. intros [= <- _].
  destruct (find_inv _ _ _ _ _ Hrep Hfind1) as [Ha Hrep1].
  pose proof (acyclic_roots _ _ Hrep1 Hrep) as Hacyc1.
  destruct (find_inv _ _ _ _ _ Hacyc1 Hfind2) as [Hb Hrep2].
  by eapply acyclic_roots.
Qed.

(** The dictionaries that calls of the three methods lead to from the
    empty one of [__init__]. *)
Inductive reachable : gmap T T → Prop :=
  | reachable_init : reachable ∅
  | reachable_find fuel rep a rep' r :
      reachable rep → UnionFind.find fuel rep a = Some (rep', r) → reachable rep'
  | reachable_union fuel rep a b rep' :
      reachable rep → UnionFind.union fuel rep a b = Some rep' → reachable rep'
  | reachable_same fuel rep a b rep' t :
      reachable rep → UnionFind.same fuel rep a b = Some (rep', t) → reachable rep'.

(** X18: in the empty dictionary every chain of parents ends; from a
    dictionary in which every chain ends, each of [find], [union] and
    [same] returns (there is a number of rounds from which on the loop of
    [find] has ended) and leaves a dictionary in which every chain ends;
    so every chain ends in every dictionary that calls of the three
    methods reach, and every call of a method there returns. *)
Theorem union_find_acyclic_kept :
  acyclic (∅ : gmap T T)
  ∧ (∀ rep a, acyclic rep →
       ∃ n rep' r, ∀ fuel, n ≤ fuel →
         UnionFind.find fuel rep a = Some (rep', r) ∧ acyclic rep')
  ∧ (∀ rep a b, acyclic rep →
       ∃ n rep', ∀ fuel, n ≤ fuel →
         UnionFind.union fuel rep a b = Some rep' ∧ acyclic rep')
  ∧ (∀ rep a b, acyclic rep →
       ∃ n rep' t, ∀ fuel, n ≤ fuel →
         UnionFind.same fuel rep a b = Some (rep', t) ∧ acyclic rep')
  ∧ (∀ rep, reachable rep → acyclic rep).
Proof.
  assert (acyclic (∅ : gmap T T)) as Hempty.
  { intros a. exists a. apply root_self. left. apply lookup_empty. }
  split_and!.
  - exact Hempty.
  - intros rep a Hrep. destruct (Hrep a) as [r Hr].
    destruct (find_spec rep a r Hr) as (n & rep' & Hfind & Hiff).
    exists n, rep', r. intros fuel Hfuel. split; [by apply Hfind|].
    by eapply acyclic_roots.
  - intros rep a b Hrep. destruct (Hrep a) as [ra Hra], (Hrep b) as [rb Hrb].
    destruct (union_spec rep a b ra rb Hra Hrb) as (n & rep' & Hunion & Hiff).
    exists n, rep'. intros fuel Hfuel. split; [by apply Hunion|].
    eapply union_keeps; [exact Hrep|]. by apply (Hunion fuel).
  - intros rep a b Hrep. destruct (Hrep a) as [ra Hra], (Hrep b) as [rb Hrb].
    destruct (same_spec rep a b ra rb Hra Hrb) as (n & rep' & Hsame & Hiff).
    exists n, rep', (bool_decide (ra = rb)). intros fuel Hfuel.
    split; [by apply Hsame|]. by eapply acyclic_roots.
  - induction 1 as [|fuel rep a rep' r _ IH Hfind|fuel rep a b rep' _ IH Hunion
                    |fuel rep a b rep' t _ IH Hsame].
    + exact Hempty.
    + by eapply find_keeps.
    + by eapply union_keeps.
    + by eapply same_keeps.
Qed.

End union_find_facts.

Lemma union_find_find_root_witness :
  ∃ n rep',
    (∀ fuel, (n ≤ fuel)%nat →
       UnionFind.find fuel ({[2%nat := 1%nat]} : gmap nat nat) 2%nat = Some (rep', 1%nat))
    ∧ ∀ b s, root rep' b s ↔ root ({[2%nat := 1%nat]} : gmap nat nat) b s.
Proof.
  apply union_find_find_root.
  apply (root_step _ 2%nat 1%nat 1%nat); [reflexivity|lia|].
  apply root_self. left. reflexivity.
Defined.

Lemma union_find_union_merges_witness :
  ∃ n rep',
    (∀ fuel, (n ≤ fuel)%nat →
       UnionFind.union fuel ({[2%nat := 1%nat]} : gmap nat nat) 3%nat 2%nat = Some rep')
    ∧ ∀ c s, root rep' c s
             ↔ ∃ s0, root ({[2%nat := 1%nat]} : gmap nat nat) c s0
                     ∧ s = (if decide (s0 = 1%nat) then 3%nat else s0).
Proof.
  apply union_find_union_merges.
  - apply root_self. left. reflexivity.
  - apply (root_step _ 2%nat 1%nat 1%nat); [reflexivity|lia|].
    apply root_self. left. reflexivity.
Defined.

Lemma union_find_same_decides_witness :
  ∃ n rep',
    (∀ fuel, (n ≤ fuel)%nat →
       UnionFind.same fuel ({[2%nat := 1%nat]} : gmap nat nat) 1%nat 2%nat
       = Some (rep', bool_decide (1%nat = 1%nat)))
    ∧ ∀ c s, root rep' c s ↔ root ({[2%nat := 1%nat]} : gmap nat nat) c s.
Proof.
  apply union_find_same_decides.
  - apply root_self. left. reflexivity.
  - apply (root_step _ 2%nat 1%nat 1%nat); [reflexivity|lia|].
    apply root_self. left. reflexivity.
Defined.

Lemma union_find_union_then_same_witness :
  ∃ n rep1 rep2,
    ∀ fuel, (n ≤ fuel)%nat →
      UnionFind.union fuel (∅ : gmap nat nat) 1%nat 2%nat = Some rep1
      ∧ UnionFind.same fuel rep1 1%nat 2%nat = Some (rep2, true).
Proof.
  apply (union_find_union_then_same ∅ 1%nat 2%nat 1%nat 2%nat);
    apply root_self; left; reflexivity.
Defined.
